(** * Retrosynthesis route builder (askcos MCTS v2): model and properties

    A shallow embedding of
    - [askcos/retrosynthetic/mcts/v2/tree_builder.py] (class [MCTS] and the
      module functions [get_paths], [sort_paths]), and
    - [makeit/prioritization/templates/relevance.py]
      ([RelevanceTemplatePrioritizer.predict]).

    Conventions of the embedding.
    - Python floats (relevance probabilities, plausibility scores, prices,
      estimated values, clock readings) are rationals [Q]; [np.sqrt] and
      [np.log] are parameters.  No statement below depends on rounding.
    - Python ints are [Z].
    - A [networkx.DiGraph] is a finite map of node attributes together with
      the list of its edges in insertion order (networkx keeps adjacency in
      insertion-ordered dicts, so [successors] and [predecessors] enumerate
      in the order in which the edges were first added).
    - A raised exception is [Raise e]; a loop that is cut by the fuel of the
      model is [OutOfFuel]. *)

From Stdlib Require Import QArith ZArith Ascii String List Lia Permutation.
From stdpp Require Import base gmap sets list strings pretty.

Local Open Scope Z_scope.
Set Warnings "-register-all".

(** ** Exceptions and the outcome monad *)

Inductive exn : Type :=
| KeyError (key : string)
| IndexError
| ValueError (msg : string)
| StopIteration
| AssertionError (msg : string).

Inductive outcome (A : Type) : Type :=
| Ok (a : A)
| Raise (e : exn)
| OutOfFuel.
Arguments Ok {A} a.
Arguments Raise {A} e.
Arguments OutOfFuel {A}.

Definition outcome_bind {A B} (f : A -> outcome B) (m : outcome A) : outcome B :=
  match m with
  | Ok a => f a
  | Raise e => Raise e
  | OutOfFuel => OutOfFuel
  end.

#[export] Instance outcome_ret : MRet outcome := fun _ a => Ok a.
#[export] Instance outcome_mbind : MBind outcome := fun _ _ f m => outcome_bind f m.

(** [dict[key]] *)
Definition getitem {A} (key : string) (o : option A) : outcome A :=
  match o with
  | Some a => Ok a
  | None => Raise (KeyError key)
  end.

(** [all(f(x) for x in l)]: stops at the first [False]. *)
Fixpoint all_m {A} (f : A -> outcome bool) (l : list A) : outcome bool :=
  match l with
  | [] => Ok true
  | x :: l' => b ← f x; if b : bool then all_m f l' else Ok false
  end.

(** [any(f(x) for x in l)] over a pure test. *)
Definition any_b {A} (f : A -> bool) (l : list A) : bool := existsb f l.

(** Fold with early exit on an exception. *)
Fixpoint fold_m {A S} (f : S -> A -> outcome S) (s : S) (l : list A) : outcome S :=
  match l with
  | [] => Ok s
  | x :: l' => s' ← f s x; fold_m f s' l'
  end.

Fixpoint map_m {A B} (f : A -> outcome B) (l : list A) : outcome (list B) :=
  match l with
  | [] => Ok []
  | x :: l' => y ← f x; ys ← map_m f l'; Ok (y :: ys)
  end.

(** ** Rationals standing for floats *)

Definition Qltb (a b : Q) : bool := negb (Qle_bool b a).
Definition Qgeb (a b : Q) : bool := Qle_bool b a.
Definition Qsum (l : list Q) : Q := fold_left Qplus l 0%Q.
Definition Qprod (l : list Q) : Q := fold_left Qmult l 1%Q.
Definition Qmax (a b : Q) : Q := if Qltb a b then b else a.
Definition Qtruthy (a : Q) : bool := negb (Qeq_bool a 0).

(** ** Membership tests on Python lists *)

Definition in_strs (x : string) (l : list string) : bool := bool_decide (x ∈ l).
Definition in_ints (x : Z) (l : list Z) : bool := bool_decide (x ∈ l).
Definition len {A} (l : list A) : Z := Z.of_nat (length l).

(** ** Node attributes *)

(** Attributes given to a chemical node by [create_chemical_node], and
    [done], which [is_chemical_done(update=True)] writes. *)
Record ChemData : Type := mkChem {
  as_reactant : Z;
  as_product : Z;
  c_est_value : Q;
  explored : list Z;
  min_depth : option Z;
  purchase_price : option Q;
  c_solved : bool;
  c_templates : list (Z * Q);   (* OrderedDict: template index -> probability *)
  terminal : bool;
  c_visit_count : Z;
  c_done : bool
}.

(** Attributes given to a reaction node by [create_reaction_node]. *)
Record RxnData : Type := mkRxn {
  r_est_value : Q;
  ff_score : Q;
  r_solved : bool;
  template_score : Q;
  r_templates : list Z;
  r_visit_count : Z
}.

(** The [type] attribute is the constructor. *)
Inductive NodeData : Type :=
| Chemical (c : ChemData)
| Reaction (r : RxnData).

Definition is_chemical (d : NodeData) : bool :=
  match d with Chemical _ => true | Reaction _ => false end.

(** Attributes that both kinds of node carry. *)
Definition est_value (d : NodeData) : Q :=
  match d with Chemical c => c_est_value c | Reaction r => r_est_value r end.
Definition solved (d : NodeData) : bool :=
  match d with Chemical c => c_solved c | Reaction r => r_solved r end.
Definition visit_count (d : NodeData) : Z :=
  match d with Chemical c => c_visit_count c | Reaction r => r_visit_count r end.

Definition chem_set_done (b : bool) (c : ChemData) : ChemData :=
  mkChem (as_reactant c) (as_product c) (c_est_value c) (explored c) (min_depth c)
         (purchase_price c) (c_solved c) (c_templates c) (terminal c)
         (c_visit_count c) b.
Definition chem_set_explored (e : list Z) (c : ChemData) : ChemData :=
  mkChem (as_reactant c) (as_product c) (c_est_value c) e (min_depth c)
         (purchase_price c) (c_solved c) (c_templates c) (terminal c)
         (c_visit_count c) (c_done c).
Definition chem_set_min_depth (m : option Z) (c : ChemData) : ChemData :=
  mkChem (as_reactant c) (as_product c) (c_est_value c) (explored c) m
         (purchase_price c) (c_solved c) (c_templates c) (terminal c)
         (c_visit_count c) (c_done c).
Definition chem_set_flags (t d s : bool) (c : ChemData) : ChemData :=
  mkChem (as_reactant c) (as_product c) (c_est_value c) (explored c) (min_depth c)
         (purchase_price c) s (c_templates c) t (c_visit_count c) d.

Definition set_est_value (v : Q) (d : NodeData) : NodeData :=
  match d with
  | Chemical c =>
      Chemical (mkChem (as_reactant c) (as_product c) v (explored c) (min_depth c)
                       (purchase_price c) (c_solved c) (c_templates c) (terminal c)
                       (c_visit_count c) (c_done c))
  | Reaction r =>
      Reaction (mkRxn v (ff_score r) (r_solved r) (template_score r) (r_templates r)
                      (r_visit_count r))
  end.
Definition set_solved (b : bool) (d : NodeData) : NodeData :=
  match d with
  | Chemical c =>
      Chemical (mkChem (as_reactant c) (as_product c) (c_est_value c) (explored c)
                       (min_depth c) (purchase_price c) b (c_templates c) (terminal c)
                       (c_visit_count c) (c_done c))
  | Reaction r =>
      Reaction (mkRxn (r_est_value r) (ff_score r) b (template_score r) (r_templates r)
                      (r_visit_count r))
  end.
Definition set_visit_count (n : Z) (d : NodeData) : NodeData :=
  match d with
  | Chemical c =>
      Chemical (mkChem (as_reactant c) (as_product c) (c_est_value c) (explored c)
                       (min_depth c) (purchase_price c) (c_solved c) (c_templates c)
                       (terminal c) n (c_done c))
  | Reaction r =>
      Reaction (mkRxn (r_est_value r) (ff_score r) (r_solved r) (template_score r)
                      (r_templates r) n)
  end.

(** ** The search graph and the lists kept beside it *)

Record Search : Type := mkSearch {
  nodes : gmap string NodeData;      (* self.tree.nodes *)
  edges : list (string * string);    (* edges of self.tree, in insertion order *)
  chemicals : list string;           (* self.chemicals *)
  reactions : list string            (* self.reactions *)
}.

Definition eqs (a b : string) : bool := bool_decide (a = b).

Definition successors (s : Search) (n : string) : list string :=
  map snd (filter (fun e => fst e = n) (edges s)).
Definition predecessors (s : Search) (n : string) : list string :=
  map fst (filter (fun e => snd e = n) (edges s)).
Definition out_degree (s : Search) (n : string) : Z := len (successors s n).

Definition set_node (n : string) (d : NodeData) (s : Search) : Search :=
  mkSearch (<[n := d]> (nodes s)) (edges s) (chemicals s) (reactions s).

(** [tree.add_edge(u, v)]: adding an edge twice keeps the first one.  Both
    ends exist as nodes at every call in [_process_precursors]. *)
Definition add_edge (u v : string) (s : Search) : Search :=
  if bool_decide ((u, v) ∈ edges s) then s
  else mkSearch (nodes s) (edges s ++ [(u, v)]) (chemicals s) (reactions s).

(** [tree.nodes[n]] read as a chemical: the chemical-only attributes are
    missing from a reaction node. *)
Definition chem_data (s : Search) (n : string) (attr : string) : outcome ChemData :=
  d ← getitem n (nodes s !! n);
  match d with
  | Chemical c => Ok c
  | Reaction _ => Raise (KeyError attr)
  end.

(** ** Options ([set_options]) *)

Record Options : Type := mkOptions {
  template_max_count : Z;
  template_max_cum_prob : Q;
  fast_filter_threshold : Q;
  expansion_time : Q;
  max_iterations : option Z;
  max_chemicals : option Z;
  max_reactions : option Z;
  max_branching : Z;
  max_depth : Z;
  exploration_weight : Q;
  return_first : bool;
  max_trees : option Z;
  banned_chemicals : list string;
  banned_reactions : list string;
  max_ppg : option Q;
  max_scscore : option Q;
  max_elements : option (list (string * Z));
  min_history : option (Z * Z);      (* as_reactant, as_product *)
  termination_logic : list (string * string);
  buyables_source : string
}.

(** [set_options()] without keyword arguments. *)
Definition default_options : Options :=
  mkOptions 100 (995 # 1000) (75 # 100) 30 None None None 25 10 1 false None
            [] [] None None None None [] "all".

(** ** Done state (section 4.4 of the specification) *)

(** [is_chemical_done(smiles)] with [update=False]: the cached flag. *)
Definition is_chemical_done (s : Search) (smiles : string) : outcome bool :=
  c ← chem_data s smiles "done"; Ok (c_done c).

(** [is_reaction_done(smiles)] *)
Definition is_reaction_done (s : Search) (smiles : string) : outcome bool :=
  if 0 <? out_degree s smiles
  then all_m (is_chemical_done s) (successors s smiles)
  else Ok false.

(** [is_chemical_done(smiles, update=True)]: recompute, store, return. *)
Definition is_chemical_done_update (cfg : Options) (s : Search) (smiles : string)
  : outcome (Search * bool) :=
  data ← chem_data s smiles "terminal";
  done ←
    (if terminal data then Ok true
     else if len (c_templates data) =? 0 then Ok true
     else if match min_depth data with
             | Some d => max_depth cfg <=? d
             | None => false
             end then Ok true
     else if (max_branching cfg <=? out_degree s smiles)
             || (len (explored data) =? len (c_templates data))
          then all_m (is_reaction_done s) (successors s smiles)
     else Ok false);
  Ok (set_node smiles (Chemical (chem_set_done done data)) s, done).

(** ** Collaborators

    The template prioritizer, the pricer, the historian, the SCScorer,
    RDKit's atom counts, template application and the fast filter are
    outside the tree builder; so are numpy's [sqrt] and [log].  They are the
    methods of one interface, passed to every function that calls them. *)

Class Collaborators : Type := {
  (* template_prioritizer.predict(smiles, max_num_templates, max_cum_prob)
     -> (probs, indices) *)
  prioritizer_predict : string -> Z -> Q -> outcome (list Q * list Z);
  (* pricer.lookup_smiles(smiles, source=..., alreadyCanonical=True) *)
  pricer_lookup_smiles : string -> string -> option Q;
  (* chemhistorian.lookup_smiles(...) -> (as_reactant, as_product) *)
  historian_lookup_smiles : string -> Z * Z;
  (* scscorer.get_score_from_smiles(smiles, noprice=True) *)
  scscorer_get_score : string -> Q;
  (* atom counts per element symbol, [None] when RDKit cannot parse *)
  element_counts : string -> option (string -> Z);
  (* _get_precursors(chemical, template_idx): the smiles_split of every
     outcome of the template, [[]] when the template does not parse *)
  _get_precursors : string -> Z -> list (list string);
  (* fast_filter(reactant_smiles, target) *)
  fast_filter : string -> string -> Q;
  np_sqrt : Q -> Q;
  np_log : Q -> Q
}.

(** ** Ordered dictionaries from template index to probability *)

Fixpoint od_set (k : Z) (v : Q) (d : list (Z * Q)) : list (Z * Q) :=
  match d with
  | [] => [(k, v)]
  | (k', v') :: d' => if k' =? k then (k, v) :: d' else (k', v') :: od_set k v d'
  end.

(** [OrderedDict(pairs)] *)
Definition ordered_dict (pairs : list (Z * Q)) : list (Z * Q) :=
  fold_left (fun d kv => od_set (fst kv) (snd kv) d) pairs [].

Fixpoint od_get (k : Z) (d : list (Z * Q)) : option Q :=
  match d with
  | [] => None
  | (k', v) :: d' => if k' =? k then Some v else od_get k d'
  end.

Definition od_keys (d : list (Z * Q)) : list Z := map fst d.

(** [dict.get(key, default)] on the termination logic. *)
Fixpoint logic_get (key default : string) (d : list (string * string)) : string :=
  match d with
  | [] => default
  | (k, v) :: d' => if eqs k key then v else logic_get key default d'
  end.

(** ** Terminal criterion ([is_terminal]) *)

(** [results[logic].append(b)] on the two buckets. *)
Definition bucket_append (logic : string) (b : bool) (results : list bool * list bool)
  : outcome (list bool * list bool) :=
  if eqs logic "and" then Ok (fst results ++ [b], snd results)
  else if eqs logic "or" then Ok (fst results, snd results ++ [b])
  else Raise (KeyError logic).

Definition truthy_price (ppg : option Q) : bool :=
  match ppg with Some p => Qtruthy p | None => false end.

Definition is_terminal `{Collaborators} (cfg : Options) (smiles : string)
    (ppg : option Q) (hist : Z * Z) : outcome bool :=
  let results := ([truthy_price ppg], []) in
  results ←
    match max_ppg cfg, ppg with
    | Some cap, Some p =>
        bucket_append (logic_get "max_ppg" "and" (termination_logic cfg))
                      (Qle_bool p cap) results
    | _, _ => Ok results
    end;
  results ←
    match max_scscore cfg with
    | Some cap =>
        bucket_append (logic_get "max_scscore" "or" (termination_logic cfg))
                      (Qle_bool (scscorer_get_score smiles) cap) results
    | None => Ok results
    end;
  results ←
    match max_elements cfg with
    | Some caps =>
        match element_counts smiles with
        | Some elem_dict =>
            bucket_append (logic_get "max_elements" "or" (termination_logic cfg))
                          (forallb (fun kv => elem_dict (fst kv) <=? snd kv) caps)
                          results
        | None => Ok results
        end
    | None => Ok results
    end;
  results ←
    match min_history cfg with
    | Some (min_reactant, min_product) =>
        bucket_append (logic_get "min_history" "or" (termination_logic cfg))
                      ((min_reactant <=? fst hist) || (min_product <=? snd hist))
                      results
    | None => Ok results
    end;
  Ok (forallb id (fst results) || existsb id (snd results)).

(** ** Node creation *)

Definition create_chemical_node `{Collaborators} (cfg : Options) (s : Search)
    (smiles : string) : outcome Search :=
  '(probs, indices) ←
     prioritizer_predict smiles (template_max_count cfg) (template_max_cum_prob cfg);
  let templates := ordered_dict (combine indices probs) in
  let price := pricer_lookup_smiles smiles (buyables_source cfg) in
  let hist := historian_lookup_smiles smiles in
  term ← is_terminal cfg smiles price hist;
  let value := if term : bool then 1%Q else 0%Q in
  let data := mkChem (fst hist) (snd hist) value [] None price term templates term 1
                     false in
  let s1 := mkSearch (<[smiles := Chemical data]> (nodes s)) (edges s)
                     (chemicals s ++ [smiles]) (reactions s) in
  '(s2, _) ← is_chemical_done_update cfg s1 smiles;
  Ok s2.

Definition create_reaction_node (s : Search) (smiles : string) (template : Z)
    (tscore : Q) (ff : Q) : Search :=
  mkSearch (<[smiles := Reaction (mkRxn 0 ff false tscore [template] 1)]> (nodes s))
           (edges s) (chemicals s) (reactions s ++ [smiles]).

(** ** Value update ([_update_value]) *)

Definition node_attr (s : Search) (n : string) : outcome NodeData :=
  getitem n (nodes s !! n).

(** [next(tree.predecessors(n))] *)
Definition first_predecessor (s : Search) (n : string) : outcome string :=
  match predecessors s n with
  | p :: _ => Ok p
  | [] => Raise StopIteration
  end.

Definition _update_value (s : Search) (smiles : string) : outcome Search :=
  rxn_data ← node_attr s smiles;
  match rxn_data with
  | Chemical _ => Ok s
  | Reaction _ =>
      values ← map_m (fun c => d ← node_attr s c; Ok (est_value d)) (successors s smiles);
      let value := Qsum values in
      let s := set_node smiles (set_est_value (est_value rxn_data + value)%Q rxn_data) s in
      parent ← first_predecessor s smiles;
      chem ← node_attr s parent;
      let s := set_node parent (set_est_value (est_value chem + value)%Q chem) s in
      rxn_data ← node_attr s smiles;
      is_solved ←
        (if solved rxn_data then Ok true
         else all_m (fun c => d ← node_attr s c; Ok (solved d)) (successors s smiles));
      chem ← node_attr s parent;
      let s := set_node parent (set_solved is_solved chem) s in
      rxn_data ← node_attr s smiles;
      Ok (set_node smiles (set_solved is_solved rxn_data) s)
  end.

(** ** Backpropagation ([_update]) *)

(** [itertools.zip_longest(a, b)] *)
Fixpoint zip_longest {A B} (a : list A) (b : list B) : list (option A * option B) :=
  match a with
  | [] => map (fun y => (None, Some y)) b
  | x :: a' =>
      match b with
      | [] => (Some x, None) :: zip_longest a' []
      | y :: b' => (Some x, Some y) :: zip_longest a' b'
      end
  end.

(** [range(n - 1, -1, -1)] *)
Fixpoint range_down (n : nat) : list Z :=
  match n with
  | O => []
  | S k => Z.of_nat k :: range_down k
  end.

Definition min_depth_update (old : option Z) (i : Z) : option Z :=
  match old with
  | Some d => Some (Z.min d i)
  | None => Some i
  end.

(** One turn of the loop of [_update].  The first two zipped sequences have
    the same length, so they are paired. *)
Definition update_step (cfg : Options) (s : Search)
    (item : option (Z * string) * option string) : outcome Search :=
  match fst item with
  | None => Raise (KeyError "None")
  | Some (i, chem) =>
      d ← node_attr s chem;
      let s := set_node chem (set_visit_count (visit_count d + 1) d) s in
      c ← chem_data s chem "min_depth";
      let s := set_node chem (Chemical (chem_set_min_depth (min_depth_update (min_depth c) i) c)) s in
      '(s, _) ← is_chemical_done_update cfg s chem;
      match snd item with
      | None => Ok s
      | Some rxn =>
          r ← node_attr s rxn;
          let s := set_node rxn (set_visit_count (visit_count r + 1) r) s in
          _update_value s rxn
      end
  end.

Definition _update (cfg : Options) (target : string) (s : Search)
    (chem_path rxn_path : list string) : outcome Search :=
  match chem_path with
  | [] => Raise IndexError
  | root :: _ =>
      if eqs root target
      then fold_m (update_step cfg) s
                  (zip_longest (combine (range_down (length chem_path)) (rev chem_path))
                               (rev rxn_path))
      else Raise (AssertionError "Chemical path should start at the root node.")
  end.

(** ** Stable sorting ([list.sort] and [sorted]) *)

(** [before y x] says that [y] has to stand strictly before [x]; elements
    that are not ordered by [before] keep their original order. *)
Fixpoint insert_by {A} (before : A -> A -> bool) (x : A) (l : list A) : list A :=
  match l with
  | [] => [x]
  | y :: l' => if before y x then y :: insert_by before x l' else x :: y :: l'
  end.

Definition sorted_by {A} (before : A -> A -> bool) (l : list A) : list A :=
  foldr (insert_by before) [] l.

(** ** Upper confidence bound ([ucb]) *)

(** An option of [ucb]: a reaction to follow (a [str]) or the index of a
    template to apply. *)
Inductive Task : Type :=
| FollowReaction (rxn : string)
| ApplyTemplate (template : Z).

(** [node['templates']] iterated as a sequence of template indices. *)
Definition templates_of (d : NodeData) : list Z :=
  match d with
  | Chemical c => od_keys (c_templates c)
  | Reaction r => r_templates r
  end.

Definition lookup_template (t : Z) (templates : list (Z * Q)) : outcome Q :=
  getitem (pretty t) (od_get t templates).

Definition ucb_reaction `{Collaborators} (s : Search) (templates : list (Z * Q))
    (product_visits : Z) (path : list string) (invalid_options : gset string)
    (weight : Q) (options : list (Q * Task)) (rxn : string)
  : outcome (list (Q * Task)) :=
  rxn_data ← node_attr s rxn;
  finished ← is_reaction_done s rxn;
  if finished
     || existsb (fun c => in_strs c path) (successors s rxn)
     || bool_decide (rxn ∈ invalid_options)
  then Ok options
  else
    let value := est_value rxn_data in
    let node_visits := inject_Z (visit_count rxn_data) in
    probs ← map_m (fun t => lookup_template t templates) (templates_of rxn_data);
    let template_probability := Qsum probs in
    let q_sa := (template_probability * value / node_visits)%Q in
    let u_sa := np_sqrt (np_log (inject_Z product_visits) / node_visits)%Q in
    Ok (options ++ [((q_sa + weight * u_sa)%Q, FollowReaction rxn)]).

(** The first template of [templates] that is not in [explored]. *)
Definition first_unexplored (templates : list (Z * Q)) (explored : list Z)
  : option (Z * Q) :=
  head (filter (fun kv => fst kv ∉ explored) templates).

Definition ucb `{Collaborators} (cfg : Options) (target : string) (s : Search)
    (node : string) (path : list string) (invalid_options : gset string)
    (weight : Q) : outcome (list (Q * Task)) :=
  data ← chem_data s node "explored";
  let templates := c_templates data in
  let product_visits := c_visit_count data in
  options ← fold_m (ucb_reaction s templates product_visits path invalid_options weight)
                   [] (successors s node);
  let options :=
    if (out_degree s node <? max_branching cfg) || eqs node target
    then match first_unexplored templates (explored data) with
         | Some (template_index, q_sa) =>
             let u_sa := np_sqrt (np_log (inject_Z product_visits)) in
             options ++ [((q_sa + weight * u_sa)%Q, ApplyTemplate template_index)]
         | None => options
         end
    else options in
  Ok (sorted_by (fun y x => Qltb (fst x) (fst y)) options).

(** ** Selection ([_select]) *)

(** [min(candidates, key=visit_count, default=None)]: the first candidate
    with the least key. *)
Fixpoint min_by_key {A} (key : A -> Z) (l : list A) : option A :=
  match l with
  | [] => None
  | x :: l' =>
      match min_by_key key l' with
      | Some y => if key y <? key x then Some y else Some x
      | None => Some x
      end
  end.

Fixpoint filter_m {A} (f : A -> outcome bool) (l : list A) : outcome (list A) :=
  match l with
  | [] => Ok []
  | x :: l' => b ← f x; r ← filter_m f l'; Ok (if b : bool then x :: r else r)
  end.

(** Children of the reaction [task] that may be descended to. *)
Definition open_precursors (s : Search) (invalid_options : gset string) (task : string)
  : outcome (list (string * Z)) :=
  cands ← filter_m (fun c => d ← is_chemical_done s c;
                              Ok (negb d && bool_decide (c ∉ invalid_options)))
                   (successors s task);
  map_m (fun c => d ← node_attr s c; Ok (c, visit_count d)) cands.

Definition choose_precursor (s : Search) (invalid_options : gset string) (task : string)
  : outcome (option string) :=
  cands ← open_precursors s invalid_options task;
  Ok (fst <$> min_by_key snd cands).

(** What one turn of the [while] loop of [_select] leaves behind. *)
Inductive SelectStep : Type :=
| Continue (chem_path rxn_path : list string) (invalid_options : gset string)
| Selected (chem_path rxn_path : list string) (template : Z).

Definition select_step `{Collaborators} (cfg : Options) (target : string) (s : Search)
    (chem_path rxn_path : list string) (invalid_options : gset string)
  : outcome SelectStep :=
  match last chem_path with
  | None => Raise IndexError
  | Some leaf =>
      options ← ucb cfg target s leaf chem_path invalid_options (exploration_weight cfg);
      match options with
      | [] =>
          match rxn_path with
          | [] => Raise IndexError
          | _ => Ok (Continue (removelast chem_path) (removelast rxn_path)
                              ({[leaf]} ∪ invalid_options))
          end
      | (_, FollowReaction task) :: _ =>
          precursor ← choose_precursor s invalid_options task;
          match precursor with
          | None => Ok (Continue chem_path rxn_path ({[task]} ∪ invalid_options))
          | Some c => Ok (Continue (chem_path ++ [c]) (rxn_path ++ [task]) invalid_options)
          end
      | (_, ApplyTemplate template) :: _ => Ok (Selected chem_path rxn_path template)
      end
  end.

Fixpoint select_loop `{Collaborators} (fuel : nat) (cfg : Options) (target : string)
    (s : Search) (chem_path rxn_path : list string) (invalid_options : gset string)
  : outcome (list string * list string * Z) :=
  match fuel with
  | O => OutOfFuel
  | S fuel' =>
      r ← select_step cfg target s chem_path rxn_path invalid_options;
      match r with
      | Continue cp rp inv => select_loop fuel' cfg target s cp rp inv
      | Selected cp rp template => Ok (cp, rp, template)
      end
  end.

Definition _select `{Collaborators} (fuel : nat) (cfg : Options) (target : string)
    (s : Search) : outcome (list string * list string * Z) :=
  select_loop fuel cfg target s [target] [] ∅.

(** ** Expansion ([_expand], [_process_precursors]) *)

(** One round of reachability: the nodes reached so far and their
    successors. *)
Definition reach_step (E : list (string * string)) (R : gset string) : gset string :=
  R ∪ list_to_set (map snd (filter (fun e => fst e ∈ R) E)).

(** [nx.has_path(tree, source, target)].  Both are nodes of the tree at the
    call in [_process_precursors]; a path without repeated nodes has at most
    as many edges as the graph. *)
Definition has_path (s : Search) (source target : string) : bool :=
  bool_decide (target ∈ Nat.iter (length (edges s)) (reach_step (edges s)) {[source]}).

(** The [for reactant in reactant_list: ... else:] loop; [false] is the
    [break] on a precursor that would close a cycle. *)
Fixpoint scan_reactants `{Collaborators} (cfg : Options) (s : Search) (target : string)
    (path : list string) (reactant_list : list string) : outcome (Search * bool) :=
  match reactant_list with
  | [] => Ok (s, true)
  | reactant :: rest =>
      if in_strs reactant (chemicals s)
      then if in_strs reactant path || has_path s reactant target
           then Ok (s, false)
           else scan_reactants cfg s target path rest
      else s' ← create_chemical_node cfg s reactant;
           scan_reactants cfg s' target path rest
  end.

Definition reaction_string (reactant_list : list string) (target : string) : string :=
  String.concat "." reactant_list +:+ ">>" +:+ target.

(** The reaction part of the [else] branch: merge into an existing reaction
    node or create one. *)
Definition register_reaction (s : Search) (reaction_smiles : string) (template : Z)
    (tscore ff : Q) : outcome Search :=
  if in_strs reaction_smiles (reactions s)
  then
    d ← node_attr s reaction_smiles;
    match d with
    | Reaction r =>
        Ok (set_node reaction_smiles
              (Reaction (mkRxn (r_est_value r) (ff_score r) (r_solved r)
                               (Qmax (template_score r) tscore)
                               (r_templates r ++ [template]) (r_visit_count r))) s)
    | Chemical _ => Raise (KeyError "template_score")
    end
  else Ok (create_reaction_node s reaction_smiles template tscore ff).

(** The body of the loop of [_process_precursors] for one candidate set. *)
Definition process_candidate `{Collaborators} (cfg : Options) (target : string)
    (template : Z) (path : list string) (s : Search) (reactant_list : list string)
  : outcome Search :=
  let reactant_smiles := String.concat "." reactant_list in
  let reaction_smiles := reaction_string reactant_list target in
  let ff := fast_filter reactant_smiles target in
  if Qltb ff (fast_filter_threshold cfg) then Ok s
  else if in_strs reaction_smiles (banned_reactions cfg) then Ok s
  else if existsb (fun r => in_strs r (banned_chemicals cfg)) reactant_list then Ok s
  else
    '(s, complete) ← scan_reactants cfg s target path reactant_list;
    if complete : bool then
      tdata ← chem_data s target "templates";
      tscore ← lookup_template template (c_templates tdata);
      s ← register_reaction s reaction_smiles template tscore ff;
      let s := add_edge target reaction_smiles s in
      let s := fold_left (fun g reactant => add_edge reaction_smiles reactant g)
                         reactant_list s in
      _update_value s reaction_smiles
    else Ok s.

Definition _process_precursors `{Collaborators} (cfg : Options) (s : Search)
    (target : string) (template : Z) (precursors : list (list string))
    (path : list string) : outcome Search :=
  fold_m (process_candidate cfg target template path) s precursors.

Definition _expand `{Collaborators} (cfg : Options) (s : Search)
    (chem_path : list string) (template : Z) : outcome Search :=
  match last chem_path with
  | None => Raise IndexError
  | Some leaf =>
      data ← chem_data s leaf "explored";
      if in_ints template (explored data) then Ok s
      else
        let s := set_node leaf
                   (Chemical (chem_set_explored (explored data ++ [template]) data)) s in
        _process_precursors cfg s leaf template (_get_precursors leaf template) chem_path
  end.

(** ** One iteration ([_rollout]) *)

Definition _rollout `{Collaborators} (fuel : nat) (cfg : Options) (target : string)
    (s : Search) : outcome Search :=
  '(chem_path, rxn_path, template) ← _select fuel cfg target s;
  s ← _expand cfg s chem_path template;
  _update cfg target s chem_path rxn_path.

(** ** The tree builder object ([MCTS]) *)

Record MCTS : Type := mkMCTS {
  search : Search;            (* self.tree, self.chemicals, self.reactions *)
  target : option string;     (* self.target, None before _initialize *)
  iterations : Z;
  time_to_solve : Q;
  options : Options
}.

Definition with_search (s : Search) (m : MCTS) : MCTS :=
  mkMCTS s (target m) (iterations m) (time_to_solve m) (options m).

Definition empty_search : Search := mkSearch ∅ [] [] [].

(** [MCTS(...)] after [__init__] with the given options. *)
Definition new_mcts (cfg : Options) : MCTS := mkMCTS empty_search None 0 0 cfg.

Definition the_target (m : MCTS) : outcome string := getitem "None" (target m).

Definition reaches (limit : option Z) (n : Z) : bool :=
  match limit with
  | Some k => k <=? n
  | None => false
  end.

(** The [done] property. *)
Definition done (m : MCTS) : outcome bool :=
  t ← the_target m;
  d ← is_chemical_done (search m) t;
  Ok (d
      || reaches (max_iterations (options m)) (iterations m)
      || reaches (max_chemicals (options m)) (len (chemicals (search m)))
      || reaches (max_reactions (options m)) (len (reactions (search m)))).

(** [clear()] *)
Definition clear (m : MCTS) : MCTS := with_search empty_search m.

(** [_initialize(target)] *)
Definition _initialize `{Collaborators} (m : MCTS) (tgt : string) : outcome MCTS :=
  s ← create_chemical_node (options m) (search m) tgt;
  c ← chem_data s tgt "terminal";
  let s := set_node tgt (Chemical (chem_set_flags false false false c)) s in
  Ok (mkMCTS s (Some tgt) (iterations m) (time_to_solve m) (options m)).

(** The [while] loop of [build_tree].  [ticks] are the readings that the
    following calls of [time.time()] return; the loop is cut when they run
    out. *)
Fixpoint expansion_loop `{Collaborators} (fuel : nat) (ticks : list Q)
    (start_time elapsed_time : Q) (m : MCTS) : outcome MCTS :=
  if Qltb elapsed_time (expansion_time (options m)) then
    d ← done m;
    if d : bool then Ok m
    else
      match ticks with
      | [] => OutOfFuel
      | now :: ticks' =>
          t ← the_target m;
          s ← _rollout fuel (options m) t (search m);
          let elapsed_time := (now - start_time)%Q in
          let m := mkMCTS s (target m) (iterations m + 1) (time_to_solve m) (options m) in
          if Qtruthy (time_to_solve m)
          then expansion_loop fuel ticks' start_time elapsed_time m
          else
            root ← node_attr (search m) t;
            if solved root
            then
              let m := mkMCTS (search m) (target m) (iterations m) elapsed_time
                              (options m) in
              if return_first (options m) then Ok m
              else expansion_loop fuel ticks' start_time elapsed_time m
            else expansion_loop fuel ticks' start_time elapsed_time m
      end
  else Ok m.

(** [build_tree]; [cfg] is what [set_options] on the keyword arguments
    leaves in the option attributes. *)
Definition build_tree `{Collaborators} (fuel : nat) (ticks : list Q) (m : MCTS)
    (tgt : string) (cfg : Options) : outcome MCTS :=
  let m := mkMCTS (search m) (target m) (iterations m) (time_to_solve m) cfg in
  m ← _initialize m tgt;
  match ticks with
  | start_time :: now :: ticks' =>
      expansion_loop fuel ticks' start_time (now - start_time)%Q m
  | _ => OutOfFuel
  end.

(** ** Path enumeration ([get_paths])

    Every graph that [get_paths] yields is a tree: a chemical node carries
    at most one reaction below it and a reaction node carries one subtree
    per precursor.  The yielded [nx.DiGraph] is therefore kept as that tree;
    the fresh identifiers of its nodes are not kept, the [smiles] attribute
    and the copied node attributes are. *)

Inductive PathTree : Type :=
| PathNode (smiles : string) (data : NodeData) (children : list PathTree).

(** [itertools.product] of a sequence of lists *)
Fixpoint product {A} (lists : list (list A)) : list (list A) :=
  match lists with
  | [] => [[]]
  | l :: lists' => flat_map (fun x => map (cons x) (product lists')) l
  end.

(** [get_rxn_paths], given the paths function for its children.
    [nx.union_all] does not accept an empty sequence of graphs. *)
Definition get_rxn_paths_with (chem_paths : string -> Z -> outcome (list PathTree))
    (s : Search) (node : string) (depth : Z) : outcome (list PathTree) :=
  subs ← map_m (fun c => chem_paths c depth) (successors s node);
  match successors s node with
  | [] => Raise (ValueError "cannot apply union_all to an empty list")
  | _ =>
      data ← node_attr s node;
      Ok (map (fun path_combo => PathNode node data path_combo) (product subs))
  end.

Fixpoint get_chem_paths (fuel : nat) (s : Search) (depth_cap : option Z)
    (node : string) (depth : Z) : outcome (list PathTree) :=
  match fuel with
  | O => OutOfFuel
  | S fuel' =>
      data ← node_attr s node;
      if (out_degree s node =? 0) || reaches depth_cap depth
      then Ok [PathNode node data []]
      else
        subs ← map_m (fun rxn =>
                        ps ← get_rxn_paths_with (get_chem_paths fuel' s depth_cap)
                                                s rxn (depth + 1);
                        Ok (map (fun sub_path => PathNode node data [sub_path]) ps))
                     (successors s node);
        Ok (concat subs)
  end.

Definition get_rxn_paths (fuel : nat) (s : Search) (depth_cap : option Z)
    (node : string) (depth : Z) : outcome (list PathTree) :=
  get_rxn_paths_with (get_chem_paths fuel s depth_cap) s node depth.

(** Attributes of the nodes of out-degree zero. *)
Fixpoint leaves (p : PathTree) : list NodeData :=
  match p with
  | PathNode _ d [] => [d]
  | PathNode _ _ cs => flat_map leaves cs
  end.

(** [_validate_path] of [enumerate_paths]. *)
Definition _validate_path (p : PathTree) : outcome bool :=
  all_m (fun d => match d with
                  | Chemical c => Ok (terminal c)
                  | Reaction _ => Raise (KeyError "terminal")
                  end) (leaves p).

(** The loop of [get_paths] over the generated paths. *)
Fixpoint take_paths (cap : option Z) (validation_fn : option (PathTree -> outcome bool))
    (num_paths : Z) (paths : list PathTree) : outcome (list PathTree) :=
  match paths with
  | [] => Ok []
  | p :: rest =>
      if reaches cap num_paths then Ok []
      else
        accepted ← match validation_fn with
                   | None => Ok true
                   | Some v => v p
                   end;
        if accepted : bool
        then r ← take_paths cap validation_fn (num_paths + 1) rest; Ok (p :: r)
        else take_paths cap validation_fn num_paths rest
  end.

Definition get_paths (fuel : nat) (s : Search) (root : string) (depth_cap : option Z)
    (cap : option Z) (validation_fn : option (PathTree -> outcome bool))
  : outcome (list PathTree) :=
  paths ← get_chem_paths fuel s depth_cap root 0;
  take_paths cap validation_fn 0 paths.

(** ** Ranking ([sort_paths]) *)

(** All nodes of a path, the root first. *)
Fixpoint path_nodes (p : PathTree) : list NodeData :=
  match p with
  | PathNode _ d cs => d :: flat_map path_nodes cs
  end.

Definition reaction_scores (p : PathTree) : list Q :=
  flat_map (fun d => match d with Reaction r => [ff_score r] | Chemical _ => [] end)
           (path_nodes p).

Definition overall_plausibility (p : PathTree) : Q := Qprod (reaction_scores p).

Definition number_of_starting_materials (p : PathTree) : Z := len (leaves p).

(** The nodes along a longest branch ([nx.dag_longest_path] on a tree). *)
Fixpoint longest_branch (p : PathTree) : list NodeData :=
  match p with
  | PathNode _ d cs =>
      d :: fold_left (fun best c => if (length best <? length c)%nat then c else best)
                     (map longest_branch cs) []
  end.

Definition number_of_reactions (p : PathTree) : Z :=
  len (filter (fun d => is_chemical d = false) (longest_branch p)).

(** [sort_paths(paths, metric)].  In [enumerate_paths] the argument is the
    generator that [get_paths] returns: nothing of it has run when
    [sort_paths] is entered, and only [sorted] consumes it.  The argument is
    therefore the outcome of running the generator to its end, and it is
    looked at in the three sorting branches only. *)
Definition sort_paths (paths : outcome (list PathTree)) (metric : string)
  : outcome (list PathTree) :=
  if eqs metric "plausibility"
  then paths ← paths;
       Ok (sorted_by (fun y x => Qltb (overall_plausibility x) (overall_plausibility y))
                     paths)
  else if eqs metric "number_of_starting_materials"
  then paths ← paths;
       Ok (sorted_by (fun y x => number_of_starting_materials y
                                 <? number_of_starting_materials x) paths)
  else if eqs metric "number_of_reactions"
  then paths ← paths;
       Ok (sorted_by (fun y x => number_of_reactions y <? number_of_reactions x) paths)
  else Raise (ValueError ("Need something to sort by! Invalid option provided: "
                          +:+ metric)).

(** ** Path extraction ([enumerate_paths]) *)

(** [a or b] on an optional integer: [None] and [0] are falsy. *)
Definition py_or (a b : option Z) : option Z :=
  match a with
  | Some z => if z =? 0 then b else Some z
  | None => b
  end.

(** The returned paths.  [JsonPaths convert l] stands for the list of
    [nx.tree_data(path, target)] of the trees of [l], each passed through
    [translate_json] when [convert]; these nested dictionaries have the
    nodes of the trees and are not built here. *)
Inductive PathsOut : Type :=
| GraphPaths (paths : list PathTree)
| JsonPaths (convert_json : bool) (paths : list PathTree).

Definition out_paths (o : PathsOut) : list PathTree :=
  match o with
  | GraphPaths l => l
  | JsonPaths _ l => l
  end.

(** [enumerate_paths].  [retrieve_template_data] only adds the attributes
    [tforms], [num_examples] and [necessary_reagent] of the external
    template store to the reaction nodes; the model has no such
    attributes. *)
Definition enumerate_paths (fuel : nat) (m : MCTS) (path_format sorting_metric : string)
    (validate_paths convert_json : bool) (depth_cap cap : option Z) : outcome PathsOut :=
  let paths :=
    t ← the_target m;
    get_paths fuel (search m) t
              (py_or depth_cap (Some (max_depth (options m))))
              (py_or cap (max_trees (options m)))
              (if validate_paths then Some _validate_path else None) in
  paths ← sort_paths paths sorting_metric;
  if eqs path_format "graph" then Ok (GraphPaths paths)
  else if eqs path_format "json" then
    match paths with
    | [] => Raise IndexError
    | _ => Ok (JsonPaths convert_json paths)
    end
  else Raise (ValueError ("Unrecognized format type " +:+ path_format)).

(** ** Template relevance ([RelevanceTemplatePrioritizer.predict])

    The fingerprint and the neural network are outside the model:
    [model_scores] is the flattened output of [self.model.predict] on the
    fingerprint of the molecule, and [softmax] is scipy's. *)

Module Relevance.

Class Model : Type := {
  model_scores : string -> list Q;
  softmax : list Q -> list Q
}.

(** [enumerate(l)] *)
Definition enumerate {A} (l : list A) : list (Z * A) :=
  combine (map Z.of_nat (seq 0 (length l))) l.

(** [np.argsort(-scores)]: the indices by decreasing score.  Equal scores
    keep the order of their indices here; numpy's default sort leaves it
    open. *)
Definition argsort_desc (scores : list Q) : list Z :=
  map fst (sorted_by (fun y x => Qltb (snd x) (snd y)) (enumerate scores)).

(** [l[:n]] *)
Definition slice_to {A} (n : Z) (l : list A) : list A :=
  if 0 <=? n then firstn (Z.to_nat n) l
  else firstn (length l - Z.to_nat (- n))%nat l.

(** [scores[indices]] *)
Definition take_at (scores : list Q) (indices : list Z) : list Q :=
  map (fun i => nth (Z.to_nat i) scores 0%Q) indices.

(** [np.cumsum] *)
Fixpoint cumsum_from (acc : Q) (l : list Q) : list Q :=
  match l with
  | [] => []
  | x :: l' => (acc + x)%Q :: cumsum_from (acc + x)%Q l'
  end.
Definition cumsum (l : list Q) : list Q := cumsum_from 0 l.

(** Index of the first [True], 0 when there is none. *)
Fixpoint first_true (l : list bool) : option nat :=
  match l with
  | [] => None
  | b :: l' => if b then Some O else S <$> first_true l'
  end.

(** [np.argmax] of a boolean array. *)
Definition argmax (l : list bool) : outcome nat :=
  match l with
  | [] => Raise (ValueError "attempt to get argmax of an empty sequence")
  | _ => Ok (default O (first_true l))
  end.

Definition predict `{Model} (smiles : string) (max_num_templates : Z)
    (max_cum_prob : Q) : outcome (list Q * list Z) :=
  let scores := model_scores smiles in
  let indices := slice_to max_num_templates (argsort_desc scores) in
  let scores := softmax (take_at scores indices) in
  truncate ← argmax (map (fun c => Qltb max_cum_prob c) (cumsum scores));
  Ok (firstn truncate scores, firstn truncate indices).

(** The list described by the documentation of [predict]: ``Scores and
    indices will be returned up until max_cum_prob is exceeded'', the
    longest prefix of the ranked templates whose cumulative probability
    does not exceed the bound. *)
Fixpoint documented_prefix_from (acc : Q) (max_cum_prob : Q) (l : list (Q * Z))
  : list (Q * Z) :=
  match l with
  | [] => []
  | (p, i) :: l' =>
      if Qltb max_cum_prob (acc + p)%Q then []
      else (p, i) :: documented_prefix_from (acc + p)%Q max_cum_prob l'
  end.

Definition documented_predict `{Model} (smiles : string) (max_num_templates : Z)
    (max_cum_prob : Q) : list Q * list Z :=
  let scores := model_scores smiles in
  let indices := slice_to max_num_templates (argsort_desc scores) in
  let scores := softmax (take_at scores indices) in
  let kept := documented_prefix_from 0 max_cum_prob (combine scores indices) in
  (map fst kept, map snd kept).

End Relevance.

(** ** Statements of the specification that are compared with the code *)

(** Selection as the specification words it: the precursor of [task] with
    the lowest visit count among those that are not done and not on the
    current chemical path. *)
Definition lowest_open_off_path (s : Search) (chem_path : list string) (task : string)
  : outcome (option string) :=
  cands ← filter_m (fun c => d ← is_chemical_done s c;
                              Ok (negb d && negb (in_strs c chem_path)))
                   (successors s task);
  keyed ← map_m (fun c => d ← node_attr s c; Ok (c, visit_count d)) cands;
  Ok (fst <$> min_by_key snd keyed).

(** The shape of a reaction node: one parent, a chemical, and at least one
    child, all of them chemicals. *)
Definition chemical_node (s : Search) (n : string) : Prop :=
  exists c, nodes s !! n = Some (Chemical c).

Definition reaction_shape (s : Search) : Prop :=
  forall r, r ∈ reactions s ->
    (exists p, predecessors s r = [p] /\ chemical_node s p)
    /\ successors s r <> []
    /\ (forall c, c ∈ successors s r -> chemical_node s c).

(** All leaves of a path carry [terminal = True]. *)
Definition leaves_terminal (p : PathTree) : Prop :=
  forall d, d ∈ leaves p -> exists c, d = Chemical c /\ terminal c = true.

(** A sequence of scores that never increases. *)
Fixpoint non_increasing (l : list Q) : Prop :=
  match l with
  | [] => True
  | x :: l' => (forall y, y ∈ l' -> (y <= x)%Q) /\ non_increasing l'
  end.

(** What qualifies a reaction as an option of [ucb]. *)
Definition offered (s : Search) (node : string) (path : list string)
    (invalid : gset string) (rxn : string) : Prop :=
  rxn ∈ successors s node
  /\ (forall c, c ∈ successors s rxn -> c ∉ path)
  /\ (rxn ∉ invalid)
  /\ is_reaction_done s rxn = Ok false.

(** The sorting metrics and output formats that the code recognizes. *)
Definition known_metric (metric : string) : bool :=
  eqs metric "plausibility" || eqs metric "number_of_starting_materials"
  || eqs metric "number_of_reactions".

Definition known_format (path_format : string) : bool :=
  eqs path_format "graph" || eqs path_format "json".

(** The generator that [enumerate_paths] hands to [sort_paths], run to its
    end. *)
Definition generated_paths (fuel : nat) (m : MCTS) (validate_paths : bool)
    (depth_cap cap : option Z) : outcome (list PathTree) :=
  t ← the_target m;
  get_paths fuel (search m) t
            (py_or depth_cap (Some (max_depth (options m))))
            (py_or cap (max_trees (options m)))
            (if validate_paths then Some _validate_path else None).

(** Number of nodes of a path. *)
Definition path_size (p : PathTree) : nat := length (path_nodes p).

(** SMILES of molecules do not contain the reaction arrow. *)
Fixpoint has_gt (x : string) : bool :=
  match x with
  | EmptyString => false
  | String c x' => bool_decide (c = ">"%char) || has_gt x'
  end.

(** The part of a string after its last [>], the string itself when it
    has none. *)
Fixpoint after_last_gt (x : string) : string :=
  match x with
  | EmptyString => EmptyString
  | String c x' =>
      if has_gt x' then after_last_gt x'
      else if bool_decide (c = ">"%char) then x' else String c x'
  end.

(** ** Well-formed searches

    The invariant behind the shape of reaction nodes: chemicals are nodes
    of chemical type named without [>], reactions are nodes of reaction
    type, every edge runs from a chemical to a reaction whose string ends in
    [>>] and that chemical, or from a reaction to a chemical, and no edge
    is listed twice. *)
Record wf_core (s : Search) : Prop := {
  wf_chem : forall c, c ∈ chemicals s -> has_gt c = false /\ chemical_node s c;
  wf_rxn : forall r, r ∈ reactions s ->
             has_gt r = true /\ exists d, nodes s !! r = Some (Reaction d);
  wf_edge : forall u v, (u, v) ∈ edges s ->
              (u ∈ chemicals s /\ v ∈ reactions s
               /\ exists pre, v = pre +:+ ">>" +:+ u)
              \/ (u ∈ reactions s /\ v ∈ chemicals s);
  wf_nodup : NoDup (edges s)
}.

Definition rxn_linked (s : Search) (r : string) : Prop :=
  (exists p, (p, r) ∈ edges s) /\ (exists c, (r, c) ∈ edges s).

Definition wf_search (s : Search) : Prop :=
  wf_core s /\ forall r, r ∈ reactions s -> rxn_linked s r.

(** Two searches with the same edges, lists and node types. *)
Definition same_shape (s s' : Search) : Prop :=
  edges s' = edges s /\ chemicals s' = chemicals s /\ reactions s' = reactions s
  /\ forall n, is_chemical <$> nodes s' !! n = is_chemical <$> nodes s !! n.

(** A walk of [k] edges in a list of edges. *)
Inductive walk (E : list (string * string)) : nat -> string -> string -> Prop :=
| walk_here (a : string) : walk E 0 a a
| walk_step (k : nat) (a b c : string) :
    walk E k a b -> (b, c) ∈ E -> walk E (S k) a c.

(** The nodes reached from [a] within [n] rounds. *)
Definition reached (E : list (string * string)) (a : string) (n : nat) : gset string :=
  Nat.iter n (reach_step E) {[a]}.

(** A set of nodes that no edge leaves. *)
Definition closed (E : list (string * string)) (R : gset string) : Prop :=
  forall b c, b ∈ R -> (b, c) ∈ E -> c ∈ R.

(** The explored templates of a chemical are distinct and drawn from the
    distinct templates offered to it. *)
Definition chem_ok (c : ChemData) : Prop :=
  NoDup (explored c) /\ NoDup (od_keys (c_templates c))
  /\ forall t, t ∈ explored c -> t ∈ od_keys (c_templates c).

Definition node_ok (d : NodeData) : Prop :=
  match d with
  | Chemical c => chem_ok c
  | Reaction _ => True
  end.

Definition data_ok (s : Search) : Prop :=
  forall n d, nodes s !! n = Some d -> node_ok d.

(** What the tree builder relies on from template application: every
    precursor set has at least one member, and the members are SMILES of
    molecules. *)
Definition precursors_well_formed `{Collaborators} : Prop :=
  forall smiles template l,
    l ∈ _get_precursors smiles template ->
    l <> [] /\ forall r, r ∈ l -> has_gt r = false.

(** ** Fixtures: stub collaborators and small searches *)

Module Fixtures.

(** A stub world of six molecules.  Nothing can be bought; template 1
    splits T into X and Y, templates 2 and 3 make T and X from B,
    template 4 makes Y from Z, template 6 makes Z from W, template 5
    yields nothing.  The stand-ins for [np.sqrt] and [np.log] are
    increasing, as the real functions are on the arguments that occur, so
    that every comparison of scores in the runs below comes out as it does
    with the real functions. *)
Definition stub_templates (smiles : string) : list Q * list Z :=
  if eqs smiles "T" then ([1 # 2; 1 # 4]%Q, [1; 2])
  else if eqs smiles "X" then ([1 # 2]%Q, [3])
  else if eqs smiles "Y" then ([1 # 2]%Q, [4])
  else if eqs smiles "B" then ([1 # 2]%Q, [5])
  else if eqs smiles "Z" then ([1 # 2]%Q, [6])
  else if eqs smiles "W" then ([1 # 2]%Q, [7])
  else ([], []).

Definition stub_precursors (smiles : string) (template : Z) : list (list string) :=
  if eqs smiles "T" && (template =? 1) then [["X"; "Y"]]
  else if eqs smiles "T" && (template =? 2) then [["B"]]
  else if eqs smiles "X" && (template =? 3) then [["B"]]
  else if eqs smiles "Y" && (template =? 4) then [["Z"]]
  else if eqs smiles "Z" && (template =? 6) then [["W"]]
  else [].

Definition stub_world : Collaborators := {|
  prioritizer_predict := fun smiles _ _ => Ok (stub_templates smiles);
  pricer_lookup_smiles := fun _ _ => None;
  historian_lookup_smiles := fun _ => (0, 0);
  scscorer_get_score := fun _ => 0%Q;
  element_counts := fun _ => None;
  _get_precursors := stub_precursors;
  fast_filter := fun _ _ => 1%Q;
  np_sqrt := fun x => x;
  np_log := fun x => (x - 1)%Q
|}.

(** Default options with a budget of [n] iterations. *)
Definition budget (n : Z) : Options :=
  mkOptions 100 (995 # 1000) (75 # 100) 30 (Some n) None None 25 10 1 false None
            [] [] None None None None [] "all".

(** Clock readings, one second apart. *)
Definition ticks : list Q := [0; 0; 1; 2; 3; 4; 5; 6; 7; 8]%Q.

Definition after_six : outcome MCTS :=
  build_tree (H := stub_world) 20 ticks (new_mcts default_options) "T" (budget 6).

(** A market in which T and B can be bought and C cannot.  Template 1
    makes T from B, template 2 makes T from C, and template 3 would make
    C from N and T. *)
Definition market_templates (smiles : string) : list Q * list Z :=
  if eqs smiles "T" then ([1 # 2; 1 # 4]%Q, [1; 2])
  else if eqs smiles "C" then ([1 # 2]%Q, [3])
  else ([], []).

Definition market_precursors (smiles : string) (template : Z) : list (list string) :=
  if eqs smiles "T" && (template =? 1) then [["B"]]
  else if eqs smiles "T" && (template =? 2) then [["C"]]
  else if eqs smiles "C" && (template =? 3) then [["N"; "T"]]
  else [].

Definition market_world : Collaborators := {|
  prioritizer_predict := fun smiles _ _ => Ok (market_templates smiles);
  pricer_lookup_smiles :=
    fun smiles _ => if eqs smiles "T" || eqs smiles "B" then Some 1%Q else None;
  historian_lookup_smiles := fun _ => (0, 0);
  scscorer_get_score := fun _ => 0%Q;
  element_counts := fun _ => None;
  _get_precursors := market_precursors;
  fast_filter := fun _ _ => 1%Q;
  np_sqrt := fun x => x;
  np_log := fun x => (x - 1)%Q
|}.

Definition market_after (n : Z) : outcome MCTS :=
  build_tree (H := market_world) 20 ticks (new_mcts default_options) "T" (budget n).

(** The builder after six rollouts in the stub world. *)
Definition six_tree : MCTS :=
  match after_six with
  | Ok m => m
  | _ => new_mcts default_options
  end.

(** One turn of the selection loop on the tree after six rollouts. *)
Definition seventh_select (chem_path rxn_path : list string) (invalid : gset string)
  : outcome SelectStep :=
  select_step (H := stub_world) (budget 6) "T" (search six_tree) chem_path rxn_path invalid.

(** The builder after two rollouts in the market. *)
Definition market_tree : MCTS :=
  match market_after 2 with
  | Ok m => m
  | _ => new_mcts default_options
  end.

Definition root_solved (m : outcome MCTS) : outcome bool :=
  m ← m; d ← node_attr (search m) "T"; Ok (solved d).

(** A chemical whose only template has been explored without result. *)
Definition spent : ChemData :=
  mkChem 0 0 0 [5] (Some 1) None false [(5, (1 # 2)%Q)] false 2 false.

Definition lone_chemical : Search :=
  mkSearch {[ "B" := Chemical spent ]} [] ["B"] [].

(** Two templates with equal raw scores: their softmax is one half each,
    exactly. *)
Definition uniform_softmax (l : list Q) : list Q :=
  map (fun _ => (1 # Pos.of_nat (length l))%Q) l.

Definition flat_model : Relevance.Model := {|
  Relevance.model_scores := fun _ => [0; 0]%Q;
  Relevance.softmax := uniform_softmax
|}.

End Fixtures.

(** ** Further notions used in the statements below *)

(** [b] can be reached from [a] along the edges. *)
Definition reach (E : list (string * string)) (a b : string) : Prop :=
  exists k, walk E k a b.

(** No node lies on a walk of one or more edges back to itself. *)
Definition acyclic (E : list (string * string)) : Prop :=
  forall n k, walk E (S k) n n -> False.

(** The pairs of paths that [_select] walks: the chemical path starts at
    the target, and each further chemical is a precursor, not done and not
    yet on the path, of a reaction of the chemical before it. *)
Inductive descent (s : Search) (tgt : string) : list string -> list string -> Prop :=
| descent_root : descent s tgt [tgt] []
| descent_step (chem_path rxn_path : list string) (leaf task precursor : string) :
    descent s tgt chem_path rxn_path ->
    last chem_path = Some leaf ->
    (leaf, task) ∈ edges s -> (task, precursor) ∈ edges s ->
    precursor ∉ chem_path ->
    is_chemical_done s precursor = Ok false ->
    descent s tgt (chem_path ++ [precursor]) (rxn_path ++ [task]).

(** Every node of the graph has the property [P]. *)
Definition all_nodes (P : NodeData -> Prop) (s : Search) : Prop :=
  forall n d, nodes s !! n = Some d -> P d.

(** Visit counts start at one and values at zero and neither decreases;
    depths are counted from zero. *)
Definition counted (d : NodeData) : Prop :=
  1 <= visit_count d /\ (0 <= est_value d)%Q
  /\ match d with
     | Chemical c => forall k, min_depth c = Some k -> 0 <= k
     | Reaction _ => True
     end.

(** A reaction has passed the fast filter of the options [cfg] and lists
    the templates that produced it. *)
Definition filtered (cfg : Options) (d : NodeData) : Prop :=
  match d with
  | Chemical _ => True
  | Reaction r => r_templates r <> [] /\ (fast_filter_threshold cfg <= ff_score r)%Q
  end.

(** A terminal chemical is flagged done. *)
Definition terminal_closed (d : NodeData) : Prop :=
  match d with
  | Chemical c => terminal c = true -> c_done c = true
  | Reaction _ => True
  end.

(** The names that [is_terminal] accepts as termination logic. *)
Definition valid_logic (logic : string) : bool := eqs logic "and" || eqs logic "or".

(** Every criterion that [is_terminal] evaluates for this chemical is
    combined by a valid name. *)
Definition enabled_logic_valid `{Collaborators} (cfg : Options) (smiles : string)
    (ppg : option Q) : bool :=
  match max_ppg cfg, ppg with
  | Some _, Some _ => valid_logic (logic_get "max_ppg" "and" (termination_logic cfg))
  | _, _ => true
  end
  && match max_scscore cfg with
     | Some _ => valid_logic (logic_get "max_scscore" "or" (termination_logic cfg))
     | None => true
     end
  && match max_elements cfg, element_counts smiles with
     | Some _, Some _ => valid_logic (logic_get "max_elements" "or" (termination_logic cfg))
     | _, _ => true
     end
  && match min_history cfg with
     | Some _ => valid_logic (logic_get "min_history" "or" (termination_logic cfg))
     | None => true
     end.

(** A sequence of counts that never decreases. *)
Fixpoint non_decreasing (l : list Z) : Prop :=
  match l with
  | [] => True
  | x :: l' => (forall y, y ∈ l' -> x <= y) /\ non_decreasing l'
  end.

(** The trees that the enumeration is meant to yield below the chemical
    [node] at [depth]: the node with its attributes, alone when it has no
    reaction or the depth cap is reached, and otherwise above one of its
    reactions, which stands above one such tree for each of its
    precursors, in their order. *)
Fixpoint route (s : Search) (depth_cap : option Z) (p : PathTree) (node : string)
    (depth : Z) {struct p} : Prop :=
  match p with
  | PathNode n data cs =>
      n = node /\ nodes s !! node = Some data
      /\ match cs with
         | [] => (out_degree s node =? 0) || reaches depth_cap depth = true
         | [PathNode rxn rxn_data subs] =>
             (out_degree s node =? 0) || reaches depth_cap depth = false
             /\ rxn ∈ successors s node
             /\ nodes s !! rxn = Some rxn_data
             /\ successors s rxn <> []
             /\ (fix all2 (subs : list PathTree) (precursors : list string) : Prop :=
                   match subs, precursors with
                   | [], [] => True
                   | sub :: subs', c :: precursors' =>
                       route s depth_cap sub c (depth + 1) /\ all2 subs' precursors'
                   | _, _ => False
                   end) subs (successors s rxn)
         | _ => False
         end
  end.

(** Number of edges on a longest branch of a path. *)
Fixpoint height (p : PathTree) : nat :=
  match p with
  | PathNode _ _ cs => list_max (map (fun c => S (height c)) cs)
  end.

(** The paths that pass the validation function, all paths without one. *)
Definition passes (validation_fn : option (PathTree -> outcome bool)) (p : PathTree)
  : Prop :=
  match validation_fn with
  | Some v => v p = Ok true
  | None => True
  end.

(** No banned reaction and, the target apart, no banned chemical is
    listed. *)
Definition banned_free (cfg : Options) (tgt : string) (s : Search) : Prop :=
  (forall r, r ∈ reactions s -> r ∉ banned_reactions cfg)
  /\ (forall c, c ∈ chemicals s -> c = tgt \/ c ∉ banned_chemicals cfg).

(** The two lists name every node of the graph, each once. *)
Definition listed (s : Search) : Prop :=
  NoDup (chemicals s) /\ NoDup (reactions s)
  /\ forall n, is_Some (nodes s !! n) <-> n ∈ chemicals s \/ n ∈ reactions s.

(** Options that ban the chemical B and the reaction of Z to Y, with a
    budget of six iterations. *)
Definition banning : Options :=
  mkOptions 100 (995 # 1000) (75 # 100) 30 (Some 6) None None 25 10 1 false None
            ["B"] ["Z>>Y"] None None None None [] "all".

(** ** Deserialized json ([translate_json])

    The python objects that [json.loads] and [nx.tree_data] produce: a
    dictionary is the list of its items in insertion order. *)

Inductive json : Type :=
| JNull
| JBool (b : bool)
| JInt (z : Z)
| JFloat (q : Q)
| JStr (s : string)
| JList (l : list json)
| JDict (items : list (string * json)).

(** The two exceptions that [translate_json] can end in: [path.items()] on
    an object that is not a dictionary, and iteration over a value of
    [children] that is not iterable. *)
Inductive json_error : Type :=
| AttributeError
| TypeError.

(** [d[k] = v] *)
Fixpoint dict_set (k : string) (v : json) (d : list (string * json)) : list (string * json) :=
  match d with
  | [] => [(k, v)]
  | (k', v') :: d' => if eqs k' k then (k, v) :: d' else (k', v') :: dict_set k v d'
  end.

(** [d.get(k)] *)
Fixpoint dict_get (k : string) (d : list (string * json)) : option json :=
  match d with
  | [] => None
  | (k', v) :: d' => if eqs k' k then Some v else dict_get k d'
  end.

Definition key_map : list (string * string) :=
  [("smiles", "smiles"); ("id", "id"); ("as_reactant", "as_reactant");
   ("as_product", "as_product"); ("ff_score", "plausibility");
   ("purchase_price", "ppg"); ("template_score", "template_score");
   ("tforms", "tforms"); ("num_examples", "num_examples");
   ("necessary_reagent", "necessary_reagent")].

(** [key_map[k]], [None] when [k not in key_map]. *)
Fixpoint key_map_get (k : string) (m : list (string * string)) : option string :=
  match m with
  | [] => None
  | (k', v) :: m' => if eqs k' k then Some v else key_map_get k m'
  end.

(** [value == text] for a deserialized value. *)
Definition is_str (value : json) (text : string) : bool :=
  match value with
  | JStr s => eqs s text
  | _ => false
  end.

(** [[f(c) for c in l]] with the first exception ending the loop. *)
Definition map_e {A B E} (f : A -> E + B) : list A -> E + list B :=
  fix go (l : list A) : E + list B :=
    match l with
    | [] => inr []
    | x :: l' =>
        match f x with
        | inl e => inl e
        | inr y => match go l' with
                   | inl e => inl e
                   | inr ys => inr (y :: ys)
                   end
        end
    end.

(** The loop of [translate_json] over the items of [path], given the
    function for the children. *)
Definition translate_items (translate : json -> json_error + json)
  : list (string * json) -> list (string * json) -> json_error + list (string * json) :=
  fix loop (items : list (string * json)) (output : list (string * json))
    : json_error + list (string * json) :=
    match items with
    | [] => inr output
    | (key, value) :: rest =>
        match key_map_get key key_map with
        | Some new_key => loop rest (dict_set new_key value output)
        | None =>
            if eqs key "type" then
              if is_str value "chemical"
              then loop rest (dict_set "is_chemical" (JBool true) output)
              else if is_str value "reaction"
              then loop rest (dict_set "is_reaction" (JBool true) output)
              else loop rest output
            else if eqs key "children" then
              match value with
              | JList children =>
                  match map_e translate children with
                  | inl e => inl e
                  | inr translated =>
                      loop rest (dict_set "children" (JList translated) output)
                  end
              | JStr EmptyString | JDict [] =>
                  loop rest (dict_set "children" (JList []) output)
              | JStr _ | JDict _ => inl AttributeError
              | _ => inl TypeError
              end
            else loop rest output
        end
    end.

(** [translate_json(path)].  Iterating a string yields its characters and
    iterating a dictionary yields its keys, none of which has [items]; the
    other values that are not lists cannot be iterated. *)
Fixpoint translate_json (path : json) : json_error + json :=
  match path with
  | JDict items =>
      match translate_items translate_json items [] with
      | inl e => inl e
      | inr output =>
          inr (JDict match dict_get "children" output with
                     | Some _ => output
                     | None => dict_set "children" (JList []) output
                     end)
      end
  | _ => inl AttributeError
  end.

(** The keys that the old tree builder's output uses. *)
Definition legacy_keys : list string :=
  ["smiles"; "id"; "as_reactant"; "as_product"; "plausibility"; "ppg";
   "template_score"; "tforms"; "num_examples"; "necessary_reagent";
   "is_chemical"; "is_reaction"; "children"].

(** A node in the old format: a dictionary with distinct keys, all of
    them legacy keys, whose [children] is a list of such nodes. *)
Inductive legacy : json -> Prop :=
| legacy_node (items : list (string * json)) (children : list json) :
    NoDup (map fst items) ->
    (forall k, k ∈ map fst items -> k ∈ legacy_keys) ->
    dict_get "children" items = Some (JList children) ->
    Forall legacy children ->
    legacy (JDict items).

(** A reaction node as [nx.tree_data] gives it, above one chemical leaf. *)
Definition sample_tree_data : json :=
  JDict [("smiles", JStr "B>>T"); ("type", JStr "reaction"); ("ff_score", JFloat 1);
         ("solved", JBool true); ("id", JInt 2);
         ("children",
          JList [JDict [("smiles", JStr "B"); ("type", JStr "chemical");
                        ("purchase_price", JFloat 1); ("terminal", JBool true);
                        ("id", JInt 3)]])].

(** A dictionary under construction in the old format. *)
Definition well_keyed (d : list (string * json)) : Prop :=
  NoDup (map fst d)
  /\ (forall k, k ∈ map fst d -> k ∈ legacy_keys)
  /\ (forall v, dict_get "children" d = Some v ->
        exists children, v = JList children /\ Forall legacy children).

(** ** Terminal chemicals

    A terminal chemical is flagged done, has no explored template and no
    reaction below it. *)
Definition unexpanded_terminals (s : Search) : Prop :=
  forall n c, nodes s !! n = Some (Chemical c) -> terminal c = true ->
    c_done c = true /\ explored c = [] /\ successors s n = [].

(** A chemical node that is not terminal. *)
Definition open_chemical (s : Search) (x : string) : Prop :=
  exists c, nodes s !! x = Some (Chemical c) /\ terminal c = false.

(** An update of attributes that leaves the terminal flag and the explored
    templates alone and does not clear the done flag of a terminal
    chemical. *)
Definition keeps_marks (d d' : NodeData) : Prop :=
  match d, d' with
  | Chemical c, Chemical c' =>
      terminal c' = terminal c /\ explored c' = explored c
      /\ (terminal c = true -> c_done c = true -> c_done c' = true)
  | Reaction _, Reaction _ => True
  | _, _ => False
  end.

Definition marks_kept (s s' : Search) : Prop :=
  edges s' = edges s
  /\ forall n, match nodes s !! n, nodes s' !! n with
               | Some d, Some d' => keeps_marks d d'
               | None, None => True
               | _, _ => False
               end.

(** How often [n] occurs in a path. *)
Definition occurrences (n : string) (l : list string) : Z := len (List.filter (eqs n) l).

(** The visit count of [n], when it is a node. *)
Definition visits (s : Search) (n : string) : option Z := visit_count <$> nodes s !! n.

(** * Properties *)

(** ** The outcome monad *)

Lemma bind_Ok {A B} (m : outcome A) (f : A -> outcome B) (b : B) :
  (x ← m; f x) = Ok b -> exists a, m = Ok a /\ f a = Ok b.
Proof.
  destruct m as [a| |]; cbn; intros E; try discriminate.
  exists a. split; [reflexivity | exact E].
Qed.

Lemma bind_Ok_eq {A B} (m : outcome A) (f : A -> outcome B) (a : A) :
  m = Ok a -> (x ← m; f x) = f a.
Proof. intros ->. reflexivity. Qed.

Ltac inv_bind_fresh H :=
  let a := fresh "a" in
  let Ha := fresh "Ha" in
  apply bind_Ok in H; destruct H as (a & Ha & H).

Tactic Notation "inv_bind" hyp(H) := inv_bind_fresh H.
Tactic Notation "inv_bind" hyp(H) "as" ident(a) ident(Ha) :=
  apply bind_Ok in H; destruct H as (a & Ha & H).

Lemma getitem_Ok {A} key (o : option A) (a : A) : getitem key o = Ok a <-> o = Some a.
Proof. destruct o; cbn; split; intros E; congruence. Qed.

Lemma all_m_true {A} (f : A -> outcome bool) (l : list A) :
  all_m f l = Ok true <-> forall x, x ∈ l -> f x = Ok true.
Proof.
  induction l as [|x l IH]; cbn.
  - split; [|reflexivity]. intros _ y Hy. inversion Hy.
  - split.
    + intros E. inv_bind E. destruct a; [|discriminate].
      intros y Hy. apply elem_of_cons in Hy as [->|Hy]; [assumption|].
      apply IH; assumption.
    + intros Hall. rewrite (Hall x) by apply list_elem_of_here. cbn.
      apply IH. intros y Hy. apply Hall. apply list_elem_of_further, Hy.
Qed.

Lemma fold_m_app {A S} (f : S -> A -> outcome S) (s : S) (l1 l2 : list A) :
  fold_m f s (l1 ++ l2) = (s' ← fold_m f s l1; fold_m f s' l2).
Proof.
  revert s. induction l1 as [|x l1 IH]; intros s; cbn; [reflexivity|].
  destruct (f s x) as [s'| |]; cbn; [apply IH | reflexivity | reflexivity].
Qed.

(** ** Done state of a chemical (C3) *)

Lemma chem_data_Ok s n attr c :
  chem_data s n attr = Ok c <-> nodes s !! n = Some (Chemical c).
Proof.
  unfold chem_data. destruct (nodes s !! n) as [[c'|r]|]; cbn; split; intros E;
    congruence.
Qed.

(** With distinct entries on both sides and [explored] drawn from the
    offered templates, equal lengths say that every template is explored. *)
Lemma explored_all_iff (explored keys : list Z) :
  NoDup explored -> NoDup keys -> (forall t, t ∈ explored -> t ∈ keys) ->
  (len explored =? len keys) = true <-> (forall t, t ∈ keys -> t ∈ explored).
Proof.
  intros Hd Hk Hsub. unfold len. rewrite Z.eqb_eq, Nat2Z.inj_iff.
  apply NoDup_ListNoDup in Hd. apply NoDup_ListNoDup in Hk. split.
  - intros Hlen t Ht. apply list_elem_of_In.
    assert (Hincl : incl keys explored).
    { apply List.NoDup_length_incl; [exact Hd | lia |].
      intros x Hx. apply list_elem_of_In, Hsub, list_elem_of_In, Hx. }
    apply Hincl, list_elem_of_In, Ht.
  - intros Hall. apply Nat.le_antisymm.
    + apply List.NoDup_incl_length; [exact Hd|].
      intros x Hx. apply list_elem_of_In, Hsub, list_elem_of_In, Hx.
    + apply List.NoDup_incl_length; [exact Hk|].
      intros x Hx. apply list_elem_of_In, Hall, list_elem_of_In, Hx.
Qed.

(** What [is_chemical_done(update=True)] stores is what it returns. *)
Lemma is_chemical_done_update_stores cfg s smiles s' b :
  is_chemical_done_update cfg s smiles = Ok (s', b) ->
  is_chemical_done s' smiles = Ok b.
Proof.
  unfold is_chemical_done_update. intros E. inv_bind E. inv_bind E.
  injection E as <- <-. unfold is_chemical_done, chem_data, set_node. cbn.
  rewrite lookup_insert_eq. reflexivity.
Qed.

(** C3. [is_chemical_done(smiles, update=True)] returns [True] exactly when
    the chemical is terminal, or has no templates, or its minimum depth has
    reached [max_depth], or its branching is exhausted (out-degree at least
    [max_branching], or every offered template explored) and every reaction
    child is done.  The explored templates of a node are distinct and drawn
    from its distinct offered templates. *)
Theorem is_chemical_done_update_true_iff cfg s smiles c :
  nodes s !! smiles = Some (Chemical c) ->
  NoDup (explored c) ->
  NoDup (od_keys (c_templates c)) ->
  (forall t, t ∈ explored c -> t ∈ od_keys (c_templates c)) ->
  (exists s', is_chemical_done_update cfg s smiles = Ok (s', true))
  <->
  (terminal c = true
   \/ c_templates c = []
   \/ (exists d, min_depth c = Some d /\ max_depth cfg <= d)
   \/ ((max_branching cfg <= out_degree s smiles
        \/ forall t, t ∈ od_keys (c_templates c) -> t ∈ explored c)
       /\ forall r, r ∈ successors s smiles -> is_reaction_done s r = Ok true)).
Proof.
  intros Hnode Hd Hk Hsub.
  pose proof (explored_all_iff _ _ Hd Hk Hsub) as Hall.
  assert (Hlen : len (explored c) = len (od_keys (c_templates c)) <->
                 len (explored c) = len (c_templates c)).
  { unfold len, od_keys. rewrite length_map. reflexivity. }
  unfold is_chemical_done_update.
  rewrite (proj2 (chem_data_Ok s smiles "terminal" c) Hnode). cbn.
  destruct (terminal c) eqn:Et; cbn.
  { split; [intros _; left; reflexivity | intros _; eexists; reflexivity]. }
  destruct (len (c_templates c) =? 0) eqn:E0; cbn.
  { split; [|intros _; eexists; reflexivity]. intros _. right. left.
    apply Z.eqb_eq in E0. unfold len in E0. destruct (c_templates c); [reflexivity|].
    cbn in E0. lia. }
  assert (Hne : c_templates c <> []).
  { intros E. rewrite E in E0. cbn in E0. discriminate. }
  destruct (min_depth c) as [d|] eqn:Ed.
  - destruct (max_depth cfg <=? d) eqn:Emd; cbn.
    { split; [|intros _; eexists; reflexivity]. intros _. right. right. left.
      exists d. split; [reflexivity|]. apply Z.leb_le, Emd. }
    apply Z.leb_gt in Emd.
    destruct ((max_branching cfg <=? out_degree s smiles)
              || (len (explored c) =? len (c_templates c))) eqn:Eb; cbn.
    + apply orb_true_iff in Eb.
      destruct (all_m (is_reaction_done s) (successors s smiles)) as [b| |] eqn:Ea; cbn.
      * split.
        -- intros [s' E]. injection E as _ ->. right. right. right. split.
           ++ destruct Eb as [Eb|Eb]; [left; apply Z.leb_le, Eb|].
              right. apply Hall. apply Z.eqb_eq. apply Hlen. apply Z.eqb_eq, Eb.
           ++ apply all_m_true, Ea.
        -- intros [?|[?|[(d' & Hd' & Hle)|[_ Hr]]]]; try congruence.
           ++ injection Hd' as <-. lia.
           ++ apply all_m_true in Hr. rewrite Hr in Ea. injection Ea as <-.
              eexists; reflexivity.
      * split; [intros [s' E]; discriminate|].
        intros [?|[?|[(d' & Hd' & Hle)|[_ Hr]]]]; try congruence.
        -- injection Hd' as <-. lia.
        -- apply all_m_true in Hr. congruence.
      * split; [intros [s' E]; discriminate|].
        intros [?|[?|[(d' & Hd' & Hle)|[_ Hr]]]]; try congruence.
        -- injection Hd' as <-. lia.
        -- apply all_m_true in Hr. congruence.
    + apply orb_false_iff in Eb as [Eb1 Eb2].
      split; [intros [s' E]; discriminate|].
      intros [?|[?|[(d' & Hd' & Hle)|[[Hb|Hb] _]]]]; try congruence.
      * injection Hd' as <-. lia.
      * apply Z.leb_gt in Eb1. lia.
      * apply Hall in Hb. apply Z.eqb_eq, Hlen in Hb. apply Z.eqb_neq in Eb2.
        contradiction.
  - cbn.
    destruct ((max_branching cfg <=? out_degree s smiles)
              || (len (explored c) =? len (c_templates c))) eqn:Eb; cbn.
    + apply orb_true_iff in Eb.
      destruct (all_m (is_reaction_done s) (successors s smiles)) as [b| |] eqn:Ea; cbn.
      * split.
        -- intros [s' E]. injection E as _ ->. right. right. right. split.
           ++ destruct Eb as [Eb|Eb]; [left; apply Z.leb_le, Eb|].
              right. apply Hall. apply Z.eqb_eq. apply Hlen. apply Z.eqb_eq, Eb.
           ++ apply all_m_true, Ea.
        -- intros [?|[?|[(d' & Hd' & Hle)|[_ Hr]]]]; try congruence.
           apply all_m_true in Hr. rewrite Hr in Ea. injection Ea as <-.
           eexists; reflexivity.
      * split; [intros [s' E]; discriminate|].
        intros [?|[?|[(d' & Hd' & Hle)|[_ Hr]]]]; try congruence.
        apply all_m_true in Hr. congruence.
      * split; [intros [s' E]; discriminate|].
        intros [?|[?|[(d' & Hd' & Hle)|[_ Hr]]]]; try congruence.
        apply all_m_true in Hr. congruence.
    + apply orb_false_iff in Eb as [Eb1 Eb2].
      split; [intros [s' E]; discriminate|].
      intros [?|[?|[(d' & Hd' & Hle)|[[Hb|Hb] _]]]]; try congruence.
      * apply Z.leb_gt in Eb1. lia.
      * apply Hall in Hb. apply Z.eqb_eq, Hlen in Hb. apply Z.eqb_neq in Eb2.
        contradiction.
Qed.

Lemma is_chemical_done_update_true_iff_witness :
  (exists s', is_chemical_done_update default_options Fixtures.lone_chemical "B"
              = Ok (s', true))
  <->
  (terminal Fixtures.spent = true
   \/ c_templates Fixtures.spent = []
   \/ (exists d, min_depth Fixtures.spent = Some d /\ max_depth default_options <= d)
   \/ ((max_branching default_options <= out_degree Fixtures.lone_chemical "B"
        \/ forall t, t ∈ od_keys (c_templates Fixtures.spent) ->
                     t ∈ explored Fixtures.spent)
       /\ forall r, r ∈ successors Fixtures.lone_chemical "B" ->
                    is_reaction_done Fixtures.lone_chemical r = Ok true)).
Proof.
  apply (is_chemical_done_update_true_iff default_options Fixtures.lone_chemical "B"
           Fixtures.spent).
  - reflexivity.
  - apply NoDup_singleton.
  - apply NoDup_singleton.
  - intros t Ht. exact Ht.
Defined.

(** ** Value update (C1) *)

Lemma solved_set_est_value v d : solved (set_est_value v d) = solved d.
Proof. destruct d; reflexivity. Qed.

Lemma solved_set_solved b d : solved (set_solved b d) = b.
Proof. destruct d; reflexivity. Qed.

Lemma node_attr_Ok s n d : node_attr s n = Ok d <-> nodes s !! n = Some d.
Proof. apply getitem_Ok. Qed.

Lemma first_predecessor_set_node s n d r :
  first_predecessor (set_node n d s) r = first_predecessor s r.
Proof. reflexivity. Qed.

(** Overwriting the estimated value of a node leaves every [solved] flag
    as it was. *)
Lemma solved_after_set_est s n d v k :
  nodes s !! n = Some d ->
  solved <$> (nodes (set_node n (set_est_value v d) s) !! k) = solved <$> (nodes s !! k).
Proof.
  intros Hn. unfold set_node; cbn. destruct (decide (n = k)) as [->|Hne].
  - rewrite lookup_insert_eq, Hn. cbn. rewrite solved_set_est_value. reflexivity.
  - rewrite lookup_insert_ne by assumption. reflexivity.
Qed.

Lemma all_solved_congr (s1 s2 : Search) (l : list string) :
  (forall k, solved <$> (nodes s1 !! k) = solved <$> (nodes s2 !! k)) ->
  all_m (fun c => d ← node_attr s1 c; Ok (solved d)) l = Ok true ->
  forall c, c ∈ l -> exists d, nodes s2 !! c = Some d /\ solved d = true.
Proof.
  intros Heq Hall c Hc. apply all_m_true with (x := c) in Hall; [|assumption].
  inv_bind Hall. apply node_attr_Ok in Ha. specialize (Heq c). rewrite Ha in Heq.
  cbn in Heq. destruct (nodes s2 !! c) as [d|]; [|discriminate].
  exists d. split; [reflexivity|]. cbn in Heq. congruence.
Qed.

(** The mechanism of [_update_value]: the reaction is solved afterwards
    exactly when it was solved before or all its precursors are solved, and
    the parent chemical receives the very same flag, whatever it had. *)
Lemma _update_value_solved s r rd s' :
  nodes s !! r = Some (Reaction rd) ->
  _update_value s r = Ok s' ->
  exists p rd' cd',
    first_predecessor s r = Ok p
    /\ nodes s' !! r = Some rd'
    /\ nodes s' !! p = Some cd'
    /\ solved cd' = solved rd'
    /\ (solved rd' = true <->
        r_solved rd = true
        \/ forall c, c ∈ successors s r -> exists d, nodes s !! c = Some d /\ solved d = true).
Proof.
  intros Hr E. unfold _update_value in E.
  rewrite (proj2 (node_attr_Ok s r _) Hr) in E. cbn in E.
  inv_bind E. rename a into values. clear Ha.
  inv_bind E. rename a into p. rewrite first_predecessor_set_node in Ha.
  inv_bind E. rename a into chem, Ha0 into Hchem.
  inv_bind E. rename a into rxn2, Ha0 into Hrxn2.
  inv_bind E. rename a into flag, Ha0 into Hflag.
  inv_bind E. rename a into chem2, Ha0 into Hchem2.
  inv_bind E. rename a into rxn3, Ha0 into Hrxn3.
  injection E as <-.
  set (s1 := set_node r (set_est_value (est_value (Reaction rd) + Qsum values)%Q
                                       (Reaction rd)) s) in *.
  set (s2 := set_node p (set_est_value (est_value chem + Qsum values)%Q chem) s1) in *.
  set (s3 := set_node p (set_solved flag chem2) s2) in *.
  assert (Hsol : forall k, solved <$> (nodes s2 !! k) = solved <$> (nodes s !! k)).
  { intros k. unfold s2. rewrite solved_after_set_est by (apply node_attr_Ok, Hchem).
    unfold s1. apply solved_after_set_est, Hr. }
  assert (Hconc : flag = true <->
            r_solved rd = true
            \/ forall c, c ∈ successors s r ->
                         exists d, nodes s !! c = Some d /\ solved d = true).
  { apply node_attr_Ok in Hrxn2.
    assert (Hx : solved <$> Some rxn2 = solved <$> Some (Reaction rd)).
    { rewrite <- Hr, <- (Hsol r). f_equal. symmetry. exact Hrxn2. }
    cbn in Hx. injection Hx as Hx. split.
    - intros ->. destruct (solved rxn2) eqn:Es.
      + left. congruence.
      + right. apply (all_solved_congr s2 s); [exact Hsol | exact Hflag].
    - intros [Hs|Hall].
      + rewrite Hs in Hx. rewrite Hx in Hflag. congruence.
      + destruct (solved rxn2); [congruence|].
        assert (Ht : all_m (fun c => d ← node_attr s2 c; Ok (solved d)) (successors s r)
                     = Ok true).
        { apply all_m_true. intros c Hc. destruct (Hall c Hc) as (d & Hd & Hds).
          pose proof (Hsol c) as Hc2. rewrite Hd in Hc2.
          destruct (nodes s2 !! c) as [d2|] eqn:Ed2; [|discriminate].
          rewrite (proj2 (node_attr_Ok s2 c d2) Ed2). cbn. cbn in Hc2. congruence. }
        change (all_m (fun c => d ← node_attr s2 c; Ok (solved d)) (successors s r)
                = Ok flag) in Hflag.
        congruence. }
  exists p, (set_solved flag rxn3).
  destruct (decide (r = p)) as [Heq|Hne].
  - exists (set_solved flag rxn3). subst p. cbn. rewrite lookup_insert_eq.
    split; [assumption|]. split; [reflexivity|]. split; [reflexivity|].
    split; [reflexivity|]. rewrite solved_set_solved. exact Hconc.
  - exists (set_solved flag chem2). cbn. rewrite lookup_insert_eq.
    rewrite lookup_insert_ne by assumption. rewrite lookup_insert_eq.
    split; [assumption|]. split; [reflexivity|]. split; [reflexivity|].
    rewrite !solved_set_solved. split; [reflexivity|]. exact Hconc.
Qed.

(** C1, on the code: in the market fixture the first rollout solves the
    root through the reaction from B; the second rollout adds the unsolved
    reaction from C, and [_update_value] overwrites the root's flag with
    that reaction's: the root is reported unsolved while the reaction from
    B and B itself are still solved. *)
Theorem solved_root_reported_unsolved :
  Fixtures.root_solved (Fixtures.market_after 1) = Ok true
  /\ Fixtures.root_solved (Fixtures.market_after 2) = Ok false
  /\ (m ← Fixtures.market_after 2; d ← node_attr (search m) "B>>T"; Ok (solved d))
     = Ok true
  /\ (m ← Fixtures.market_after 2; d ← node_attr (search m) "B"; Ok (solved d))
     = Ok true
  /\ (m ← Fixtures.market_after 2; Ok (predecessors (search m) "B>>T"))
     = Ok ["T"].
Proof. vm_compute. repeat split; reflexivity. Qed.

(** ** Template relevance (C7) *)

Section RelevanceFacts.
Import Relevance.
Context `{Model}.

Lemma first_true_none (bound : Q) (cs : list Q) :
  (forall c, c ∈ cs -> (c <= bound)%Q) ->
  first_true (map (fun c => Qltb bound c) cs) = None.
Proof.
  induction cs as [|c cs IH]; intros Hall; cbn; [reflexivity|].
  assert (Hc : Qltb bound c = false).
  { unfold Qltb. apply negb_false_iff, Qle_bool_iff, Hall, list_elem_of_here. }
  rewrite Hc, IH; [reflexivity|].
  intros c' Hc'. apply Hall, list_elem_of_further, Hc'.
Qed.

(** Whenever no cumulative probability exceeds the bound, [np.argmax]
    of the all-false array is 0 and [predict] returns two empty
    arrays, however many templates were ranked. *)
Lemma predict_empty_when_never_exceeded smiles n bound :
  let scores := softmax (take_at (model_scores smiles)
                                 (slice_to n (argsort_desc (model_scores smiles)))) in
  scores <> [] ->
  (forall c, c ∈ cumsum scores -> (c <= bound)%Q) ->
  predict smiles n bound = Ok ([], []).
Proof.
  intros scores Hne Hall. unfold predict. fold scores.
  unfold argmax. rewrite (first_true_none bound (cumsum scores) Hall).
  destruct scores as [|x xs] eqn:E; [contradiction|]. reflexivity.
Qed.

Lemma prefix_agrees (bound : Q) (scores : list Q) :
  forall (indices : list Z) (acc : Q) (k : nat),
    length scores = length indices ->
    first_true (map (fun c => Qltb bound c) (cumsum_from acc scores)) = Some k ->
    firstn k scores = map fst (documented_prefix_from acc bound (combine scores indices))
    /\ firstn k indices
       = map snd (documented_prefix_from acc bound (combine scores indices)).
Proof.
  induction scores as [|x xs IH]; intros indices acc k Hlen Hk; [discriminate|].
  destruct indices as [|i indices]; [discriminate|].
  cbn in Hk |- *. destruct (Qltb bound (acc + x)) eqn:Eb.
  - injection Hk as <-. split; reflexivity.
  - destruct (first_true _) as [k'|] eqn:Ek; [|discriminate].
    injection Hk as <-. cbn.
    destruct (IH indices (acc + x)%Q k') as [H1 H2]; [cbn in Hlen; lia | exact Ek |].
    rewrite H1, H2. split; reflexivity.
Qed.

(** When some cumulative probability does exceed the bound, [predict]
    returns the documented prefix. *)
Lemma predict_agrees_when_exceeded smiles n bound k :
  let indices := slice_to n (argsort_desc (model_scores smiles)) in
  let scores := softmax (take_at (model_scores smiles) indices) in
  length scores = length indices ->
  first_true (map (fun c => Qltb bound c) (cumsum scores)) = Some k ->
  predict smiles n bound = Ok (documented_predict smiles n bound).
Proof.
  intros indices scores Hlen Hk. unfold predict, documented_predict.
  fold indices. fold scores. unfold argmax. rewrite Hk.
  destruct (prefix_agrees bound scores indices 0%Q k Hlen Hk) as [H1 H2].
  rewrite <- H1, <- H2.
  destruct (map _ (cumsum scores)) eqn:E; [discriminate|]. reflexivity.
Qed.

End RelevanceFacts.

(** C7, on the code: two templates of equal score, at most two requested,
    cumulative bound 1.  The cumulative probabilities one half and one never
    exceed the bound, so the documented list holds both templates, and
    [predict] returns none. *)
Theorem predict_drops_all_templates :
  Relevance.predict (H := Fixtures.flat_model) "CCO" 2 1 = Ok ([], [])
  /\ Relevance.documented_predict (H := Fixtures.flat_model) "CCO" 2 1
     = ([1 # 2; 1 # 2]%Q, [0; 1]).
Proof. split; reflexivity. Qed.

(** ** Stable sorting *)

Lemma insert_by_perm {A} (before : A -> A -> bool) (x : A) (l : list A) :
  insert_by before x l ≡ₚ x :: l.
Proof.
  induction l as [|y l IH]; cbn; [reflexivity|].
  destruct (before y x); [|reflexivity].
  rewrite IH. apply Permutation_swap.
Qed.

Lemma sorted_by_perm {A} (before : A -> A -> bool) (l : list A) :
  sorted_by before l ≡ₚ l.
Proof.
  induction l as [|x l IH]; cbn; [reflexivity|].
  rewrite insert_by_perm, IH. reflexivity.
Qed.

Lemma elem_of_sorted_by {A} (before : A -> A -> bool) (l : list A) (x : A) :
  x ∈ sorted_by before l <-> x ∈ l.
Proof. rewrite sorted_by_perm. reflexivity. Qed.

Lemma Qltb_true (a b : Q) : Qltb a b = true <-> (a < b)%Q.
Proof.
  unfold Qltb. rewrite negb_true_iff. split.
  - intros E. apply Qnot_le_lt. intros Hle. apply Qle_bool_iff in Hle. congruence.
  - intros Hlt. destruct (Qle_bool b a) eqn:E; [|reflexivity].
    apply Qle_bool_iff in E. exfalso. exact (Qlt_not_le _ _ Hlt E).
Qed.

Lemma Qltb_false (a b : Q) : Qltb a b = false <-> (b <= a)%Q.
Proof. unfold Qltb. rewrite negb_false_iff. apply Qle_bool_iff. Qed.

Lemma elem_of_map {A B} (f : A -> B) (l : list A) (y : B) :
  y ∈ map f l <-> exists x, y = f x /\ x ∈ l.
Proof.
  rewrite list_elem_of_In, in_map_iff. split.
  - intros (x & <- & Hx). exists x. split; [reflexivity | apply list_elem_of_In, Hx].
  - intros (x & -> & Hx). exists x. split; [reflexivity | apply list_elem_of_In, Hx].
Qed.

Section Descending.
Context {A : Type} (key : A -> Q).

Lemma insert_desc_sorted (x : A) (l : list A) :
  non_increasing (map key l) ->
  non_increasing (map key (insert_by (fun y x => Qltb (key x) (key y)) x l)).
Proof.
  induction l as [|y l IH]; cbn; intros Hs.
  - split; [|exact I]. intros z Hz. inversion Hz.
  - destruct Hs as [Hy Hl]. destruct (Qltb (key x) (key y)) eqn:E.
    + cbn. split; [|apply IH, Hl].
      intros z Hz. apply elem_of_map in Hz as (a & -> & Ha).
      rewrite insert_by_perm in Ha. apply elem_of_cons in Ha as [->|Ha].
      * apply Qlt_le_weak, Qltb_true, E.
      * apply Hy, elem_of_map. exists a. split; [reflexivity | exact Ha].
    + apply Qltb_false in E. cbn. split; [|split; assumption].
      intros z Hz. apply elem_of_cons in Hz as [->|Hz]; [exact E|].
      apply Qle_trans with (key y); [apply Hy, Hz | exact E].
Qed.

Lemma sorted_by_desc (l : list A) :
  non_increasing (map key (sorted_by (fun y x => Qltb (key x) (key y)) l)).
Proof.
  induction l as [|x l IH]; cbn; [exact I|]. apply insert_desc_sorted, IH.
Qed.
End Descending.

(** ** Ranking and output format (C8) *)

Lemma eqs_true a b : eqs a b = true <-> a = b.
Proof. unfold eqs. apply bool_decide_eq_true. Qed.

Lemma eqs_false a b : eqs a b = false <-> a <> b.
Proof. unfold eqs. apply bool_decide_eq_false. Qed.

Lemma enumerate_paths_unfold fuel m fmt metric validate cj dc cap :
  enumerate_paths fuel m fmt metric validate cj dc cap
  = (paths ← sort_paths (generated_paths fuel m validate dc cap) metric;
     if eqs fmt "graph" then Ok (GraphPaths paths)
     else if eqs fmt "json" then
       match paths with
       | [] => Raise IndexError
       | _ => Ok (JsonPaths cj paths)
       end
     else Raise (ValueError ("Unrecognized format type " +:+ fmt))).
Proof. reflexivity. Qed.


Lemma sort_paths_known paths metric :
  known_metric metric = true ->
  exists sorted, sort_paths (Ok paths) metric = Ok sorted /\ sorted ≡ₚ paths.
Proof.
  unfold known_metric, sort_paths. intros E.
  destruct (eqs metric "plausibility").
  { eexists. split; [reflexivity | apply sorted_by_perm]. }
  destruct (eqs metric "number_of_starting_materials").
  { eexists. split; [reflexivity | apply sorted_by_perm]. }
  destruct (eqs metric "number_of_reactions"); [|discriminate].
  eexists. split; [reflexivity | apply sorted_by_perm].
Qed.

Lemma unknown_format_error fuel m fmt metric validate cj dc cap paths :
  generated_paths fuel m validate dc cap = Ok paths ->
  known_metric metric = true -> known_format fmt = false ->
  enumerate_paths fuel m fmt metric validate cj dc cap
  = Raise (ValueError ("Unrecognized format type " +:+ fmt)).
Proof.
  intros Hgen Hm Hf. rewrite enumerate_paths_unfold, Hgen.
  destruct (sort_paths_known paths metric Hm) as (sorted & -> & _). cbn.
  unfold known_format in Hf. apply orb_false_iff in Hf as [-> ->]. reflexivity.
Qed.



(** ** Validated paths (C6) *)

Lemma take_paths_accepted cap v (paths : list PathTree) :
  forall num kept,
    take_paths cap (Some v) num paths = Ok kept ->
    forall p, p ∈ kept -> p ∈ paths /\ v p = Ok true.
Proof.
  induction paths as [|q paths IH]; intros num kept E p Hp; cbn in E.
  - injection E as <-. inversion Hp.
  - destruct (reaches cap num).
    { injection E as <-. inversion Hp. }
    inv_bind E. destruct a.
    + inv_bind E. injection E as <-. apply elem_of_cons in Hp as [->|Hp].
      * split; [apply list_elem_of_here | exact Ha].
      * destruct (IH _ _ Ha0 p Hp) as [Hin Hv].
        split; [apply list_elem_of_further, Hin | exact Hv].
    + destruct (IH _ _ E p Hp) as [Hin Hv].
      split; [apply list_elem_of_further, Hin | exact Hv].
Qed.

Lemma _validate_path_true p : _validate_path p = Ok true -> leaves_terminal p.
Proof.
  unfold _validate_path, leaves_terminal. intros E d Hd.
  apply all_m_true with (x := d) in E; [|exact Hd].
  destruct d as [c|r]; [|discriminate]. exists c. split; [reflexivity|].
  injection E as E. exact E.
Qed.

Lemma sort_paths_Ok gen metric sorted :
  sort_paths gen metric = Ok sorted ->
  exists paths, gen = Ok paths /\ sorted ≡ₚ paths.
Proof.
  unfold sort_paths. intros E.
  destruct (eqs metric "plausibility").
  { inv_bind E. injection E as <-. eexists. split; [eassumption | apply sorted_by_perm]. }
  destruct (eqs metric "number_of_starting_materials").
  { inv_bind E. injection E as <-. eexists. split; [eassumption | apply sorted_by_perm]. }
  destruct (eqs metric "number_of_reactions"); [|discriminate].
  inv_bind E. injection E as <-. eexists. split; [eassumption | apply sorted_by_perm].
Qed.

Lemma enumerate_paths_Ok fuel m fmt metric validate cj dc cap out :
  enumerate_paths fuel m fmt metric validate cj dc cap = Ok out ->
  exists paths, generated_paths fuel m validate dc cap = Ok paths
                /\ out_paths out ≡ₚ paths.
Proof.
  rewrite enumerate_paths_unfold. intros E. inv_bind E.
  apply sort_paths_Ok in Ha as (paths & Hgen & Hperm).
  exists paths. split; [exact Hgen|].
  destruct (eqs fmt "graph"); [injection E as <-; exact Hperm|].
  destruct (eqs fmt "json"); [|discriminate].
  destruct a; [discriminate|]. injection E as <-. exact Hperm.
Qed.

(** C6. With validation enabled, every tree that [enumerate_paths] returns
    has only leaves flagged terminal. *)
Theorem validated_paths_have_terminal_leaves fuel m fmt metric cj dc cap out :
  enumerate_paths fuel m fmt metric true cj dc cap = Ok out ->
  forall p, p ∈ out_paths out -> leaves_terminal p.
Proof.
  intros E p Hp. apply enumerate_paths_Ok in E as (paths & Hgen & Hperm).
  rewrite Hperm in Hp. unfold generated_paths in Hgen.
  inv_bind Hgen. unfold get_paths in Hgen. inv_bind Hgen.
  apply (take_paths_accepted _ _ _ _ _ Hgen) in Hp as [_ Hv].
  apply _validate_path_true, Hv.
Qed.

Lemma validated_paths_have_terminal_leaves_witness :
  exists out,
    enumerate_paths 30 Fixtures.market_tree "graph" "plausibility" true true None None
    = Ok out
    /\ length (out_paths out) = 1%nat
    /\ forall p, p ∈ out_paths out -> leaves_terminal p.
Proof.
  eexists. split; [vm_compute; reflexivity|]. split; [reflexivity|].
  apply (validated_paths_have_terminal_leaves 30 Fixtures.market_tree "graph"
           "plausibility" true None None).
  vm_compute. reflexivity.
Defined.

(** Enumeration never runs out of fuel once the fuel exceeds the depth
    cap: the depth grows with every reaction and stops at the cap. *)
Lemma map_m_fuel {A B} (f : A -> outcome B) (l : list A) :
  (forall x, x ∈ l -> f x <> OutOfFuel) -> map_m f l <> OutOfFuel.
Proof.
  induction l as [|x l IH]; intros Hf; cbn; [discriminate|].
  destruct (f x) as [y| |] eqn:E; cbn.
  - destruct (map_m f l) as [ys| |] eqn:E'; cbn; try discriminate.
    exfalso. apply IH; [|reflexivity].
    intros z Hz. apply Hf, list_elem_of_further, Hz.
  - discriminate.
  - exfalso. apply (Hf x); [apply list_elem_of_here | exact E].
Qed.

Lemma bind_fuel {A B} (m : outcome A) (f : A -> outcome B) :
  m <> OutOfFuel -> (forall a, m = Ok a -> f a <> OutOfFuel) ->
  (x ← m; f x) <> OutOfFuel.
Proof.
  destruct m as [a| |]; cbn; intros Hm Hf; [apply Hf; reflexivity | discriminate |].
  exfalso. apply Hm. reflexivity.
Qed.

Lemma node_attr_fuel s n : node_attr s n <> OutOfFuel.
Proof. unfold node_attr, getitem. destruct (nodes s !! n); discriminate. Qed.

Lemma get_chem_paths_S fuel s dc node depth :
  get_chem_paths (S fuel) s dc node depth
  = (data ← node_attr s node;
     if (out_degree s node =? 0) || reaches dc depth
     then Ok [PathNode node data []]
     else
       subs ← map_m (fun rxn =>
                       ps ← get_rxn_paths_with (get_chem_paths fuel s dc) s rxn (depth + 1);
                       Ok (map (fun sub_path => PathNode node data [sub_path]) ps))
                    (successors s node);
       Ok (concat subs)).
Proof. reflexivity. Qed.

Lemma get_chem_paths_fuel s d :
  forall fuel node depth,
    (Z.to_nat (d - depth) < fuel)%nat ->
    get_chem_paths fuel s (Some d) node depth <> OutOfFuel.
Proof.
  induction fuel as [|fuel IH]; intros node depth Hlt; [lia|].
  rewrite get_chem_paths_S. apply bind_fuel; [apply node_attr_fuel|].
  intros data _. cbn [reaches].
  destruct ((out_degree s node =? 0) || (d <=? depth)) eqn:Ec; [discriminate|].
  apply orb_false_iff in Ec as [_ Ec]. apply Z.leb_gt in Ec.
  apply bind_fuel; [|discriminate].
  apply map_m_fuel. intros rxn _. apply bind_fuel; [|discriminate].
  unfold get_rxn_paths_with. apply bind_fuel.
  - apply map_m_fuel. intros c _. apply IH. lia.
  - intros subs _. destruct (successors s rxn); [discriminate|].
    apply bind_fuel; [apply node_attr_fuel | discriminate].
Qed.

Lemma all_m_fuel {A} (f : A -> outcome bool) (l : list A) :
  (forall x, f x <> OutOfFuel) -> all_m f l <> OutOfFuel.
Proof.
  intros Hf. induction l as [|x l IH]; cbn; [discriminate|].
  destruct (f x) as [[|]| |] eqn:E; cbn; try discriminate; [exact IH|].
  exfalso. exact (Hf x E).
Qed.

Lemma take_paths_fuel cap v (paths : list PathTree) :
  (forall p, v p <> OutOfFuel) ->
  forall num, take_paths cap (Some v) num paths <> OutOfFuel.
Proof.
  intros Hv. induction paths as [|p paths IH]; intros num; cbn; [discriminate|].
  destruct (reaches cap num); [discriminate|].
  destruct (v p) as [[|]| |] eqn:E; cbn; try discriminate.
  - specialize (IH (num + 1)). destruct (take_paths _ _ _ paths); cbn; congruence.
  - apply IH.
  - exfalso. exact (Hv p E).
Qed.

Lemma enumerate_paths_terminates fuel m fmt metric cj dc cap d :
  py_or dc (Some (max_depth (options m))) = Some d ->
  (Z.to_nat d < fuel)%nat ->
  enumerate_paths fuel m fmt metric true cj dc cap <> OutOfFuel.
Proof.
  intros Hd Hfuel. rewrite enumerate_paths_unfold.
  assert (Hgen : generated_paths fuel m true dc cap <> OutOfFuel).
  { unfold generated_paths. destruct (the_target m) as [t| |] eqn:Et; cbn.
    - rewrite Hd. unfold get_paths.
      pose proof (get_chem_paths_fuel (search m) d fuel t 0) as Hc.
      destruct (get_chem_paths fuel (search m) (Some d) t 0) as [paths| |]; cbn.
      + apply take_paths_fuel. intros p. unfold _validate_path. apply all_m_fuel.
        intros [c|r]; discriminate.
      + discriminate.
      + exfalso. apply Hc; [lia | reflexivity].
    - discriminate.
    - unfold the_target, getitem in Et. destruct (target m); discriminate. }
  unfold sort_paths.
  destruct (eqs metric "plausibility");
    [|destruct (eqs metric "number_of_starting_materials");
      [|destruct (eqs metric "number_of_reactions")]];
    try (destruct (generated_paths fuel m true dc cap) as [paths| |]; cbn;
         [|discriminate|congruence];
         destruct (eqs fmt "graph"); [discriminate|];
         destruct (eqs fmt "json"); [|discriminate];
         match goal with |- match ?l with _ => _ end <> _ => destruct l end;
         discriminate).
  cbn. discriminate.
Qed.

(** ** The driver: counters, [clear], [build_tree] (C10, C5) *)

Section Driver.
Context `{Collaborators}.

Lemma is_chemical_done_update_frame cfg s smiles s' b :
  is_chemical_done_update cfg s smiles = Ok (s', b) ->
  edges s' = edges s /\ chemicals s' = chemicals s /\ reactions s' = reactions s
  /\ exists c, nodes s !! smiles = Some (Chemical c)
               /\ nodes s' = <[smiles := Chemical (chem_set_done b c)]> (nodes s).
Proof.
  unfold is_chemical_done_update. intros E. inv_bind E. inv_bind E.
  injection E as <- <-. apply chem_data_Ok in Ha. cbn. eauto 10.
Qed.

Lemma create_chemical_node_frame cfg s smiles s' :
  create_chemical_node cfg s smiles = Ok s' ->
  edges s' = edges s /\ chemicals s' = chemicals s ++ [smiles]
  /\ reactions s' = reactions s
  /\ exists c, nodes s' = <[smiles := Chemical c]> (nodes s)
               /\ explored c = [] /\ terminal c = c_solved c.
Proof.
  unfold create_chemical_node. intros E. inv_bind E. destruct a as [probs indices].
  inv_bind E. inv_bind E. destruct a0 as [s2 b]. injection E as <-.
  apply is_chemical_done_update_frame in Ha1 as (He & Hc & Hr & c & Hn & Hn').
  cbn in He, Hc, Hr, Hn, Hn'. rewrite lookup_insert_eq in Hn. injection Hn as <-.
  rewrite insert_insert_eq in Hn'. eauto 10.
Qed.

Lemma _initialize_frame m tgt m' :
  _initialize m tgt = Ok m' ->
  iterations m' = iterations m /\ time_to_solve m' = time_to_solve m
  /\ options m' = options m /\ target m' = Some tgt
  /\ edges (search m') = edges (search m)
  /\ chemicals (search m') = chemicals (search m) ++ [tgt]
  /\ reactions (search m') = reactions (search m)
  /\ exists c, nodes (search m') = <[tgt := Chemical c]> (nodes (search m))
               /\ terminal c = false /\ c_done c = false /\ c_solved c = false.
Proof.
  unfold _initialize. intros E. inv_bind E. inv_bind E. injection E as <-. cbn.
  apply create_chemical_node_frame in Ha as (He & Hc & Hr & c & Hn & _).
  apply chem_data_Ok in Ha0. rewrite Hn, lookup_insert_eq in Ha0. injection Ha0 as <-.
  repeat (split; [reflexivity || assumption|]).
  exists (chem_set_flags false false false c). rewrite Hn, insert_insert_eq.
  repeat split; reflexivity.
Qed.

(** The loop only ever adds to [iterations], and writes [time_to_solve]
    only while it is zero. *)
Lemma expansion_loop_counters fuel ticks :
  forall start elapsed m m',
    expansion_loop fuel ticks start elapsed m = Ok m' ->
    iterations m <= iterations m'
    /\ (Qtruthy (time_to_solve m) = true -> time_to_solve m' = time_to_solve m).
Proof.
  induction ticks as [|now ticks IH]; intros start elapsed m m' E; cbn in E.
  - destruct (Qltb elapsed (expansion_time (options m))).
    + inv_bind E. destruct a; [|discriminate]. injection E as <-.
      split; [lia | reflexivity].
    + injection E as <-. split; [lia | reflexivity].
  - destruct (Qltb elapsed (expansion_time (options m))).
    2: { injection E as <-. split; [lia | reflexivity]. }
    inv_bind E. destruct a.
    { injection E as <-. split; [lia | reflexivity]. }
    inv_bind E. inv_bind E. cbn in E.
    destruct (Qtruthy (time_to_solve m)) eqn:Et.
    + apply IH in E as [Hi Ht]. cbn in Hi, Ht. split; [lia | intros _; apply Ht, Et].
    + split; [|discriminate]. inv_bind E as root Hroot. destruct (solved root).
      * destruct (return_first (options m)).
        -- injection E as <-. cbn. lia.
        -- apply IH in E as [Hi _]. cbn in Hi. lia.
      * apply IH in E as [Hi _]. cbn in Hi. lia.
Qed.

Lemma build_tree_counters fuel ticks m tgt cfg m' :
  build_tree fuel ticks m tgt cfg = Ok m' ->
  iterations m <= iterations m'
  /\ (Qtruthy (time_to_solve m) = true -> time_to_solve m' = time_to_solve m).
Proof.
  unfold build_tree. intros E. inv_bind E.
  apply _initialize_frame in Ha as (Hi & Ht & _). cbn in Hi, Ht.
  destruct ticks as [|start [|now ticks]]; try discriminate.
  apply expansion_loop_counters in E as [Hi' Ht']. rewrite Hi, Ht in *.
  split; assumption.
Qed.

(** A builder whose iteration budget is already used up is [done] as soon
    as it is initialized: [build_tree] returns it without a rollout. *)
Lemma build_tree_exhausted_budget fuel start now ticks m tgt cfg k m1 :
  max_iterations cfg = Some k -> k <= iterations m ->
  _initialize (mkMCTS (search m) (target m) (iterations m) (time_to_solve m) cfg) tgt
  = Ok m1 ->
  build_tree fuel (start :: now :: ticks) m tgt cfg = Ok m1 /\ done m1 = Ok true.
Proof.
  intros Hk Hle Hinit. unfold build_tree. rewrite Hinit. cbn.
  pose proof (_initialize_frame _ _ _ Hinit)
    as (Hi & _ & Ho & Ht & _ & _ & _ & c & Hn & _ & Hd & _).
  cbn in Hi, Ho.
  assert (Hdone : done m1 = Ok true).
  { unfold done, the_target. rewrite Ht. cbn. unfold is_chemical_done, chem_data.
    rewrite Hn, lookup_insert_eq. cbn. rewrite Ho, Hk, Hi. cbn.
    apply Z.leb_le in Hle. rewrite Hle, Hd. reflexivity. }
  split; [|exact Hdone].
  destruct ticks; cbn; rewrite Hdone;
    destruct (Qltb (now - start) (expansion_time (options m1))); reflexivity.
Qed.

End Driver.

(** C10. [clear()] empties the graph and the two lists and keeps
    [iterations] and [time_to_solve]; [build_tree] never lowers
    [iterations] and keeps a nonzero [time_to_solve]; and when the iteration
    budget of the new build is already reached, [build_tree] on the cleared
    builder returns the freshly initialized builder, [done] and without any
    rollout. *)
Theorem counters_survive_clear_and_build `{Collaborators} fuel ticks m tgt cfg m' :
  build_tree fuel ticks (clear m) tgt cfg = Ok m' ->
  (iterations (clear m) = iterations m
   /\ time_to_solve (clear m) = time_to_solve m
   /\ search (clear m) = empty_search)
  /\ iterations m <= iterations m'
  /\ (Qtruthy (time_to_solve m) = true -> time_to_solve m' = time_to_solve m)
  /\ (forall k, max_iterations cfg = Some k -> k <= iterations m ->
        iterations m' = iterations m
        /\ done m' = Ok true
        /\ chemicals (search m') = [tgt]
        /\ reactions (search m') = []
        /\ edges (search m') = []).
Proof.
  intros E. split; [repeat split; reflexivity|].
  pose proof (build_tree_counters _ _ _ _ _ _ E) as [Hi Ht]. cbn in Hi, Ht.
  split; [exact Hi|]. split; [exact Ht|].
  intros k Hk Hle. unfold build_tree in E.
  destruct (_initialize _ tgt) as [m1| |] eqn:Hinit; try discriminate. cbn in E.
  destruct ticks as [|start [|now ticks]]; try discriminate.
  destruct (build_tree_exhausted_budget fuel start now ticks (clear m) tgt cfg k m1 Hk Hle
              Hinit) as [Hb Hdone].
  unfold build_tree in Hb. rewrite Hinit in Hb. cbn in Hb. rewrite Hb in E.
  injection E as <-.
  apply _initialize_frame in Hinit as (Hi1 & _ & _ & _ & He & Hc & Hr & _).
  cbn in Hi1, He, Hc, Hr. repeat split; assumption.
Qed.

Lemma counters_survive_clear_and_build_witness :
  exists m',
    build_tree (H := Fixtures.stub_world) 20 Fixtures.ticks (clear Fixtures.six_tree) "T"
               (Fixtures.budget 6) = Ok m'
    /\ iterations Fixtures.six_tree = 6
    /\ iterations m' = 6
    /\ done m' = Ok true
    /\ chemicals (search m') = ["T"].
Proof.
  eexists. split; [vm_compute; reflexivity|].
  edestruct (counters_survive_clear_and_build (H := Fixtures.stub_world) 20 Fixtures.ticks
               Fixtures.six_tree "T" (Fixtures.budget 6))
    as (_ & _ & _ & Hk); [vm_compute; reflexivity|].
  destruct (Hk 6) as (Hi & Hd & Hc & _); [reflexivity | vm_compute; discriminate|].
  split; [reflexivity|]. split; [exact Hi|]. split; [exact Hd | exact Hc].
Defined.

(** ** The root after initialization (C5) *)

(** C5, as amended.  Whatever the terminal criterion says about the
    target, [_initialize] leaves the root with [terminal], [done] and
    [solved] all false; on the tree that holds the root alone, validated
    path extraction accepts no tree at all. *)
Theorem initialized_root_is_open `{Collaborators} fuel m tgt m' cj dc cap :
  _initialize (clear m) tgt = Ok m' ->
  (exists c, nodes (search m') !! tgt = Some (Chemical c)
             /\ terminal c = false /\ c_done c = false /\ c_solved c = false)
  /\ is_chemical_done (search m') tgt = Ok false
  /\ generated_paths (S fuel) m' true dc cap = Ok []
  /\ enumerate_paths (S fuel) m' "graph" "plausibility" true cj dc cap
     = Ok (GraphPaths [])
  /\ enumerate_paths (S fuel) m' "json" "plausibility" true cj dc cap
     = Raise IndexError.
Proof.
  intros E.
  apply _initialize_frame in E as (_ & _ & _ & Ht & He & _ & _ & c & Hn & Hc1 & Hc2 & Hc3).
  cbn in He, Hn.
  assert (Hroot : nodes (search m') !! tgt = Some (Chemical c)).
  { rewrite Hn. apply lookup_insert_eq. }
  assert (Hgen : generated_paths (S fuel) m' true dc cap = Ok []).
  { unfold generated_paths, the_target, get_paths. rewrite Ht.
    cbn -[get_chem_paths take_paths]. rewrite get_chem_paths_S.
    rewrite (proj2 (node_attr_Ok _ _ _) Hroot).
    assert (Hdeg : out_degree (search m') tgt = 0).
    { unfold out_degree, successors. rewrite He. reflexivity. }
    cbn. rewrite Hdeg. cbn.
    destruct (reaches (py_or cap (max_trees (options m'))) 0); [reflexivity|].
    unfold _validate_path. cbn. rewrite Hc1. reflexivity. }
  split; [exists c; repeat split; assumption|].
  split.
  { unfold is_chemical_done. rewrite (proj2 (chem_data_Ok _ _ _ _) Hroot). cbn.
    rewrite Hc2. reflexivity. }
  split; [exact Hgen|].
  rewrite !enumerate_paths_unfold, Hgen. split; reflexivity.
Qed.

Lemma initialized_root_is_open_witness :
  exists m',
    _initialize (H := Fixtures.market_world) (clear (new_mcts default_options)) "T" = Ok m'
    /\ is_chemical_done (search m') "T" = Ok false
    /\ enumerate_paths 1 m' "graph" "plausibility" true true None None
       = Ok (GraphPaths []).
Proof.
  eexists. split; [vm_compute; reflexivity|].
  edestruct (initialized_root_is_open (H := Fixtures.market_world) 0
               (new_mcts default_options) "T") as (_ & Hd & _ & Hg & _);
    [vm_compute; reflexivity|].
  split; [exact Hd | exact Hg].
Defined.

(** C5 as stated fails: in the market T itself meets the terminal
    criterion, yet the initialized root is neither solved nor done, a build
    without rollouts yields no path, and the build with one rollout yields
    one path of three nodes (T, the reaction, B), not the single node T. *)
Lemma terminal_target_is_not_solved_at_once :
  is_terminal (H := Fixtures.market_world) default_options "T" (Some 1%Q) (0, 0) = Ok true
  /\ (m ← _initialize (H := Fixtures.market_world) (new_mcts default_options) "T";
      c ← chem_data (search m) "T" "solved";
      Ok (c_solved c, c_done c, terminal c)) = Ok (false, false, false)
  /\ (m ← Fixtures.market_after 0;
      enumerate_paths 30 m "graph" "plausibility" true true None None)
     = Ok (GraphPaths [])
  /\ (m ← Fixtures.market_after 1;
      out ← enumerate_paths 30 m "graph" "plausibility" true true None None;
      Ok (map path_size (out_paths out))) = Ok [3%nat].
Proof. vm_compute. repeat split; reflexivity. Qed.

(** ** Candidate sets that would close a cycle (C4) *)


Lemma in_strs_true x l : in_strs x l = true <-> x ∈ l.
Proof. unfold in_strs. apply bool_decide_eq_true. Qed.

Lemma in_strs_false x l : in_strs x l = false <-> x ∉ l.
Proof. unfold in_strs. apply bool_decide_eq_false. Qed.

Section Cycles.
Context `{Collaborators}.


Lemma process_candidate_cases cfg target template path s l :
  process_candidate cfg target template path s l = Ok s
  \/ process_candidate cfg target template path s l
     = ('(s, complete) ← scan_reactants cfg s target path l;
        if complete : bool then
          tdata ← chem_data s target "templates";
          tscore ← lookup_template template (c_templates tdata);
          s ← register_reaction s (reaction_string l target) template tscore
                (fast_filter (String.concat "." l) target);
          let s := add_edge target (reaction_string l target) s in
          let s := fold_left (fun g reactant => add_edge (reaction_string l target) reactant g)
                             l s in
          _update_value s (reaction_string l target)
        else Ok s).
Proof.
  unfold process_candidate.
  destruct (Qltb _ _); [left; reflexivity|].
  destruct (in_strs _ (banned_reactions cfg)); [left; reflexivity|].
  destruct (existsb _ l); [left; reflexivity|]. right. reflexivity.
Qed.

End Cycles.




(** ** Selection (C2) *)

Lemma filter_m_spec {A} (f : A -> outcome bool) (l : list A) :
  forall kept,
    filter_m f l = Ok kept ->
    (forall x, (x ∈ kept) <-> (x ∈ l /\ f x = Ok true))
    /\ (forall x, x ∈ l -> exists b, f x = Ok b).
Proof.
  induction l as [|y l IH]; intros kept E; cbn in E.
  - injection E as <-. split.
    + intros x. split; [intros Hx; inversion Hx | intros [Hx _]; inversion Hx].
    + intros x Hx. inversion Hx.
  - inv_bind E as b Hb. inv_bind E as r Hr. injection E as <-.
    destruct (IH r Hr) as [IH1 IH2]. split.
    + intros x. destruct b.
      * rewrite !elem_of_cons, IH1. split.
        -- intros [->|[Hx Hf]]; [split; [left; reflexivity | exact Hb]|].
           split; [right; exact Hx | exact Hf].
        -- intros [[->|Hx] Hf]; [left; reflexivity | right; split; assumption].
      * rewrite elem_of_cons, IH1. split.
        -- intros [Hx Hf]. split; [right; exact Hx | exact Hf].
        -- intros [[->|Hx] Hf]; [congruence | split; assumption].
    + intros x Hx. apply elem_of_cons in Hx as [->|Hx]; [eauto | apply IH2, Hx].
Qed.

Lemma map_m_spec {A B} (f : A -> outcome B) (l : list A) :
  forall r,
    map_m f l = Ok r ->
    (forall y, y ∈ r -> exists x, x ∈ l /\ f x = Ok y)
    /\ (forall x, x ∈ l -> exists y, y ∈ r /\ f x = Ok y).
Proof.
  induction l as [|x0 l IH]; intros r E; cbn in E.
  - injection E as <-. split; intros z Hz; inversion Hz.
  - inv_bind E as y0 Hy0. inv_bind E as ys Hys. injection E as <-.
    destruct (IH ys Hys) as [IH1 IH2]. split.
    + intros y Hy. apply elem_of_cons in Hy as [->|Hy].
      * exists x0. split; [apply list_elem_of_here | exact Hy0].
      * destruct (IH1 y Hy) as (x & Hx & Hf). exists x.
        split; [apply list_elem_of_further, Hx | exact Hf].
    + intros x Hx. apply elem_of_cons in Hx as [->|Hx].
      * exists y0. split; [apply list_elem_of_here | exact Hy0].
      * destruct (IH2 x Hx) as (y & Hy & Hf). exists y.
        split; [apply list_elem_of_further, Hy | exact Hf].
Qed.

Lemma min_by_key_spec {A} (key : A -> Z) (l : list A) :
  match min_by_key key l with
  | Some x => x ∈ l /\ forall y, y ∈ l -> key x <= key y
  | None => l = []
  end.
Proof.
  induction l as [|x l IH]; cbn; [reflexivity|].
  destruct (min_by_key key l) as [m|].
  - destruct IH as [Hm Hmin]. destruct (key m <? key x) eqn:E.
    + apply Z.ltb_lt in E. split; [apply list_elem_of_further, Hm|].
      intros y Hy. apply elem_of_cons in Hy as [->|Hy]; [lia | apply Hmin, Hy].
    + apply Z.ltb_ge in E. split; [apply list_elem_of_here|].
      intros y Hy. apply elem_of_cons in Hy as [->|Hy]; [lia|].
      specialize (Hmin y Hy). lia.
  - subst l. split; [apply list_elem_of_here|].
    intros y Hy. apply list_elem_of_singleton in Hy as ->. lia.
Qed.

Section Selection.
Context `{Collaborators}.

Lemma ucb_reaction_spec s templates visits path invalid w options rxn options' :
  ucb_reaction s templates visits path invalid w options rxn = Ok options' ->
  options' = options
  \/ (exists score, options' = options ++ [(score, FollowReaction rxn)])
     /\ (forall c, c ∈ successors s rxn -> c ∉ path)
     /\ (rxn ∉ invalid)
     /\ is_reaction_done s rxn = Ok false.
Proof.
  unfold ucb_reaction. intros E. inv_bind E as rxn_data Hd. inv_bind E as fin Hfin.
  destruct (fin || existsb (fun c => in_strs c path) (successors s rxn)
            || bool_decide (rxn ∈ invalid)) eqn:Eskip.
  - injection E as <-. left. reflexivity.
  - inv_bind E as probs Hp. injection E as <-. right.
    apply orb_false_iff in Eskip as [Eskip Einv].
    apply orb_false_iff in Eskip as [-> Epath].
    split; [eexists; reflexivity|]. split; [|split].
    + intros c Hc Hcp.
      assert (Hex : existsb (fun c => in_strs c path) (successors s rxn) = true).
      { apply existsb_exists. exists c. split; [apply list_elem_of_In, Hc|].
        apply in_strs_true, Hcp. }
      congruence.
    + apply bool_decide_eq_false in Einv. exact Einv.
    + exact Hfin.
Qed.

Lemma ucb_reactions_spec s templates visits path invalid w node (l : list string) :
  forall options options',
    (forall rxn, rxn ∈ l -> rxn ∈ successors s node) ->
    fold_m (ucb_reaction s templates visits path invalid w) options l = Ok options' ->
    forall o, o ∈ options' ->
      o ∈ options
      \/ exists score rxn, o = (score, FollowReaction rxn)
                           /\ offered s node path invalid rxn.
Proof.
  induction l as [|rxn l IH]; intros options options' Hl E o Ho; cbn in E.
  - injection E as <-. left. exact Ho.
  - inv_bind E as mid Hmid.
    assert (Hl' : forall r, r ∈ l -> r ∈ successors s node).
    { intros r Hr. apply Hl, list_elem_of_further, Hr. }
    destruct (IH mid options' Hl' E o Ho) as [Hin|Hoff]; [|right; exact Hoff].
    apply ucb_reaction_spec in Hmid as [->|((score & ->) & Hp & Hi & Hd)];
      [left; exact Hin|].
    apply elem_of_app in Hin as [Hin|Hin]; [left; exact Hin|].
    apply list_elem_of_singleton in Hin as ->. right. exists score, rxn.
    split; [reflexivity|]. split; [apply Hl, list_elem_of_here|]. repeat split; assumption.
Qed.

(** Every reaction among the options of [ucb] is a child of the node, is
    not done, is not marked invalid, and has no precursor on the path;
    every template among them is offered to the node and unexplored. *)
Lemma ucb_options_spec cfg tgt s node path invalid w options :
  ucb cfg tgt s node path invalid w = Ok options ->
  forall score task, (score, task) ∈ options ->
    match task with
    | FollowReaction rxn => offered s node path invalid rxn
    | ApplyTemplate t =>
        exists data, nodes s !! node = Some (Chemical data)
                     /\ t ∈ od_keys (c_templates data) /\ t ∉ explored data
    end.
Proof.
  unfold ucb. intros E score task Ho. inv_bind E as data Hdata.
  inv_bind E as rxn_options Hfold. injection E as <-.
  apply elem_of_sorted_by in Ho.
  assert (Hrx : forall o, o ∈ rxn_options ->
                  exists sc rxn, o = (sc, FollowReaction rxn)
                                 /\ offered s node path invalid rxn).
  { intros o Hin.
    destruct (ucb_reactions_spec _ _ _ _ _ _ node _ [] rxn_options (fun _ Hr => Hr) Hfold
                o Hin) as [Hnil|Hoff]; [inversion Hnil | exact Hoff]. }
  assert (Hcase : (score, task) ∈ rxn_options
                  \/ exists q, first_unexplored (c_templates data) (explored data)
                               = Some q
                               /\ task = ApplyTemplate (fst q)).
  { destruct ((out_degree s node <? max_branching cfg) || eqs node tgt);
      [|left; exact Ho].
    destruct (first_unexplored _ _) as [[t q]|] eqn:Ef; [|left; exact Ho].
    apply elem_of_app in Ho as [Ho|Ho]; [left; exact Ho|].
    apply list_elem_of_singleton in Ho. injection Ho as _ ->. right. eauto. }
  destruct Hcase as [Hin|(q & Hq & ->)].
  - destruct (Hrx _ Hin) as (sc & rxn & Heq & Hoff). injection Heq as _ ->. exact Hoff.
  - exists data. split; [apply chem_data_Ok in Hdata; exact Hdata|].
    unfold first_unexplored in Hq.
    assert (Hq' : q ∈ filter (fun kv => fst kv ∉ explored data) (c_templates data)).
    { destruct (filter _ _) as [|q0 l0]; [discriminate|]. injection Hq as ->.
      apply list_elem_of_here. }
    apply list_elem_of_filter in Hq' as [Hne Hin]. split; [|exact Hne].
    apply elem_of_map. exists q. split; [reflexivity | exact Hin].
Qed.

Lemma open_precursors_spec s invalid task cands :
  open_precursors s invalid task = Ok cands ->
  (forall c v, (c, v) ∈ cands ->
     c ∈ successors s task /\ is_chemical_done s c = Ok false /\ (c ∉ invalid)
     /\ exists d, nodes s !! c = Some d /\ v = visit_count d)
  /\ (forall c, c ∈ successors s task ->
        is_chemical_done s c = Ok true \/ c ∈ invalid
        \/ exists d, nodes s !! c = Some d /\ (c, visit_count d) ∈ cands).
Proof.
  unfold open_precursors. intros E. inv_bind E as kept Hkept.
  apply filter_m_spec in Hkept as [Hk1 Hk2]. apply map_m_spec in E as [Hm1 Hm2].
  assert (Hopen : forall c, (c ∈ kept) <->
            (c ∈ successors s task /\ is_chemical_done s c = Ok false /\ c ∉ invalid)).
  { intros c. rewrite Hk1. split.
    - intros [Hc Hf]. split; [exact Hc|]. inv_bind Hf as d Hd. injection Hf as Hf.
      apply andb_true_iff in Hf as [Hnd Hni]. apply negb_true_iff in Hnd. subst d.
      split; [exact Hd|]. apply bool_decide_eq_true in Hni. exact Hni.
    - intros (Hc & Hd & Hi). split; [exact Hc|]. rewrite Hd. cbn.
      rewrite (bool_decide_eq_true_2 _ Hi). reflexivity. }
  split.
  - intros c v Hcv. destruct (Hm1 _ Hcv) as (c' & Hc' & Hf). inv_bind Hf as d Hd.
    injection Hf as -> <-. apply Hopen in Hc' as (Hs & Hdn & Hi).
    repeat split; try assumption. exists d. split; [apply node_attr_Ok, Hd | reflexivity].
  - intros c Hc. destruct (Hk2 c Hc) as (b & Hb). inv_bind Hb as d Hd.
    injection Hb as Hb. destruct d; [left; exact Hd|].
    destruct (decide (c ∈ invalid)) as [Hi|Hi]; [right; left; exact Hi|].
    right. right. assert (Hck : c ∈ kept) by (apply Hopen; repeat split; assumption).
    destruct (Hm2 c Hck) as (y & Hy & Hf). inv_bind Hf as nd Hnd. injection Hf as <-.
    exists nd. split; [apply node_attr_Ok, Hnd | exact Hy].
Qed.

End Selection.

(** C2, as amended.  When the best option at the leaf is an explored
    reaction, none of its precursors is on the chemical path, and [_select]
    descends to a precursor that is not done and not among the options found
    invalid during this selection, with the lowest visit count among those;
    when there is none, it marks the reaction invalid and keeps both
    paths. *)
Theorem select_follows_reaction `{Collaborators} cfg tgt s chem_path rxn_path invalid
    leaf score task rest r :
  last chem_path = Some leaf ->
  ucb cfg tgt s leaf chem_path invalid (exploration_weight cfg)
  = Ok ((score, FollowReaction task) :: rest) ->
  select_step cfg tgt s chem_path rxn_path invalid = Ok r ->
  (forall c, c ∈ successors s task -> c ∉ chem_path)
  /\ ((exists c,
         r = Continue (chem_path ++ [c]) (rxn_path ++ [task]) invalid
         /\ c ∈ successors s task
         /\ is_chemical_done s c = Ok false
         /\ (c ∉ invalid)
         /\ forall c', c' ∈ successors s task ->
                       is_chemical_done s c' = Ok false -> c' ∉ invalid ->
                       exists d d', nodes s !! c = Some d /\ nodes s !! c' = Some d'
                                    /\ visit_count d <= visit_count d')
      \/ (r = Continue chem_path rxn_path ({[task]} ∪ invalid)
          /\ forall c, c ∈ successors s task ->
                       is_chemical_done s c = Ok true \/ c ∈ invalid)).
Proof.
  intros Hleaf Hucb E.
  pose proof (ucb_options_spec _ _ _ _ _ _ _ _ Hucb score (FollowReaction task)
                (list_elem_of_here _ _)) as (_ & Hpath & _ & _).
  split; [exact Hpath|].
  unfold select_step in E. rewrite Hleaf, Hucb in E. cbn in E.
  inv_bind E as precursor Hpre. unfold choose_precursor in Hpre.
  inv_bind Hpre as cands Hcands. injection Hpre as <-.
  apply open_precursors_spec in Hcands as [Hc1 Hc2].
  pose proof (min_by_key_spec snd cands) as Hmin.
  destruct (min_by_key snd cands) as [[c v]|]; cbn in E; injection E as <-.
  - left. destruct Hmin as [Hin Hle]. exists c.
    destruct (Hc1 c v Hin) as (Hs & Hd & Hi & d & Hnd & ->).
    split; [reflexivity|]. repeat split; try assumption.
    intros c' Hs' Hd' Hi'. destruct (Hc2 c' Hs') as [Hx|[Hx|(d' & Hnd' & Hin')]];
      [congruence | contradiction|].
    exists d, d'. split; [exact Hnd|]. split; [exact Hnd'|].
    apply (Hle _ Hin').
  - right. subst cands. split; [reflexivity|].
    intros c Hs. destruct (Hc2 c Hs) as [Hx|[Hx|(d' & _ & Hin')]];
      [left; exact Hx | right; exact Hx | inversion Hin'].
Qed.

Lemma select_follows_reaction_witness :
  select_step (H := Fixtures.stub_world) (Fixtures.budget 6) "T"
              (search Fixtures.six_tree) ["T"] [] {["X"]}
  = Ok (Continue ["T"; "Y"] ["X.Y>>T"] {["X"]})
  /\ forall c, c ∈ successors (search Fixtures.six_tree) "X.Y>>T" -> c ∉ ["T"].
Proof.
  split; [vm_compute; reflexivity|].
  edestruct (select_follows_reaction (H := Fixtures.stub_world) (Fixtures.budget 6) "T"
               (search Fixtures.six_tree) ["T"] [] {["X"]} "T")
    as [Hpath _]; [reflexivity | vm_compute; reflexivity | vm_compute; reflexivity|].
  exact Hpath.
Defined.

(** C2 as stated fails: in the seventh selection of the stub world X is
    tried first and offers nothing, so the loop backs up to T with X marked
    invalid.  The reaction from X and Y is again the best option; X is not
    done, not on the path and has the lowest visit count (2 against 3), and
    the loop descends to Y. *)
Lemma selection_passes_over_lowest_count :
  Fixtures.seventh_select ["T"] [] ∅ = Ok (Continue ["T"; "X"] ["X.Y>>T"] ∅)
  /\ Fixtures.seventh_select ["T"; "X"] ["X.Y>>T"] ∅ = Ok (Continue ["T"] [] {["X"]})
  /\ (o ← ucb (H := Fixtures.stub_world) (Fixtures.budget 6) "T"
             (search Fixtures.six_tree) "T" ["T"] {["X"]} 1;
      Ok (map snd o)) = Ok [FollowReaction "X.Y>>T"]
  /\ Fixtures.seventh_select ["T"] [] {["X"]}
     = Ok (Continue ["T"; "Y"] ["X.Y>>T"] {["X"]})
  /\ lowest_open_off_path (search Fixtures.six_tree) ["T"] "X.Y>>T" = Ok (Some "X")
  /\ (visit_count <$> nodes (search Fixtures.six_tree) !! "X",
      visit_count <$> nodes (search Fixtures.six_tree) !! "Y") = (Some 2, Some 3).
Proof. vm_compute. repeat split; reflexivity. Qed.

(** ** The shape of reaction nodes (C9) *)

(** *** Strings *)

Lemma append_cons c a b : String c a +:+ b = String c (a +:+ b).
Proof. reflexivity. Qed.

Lemma append_nil b : EmptyString +:+ b = b.
Proof. reflexivity. Qed.

Lemma has_gt_app a b : has_gt (a +:+ b) = has_gt a || has_gt b.
Proof.
  induction a as [|c a IH]; [reflexivity|].
  rewrite append_cons. cbn. rewrite IH, orb_assoc. reflexivity.
Qed.

Lemma has_gt_arrow_tail u : has_gt (">>" +:+ u) = true.
Proof.
  rewrite !append_cons. cbn. rewrite (bool_decide_eq_true_2 _ eq_refl). reflexivity.
Qed.

Lemma has_gt_arrow a u : has_gt (a +:+ ">>" +:+ u) = true.
Proof. rewrite has_gt_app, has_gt_arrow_tail. apply orb_true_r. Qed.

Lemma after_last_gt_arrow a u :
  has_gt u = false -> after_last_gt (a +:+ ">>" +:+ u) = u.
Proof.
  intros Hu. induction a as [|c a IH].
  - rewrite append_nil, !append_cons, append_nil. cbn.
    rewrite Hu, (bool_decide_eq_true_2 _ eq_refl). reflexivity.
  - rewrite append_cons. cbn. rewrite has_gt_arrow. exact IH.
Qed.

Lemma arrow_suffix_unique a u b v :
  a +:+ ">>" +:+ u = b +:+ ">>" +:+ v -> has_gt u = false -> has_gt v = false -> u = v.
Proof.
  intros E Hu Hv. rewrite <- (after_last_gt_arrow a u Hu), <- (after_last_gt_arrow b v Hv).
  rewrite E. reflexivity.
Qed.

(** *** Node types *)

Lemma chemical_node_kind s n :
  chemical_node s n <-> is_chemical <$> nodes s !! n = Some true.
Proof.
  unfold chemical_node. destruct (nodes s !! n) as [[c|r]|]; cbn; split; intros Hx;
    try (destruct Hx as (c0 & E)); try discriminate; eauto.
Qed.

Lemma reaction_node_kind s n :
  (exists d, nodes s !! n = Some (Reaction d))
  <-> is_chemical <$> nodes s !! n = Some false.
Proof.
  destruct (nodes s !! n) as [[c|r]|]; cbn; split; intros Hx;
    try (destruct Hx as (c0 & E)); try discriminate; eauto.
Qed.

Lemma same_shape_refl s : same_shape s s.
Proof. repeat split; reflexivity. Qed.

Lemma same_shape_trans s1 s2 s3 : same_shape s1 s2 -> same_shape s2 s3 -> same_shape s1 s3.
Proof.
  intros (He & Hc & Hr & Hn) (He' & Hc' & Hr' & Hn').
  unfold same_shape. split; [congruence|]. split; [congruence|]. split; [congruence|].
  intros n. rewrite Hn', Hn. reflexivity.
Qed.

Lemma same_shape_set_node s n d0 d :
  nodes s !! n = Some d0 -> is_chemical d = is_chemical d0 ->
  same_shape s (set_node n d s).
Proof.
  intros Hn Hk. repeat split; try reflexivity. intros k. cbn.
  destruct (decide (n = k)) as [->|Hne].
  - rewrite lookup_insert_eq, Hn. cbn. rewrite Hk. reflexivity.
  - rewrite lookup_insert_ne by exact Hne. reflexivity.
Qed.

Lemma wf_core_same_shape s s' : same_shape s s' -> wf_core s -> wf_core s'.
Proof.
  intros (He & Hc & Hr & Hn) [W1 W2 W3 W4]. split.
  - intros c Hin. rewrite Hc in Hin. destruct (W1 c Hin) as [Hg Hk]. split; [exact Hg|].
    apply chemical_node_kind. rewrite Hn. apply chemical_node_kind, Hk.
  - intros r Hin. rewrite Hr in Hin. destruct (W2 r Hin) as [Hg Hk]. split; [exact Hg|].
    apply reaction_node_kind. rewrite Hn. apply reaction_node_kind, Hk.
  - intros u v Hin. rewrite He in Hin. rewrite Hc, Hr. apply W3, Hin.
  - rewrite He. exact W4.
Qed.

Lemma wf_search_same_shape s s' : same_shape s s' -> wf_search s -> wf_search s'.
Proof.
  intros Hs [Hcore Hl]. split; [apply (wf_core_same_shape s); assumption|].
  destruct Hs as (He & _ & Hr & _). intros r Hin. rewrite Hr in Hin.
  unfold rxn_linked. rewrite He. apply Hl, Hin.
Qed.

Lemma is_chemical_set_est_value v d : is_chemical (set_est_value v d) = is_chemical d.
Proof. destruct d; reflexivity. Qed.

Lemma is_chemical_set_solved b d : is_chemical (set_solved b d) = is_chemical d.
Proof. destruct d; reflexivity. Qed.

Lemma is_chemical_set_visit_count n d : is_chemical (set_visit_count n d) = is_chemical d.
Proof. destruct d; reflexivity. Qed.

Lemma is_chemical_done_update_shape cfg s smiles s' b :
  is_chemical_done_update cfg s smiles = Ok (s', b) -> same_shape s s'.
Proof.
  unfold is_chemical_done_update. intros E. inv_bind E as data Hd. inv_bind E as flag Hf.
  injection E as <- <-. apply chem_data_Ok in Hd.
  apply (same_shape_set_node s smiles (Chemical data)); [exact Hd | reflexivity].
Qed.

Lemma _update_value_shape s smiles s' : _update_value s smiles = Ok s' -> same_shape s s'.
Proof.
  unfold _update_value. intros E. inv_bind E as rxn_data Hr.
  destruct rxn_data as [c|rd]; [injection E as <-; apply same_shape_refl|].
  inv_bind E as values Hv. inv_bind E as parent Hp. inv_bind E as chem Hc.
  inv_bind E as rxn2 Hr2. inv_bind E as flag Hf. inv_bind E as chem2 Hc2.
  inv_bind E as rxn3 Hr3. injection E as <-.
  apply node_attr_Ok in Hr, Hc, Hc2, Hr3.
  pose proof (same_shape_set_node s smiles (Reaction rd) _ Hr
                (is_chemical_set_est_value (est_value (Reaction rd) + Qsum values)%Q
                                           (Reaction rd))) as S1.
  pose proof (same_shape_set_node _ parent chem _ Hc
                (is_chemical_set_est_value (est_value chem + Qsum values)%Q chem)) as S2.
  pose proof (same_shape_set_node _ parent chem2 _ Hc2 (is_chemical_set_solved flag chem2))
    as S3.
  pose proof (same_shape_set_node _ smiles rxn3 _ Hr3 (is_chemical_set_solved flag rxn3))
    as S4.
  exact (same_shape_trans _ _ _ (same_shape_trans _ _ _ (same_shape_trans _ _ _ S1 S2) S3)
                          S4).
Qed.

Lemma update_step_shape cfg s item s' : update_step cfg s item = Ok s' -> same_shape s s'.
Proof.
  unfold update_step. intros E. destruct (fst item) as [[i chem]|]; [|discriminate].
  inv_bind E as d Hd. inv_bind E as c Hc. inv_bind E as r1 Hr1. destruct r1 as [s1 b].
  apply node_attr_Ok in Hd. apply chem_data_Ok in Hc.
  apply is_chemical_done_update_shape in Hr1.
  pose proof (same_shape_set_node s chem d _ Hd
                (is_chemical_set_visit_count (visit_count d + 1) d)) as S1.
  pose proof (same_shape_set_node _ chem (Chemical c)
                (Chemical (chem_set_min_depth (min_depth_update (min_depth c) i) c))
                Hc eq_refl) as S2.
  assert (Hs1 : same_shape s s1).
  { exact (same_shape_trans _ _ _ (same_shape_trans _ _ _ S1 S2) Hr1). }
  destruct (snd item) as [rxn|]; [|injection E as <-; exact Hs1].
  inv_bind E as r Hr. apply node_attr_Ok in Hr. apply _update_value_shape in E.
  pose proof (same_shape_set_node _ rxn r _ Hr
                (is_chemical_set_visit_count (visit_count r + 1) r)) as S3.
  exact (same_shape_trans _ _ _ (same_shape_trans _ _ _ Hs1 S3) E).
Qed.

Lemma fold_m_shape {A} (f : Search -> A -> outcome Search) (l : list A) :
  (forall s x s', f s x = Ok s' -> same_shape s s') ->
  forall s s', fold_m f s l = Ok s' -> same_shape s s'.
Proof.
  intros Hf. induction l as [|x l IH]; intros s s' E; cbn in E.
  - injection E as <-. apply same_shape_refl.
  - inv_bind E as s1 Hs1. eapply same_shape_trans; [eapply Hf, Hs1 | apply IH, E].
Qed.

Lemma _update_shape cfg tgt s chem_path rxn_path s' :
  _update cfg tgt s chem_path rxn_path = Ok s' -> same_shape s s'.
Proof.
  unfold _update. intros E. destruct chem_path as [|root rest]; [discriminate|].
  destruct (eqs root tgt); [|discriminate].
  eapply fold_m_shape; [|exact E]. intros s0 x s1. apply update_step_shape.
Qed.

(** *** Edges *)

Lemma elem_of_successors s n c : c ∈ successors s n <-> (n, c) ∈ edges s.
Proof.
  unfold successors. rewrite elem_of_map. split.
  - intros ([u v] & -> & Hin). apply list_elem_of_filter in Hin as [Hu Hin].
    cbn in Hu. subst u. exact Hin.
  - intros Hin. exists (n, c). split; [reflexivity|].
    apply list_elem_of_filter. split; [reflexivity | exact Hin].
Qed.

Lemma elem_of_predecessors s n p : p ∈ predecessors s n <-> (p, n) ∈ edges s.
Proof.
  unfold predecessors. rewrite elem_of_map. split.
  - intros ([u v] & -> & Hin). apply list_elem_of_filter in Hin as [Hv Hin].
    cbn in Hv. subst v. exact Hin.
  - intros Hin. exists (p, n). split; [reflexivity|].
    apply list_elem_of_filter. split; [reflexivity | exact Hin].
Qed.

Lemma add_edge_frame u v s :
  nodes (add_edge u v s) = nodes s /\ chemicals (add_edge u v s) = chemicals s
  /\ reactions (add_edge u v s) = reactions s.
Proof. unfold add_edge. destruct (bool_decide _); repeat split; reflexivity. Qed.

Lemma elem_of_add_edge u v s e :
  e ∈ edges (add_edge u v s) <-> e ∈ edges s \/ e = (u, v).
Proof.
  unfold add_edge. destruct (bool_decide ((u, v) ∈ edges s)) eqn:E; cbn.
  - apply bool_decide_eq_true in E. split; [left; assumption|].
    intros [Hin| ->]; assumption.
  - rewrite elem_of_app, list_elem_of_singleton. reflexivity.
Qed.

Lemma add_edge_nodup u v s : NoDup (edges s) -> NoDup (edges (add_edge u v s)).
Proof.
  unfold add_edge. intros Hnd. destruct (bool_decide ((u, v) ∈ edges s)) eqn:E; cbn.
  - exact Hnd.
  - apply bool_decide_eq_false in E. apply NoDup_app. split; [exact Hnd|].
    split; [|apply NoDup_singleton].
    intros x Hx Hx'. apply list_elem_of_singleton in Hx' as ->. contradiction.
Qed.

Lemma add_edge_wf_core u v s :
  wf_core s ->
  ((u ∈ chemicals s /\ v ∈ reactions s /\ exists pre, v = pre +:+ ">>" +:+ u)
   \/ (u ∈ reactions s /\ v ∈ chemicals s)) ->
  wf_core (add_edge u v s).
Proof.
  intros [W1 W2 W3 W4] Hty. destruct (add_edge_frame u v s) as (Hn & Hc & Hr). split.
  - intros c Hin. rewrite Hc in Hin. destruct (W1 c Hin) as [Hg Hk]. split; [exact Hg|].
    unfold chemical_node. rewrite Hn. exact Hk.
  - intros r Hin. rewrite Hr in Hin. rewrite Hn. apply W2, Hin.
  - intros a b Hin. rewrite Hc, Hr. apply elem_of_add_edge in Hin as [Hin|Heq].
    + apply W3, Hin.
    + injection Heq as -> ->. exact Hty.
  - apply add_edge_nodup, W4.
Qed.

Lemma add_edges_spec (r : string) (l : list string) :
  forall s,
    let s' := fold_left (fun g reactant => add_edge r reactant g) l s in
    nodes s' = nodes s /\ chemicals s' = chemicals s /\ reactions s' = reactions s
    /\ (forall e, e ∈ edges s' <-> e ∈ edges s \/ exists c, c ∈ l /\ e = (r, c)).
Proof.
  induction l as [|c l IH]; intros s; cbn.
  - repeat split; try reflexivity; [left; assumption|].
    intros [Hin|(c & Hc & _)]; [exact Hin | inversion Hc].
  - destruct (IH (add_edge r c s)) as (Hn & Hc & Hr & He).
    destruct (add_edge_frame r c s) as (Hn' & Hc' & Hr').
    split; [congruence|]. split; [congruence|]. split; [congruence|].
    intros e. rewrite He, elem_of_add_edge. split.
    + intros [[Hin| ->]|(c' & Hc'' & ->)].
      * left. exact Hin.
      * right. exists c. split; [apply list_elem_of_here | reflexivity].
      * right. exists c'. split; [apply list_elem_of_further, Hc'' | reflexivity].
    + intros [Hin|(c' & Hc'' & ->)]; [left; left; exact Hin|].
      apply elem_of_cons in Hc'' as [->|Hc'']; [left; right; reflexivity|].
      right. exists c'. split; [exact Hc'' | reflexivity].
Qed.

Lemma add_edges_wf_core (r : string) (l : list string) :
  forall s,
    wf_core s -> r ∈ reactions s -> (forall c, c ∈ l -> c ∈ chemicals s) ->
    wf_core (fold_left (fun g reactant => add_edge r reactant g) l s).
Proof.
  induction l as [|c l IH]; intros s Hwf Hr Hl; cbn; [exact Hwf|].
  destruct (add_edge_frame r c s) as (_ & Hc' & Hr').
  apply IH.
  - apply add_edge_wf_core; [exact Hwf|]. right. split; [exact Hr|].
    apply Hl, list_elem_of_here.
  - rewrite Hr'. exact Hr.
  - intros c' Hc''. rewrite Hc'. apply Hl, list_elem_of_further, Hc''.
Qed.

(** *** From the invariant to the shape of reaction nodes *)

Lemma filter_all_equal {A} `{EqDecision A} (l : list A) (x : A) :
  NoDup l -> (forall y, y ∈ l -> y = x) -> x ∈ l -> l = [x].
Proof.
  intros Hnd Hall Hin. destruct l as [|y l]; [inversion Hin|].
  assert (y = x) by (apply Hall, list_elem_of_here). subst y.
  destruct l as [|z l]; [reflexivity|]. exfalso.
  assert (z = x) by (apply Hall, list_elem_of_further, list_elem_of_here). subst z.
  apply NoDup_cons in Hnd as [Hnot _]. apply Hnot, list_elem_of_here.
Qed.

Lemma nodup_map_fst (l : list (string * string)) (n : string) :
  NoDup l -> (forall e, e ∈ l -> snd e = n) -> NoDup (map fst l).
Proof.
  induction l as [|e l IH]; intros Hnd Hall; cbn; [apply NoDup_nil_2|].
  apply NoDup_cons in Hnd as [Hnot Hnd]. apply NoDup_cons. split.
  - intros Hin. apply elem_of_map in Hin as (e' & Hfst & Hin). apply Hnot.
    assert (e = e') as ->; [|exact Hin].
    destruct e as [u v], e' as [u' v']. cbn in Hfst. subst u'.
    pose proof (Hall (u, v) (list_elem_of_here _ _)) as H1.
    pose proof (Hall (u, v') (list_elem_of_further _ _ _ Hin)) as H2.
    cbn in H1, H2. congruence.
  - apply IH; [exact Hnd|]. intros e' He'. apply Hall, list_elem_of_further, He'.
Qed.

Lemma predecessors_nodup s n : NoDup (edges s) -> NoDup (predecessors s n).
Proof.
  unfold predecessors. intros Hnd. apply (nodup_map_fst _ n).
  - apply NoDup_filter, Hnd.
  - intros e He. apply list_elem_of_filter in He as [He _]. exact He.
Qed.

Lemma wf_chem_not_rxn s x : wf_core s -> x ∈ chemicals s -> x ∈ reactions s -> False.
Proof.
  intros [W1 W2 _ _] Hc Hr. destruct (W1 x Hc) as [Hg _]. destruct (W2 x Hr) as [Hg' _].
  congruence.
Qed.

(** Under the invariant every reaction has one parent, a chemical, and at
    least one child, all chemicals. *)
Lemma wf_reaction_shape s : wf_search s -> reaction_shape s.
Proof.
  intros [Hcore Hlinked] r Hr. pose proof Hcore as [W1 W2 W3 W4].
  destruct (Hlinked r Hr) as [(p & Hp) (c & Hc)].
  assert (Hparent : forall u, (u, r) ∈ edges s ->
            u ∈ chemicals s /\ exists pre, r = pre +:+ ">>" +:+ u).
  { intros u Hu. destruct (W3 u r Hu) as [(Huc & _ & Hpre)|[_ Hrc]]; [split; assumption|].
    exfalso. exact (wf_chem_not_rxn s r Hcore Hrc Hr). }
  split; [|split].
  - exists p. split.
    + apply filter_all_equal.
      * apply predecessors_nodup, W4.
      * intros u Hu. apply elem_of_predecessors in Hu.
        destruct (Hparent u Hu) as [Huc (pre & Hpre)].
        destruct (Hparent p Hp) as [Hpc (pre' & Hpre')].
        apply (arrow_suffix_unique pre u pre' p); [congruence | apply W1, Huc | apply W1, Hpc].
      * apply elem_of_predecessors, Hp.
    + apply W1. apply Hparent, Hp.
  - intros E. apply elem_of_successors in Hc. rewrite E in Hc. inversion Hc.
  - intros c' Hc'. apply elem_of_successors in Hc'.
    destruct (W3 r c' Hc') as [(Hrc & _)|[_ Hcc]]; [|apply W1, Hcc].
    exfalso. exact (wf_chem_not_rxn s r Hcore Hrc Hr).
Qed.

(** *** The invariant along a rollout *)

Lemma elem_of_removelast {A} (l : list A) (x : A) : x ∈ removelast l -> x ∈ l.
Proof.
  induction l as [|y l IH]; cbn; [intros Hx; exact Hx|].
  destruct l as [|z l]; [intros Hx; inversion Hx|].
  intros Hx. apply elem_of_cons in Hx as [->|Hx]; [apply list_elem_of_here|].
  apply list_elem_of_further, IH, Hx.
Qed.

Lemma last_elem_of {A} (l : list A) (x : A) : last l = Some x -> x ∈ l.
Proof.
  induction l as [|y l IH]; cbn; [discriminate|].
  destruct l as [|z l]; [intros E; injection E as ->; apply list_elem_of_here|].
  intros E. apply list_elem_of_further, IH, E.
Qed.

Section Invariant.
Context `{Collaborators}.

Lemma create_chemical_node_wf cfg s smiles s' :
  wf_core s -> has_gt smiles = false ->
  create_chemical_node cfg s smiles = Ok s' ->
  wf_core s' /\ edges s' = edges s /\ reactions s' = reactions s
  /\ chemicals s' = chemicals s ++ [smiles].
Proof.
  intros [W1 W2 W3 W4] Hg E.
  apply create_chemical_node_frame in E as (He & Hc & Hr & c & Hn & _).
  split; [|split; [exact He|split; [exact Hr | exact Hc]]]. split.
  - intros c0 Hin. rewrite Hc in Hin. unfold chemical_node. rewrite Hn.
    apply elem_of_app in Hin as [Hin|Hin].
    + destruct (W1 c0 Hin) as [Hg0 (d & Hd)]. split; [exact Hg0|].
      destruct (decide (smiles = c0)) as [->|Hne].
      * rewrite lookup_insert_eq. eauto.
      * rewrite lookup_insert_ne by exact Hne. eauto.
    + apply list_elem_of_singleton in Hin as ->. split; [exact Hg|].
      rewrite lookup_insert_eq. eauto.
  - intros r Hin. rewrite Hr in Hin. destruct (W2 r Hin) as [Hgr Hd]. split; [exact Hgr|].
    rewrite Hn, lookup_insert_ne; [exact Hd|]. intros ->. congruence.
  - intros u v Hin. rewrite He in Hin. rewrite Hc, Hr.
    destruct (W3 u v Hin) as [(Hu & Hv & Hpre)|[Hu Hv]].
    + left. split; [apply elem_of_app; left; exact Hu|]. split; assumption.
    + right. split; [exact Hu|]. apply elem_of_app. left. exact Hv.
  - rewrite He. exact W4.
Qed.

Lemma scan_reactants_wf cfg target path (l : list string) :
  forall s s1 b,
    wf_core s -> (forall r, r ∈ l -> has_gt r = false) ->
    scan_reactants cfg s target path l = Ok (s1, b) ->
    wf_core s1 /\ edges s1 = edges s /\ reactions s1 = reactions s
    /\ (forall c, c ∈ chemicals s -> c ∈ chemicals s1)
    /\ (b = true -> forall r, r ∈ l -> r ∈ chemicals s1).
Proof.
  induction l as [|reactant rest IH]; intros s s1 b Hwf Hl E; cbn in E.
  - injection E as <- <-. split; [exact Hwf|]. split; [reflexivity|].
    split; [reflexivity|]. split; [intros c Hc; exact Hc|].
    intros _ r Hr. inversion Hr.
  - assert (Hrest : forall r, r ∈ rest -> has_gt r = false).
    { intros r Hr. apply Hl, list_elem_of_further, Hr. }
    destruct (in_strs reactant (chemicals s)) eqn:Ein.
    + destruct (in_strs reactant path || has_path s reactant target).
      * injection E as <- <-. split; [exact Hwf|]. split; [reflexivity|].
        split; [reflexivity|]. split; [intros c Hc; exact Hc | discriminate].
      * destruct (IH s s1 b Hwf Hrest E) as (Hwf1 & He & Hr & Hmono & Hall).
        split; [exact Hwf1|]. split; [exact He|]. split; [exact Hr|].
        split; [exact Hmono|].
        intros Hb r Hin. apply elem_of_cons in Hin as [->|Hin]; [|apply Hall; assumption].
        apply Hmono, in_strs_true, Ein.
    + inv_bind E as s' Hs'.
      destruct (create_chemical_node_wf cfg s reactant s' Hwf
                  (Hl reactant (list_elem_of_here _ _)) Hs') as (Hwf' & He' & Hr' & Hc').
      destruct (IH s' s1 b Hwf' Hrest E) as (Hwf1 & He & Hr & Hmono & Hall).
      split; [exact Hwf1|]. split; [congruence|]. split; [congruence|]. split.
      * intros c Hc. apply Hmono. rewrite Hc'. apply elem_of_app. left. exact Hc.
      * intros Hb r Hin. apply elem_of_cons in Hin as [->|Hin]; [|apply Hall; assumption].
        apply Hmono. rewrite Hc'. apply elem_of_app. right. apply list_elem_of_here.
Qed.

Lemma register_reaction_wf s rs template tscore ff s2 :
  wf_core s -> has_gt rs = true ->
  register_reaction s rs template tscore ff = Ok s2 ->
  wf_core s2 /\ edges s2 = edges s /\ chemicals s2 = chemicals s
  /\ rs ∈ reactions s2
  /\ (forall r, r ∈ reactions s2 <-> r ∈ reactions s \/ r = rs).
Proof.
  intros Hwf Hg E. unfold register_reaction in E.
  destruct (in_strs rs (reactions s)) eqn:Ein.
  - apply in_strs_true in Ein. inv_bind E as d Hd.
    destruct d as [c|r]; [discriminate|]. injection E as <-.
    apply node_attr_Ok in Hd.
    pose proof (same_shape_set_node s rs (Reaction r)
                  (Reaction (mkRxn (r_est_value r) (ff_score r) (r_solved r)
                                   (Qmax (template_score r) tscore)
                                   (r_templates r ++ [template]) (r_visit_count r)))
                  Hd eq_refl) as Hs.
    split; [apply (wf_core_same_shape s); assumption|].
    split; [reflexivity|]. split; [reflexivity|]. split; [exact Ein|].
    intros r0. cbn. split; [left; assumption|]. intros [Hin| ->]; assumption.
  - apply in_strs_false in Ein. injection E as <-. unfold create_reaction_node.
    destruct Hwf as [W1 W2 W3 W4]. cbn.
    split; [|split; [reflexivity|split; [reflexivity|split]]].
    + split; cbn.
      * intros c Hin. destruct (W1 c Hin) as [Hgc (d & Hd)]. split; [exact Hgc|].
        unfold chemical_node. cbn. rewrite lookup_insert_ne; [eauto|].
        intros ->. congruence.
      * intros r Hin. apply elem_of_app in Hin as [Hin|Hin].
        -- destruct (W2 r Hin) as [Hgr (d & Hd)]. split; [exact Hgr|].
           destruct (decide (rs = r)) as [->|Hne].
           ++ rewrite lookup_insert_eq. eauto.
           ++ rewrite lookup_insert_ne by exact Hne. eauto.
        -- apply list_elem_of_singleton in Hin as ->. split; [exact Hg|].
           rewrite lookup_insert_eq. eauto.
      * intros u v Hin. destruct (W3 u v Hin) as [(Hu & Hv & Hpre)|[Hu Hv]].
        -- left. split; [exact Hu|]. split; [apply elem_of_app; left; exact Hv | exact Hpre].
        -- right. split; [apply elem_of_app; left; exact Hu | exact Hv].
      * exact W4.
    + apply elem_of_app. right. apply list_elem_of_here.
    + intros r. rewrite elem_of_app, list_elem_of_singleton. reflexivity.
Qed.

Lemma reaction_string_arrow l target :
  exists pre, reaction_string l target = pre +:+ ">>" +:+ target.
Proof. exists (String.concat "." l). reflexivity. Qed.

Lemma process_candidate_wf cfg target template path s l s' :
  wf_search s -> target ∈ chemicals s -> l <> [] ->
  (forall r, r ∈ l -> has_gt r = false) ->
  process_candidate cfg target template path s l = Ok s' ->
  wf_search s' /\ (forall c, c ∈ chemicals s -> c ∈ chemicals s').
Proof.
  intros [Hcore Hlinked] Htgt Hne Hl E.
  destruct (process_candidate_cases cfg target template path s l) as [Hp|Hp];
    rewrite Hp in E.
  { injection E as <-. split; [split; assumption|]. intros c Hc. exact Hc. }
  inv_bind E as scanned Hscan. destruct scanned as [s1 complete].
  destruct (scan_reactants_wf _ _ _ _ _ _ _ Hcore Hl Hscan)
    as (Hcore1 & He1 & Hr1 & Hmono & Hall).
  assert (Hlinked1 : forall r, r ∈ reactions s1 -> rxn_linked s1 r).
  { intros r Hr. rewrite Hr1 in Hr. unfold rxn_linked. rewrite He1. apply Hlinked, Hr. }
  destruct complete.
  2: { injection E as <-. split; [split; assumption | exact Hmono]. }
  specialize (Hall eq_refl).
  inv_bind E as tdata Htd. inv_bind E as tscore Hts. inv_bind E as s2 Hreg.
  set (rs := reaction_string l target) in *.
  destruct (reaction_string_arrow l target) as (pre & Hpre). fold rs in Hpre.
  assert (Hgrs : has_gt rs = true) by (rewrite Hpre; apply has_gt_arrow).
  destruct (register_reaction_wf _ _ _ _ _ _ Hcore1 Hgrs Hreg)
    as (Hcore2 & He2 & Hc2 & Hrs2 & Hr2).
  set (s3 := add_edge target rs s2) in *.
  destruct (add_edge_frame target rs s2) as (Hn3 & Hc3 & Hr3). fold s3 in Hn3, Hc3, Hr3.
  assert (Hcore3 : wf_core s3).
  { apply add_edge_wf_core; [exact Hcore2|]. left.
    split; [rewrite Hc2; apply Hmono, Htgt|]. split; [exact Hrs2|]. eauto. }
  set (s4 := fold_left (fun g reactant => add_edge rs reactant g) l s3) in *.
  destruct (add_edges_spec rs l s3) as (Hn4 & Hc4 & Hr4 & He4). fold s4 in Hn4, Hc4, Hr4, He4.
  assert (Hcore4 : wf_core s4).
  { apply add_edges_wf_core; [exact Hcore3 | rewrite Hr3; exact Hrs2|].
    intros c Hc. rewrite Hc3, Hc2. apply Hall, Hc. }
  assert (Hwf4 : wf_search s4).
  { split; [exact Hcore4|]. intros r Hr. rewrite Hr4, Hr3 in Hr.
    apply Hr2 in Hr as [Hr| ->].
    - destruct (Hlinked1 r Hr) as [(p & Hp') (c & Hc')]. split.
      + exists p. apply He4. left. apply elem_of_add_edge. left. rewrite He2. exact Hp'.
      + exists c. apply He4. left. apply elem_of_add_edge. left. rewrite He2. exact Hc'.
    - split.
      + exists target. apply He4. left. apply elem_of_add_edge. right. reflexivity.
      + destruct l as [|c0 l0]; [contradiction|]. exists c0. apply He4. right.
        exists c0. split; [apply list_elem_of_here | reflexivity]. }
  apply _update_value_shape in E. split.
  - apply (wf_search_same_shape s4); assumption.
  - intros c Hc. destruct E as (_ & Hc5 & _). rewrite Hc5, Hc4, Hc3, Hc2.
    apply Hmono, Hc.
Qed.

Lemma _process_precursors_wf cfg target template path (precursors : list (list string)) :
  forall s s',
    wf_search s -> target ∈ chemicals s ->
    (forall l, l ∈ precursors -> l <> [] /\ forall r, r ∈ l -> has_gt r = false) ->
    _process_precursors cfg s target template precursors path = Ok s' ->
    wf_search s' /\ (forall c, c ∈ chemicals s -> c ∈ chemicals s').
Proof.
  unfold _process_precursors.
  induction precursors as [|l rest IH]; intros s s' Hwf Htgt Hp E; cbn in E.
  - injection E as <-. split; [exact Hwf|]. intros c Hc. exact Hc.
  - inv_bind E as s1 Hs1.
    destruct (Hp l (list_elem_of_here _ _)) as [Hne Hl].
    destruct (process_candidate_wf _ _ _ _ _ _ _ Hwf Htgt Hne Hl Hs1) as [Hwf1 Hmono1].
    destruct (IH s1 s' Hwf1 (Hmono1 _ Htgt)) as [Hwf' Hmono']; [|exact E|].
    + intros l' Hl'. apply Hp, list_elem_of_further, Hl'.
    + split; [exact Hwf'|]. intros c Hc. apply Hmono', Hmono1, Hc.
Qed.

Lemma _expand_wf cfg s chem_path template s' :
  precursors_well_formed ->
  wf_search s -> (forall c, c ∈ chem_path -> c ∈ chemicals s) ->
  _expand cfg s chem_path template = Ok s' ->
  wf_search s' /\ (forall c, c ∈ chemicals s -> c ∈ chemicals s').
Proof.
  intros Hprec Hwf Hpath E. unfold _expand in E.
  destruct (last chem_path) as [leaf|] eqn:Eleaf; [|discriminate].
  inv_bind E as data Hd. apply chem_data_Ok in Hd.
  destruct (in_ints template (explored data)).
  { injection E as <-. split; [exact Hwf|]. intros c Hc. exact Hc. }
  pose proof (same_shape_set_node s leaf (Chemical data)
                (Chemical (chem_set_explored (explored data ++ [template]) data))
                Hd eq_refl) as Hs.
  apply (_process_precursors_wf _ _ _ _ _ _ _
           (wf_search_same_shape _ _ Hs Hwf)) in E as [Hwf' Hmono].
  - split; [exact Hwf'|]. exact Hmono.
  - cbn. apply Hpath, last_elem_of, Eleaf.
  - intros l Hl. apply (Hprec leaf template l Hl).
Qed.

(** The chemical path that [_select] returns runs through chemicals. *)
Lemma select_step_path cfg tgt s chem_path rxn_path invalid r :
  wf_core s -> (forall c, c ∈ chem_path -> c ∈ chemicals s) ->
  select_step cfg tgt s chem_path rxn_path invalid = Ok r ->
  forall c, c ∈ match r with
                | Continue cp _ _ => cp
                | Selected cp _ _ => cp
                end -> c ∈ chemicals s.
Proof.
  intros Hcore Hpath E. unfold select_step in E.
  destruct (last chem_path) as [leaf|] eqn:Eleaf; [|discriminate].
  inv_bind E as opts Hucb. destruct opts as [|[score task] rest].
  - destruct rxn_path; [discriminate|]. injection E as <-.
    intros c Hc. apply Hpath, elem_of_removelast, Hc.
  - destruct task as [task|template].
    + inv_bind E as precursor Hpre. destruct precursor as [p|]; injection E as <-;
        [|exact Hpath].
      intros c Hc. apply elem_of_app in Hc as [Hc|Hc]; [apply Hpath, Hc|].
      apply list_elem_of_singleton in Hc as ->.
      pose proof (ucb_options_spec _ _ _ _ _ _ _ _ Hucb score (FollowReaction task)
                    (list_elem_of_here _ _)) as (Htask & _).
      unfold choose_precursor in Hpre. inv_bind Hpre as cands Hcands.
      injection Hpre as Hmin. apply open_precursors_spec in Hcands as [Hc1 _].
      pose proof (min_by_key_spec snd cands) as Hspec.
      destruct (min_by_key snd cands) as [[c v]|]; [|discriminate].
      injection Hmin as ->. destruct Hspec as [Hin _].
      destruct (Hc1 p v Hin) as (Hsucc & _).
      apply elem_of_successors in Htask, Hsucc. pose proof Hcore as [W1 W2 W3 W4].
      assert (Hleaf : leaf ∈ chemicals s) by (apply Hpath, last_elem_of, Eleaf).
      assert (Htr : task ∈ reactions s).
      { destruct (W3 _ _ Htask) as [(_ & Ht & _)|[Hl _]]; [exact Ht|].
        exfalso. exact (wf_chem_not_rxn s leaf Hcore Hleaf Hl). }
      destruct (W3 _ _ Hsucc) as [(Ht & _)|[_ Hp]]; [|exact Hp].
      exfalso. exact (wf_chem_not_rxn s task Hcore Ht Htr).
    + injection E as <-. exact Hpath.
Qed.

Lemma select_loop_path cfg tgt s fuel :
  forall chem_path rxn_path invalid cp rp template,
    wf_core s -> (forall c, c ∈ chem_path -> c ∈ chemicals s) ->
    select_loop fuel cfg tgt s chem_path rxn_path invalid = Ok (cp, rp, template) ->
    forall c, c ∈ cp -> c ∈ chemicals s.
Proof.
  induction fuel as [|fuel IH]; intros chem_path rxn_path invalid cp rp template Hcore Hpath E;
    cbn in E; [discriminate|].
  inv_bind E as r Hr. pose proof (select_step_path _ _ _ _ _ _ _ Hcore Hpath Hr) as Hnext.
  destruct r as [cp' rp' inv'|cp' rp' t'].
  - apply (IH _ _ _ _ _ _ Hcore Hnext E).
  - injection E as <- _ _. exact Hnext.
Qed.

Lemma _rollout_wf fuel cfg tgt s s' :
  precursors_well_formed ->
  wf_search s -> tgt ∈ chemicals s ->
  _rollout fuel cfg tgt s = Ok s' ->
  wf_search s' /\ tgt ∈ chemicals s'.
Proof.
  intros Hprec Hwf Htgt E. unfold _rollout in E. inv_bind E as sel Hsel.
  destruct sel as [[chem_path rxn_path] template]. inv_bind E as s1 Hexp.
  assert (Hpath : forall c, c ∈ chem_path -> c ∈ chemicals s).
  { unfold _select in Hsel.
    apply (select_loop_path cfg tgt s fuel [tgt] [] ∅ chem_path rxn_path template
             (proj1 Hwf)); [|exact Hsel].
    intros c Hc. apply list_elem_of_singleton in Hc as ->. exact Htgt. }
  destruct (_expand_wf _ _ _ _ _ Hprec Hwf Hpath Hexp) as [Hwf1 Hmono].
  apply _update_shape in E. split.
  - apply (wf_search_same_shape s1); assumption.
  - destruct E as (_ & Hc & _). rewrite Hc. apply Hmono, Htgt.
Qed.

Lemma expansion_loop_wf fuel ticks :
  forall start elapsed m m' tgt,
    precursors_well_formed ->
    target m = Some tgt -> wf_search (search m) -> tgt ∈ chemicals (search m) ->
    expansion_loop fuel ticks start elapsed m = Ok m' ->
    target m' = Some tgt /\ wf_search (search m') /\ tgt ∈ chemicals (search m').
Proof.
  induction ticks as [|now ticks IH]; intros start elapsed m m' tgt Hprec Ht Hwf Htgt E;
    cbn in E.
  - destruct (Qltb elapsed (expansion_time (options m))).
    + inv_bind E as d Hd. destruct d; [|discriminate]. injection E as <-. auto.
    + injection E as <-. auto.
  - destruct (Qltb elapsed (expansion_time (options m))).
    2: { injection E as <-. auto. }
    inv_bind E as d Hd. destruct d; [injection E as <-; auto|].
    inv_bind E as t Htt. unfold the_target in Htt. rewrite Ht in Htt. injection Htt as <-.
    inv_bind E as s1 Hroll.
    destruct (_rollout_wf _ _ _ _ _ Hprec Hwf Htgt Hroll) as [Hwf1 Htgt1].
    cbn in E. destruct (Qtruthy (time_to_solve m)).
    + apply (IH _ _ _ _ tgt Hprec) in E; [exact E | exact Ht | exact Hwf1 | exact Htgt1].
    + inv_bind E as root Hroot. destruct (solved root).
      * destruct (return_first (options m)).
        -- injection E as <-. auto.
        -- apply (IH _ _ _ _ tgt Hprec) in E; [exact E | exact Ht | exact Hwf1 | exact Htgt1].
      * apply (IH _ _ _ _ tgt Hprec) in E; [exact E | exact Ht | exact Hwf1 | exact Htgt1].
Qed.

Lemma wf_core_empty : wf_core empty_search.
Proof.
  split; cbn.
  - intros c Hc. inversion Hc.
  - intros r Hr. inversion Hr.
  - intros u v Hin. inversion Hin.
  - apply NoDup_nil_2.
Qed.

Lemma _initialize_wf m tgt m' :
  has_gt tgt = false ->
  _initialize (clear m) tgt = Ok m' ->
  target m' = Some tgt /\ wf_search (search m') /\ tgt ∈ chemicals (search m').
Proof.
  intros Hg E. unfold _initialize in E. inv_bind E as s Hs. inv_bind E as c Hc.
  injection E as <-. cbn.
  destruct (create_chemical_node_wf _ _ _ _ wf_core_empty Hg Hs) as (Hcore & He & Hr & Hch).
  apply chem_data_Ok in Hc.
  pose proof (same_shape_set_node s tgt (Chemical c)
                (Chemical (chem_set_flags false false false c)) Hc eq_refl) as Hshape.
  split; [reflexivity|]. split.
  - apply (wf_search_same_shape s); [exact Hshape|]. split; [exact Hcore|].
    intros r Hin. rewrite Hr in Hin. inversion Hin.
  - rewrite Hch. apply elem_of_app. right. apply list_elem_of_here.
Qed.

(** The invariant holds on every tree that [build_tree] returns for a
    cleared builder. *)
Lemma build_tree_wf fuel ticks m tgt cfg m' :
  precursors_well_formed ->
  has_gt tgt = false ->
  build_tree fuel ticks (clear m) tgt cfg = Ok m' ->
  target m' = Some tgt /\ wf_search (search m') /\ tgt ∈ chemicals (search m').
Proof.
  intros Hprec Hg E. unfold build_tree in E. inv_bind E as m1 Hinit.
  change (mkMCTS (search (clear m)) (target (clear m)) (iterations (clear m))
                 (time_to_solve (clear m)) cfg)
    with (clear (mkMCTS (search m) (target m) (iterations m) (time_to_solve m) cfg))
    in Hinit.
  apply (_initialize_wf _ _ _ Hg) in Hinit as (Ht & Hwf & Htgt).
  destruct ticks as [|start [|now ticks]]; try discriminate.
  exact (expansion_loop_wf _ _ _ _ _ _ _ Hprec Ht Hwf Htgt E).
Qed.

End Invariant.

(** C9. In every tree that [build_tree] leaves behind, each reaction node
    has exactly one parent, a chemical node, and at least one child, all
    chemical nodes; the same holds after every single rollout
    ([_rollout_wf]).  Template application is taken to return non-empty
    precursor sets of SMILES of molecules, and the target to be one. *)
Theorem reaction_nodes_have_one_parent `{Collaborators} fuel ticks m tgt cfg m' :
  precursors_well_formed ->
  has_gt tgt = false ->
  build_tree fuel ticks (clear m) tgt cfg = Ok m' ->
  reaction_shape (search m').
Proof.
  intros Hprec Hg E. apply wf_reaction_shape.
  apply (build_tree_wf _ _ _ _ _ _ Hprec Hg E).
Qed.

Lemma stub_precursors_well_formed : precursors_well_formed (H := Fixtures.stub_world).
Proof.
  intros smiles template l Hl. cbn in Hl. unfold Fixtures.stub_precursors in Hl.
  assert (Hcase : l = ["X"; "Y"] \/ l = ["B"] \/ l = ["Z"] \/ l = ["W"]).
  { repeat match type of Hl with
           | _ ∈ (if ?b then _ else _) => destruct b
           end;
      try (apply list_elem_of_singleton in Hl; subst l; tauto);
      inversion Hl. }
  assert (Hx : forall x, x ∈ ["X"; "Y"; "B"; "Z"; "W"] -> has_gt x = false).
  { intros x Hx. repeat (apply elem_of_cons in Hx as [->|Hx]; [vm_compute; reflexivity|]).
    inversion Hx. }
  destruct Hcase as [Hc|[Hc|[Hc|Hc]]]; subst l; (split; [discriminate|]);
    intros r Hr; apply Hx;
    repeat (apply elem_of_cons in Hr as [->|Hr];
            [solve [repeat (apply list_elem_of_here || apply list_elem_of_further)]|]);
    inversion Hr.
Qed.

Lemma reaction_nodes_have_one_parent_witness :
  reaction_shape (search Fixtures.six_tree).
Proof.
  apply (reaction_nodes_have_one_parent (H := Fixtures.stub_world) 20 Fixtures.ticks
           (new_mcts default_options) "T" (Fixtures.budget 6)).
  - exact stub_precursors_well_formed.
  - vm_compute. reflexivity.
  - vm_compute. reflexivity.
Defined.

(** ** Enumeration on well-formed trees

    On a tree that satisfies the invariant the enumeration of paths raises
    nothing: every node it visits has its attributes, every reaction has
    precursors, and every leaf is a chemical. *)

Lemma map_m_Ok {A B} (f : A -> outcome B) (P : B -> Prop) (l : list A) :
  (forall x, x ∈ l -> exists y, f x = Ok y /\ P y) ->
  exists ys, map_m f l = Ok ys /\ (forall y, y ∈ ys -> P y) /\ length ys = length l.
Proof.
  induction l as [|x l IH]; intros Hf; cbn.
  - exists []. split; [reflexivity|]. split; [|reflexivity]. intros y Hy. inversion Hy.
  - destruct (Hf x (list_elem_of_here _ _)) as (y & Hy & Py). rewrite Hy. cbn.
    destruct IH as (ys & Hys & Pys & Hlen).
    { intros z Hz. apply Hf, list_elem_of_further, Hz. }
    rewrite Hys. cbn. exists (y :: ys). split; [reflexivity|]. split.
    + intros z Hz. apply elem_of_cons in Hz as [->|Hz]; [exact Py | apply Pys, Hz].
    + cbn. rewrite Hlen. reflexivity.
Qed.

Lemma elem_of_flat_map {A B} (f : A -> list B) (l : list A) (y : B) :
  y ∈ flat_map f l <-> exists x, x ∈ l /\ y ∈ f x.
Proof.
  rewrite list_elem_of_In, in_flat_map. split.
  - intros (x & Hx & Hy). exists x. split; apply list_elem_of_In; assumption.
  - intros (x & Hx & Hy). exists x. split; apply list_elem_of_In; assumption.
Qed.

Lemma product_spec {A} (lists : list (list A)) :
  forall combo, combo ∈ product lists ->
    length combo = length lists
    /\ forall x, x ∈ combo -> exists l, l ∈ lists /\ x ∈ l.
Proof.
  induction lists as [|l lists IH]; intros combo Hc; cbn in Hc.
  - apply list_elem_of_singleton in Hc as ->. split; [reflexivity|].
    intros x Hx. inversion Hx.
  - apply elem_of_flat_map in Hc as (x & Hx & Hc).
    apply elem_of_map in Hc as (rest & -> & Hrest).
    destruct (IH rest Hrest) as [Hlen Hall]. split; [cbn; rewrite Hlen; reflexivity|].
    intros y Hy. apply elem_of_cons in Hy as [->|Hy].
    + exists l. split; [apply list_elem_of_here | exact Hx].
    + destruct (Hall y Hy) as (l' & Hl' & Hyl'). exists l'.
      split; [apply list_elem_of_further, Hl' | exact Hyl'].
Qed.

Lemma leaves_inner n d (cs : list PathTree) :
  cs <> [] -> leaves (PathNode n d cs) = flat_map leaves cs.
Proof. destruct cs; [contradiction | reflexivity]. Qed.

Lemma elem_of_concat {A} (ls : list (list A)) (x : A) :
  x ∈ concat ls <-> exists l, l ∈ ls /\ x ∈ l.
Proof.
  rewrite list_elem_of_In, in_concat. split.
  - intros (l & Hl & Hx). exists l. split; apply list_elem_of_In; assumption.
  - intros (l & Hl & Hx). exists l. split; apply list_elem_of_In; assumption.
Qed.

Lemma get_chem_paths_Ok s d :
  wf_search s ->
  forall fuel node depth,
    node ∈ chemicals s ->
    (Z.to_nat (d - depth) < fuel)%nat ->
    exists paths,
      get_chem_paths fuel s (Some d) node depth = Ok paths
      /\ forall p, p ∈ paths -> forall x, x ∈ leaves p -> is_chemical x = true.
Proof.
  intros [Hcore Hlinked]. pose proof Hcore as [W1 W2 W3 W4].
  induction fuel as [|fuel IH]; intros node depth Hnode Hlt; [lia|].
  rewrite get_chem_paths_S. destruct (W1 node Hnode) as [_ (c & Hc)].
  rewrite (proj2 (node_attr_Ok s node _) Hc). cbn [mbind outcome_mbind outcome_bind reaches].
  destruct ((out_degree s node =? 0) || (d <=? depth)) eqn:Ecut.
  { eexists. split; [reflexivity|]. intros p Hp x Hx.
    apply list_elem_of_singleton in Hp as ->. cbn in Hx.
    apply list_elem_of_singleton in Hx as ->. reflexivity. }
  apply orb_false_iff in Ecut as [_ Ecut]. apply Z.leb_gt in Ecut.
  destruct (map_m_Ok
              (fun rxn =>
                 ps ← get_rxn_paths_with (get_chem_paths fuel s (Some d)) s rxn (depth + 1);
                 Ok (map (fun sub_path => PathNode node (Chemical c) [sub_path]) ps))
              (fun ps => forall p, p ∈ ps -> forall x, x ∈ leaves p -> is_chemical x = true)
              (successors s node)) as (subs & Hsubs & Hleaves & _).
  - intros rxn Hrxn. apply elem_of_successors in Hrxn.
    assert (Hr : rxn ∈ reactions s).
    { destruct (W3 _ _ Hrxn) as [(_ & Hr & _)|[Hn _]]; [exact Hr|].
      exfalso. exact (wf_chem_not_rxn s node Hcore Hnode Hn). }
    unfold get_rxn_paths_with.
    destruct (map_m_Ok (fun c0 => get_chem_paths fuel s (Some d) c0 (depth + 1))
                (fun ps => forall p, p ∈ ps -> forall x, x ∈ leaves p -> is_chemical x = true)
                (successors s rxn)) as (csubs & Hcsubs & Hcleaves & Hclen).
    { intros c0 Hc0. apply elem_of_successors in Hc0. apply IH; [|lia].
      destruct (W3 _ _ Hc0) as [(Hrc & _)|[_ Hcc]]; [|exact Hcc].
      exfalso. exact (wf_chem_not_rxn s rxn Hcore Hrc Hr). }
    rewrite Hcsubs. cbn [mbind outcome_mbind outcome_bind].
    destruct (Hlinked rxn Hr) as [_ (c0 & Hc0)]. apply elem_of_successors in Hc0.
    destruct (successors s rxn) as [|c1 cs] eqn:Esucc; [inversion Hc0|].
    destruct (W2 rxn Hr) as [_ (rd & Hrd)].
    rewrite (proj2 (node_attr_Ok s rxn _) Hrd). cbn [mbind outcome_mbind outcome_bind].
    eexists. split; [reflexivity|].
    intros p Hp x Hx. apply elem_of_map in Hp as (sub & -> & Hsub).
    cbn in Hx. rewrite app_nil_r in Hx.
    apply elem_of_map in Hsub as (combo & -> & Hcombo).
    apply product_spec in Hcombo as [Hlen Hall].
    assert (Hne : combo <> []).
    { intros ->. cbn in Hlen. rewrite Hclen in Hlen. cbn in Hlen. lia. }
    rewrite (leaves_inner _ _ _ Hne) in Hx.
    apply elem_of_flat_map in Hx as (q & Hq & Hx).
    destruct (Hall q Hq) as (l & Hl & Hql). exact (Hcleaves l Hl q Hql x Hx).
  - rewrite Hsubs. cbn [mbind outcome_mbind outcome_bind]. eexists. split; [reflexivity|].
    intros p Hp x Hx. apply elem_of_concat in Hp as (l & Hl & Hp).
    exact (Hleaves l Hl p Hp x Hx).
Qed.

Lemma _validate_path_Ok p :
  (forall x, x ∈ leaves p -> is_chemical x = true) -> exists b, _validate_path p = Ok b.
Proof.
  unfold _validate_path. induction (leaves p) as [|x l IH]; intros Hall; cbn.
  - eauto.
  - pose proof (Hall x (list_elem_of_here _ _)) as Hx. destruct x as [c|r]; [|discriminate].
    cbn. destruct (terminal c); [|eauto].
    apply IH. intros y Hy. apply Hall, list_elem_of_further, Hy.
Qed.

Lemma take_paths_Ok cap validate (paths : list PathTree) :
  (forall p, p ∈ paths -> forall x, x ∈ leaves p -> is_chemical x = true) ->
  forall num, exists kept,
    take_paths cap (if validate : bool then Some _validate_path else None) num paths
    = Ok kept.
Proof.
  induction paths as [|p paths IH]; intros Hall num; cbn; [eauto|].
  destruct (reaches cap num); [eauto|].
  assert (Hrest : forall q, q ∈ paths -> forall x, x ∈ leaves q -> is_chemical x = true).
  { intros q Hq. apply Hall, list_elem_of_further, Hq. }
  destruct validate.
  - destruct (_validate_path_Ok p (Hall p (list_elem_of_here _ _))) as (b & ->). cbn.
    destruct b.
    + destruct (IH Hrest (num + 1)) as (kept & ->). cbn. eauto.
    + apply IH, Hrest.
  - cbn. destruct (IH Hrest (num + 1)) as (kept & ->). cbn. eauto.
Qed.

Lemma generated_paths_Ok fuel m validate dc cap t d :
  wf_search (search m) -> target m = Some t -> t ∈ chemicals (search m) ->
  py_or dc (Some (max_depth (options m))) = Some d ->
  (Z.to_nat d < fuel)%nat ->
  exists paths, generated_paths fuel m validate dc cap = Ok paths.
Proof.
  intros Hwf Ht Hin Hd Hfuel. unfold generated_paths, the_target, get_paths.
  rewrite Ht, Hd. cbn [getitem mbind outcome_mbind outcome_bind].
  destruct (get_chem_paths_Ok (search m) d Hwf fuel t 0 Hin) as (paths & -> & Hleaves);
    [lia|].
  cbn [mbind outcome_mbind outcome_bind]. apply take_paths_Ok, Hleaves.
Qed.

(** On every tree that [build_tree] returns, with fuel beyond the depth
    cap, a recognized metric and an unrecognized format always end in the
    [ValueError] that names the format. *)
Lemma built_tree_format_error `{Collaborators} fuel ticks m tgt cfg m' efuel fmt metric
    validate cj dc cap d :
  precursors_well_formed -> has_gt tgt = false ->
  build_tree fuel ticks (clear m) tgt cfg = Ok m' ->
  py_or dc (Some (max_depth (options m'))) = Some d -> (Z.to_nat d < efuel)%nat ->
  known_metric metric = true -> known_format fmt = false ->
  enumerate_paths efuel m' fmt metric validate cj dc cap
  = Raise (ValueError ("Unrecognized format type " +:+ fmt)).
Proof.
  intros Hprec Hg E Hd Hfuel Hm Hf.
  destruct (build_tree_wf _ _ _ _ _ _ Hprec Hg E) as (Ht & Hwf & Hin).
  destruct (generated_paths_Ok efuel m' validate dc cap tgt d Hwf Ht Hin Hd Hfuel)
    as (paths & Hgen).
  exact (unknown_format_error _ _ _ _ _ _ _ _ _ Hgen Hm Hf).
Qed.

(** ** Explored templates

    The hypotheses of the done-state theorem hold on every chemical node of
    every tree the builder makes. *)

Lemma elem_of_od_set_keys k v (d : list (Z * Q)) x :
  x ∈ od_keys (od_set k v d) <-> x ∈ od_keys d \/ x = k.
Proof.
  induction d as [|[k' v'] d IH]; cbn.
  - rewrite list_elem_of_singleton. split; [right; assumption|].
    intros [Hx|Hx]; [inversion Hx | exact Hx].
  - destruct (k' =? k) eqn:E; cbn.
    + apply Z.eqb_eq in E. subst k'. rewrite !elem_of_cons. tauto.
    + rewrite !elem_of_cons. unfold od_keys in IH. rewrite IH. tauto.
Qed.

Lemma od_set_keys_nodup k v (d : list (Z * Q)) :
  NoDup (od_keys d) -> NoDup (od_keys (od_set k v d)).
Proof.
  induction d as [|[k' v'] d IH]; cbn; intros Hnd.
  - apply NoDup_singleton.
  - apply NoDup_cons in Hnd as [Hnot Hnd]. destruct (k' =? k) eqn:E; cbn.
    + apply Z.eqb_eq in E. subst k'. apply NoDup_cons. split; assumption.
    + apply Z.eqb_neq in E. apply NoDup_cons. split; [|apply IH, Hnd].
      intros Hin. apply (elem_of_od_set_keys k v d k') in Hin as [Hin|Hin];
        [contradiction | congruence].
Qed.

Lemma ordered_dict_nodup (pairs : list (Z * Q)) : NoDup (od_keys (ordered_dict pairs)).
Proof.
  unfold ordered_dict.
  assert (Hgen : forall d, NoDup (od_keys d) ->
            NoDup (od_keys (fold_left (fun d kv => od_set (fst kv) (snd kv) d) pairs d))).
  { induction pairs as [|kv pairs IH]; intros d Hd; cbn; [exact Hd|].
    apply IH, od_set_keys_nodup, Hd. }
  apply Hgen. apply NoDup_nil_2.
Qed.

Lemma data_ok_set_node s n d : data_ok s -> node_ok d -> data_ok (set_node n d s).
Proof.
  intros Hs Hd k d' Hk. cbn in Hk. destruct (decide (n = k)) as [->|Hne].
  - rewrite lookup_insert_eq in Hk. injection Hk as <-. exact Hd.
  - rewrite lookup_insert_ne in Hk by exact Hne. exact (Hs k d' Hk).
Qed.

Lemma node_ok_set_est_value v d : node_ok d -> node_ok (set_est_value v d).
Proof. destruct d; intros Hd; exact Hd. Qed.

Lemma node_ok_set_solved b d : node_ok d -> node_ok (set_solved b d).
Proof. destruct d; intros Hd; exact Hd. Qed.

Lemma node_ok_set_visit_count n d : node_ok d -> node_ok (set_visit_count n d).
Proof. destruct d; intros Hd; exact Hd. Qed.

Lemma data_ok_same_nodes s s' : nodes s' = nodes s -> data_ok s -> data_ok s'.
Proof. intros Hn Hs k d Hk. rewrite Hn in Hk. exact (Hs k d Hk). Qed.

Section Explored.
Context `{Collaborators}.

Lemma is_chemical_done_update_data_ok cfg s smiles s' b :
  data_ok s -> is_chemical_done_update cfg s smiles = Ok (s', b) -> data_ok s'.
Proof.
  intros Hs E. unfold is_chemical_done_update in E. inv_bind E as data Hd.
  inv_bind E as flag Hf. injection E as <- <-. apply chem_data_Ok in Hd.
  apply data_ok_set_node; [exact Hs|]. exact (Hs _ _ Hd).
Qed.

Lemma create_chemical_node_data_ok cfg s smiles s' :
  data_ok s -> create_chemical_node cfg s smiles = Ok s' -> data_ok s'.
Proof.
  intros Hs E. unfold create_chemical_node in E. inv_bind E as pred Hp.
  destruct pred as [probs indices]. inv_bind E as term Ht. inv_bind E as upd Hu.
  destruct upd as [s2 b]. injection E as <-.
  apply (is_chemical_done_update_data_ok _ _ _ _ _) in Hu; [exact Hu|].
  intros k d Hk. cbn in Hk. destruct (decide (smiles = k)) as [->|Hne].
  - rewrite lookup_insert_eq in Hk. injection Hk as <-. cbn.
    split; [apply NoDup_nil_2|]. split; [apply ordered_dict_nodup|].
    intros t Ht'. inversion Ht'.
  - rewrite lookup_insert_ne in Hk by exact Hne. exact (Hs k d Hk).
Qed.

Lemma _update_value_data_ok s smiles s' :
  data_ok s -> _update_value s smiles = Ok s' -> data_ok s'.
Proof.
  intros Hs E. unfold _update_value in E. inv_bind E as rxn_data Hr.
  destruct rxn_data as [c|rd]; [injection E as <-; exact Hs|].
  inv_bind E as values Hv. inv_bind E as parent Hp. inv_bind E as chem Hc.
  inv_bind E as rxn2 Hr2. inv_bind E as flag Hf. inv_bind E as chem2 Hc2.
  inv_bind E as rxn3 Hr3. injection E as <-.
  apply node_attr_Ok in Hc, Hc2, Hr3.
  assert (H1 : data_ok (set_node smiles
                 (set_est_value (est_value (Reaction rd) + Qsum values)%Q (Reaction rd)) s)).
  { apply data_ok_set_node; [exact Hs | exact I]. }
  pose proof (data_ok_set_node _ parent _ H1
                (node_ok_set_est_value (est_value chem + Qsum values)%Q _ (H1 _ _ Hc)))
    as H2.
  pose proof (data_ok_set_node _ parent _ H2 (node_ok_set_solved flag _ (H2 _ _ Hc2))) as H3.
  exact (data_ok_set_node _ smiles _ H3 (node_ok_set_solved flag _ (H3 _ _ Hr3))).
Qed.

Lemma update_step_data_ok cfg s item s' :
  data_ok s -> update_step cfg s item = Ok s' -> data_ok s'.
Proof.
  intros Hs E. unfold update_step in E. destruct (fst item) as [[i chem]|]; [|discriminate].
  inv_bind E as d Hd. inv_bind E as c Hc. inv_bind E as r1 Hr1. destruct r1 as [s1 b].
  apply node_attr_Ok in Hd. apply chem_data_Ok in Hc.
  pose proof (data_ok_set_node _ chem _ Hs (node_ok_set_visit_count (visit_count d + 1) _
                                              (Hs _ _ Hd))) as H1.
  assert (H2 : data_ok (set_node chem
                 (Chemical (chem_set_min_depth (min_depth_update (min_depth c) i) c))
                 (set_node chem (set_visit_count (visit_count d + 1) d) s))).
  { apply data_ok_set_node; [exact H1|]. exact (H1 _ _ Hc). }
  apply (is_chemical_done_update_data_ok _ _ _ _ _ H2) in Hr1.
  destruct (snd item) as [rxn|]; [|injection E as <-; exact Hr1].
  inv_bind E as r Hr. apply node_attr_Ok in Hr.
  apply (_update_value_data_ok _ _ _) in E; [exact E|].
  apply data_ok_set_node; [exact Hr1|]. apply node_ok_set_visit_count, (Hr1 _ _ Hr).
Qed.

Lemma _update_data_ok cfg tgt s chem_path rxn_path s' :
  data_ok s -> _update cfg tgt s chem_path rxn_path = Ok s' -> data_ok s'.
Proof.
  unfold _update. intros Hs E. destruct chem_path as [|root rest]; [discriminate|].
  destruct (eqs root tgt); [|discriminate].
  revert s Hs E. generalize (zip_longest (combine (range_down (length (root :: rest)))
                                                  (rev (root :: rest))) (rev rxn_path)).
  intros items. induction items as [|x items IH]; intros s Hs E; cbn in E.
  - injection E as <-. exact Hs.
  - inv_bind E as s1 Hs1. apply (IH s1); [|exact E].
    exact (update_step_data_ok _ _ _ _ Hs Hs1).
Qed.

Lemma scan_reactants_data_ok cfg target path (l : list string) :
  forall s s1 b,
    data_ok s -> scan_reactants cfg s target path l = Ok (s1, b) -> data_ok s1.
Proof.
  induction l as [|reactant rest IH]; intros s s1 b Hs E; cbn in E.
  - injection E as <- <-. exact Hs.
  - destruct (in_strs reactant (chemicals s)).
    + destruct (in_strs reactant path || has_path s reactant target).
      * injection E as <- <-. exact Hs.
      * exact (IH _ _ _ Hs E).
    + inv_bind E as s' Hs'. apply (IH s' s1 b); [|exact E].
      exact (create_chemical_node_data_ok _ _ _ _ Hs Hs').
Qed.

Lemma register_reaction_data_ok s rs template tscore ff s2 :
  data_ok s -> register_reaction s rs template tscore ff = Ok s2 -> data_ok s2.
Proof.
  intros Hs E. unfold register_reaction in E. destruct (in_strs rs (reactions s)).
  - inv_bind E as d Hd. destruct d as [c|r]; [discriminate|]. injection E as <-.
    apply data_ok_set_node; [exact Hs | exact I].
  - injection E as <-. intros k d Hk. cbn in Hk. destruct (decide (rs = k)) as [->|Hne].
    + rewrite lookup_insert_eq in Hk. injection Hk as <-. exact I.
    + rewrite lookup_insert_ne in Hk by exact Hne. exact (Hs k d Hk).
Qed.

Lemma process_candidate_data_ok cfg target template path s l s' :
  data_ok s -> process_candidate cfg target template path s l = Ok s' -> data_ok s'.
Proof.
  intros Hs E.
  destruct (process_candidate_cases cfg target template path s l) as [Hp|Hp];
    rewrite Hp in E; [injection E as <-; exact Hs|].
  inv_bind E as scanned Hscan. destruct scanned as [s1 complete].
  apply (scan_reactants_data_ok _ _ _ _ _ _ _ Hs) in Hscan.
  destruct complete; [|injection E as <-; exact Hscan].
  inv_bind E as tdata Htd. inv_bind E as tscore Hts. inv_bind E as s2 Hreg.
  apply (register_reaction_data_ok _ _ _ _ _ _ Hscan) in Hreg.
  apply (_update_value_data_ok _ _ _) in E; [exact E|].
  destruct (add_edges_spec (reaction_string l target) l
              (add_edge target (reaction_string l target) s2)) as (Hn & _).
  apply (data_ok_same_nodes _ _ Hn).
  destruct (add_edge_frame target (reaction_string l target) s2) as (Hn' & _).
  exact (data_ok_same_nodes _ _ Hn' Hreg).
Qed.

(** The template that [_select] returns is offered to the leaf of the
    returned path and not yet explored there. *)
Lemma select_loop_template cfg tgt s fuel :
  forall chem_path rxn_path invalid cp rp template,
    select_loop fuel cfg tgt s chem_path rxn_path invalid = Ok (cp, rp, template) ->
    exists leaf data,
      last cp = Some leaf /\ nodes s !! leaf = Some (Chemical data)
      /\ template ∈ od_keys (c_templates data) /\ template ∉ explored data.
Proof.
  induction fuel as [|fuel IH]; intros chem_path rxn_path invalid cp rp template E;
    cbn in E; [discriminate|].
  inv_bind E as r Hr. destruct r as [cp' rp' inv'|cp' rp' t'].
  - exact (IH _ _ _ _ _ _ E).
  - injection E as <- <- <-. unfold select_step in Hr.
    destruct (last chem_path) as [leaf|] eqn:Eleaf; [|discriminate].
    inv_bind Hr as opts Hucb. destruct opts as [|[score task] rest].
    + destruct rxn_path; discriminate.
    + destruct task as [task|t].
      * inv_bind Hr as precursor Hpre. destruct precursor; discriminate.
      * injection Hr as <- <- <-.
        pose proof (ucb_options_spec _ _ _ _ _ _ _ _ Hucb score (ApplyTemplate t)
                      (list_elem_of_here _ _)) as (data & Hd & Hk & He).
        exists leaf, data. auto.
Qed.

Lemma _expand_data_ok cfg s chem_path template s' leaf data :
  data_ok s ->
  last chem_path = Some leaf -> nodes s !! leaf = Some (Chemical data) ->
  template ∈ od_keys (c_templates data) ->
  _expand cfg s chem_path template = Ok s' -> data_ok s'.
Proof.
  intros Hs Hleaf Hd Hk E. unfold _expand in E. rewrite Hleaf in E.
  rewrite (proj2 (chem_data_Ok s leaf "explored" data) Hd) in E.
  cbn [mbind outcome_mbind outcome_bind] in E.
  destruct (in_ints template (explored data)) eqn:Ein; [injection E as <-; exact Hs|].
  apply bool_decide_eq_false in Ein.
  assert (Hs1 : data_ok (set_node leaf
                  (Chemical (chem_set_explored (explored data ++ [template]) data)) s)).
  { apply data_ok_set_node; [exact Hs|]. destruct (Hs _ _ Hd) as (Hn1 & Hn2 & Hsub).
    split; [|split; [exact Hn2|]]; cbn.
    - apply NoDup_app. split; [exact Hn1|]. split; [|apply NoDup_singleton].
      intros x Hx Hx'. apply list_elem_of_singleton in Hx' as ->. contradiction.
    - intros t Ht. apply elem_of_app in Ht as [Ht|Ht]; [apply Hsub, Ht|].
      apply list_elem_of_singleton in Ht as ->. exact Hk. }
  revert Hs1 E. unfold _process_precursors.
  generalize (set_node leaf
                (Chemical (chem_set_explored (explored data ++ [template]) data)) s).
  generalize (_get_precursors leaf template). intros precursors.
  induction precursors as [|l rest IH]; intros s0 Hs0 E; cbn in E.
  - injection E as <-. exact Hs0.
  - inv_bind E as s1 Hs1. apply (IH s1); [|exact E].
    exact (process_candidate_data_ok _ _ _ _ _ _ _ Hs0 Hs1).
Qed.

Lemma _rollout_data_ok fuel cfg tgt s s' :
  data_ok s -> _rollout fuel cfg tgt s = Ok s' -> data_ok s'.
Proof.
  intros Hs E. unfold _rollout in E. inv_bind E as sel Hsel.
  destruct sel as [[chem_path rxn_path] template]. inv_bind E as s1 Hexp.
  unfold _select in Hsel.
  destruct (select_loop_template _ _ _ _ _ _ _ _ _ _ Hsel) as (leaf & data & Hl & Hd & Hk & _).
  apply (_update_data_ok _ _ _ _ _ _) in E; [exact E|].
  exact (_expand_data_ok _ _ _ _ _ _ _ Hs Hl Hd Hk Hexp).
Qed.

Lemma expansion_loop_data_ok fuel ticks :
  forall start elapsed m m',
    data_ok (search m) ->
    expansion_loop fuel ticks start elapsed m = Ok m' -> data_ok (search m').
Proof.
  induction ticks as [|now ticks IH]; intros start elapsed m m' Hs E; cbn in E.
  - destruct (Qltb elapsed (expansion_time (options m))).
    + inv_bind E as d Hd. destruct d; [|discriminate]. injection E as <-. exact Hs.
    + injection E as <-. exact Hs.
  - destruct (Qltb elapsed (expansion_time (options m))).
    2: { injection E as <-. exact Hs. }
    inv_bind E as d Hd. destruct d; [injection E as <-; exact Hs|].
    inv_bind E as t Htt. inv_bind E as s1 Hroll.
    apply (_rollout_data_ok _ _ _ _ _ Hs) in Hroll.
    cbn in E. destruct (Qtruthy (time_to_solve m)).
    + apply IH in E; [exact E | exact Hroll].
    + inv_bind E as root Hroot. destruct (solved root).
      * destruct (return_first (options m)).
        -- injection E as <-. exact Hroll.
        -- apply IH in E; [exact E | exact Hroll].
      * apply IH in E; [exact E | exact Hroll].
Qed.

(** On every tree built for a cleared builder, every chemical node keeps
    distinct explored templates, all of them among its distinct offered
    templates. *)
Lemma build_tree_data_ok fuel ticks m tgt cfg m' :
  build_tree fuel ticks (clear m) tgt cfg = Ok m' ->
  forall n c, nodes (search m') !! n = Some (Chemical c) -> chem_ok c.
Proof.
  intros E. unfold build_tree in E. inv_bind E as m1 Hinit.
  assert (H1 : data_ok (search m1)).
  { unfold _initialize in Hinit. inv_bind Hinit as s Hs. inv_bind Hinit as c Hc.
    injection Hinit as <-. cbn.
    assert (Hs0 : data_ok s).
    { apply (create_chemical_node_data_ok _ _ _ _) in Hs; [exact Hs|].
      intros k d Hk. cbn in Hk. rewrite lookup_empty in Hk. discriminate. }
    apply chem_data_Ok in Hc. apply data_ok_set_node; [exact Hs0|]. exact (Hs0 _ _ Hc). }
  destruct ticks as [|start [|now ticks]]; try discriminate.
  apply (expansion_loop_data_ok _ _ _ _ _ _ H1) in E.
  intros n c Hn. exact (E n _ Hn).
Qed.

End Explored.

(** ** Reachability ([has_path])

    [has_path] holds exactly when a walk leads from the source to the
    target: the rounds of the search saturate within as many rounds as
    there are edges. *)

Section Reach.
Context (E : list (string * string)) (a : string).

Lemma elem_of_reach_step (R : gset string) (c : string) :
  c ∈ reach_step E R <-> c ∈ R \/ exists b, b ∈ R /\ (b, c) ∈ E.
Proof.
  unfold reach_step. rewrite elem_of_union, elem_of_list_to_set, elem_of_map. split.
  - intros [Hc|([b c'] & -> & Hin)]; [left; exact Hc|].
    apply list_elem_of_filter in Hin as [Hb Hin]. right. exists b. split; assumption.
  - intros [Hc|(b & Hb & Hin)]; [left; exact Hc|]. right. exists (b, c).
    split; [reflexivity|]. apply list_elem_of_filter. split; assumption.
Qed.

Lemma reached_S n : reached E a (S n) = reach_step E (reached E a n).
Proof. reflexivity. Qed.

Lemma reached_walk n c :
  c ∈ reached E a n <-> exists k, (k <= n)%nat /\ walk E k a c.
Proof.
  revert c. induction n as [|n IH]; intros c.
  - unfold reached. cbn. rewrite elem_of_singleton. split.
    + intros ->. exists O. split; [lia | constructor].
    + intros (k & Hk & Hw). destruct Hw; [reflexivity | lia].
  - rewrite reached_S, elem_of_reach_step. split.
    + intros [Hc|(b & Hb & Hin)].
      * apply IH in Hc as (k & Hk & Hw). exists k. split; [lia | exact Hw].
      * apply IH in Hb as (k & Hk & Hw). exists (S k). split; [lia|].
        econstructor; eassumption.
    + intros (k & Hk & Hw). destruct Hw as [a'|k a' b c Hw Hin].
      * left. apply IH. exists O. split; [lia | constructor].
      * right. exists b. split; [|exact Hin]. apply IH. exists k. split; [lia | exact Hw].
Qed.

Lemma reached_mono n : reached E a n ⊆ reached E a (S n).
Proof. intros c Hc. rewrite reached_S. apply elem_of_reach_step. left. exact Hc. Qed.

Lemma closed_fixed R : closed E R -> reach_step E R = R.
Proof.
  intros Hcl. apply set_eq. intros c. rewrite elem_of_reach_step. split.
  - intros [Hc|(b & Hb & Hin)]; [exact Hc | exact (Hcl b c Hb Hin)].
  - intros Hc. left. exact Hc.
Qed.

Lemma closed_later j n :
  (j <= n)%nat -> closed E (reached E a j) -> closed E (reached E a n).
Proof.
  intros Hle Hcl. assert (Heq : reached E a n = reached E a j); [|rewrite Heq; exact Hcl].
  induction Hle as [|n Hle IH]; [reflexivity|].
  rewrite reached_S, IH. apply closed_fixed, Hcl.
Qed.

Lemma reached_bound n : reached E a n ⊆ {[a]} ∪ list_to_set (map snd E).
Proof.
  induction n as [|n IH]; intros c Hc.
  - unfold reached in Hc. cbn in Hc. apply elem_of_union. left. exact Hc.
  - rewrite reached_S in Hc. apply elem_of_reach_step in Hc as [Hc|(b & _ & Hin)];
      [apply IH, Hc|].
    apply elem_of_union. right. apply elem_of_list_to_set, elem_of_map.
    exists (b, c). split; [reflexivity | exact Hin].
Qed.

Lemma size_list_to_set_le (l : list string) :
  (size (list_to_set l : gset string) <= length l)%nat.
Proof.
  induction l as [|x l IH]; cbn.
  - rewrite size_empty. lia.
  - rewrite size_union_alt, size_singleton.
    assert (size ((list_to_set l : gset string) ∖ {[x]}) <= size (list_to_set l : gset string))%nat.
    { apply subseteq_size. intros z Hz. apply elem_of_difference in Hz as [Hz _]. exact Hz. }
    lia.
Qed.

Lemma progress_or_closed n :
  (exists j, (j <= n)%nat /\ closed E (reached E a j))
  \/ (n + 1 <= size (reached E a n))%nat.
Proof.
  induction n as [|n IH].
  - right. unfold reached. cbn. rewrite size_singleton. lia.
  - destruct IH as [(j & Hj & Hcl)|Hsize]; [left; exists j; split; [lia | exact Hcl]|].
    destruct (decide (reached E a (S n) = reached E a n)) as [Heq|Hne].
    + left. exists n. split; [lia|]. intros b c Hb Hin. rewrite <- Heq, reached_S.
      apply elem_of_reach_step. right. exists b. split; assumption.
    + right. assert (Hlt : (size (reached E a n) < size (reached E a (S n)))%nat).
      { apply subset_size. split; [apply reached_mono|].
        intros Hsub. apply Hne. apply set_eq. intros c. split; [apply Hsub|].
        apply reached_mono. }
      lia.
Qed.

Lemma reached_saturated : closed E (reached E a (length E)).
Proof.
  destruct (progress_or_closed (length E)) as [(j & Hj & Hcl)|Hsize];
    [exact (closed_later j _ Hj Hcl)|].
  assert (Hfull : reached E a (length E) = {[a]} ∪ list_to_set (map snd E)).
  { apply set_subseteq_size_eq; [apply reached_bound|].
    rewrite size_union_alt, size_singleton.
    assert (size ((list_to_set (map snd E) : gset string) ∖ {[a]})
            <= size (list_to_set (map snd E) : gset string))%nat.
    { apply subseteq_size. intros z Hz. apply elem_of_difference in Hz as [Hz _]. exact Hz. }
    pose proof (size_list_to_set_le (map snd E)) as Hle. rewrite length_map in Hle. lia. }
  intros b c _ Hin. rewrite Hfull. apply elem_of_union. right.
  apply elem_of_list_to_set, elem_of_map. exists (b, c). split; [reflexivity | exact Hin].
Qed.

End Reach.

Lemma walk_reached E k a c : walk E k a c -> c ∈ reached E a (length E).
Proof.
  intros Hw. induction Hw as [a'|k a' b c Hw IH Hin].
  - apply reached_walk. exists O. split; [lia | constructor].
  - exact (reached_saturated E a' b c IH Hin).
Qed.

Lemma has_path_iff s a b :
  has_path s a b = true <-> exists k, walk (edges s) k a b.
Proof.
  unfold has_path. rewrite bool_decide_eq_true.
  change (Nat.iter (length (edges s)) (reach_step (edges s)) {[a]})
    with (reached (edges s) a (length (edges s))). split.
  - intros Hin. apply reached_walk in Hin as (k & _ & Hw). exists k. exact Hw.
  - intros (k & Hw). exact (walk_reached _ k a b Hw).
Qed.

(** * Further properties of the tree builder *)

(** ** The search graph has no cycle *)

Lemma walk_trans E j k a b c : walk E j a b -> walk E k b c -> walk E (j + k) a c.
Proof.
  intros Hab Hbc. induction Hbc as [b|k b x c Hbx IH Hin].
  - rewrite Nat.add_0_r. exact Hab.
  - rewrite Nat.add_succ_r. econstructor; [apply IH, Hab | exact Hin].
Qed.

Lemma walk_first E k a c : walk E (S k) a c -> exists b, (a, b) ∈ E /\ walk E k b c.
Proof.
  revert c. induction k as [|k IH]; intros c Hw.
  - inversion Hw as [|k' a' b c' Hw' Hin]; subst. inversion Hw'; subst.
    exists c. split; [exact Hin | constructor].
  - inversion Hw as [|k' a' b c' Hw' Hin]; subst.
    destruct (IH b Hw') as (x & Hax & Hxb). exists x. split; [exact Hax|].
    econstructor; eassumption.
Qed.

Lemma walk_0 E a b : walk E 0 a b -> a = b.
Proof. intros Hw. inversion Hw. reflexivity. Qed.

Lemma reach_refl E a : reach E a a.
Proof. exists O. constructor. Qed.

Lemma reach_step_r E a b c : reach E a b -> (b, c) ∈ E -> reach E a c.
Proof. intros (k & Hw) Hin. exists (S k). econstructor; eassumption. Qed.

Lemma reach_trans E a b c : reach E a b -> reach E b c -> reach E a c.
Proof. intros (j & Hj) (k & Hk). exists (j + k)%nat. exact (walk_trans _ _ _ _ _ _ Hj Hk). Qed.

(** Walks after one more edge: either the edge is not needed, or the walk
    reaches its source and continues from its end. *)
Lemma reach_extend E E' u v :
  (forall e, e ∈ E' <-> e ∈ E \/ e = (u, v)) ->
  forall k a b, walk E' k a b -> reach E a b \/ (reach E a u /\ reach E v b).
Proof.
  intros HE k a b Hw. induction Hw as [a|k a b c Hw IH Hin].
  - left. apply reach_refl.
  - apply HE in Hin as [Hin|Heq].
    + destruct IH as [Hab|[Hau Hvb]].
      * left. exact (reach_step_r _ _ _ _ Hab Hin).
      * right. split; [exact Hau | exact (reach_step_r _ _ _ _ Hvb Hin)].
    + injection Heq as -> ->. right. split; [|apply reach_refl].
      destruct IH as [Hab|[Hau _]]; assumption.
Qed.

Lemma acyclic_extend E E' u v :
  (forall e, e ∈ E' <-> e ∈ E \/ e = (u, v)) ->
  acyclic E -> ~ reach E v u -> acyclic E'.
Proof.
  intros HE Hac Hvu n k Hw.
  inversion Hw as [|k' a b c Hnb Hin]; subst.
  destruct (reach_extend E E' u v HE _ _ _ Hnb) as [Hr|[Hnu Hvb]];
    apply HE in Hin as [Hin|Heq].
  - destruct Hr as (j & Hj). exact (Hac n j (walk_step _ _ _ _ _ Hj Hin)).
  - injection Heq as -> ->. exact (Hvu Hr).
  - apply Hvu. apply (reach_trans _ _ n); [|exact Hnu].
    exact (reach_step_r _ _ _ _ Hvb Hin).
  - injection Heq as -> ->. exact (Hvu Hvb).
Qed.

Lemma acyclic_nil : acyclic [].
Proof.
  intros n k Hw. apply walk_first in Hw as (b & Hin & _). inversion Hin.
Qed.

(** The state in which the edges of one candidate set are added: the graph
    is acyclic, no precursor of the set reaches the leaf, and the reaction
    is entered from the leaf only. *)
Lemma add_edge_spec u v s : forall e, e ∈ edges (add_edge u v s) <-> e ∈ edges s \/ e = (u, v).
Proof. intros e. apply elem_of_add_edge. Qed.

Lemma add_precursor_edges_acyclic (leaf rs : string) (l : list string) :
  has_gt rs = true ->
  forall (l' : list string) s,
    (forall r, r ∈ l' -> r ∈ l) ->
    (forall r, r ∈ l -> has_gt r = false) ->
    acyclic (edges s) ->
    (forall r, r ∈ l -> ~ reach (edges s) r leaf) ->
    (forall x, (x, rs) ∈ edges s -> x = leaf) ->
    acyclic (edges (fold_left (fun g reactant => add_edge rs reactant g) l' s)).
Proof.
  intros Hrs. induction l' as [|r l' IH]; intros s Hsub Hl Hac Hun Hin; cbn; [exact Hac|].
  assert (Hr : r ∈ l) by (apply Hsub, list_elem_of_here).
  assert (Hnot : ~ reach (edges s) r rs).
  { intros (k & Hw). inversion Hw as [a|k' a b c Hw' Hlast]; subst.
    - specialize (Hl rs Hr). congruence.
    - apply Hin in Hlast as ->. apply (Hun r Hr). exists k'. exact Hw'. }
  apply IH.
  - intros r' Hr'. apply Hsub, list_elem_of_further, Hr'.
  - exact Hl.
  - exact (acyclic_extend _ _ rs r (add_edge_spec rs r s) Hac Hnot).
  - intros r' Hr' (k & Hw).
    destruct (reach_extend _ _ rs r (add_edge_spec rs r s) _ _ _ Hw) as [Hold|[_ Hrl]].
    + exact (Hun r' Hr' Hold).
    + exact (Hun r Hr Hrl).
  - intros x Hx. apply elem_of_add_edge in Hx as [Hx|Heq]; [exact (Hin x Hx)|].
    injection Heq as -> Heq. specialize (Hl r Hr). congruence.
Qed.

Section Acyclic.
Context `{Collaborators}.

(** A scan that completes has found every precursor unable to reach the
    leaf. *)
Lemma scan_reactants_unreachable cfg leaf path (l : list string) :
  forall s s1,
    wf_core s -> leaf ∈ chemicals s -> (forall r, r ∈ l -> has_gt r = false) ->
    scan_reactants cfg s leaf path l = Ok (s1, true) ->
    forall r, r ∈ l -> ~ reach (edges s) r leaf.
Proof.
  induction l as [|reactant rest IH]; intros s s1 Hwf Hleaf Hl E r Hr; cbn in E;
    [inversion Hr|].
  assert (Hrest : forall r, r ∈ rest -> has_gt r = false).
  { intros x Hx. apply Hl, list_elem_of_further, Hx. }
  destruct (in_strs reactant (chemicals s)) eqn:Ein.
  - destruct (in_strs reactant path || has_path s reactant leaf) eqn:Ecyc; [discriminate|].
    apply elem_of_cons in Hr as [->|Hr]; [|exact (IH s s1 Hwf Hleaf Hrest E r Hr)].
    apply orb_false_iff in Ecyc as [_ Ehp]. intros Hreach.
    apply has_path_iff in Hreach. congruence.
  - inv_bind E as s' Hs'. apply in_strs_false in Ein.
    destruct (create_chemical_node_wf cfg s reactant s' Hwf
                (Hl reactant (list_elem_of_here _ _)) Hs') as (Hwf' & He' & _ & Hc').
    apply elem_of_cons in Hr as [->|Hr].
    + intros (k & Hw). destruct k as [|k].
      * apply walk_0 in Hw as ->. contradiction.
      * apply walk_first in Hw as (x & Hin & _). destruct Hwf as [W1 W2 W3 W4].
        destruct (W3 _ _ Hin) as [(Hc & _)|[Hrx _]]; [contradiction|].
        destruct (W2 _ Hrx) as [Hg _].
        specialize (Hl reactant (list_elem_of_here _ _)). congruence.
    + rewrite <- He'. apply (IH s' s1 Hwf'); [|exact Hrest | exact E | exact Hr].
      rewrite Hc'. apply elem_of_app. left. exact Hleaf.
Qed.

Lemma process_candidate_acyclic cfg leaf template path s l s' :
  wf_search s -> acyclic (edges s) -> leaf ∈ chemicals s -> l <> [] ->
  (forall r, r ∈ l -> has_gt r = false) ->
  process_candidate cfg leaf template path s l = Ok s' ->
  acyclic (edges s').
Proof.
  intros Hwf Hac Hleaf Hne Hl E. pose proof Hwf as [Hcore Hlinked].
  destruct (process_candidate_cases cfg leaf template path s l) as [Hp|Hp];
    rewrite Hp in E; [injection E as <-; exact Hac|].
  inv_bind E as scanned Hscan. destruct scanned as [s1 complete].
  destruct (scan_reactants_wf _ _ _ _ _ _ _ Hcore Hl Hscan) as (Hcore1 & He1 & Hr1 & Hmono & _).
  destruct complete; [|injection E as <-; rewrite He1; exact Hac].
  pose proof (scan_reactants_unreachable _ _ _ _ _ _ Hcore Hleaf Hl Hscan) as Hun.
  inv_bind E as tdata Htd. inv_bind E as tscore Hts. inv_bind E as s2 Hreg.
  set (rs := reaction_string l leaf) in *.
  destruct (reaction_string_arrow l leaf) as (pre & Hpre). fold rs in Hpre.
  assert (Hgrs : has_gt rs = true) by (rewrite Hpre; apply has_gt_arrow).
  destruct (register_reaction_wf _ _ _ _ _ _ Hcore1 Hgrs Hreg) as (_ & He2 & _).
  apply _update_value_shape in E as (He5 & _). rewrite He5.
  pose proof Hcore as [W1 W2 W3 W4].
  assert (Hgleaf : has_gt leaf = false) by (apply W1, Hleaf).
  assert (Hentry : forall x, (x, rs) ∈ edges s -> x = leaf).
  { intros x Hx. destruct (W3 _ _ Hx) as [(Hxc & _ & pre' & Hpre')|[_ Hrc]].
    - apply (arrow_suffix_unique pre' x pre leaf); [congruence | apply W1, Hxc | exact Hgleaf].
    - destruct (W1 _ Hrc) as [Hg _]. congruence. }
  assert (Hback : ~ reach (edges s) rs leaf).
  { intros (k & Hw). destruct k as [|k].
    - apply walk_0 in Hw. rewrite Hw in Hgrs. congruence.
    - pose proof Hw as Hw0. apply walk_first in Hw as (x & Hin & _).
      assert (Hrr : rs ∈ reactions s).
      { destruct (W3 _ _ Hin) as [(Hc & _)|[Hrx _]]; [|exact Hrx].
        destruct (W1 _ Hc) as [Hg _]. congruence. }
      destruct (Hlinked rs Hrr) as [(p & Hp') _]. pose proof (Hentry p Hp') as ->.
      apply (Hac leaf (S k)). change (S (S k)) with (1 + S k)%nat.
      apply (walk_trans _ _ _ _ rs); [|exact Hw0].
      econstructor; [constructor | exact Hp']. }
  set (s3 := add_edge leaf rs s2).
  assert (HE3 : forall e, e ∈ edges s3 <-> e ∈ edges s \/ e = (leaf, rs)).
  { intros e. unfold s3. rewrite elem_of_add_edge, He2, He1. reflexivity. }
  apply (add_precursor_edges_acyclic leaf rs l Hgrs l s3).
  - intros r Hr. exact Hr.
  - exact Hl.
  - exact (acyclic_extend _ _ leaf rs HE3 Hac Hback).
  - intros r Hr (k & Hw).
    destruct (reach_extend _ _ leaf rs HE3 _ _ _ Hw) as [Hold|[Hold _]];
      exact (Hun r Hr Hold).
  - intros x Hx. apply HE3 in Hx as [Hx|Heq]; [exact (Hentry x Hx)|].
    injection Heq as ->. reflexivity.
Qed.

Lemma _process_precursors_acyclic cfg leaf template path (precursors : list (list string)) :
  forall s s',
    wf_search s -> acyclic (edges s) -> leaf ∈ chemicals s ->
    (forall l, l ∈ precursors -> l <> [] /\ forall r, r ∈ l -> has_gt r = false) ->
    _process_precursors cfg s leaf template precursors path = Ok s' ->
    acyclic (edges s').
Proof.
  unfold _process_precursors.
  induction precursors as [|l rest IH]; intros s s' Hwf Hac Hleaf Hp E; cbn in E.
  - injection E as <-. exact Hac.
  - inv_bind E as s1 Hs1. destruct (Hp l (list_elem_of_here _ _)) as [Hne Hl].
    destruct (process_candidate_wf _ _ _ _ _ _ _ Hwf Hleaf Hne Hl Hs1) as [Hwf1 Hmono].
    apply (IH s1 s' Hwf1); [|exact (Hmono _ Hleaf)| |exact E].
    + exact (process_candidate_acyclic _ _ _ _ _ _ _ Hwf Hac Hleaf Hne Hl Hs1).
    + intros l' Hl'. apply Hp, list_elem_of_further, Hl'.
Qed.

Lemma _rollout_acyclic fuel cfg tgt s s' :
  precursors_well_formed ->
  wf_search s -> acyclic (edges s) -> tgt ∈ chemicals s ->
  _rollout fuel cfg tgt s = Ok s' -> acyclic (edges s').
Proof.
  intros Hprec Hwf Hac Htgt E. unfold _rollout in E. inv_bind E as sel Hsel.
  destruct sel as [[chem_path rxn_path] template]. inv_bind E as s1 Hexp.
  apply _update_shape in E as (He & _). rewrite He.
  assert (Hpath : forall c, c ∈ chem_path -> c ∈ chemicals s).
  { unfold _select in Hsel.
    apply (select_loop_path cfg tgt s fuel [tgt] [] ∅ chem_path rxn_path template
             (proj1 Hwf)); [|exact Hsel].
    intros c Hc. apply list_elem_of_singleton in Hc as ->. exact Htgt. }
  unfold _expand in Hexp. destruct (last chem_path) as [leaf|] eqn:Eleaf; [|discriminate].
  inv_bind Hexp as data Hd. apply chem_data_Ok in Hd.
  destruct (in_ints template (explored data)); [injection Hexp as <-; exact Hac|].
  pose proof (same_shape_set_node s leaf (Chemical data)
                (Chemical (chem_set_explored (explored data ++ [template]) data))
                Hd eq_refl) as Hs.
  apply (_process_precursors_acyclic _ _ _ _ _ _ _ (wf_search_same_shape _ _ Hs Hwf))
    in Hexp; [exact Hexp | exact Hac | |].
  - cbn. apply Hpath, last_elem_of, Eleaf.
  - intros l Hl. apply (Hprec leaf template l Hl).
Qed.

Lemma expansion_loop_acyclic fuel ticks :
  forall start elapsed m m' tgt,
    precursors_well_formed ->
    target m = Some tgt -> wf_search (search m) -> acyclic (edges (search m)) ->
    tgt ∈ chemicals (search m) ->
    expansion_loop fuel ticks start elapsed m = Ok m' ->
    acyclic (edges (search m')).
Proof.
  induction ticks as [|now ticks IH]; intros start elapsed m m' tgt Hprec Ht Hwf Hac Htgt E;
    cbn in E.
  - destruct (Qltb elapsed (expansion_time (options m))).
    + inv_bind E as d Hd. destruct d; [|discriminate]. injection E as <-. exact Hac.
    + injection E as <-. exact Hac.
  - destruct (Qltb elapsed (expansion_time (options m))).
    2: { injection E as <-. exact Hac. }
    inv_bind E as d Hd. destruct d; [injection E as <-; exact Hac|].
    inv_bind E as t Htt. unfold the_target in Htt. rewrite Ht in Htt. injection Htt as <-.
    inv_bind E as s1 Hroll.
    destruct (_rollout_wf _ _ _ _ _ Hprec Hwf Htgt Hroll) as [Hwf1 Htgt1].
    pose proof (_rollout_acyclic _ _ _ _ _ Hprec Hwf Hac Htgt Hroll) as Hac1.
    cbn in E. destruct (Qtruthy (time_to_solve m)).
    + apply (IH _ _ _ _ tgt Hprec) in E; [exact E | exact Ht | exact Hwf1 | exact Hac1 | exact Htgt1].
    + inv_bind E as root Hroot. destruct (solved root).
      * destruct (return_first (options m)).
        -- injection E as <-. exact Hac1.
        -- apply (IH _ _ _ _ tgt Hprec) in E; [exact E | exact Ht | exact Hwf1 | exact Hac1 | exact Htgt1].
      * apply (IH _ _ _ _ tgt Hprec) in E; [exact E | exact Ht | exact Hwf1 | exact Hac1 | exact Htgt1].
Qed.

End Acyclic.

(** X1. The graph that [build_tree] leaves behind has no cycle: no
    chemical and no reaction can be reached from itself along one or more
    edges.  [_process_precursors] adds the edges of a candidate set only
    when no precursor of the set reaches the expanded leaf. *)
Theorem built_tree_is_acyclic `{Collaborators} fuel ticks m tgt cfg m' :
  precursors_well_formed ->
  has_gt tgt = false ->
  build_tree fuel ticks (clear m) tgt cfg = Ok m' ->
  acyclic (edges (search m')).
Proof.
  intros Hprec Hg E. unfold build_tree in E. inv_bind E as m1 Hinit.
  change (mkMCTS (search (clear m)) (target (clear m)) (iterations (clear m))
                 (time_to_solve (clear m)) cfg)
    with (clear (mkMCTS (search m) (target m) (iterations m) (time_to_solve m) cfg))
    in Hinit.
  pose proof (_initialize_frame _ _ _ Hinit) as (_ & _ & _ & _ & He & _).
  apply (_initialize_wf _ _ _ Hg) in Hinit as (Ht & Hwf & Htgt).
  destruct ticks as [|start [|now ticks]]; try discriminate.
  apply (expansion_loop_acyclic _ _ _ _ _ _ tgt Hprec Ht Hwf) in E; [exact E| |exact Htgt].
  rewrite He. cbn. exact acyclic_nil.
Qed.

Lemma built_tree_is_acyclic_witness : acyclic (edges (search Fixtures.six_tree)).
Proof.
  apply (built_tree_is_acyclic (H := Fixtures.stub_world) 20 Fixtures.ticks
           (new_mcts default_options) "T" (Fixtures.budget 6)).
  - exact stub_precursors_well_formed.
  - vm_compute. reflexivity.
  - vm_compute. reflexivity.
Defined.

(** ** What [_select] hands to [_expand] and [_update] *)

Lemma descent_back s tgt cp rp :
  descent s tgt cp rp -> rp <> [] -> descent s tgt (removelast cp) (removelast rp).
Proof.
  intros Hd Hne. destruct Hd as [|cp rp leaf task c Hd _ _ _ _ _]; [contradiction|].
  rewrite !removelast_last. exact Hd.
Qed.

Lemma descent_head s tgt cp rp :
  descent s tgt cp rp ->
  head cp = Some tgt /\ length cp = S (length rp) /\ NoDup cp.
Proof.
  induction 1 as [|cp rp leaf task c Hd (IH1 & IH2 & IH3) _ _ _ Hc _].
  - split; [reflexivity|]. split; [reflexivity|]. apply NoDup_singleton.
  - split; [|split].
    + destruct cp as [|x cp]; [discriminate | exact IH1].
    + rewrite !length_app, IH2. cbn. lia.
    + apply NoDup_app. split; [exact IH3|]. split; [|apply NoDup_singleton].
      intros x Hx Hx'. apply list_elem_of_singleton in Hx' as ->. contradiction.
Qed.

Lemma select_step_descent `{Collaborators} cfg tgt s chem_path rxn_path invalid cp rp inv :
  descent s tgt chem_path rxn_path ->
  select_step cfg tgt s chem_path rxn_path invalid = Ok (Continue cp rp inv) ->
  descent s tgt cp rp.
Proof.
  intros Hd E. unfold select_step in E.
  destruct (last chem_path) as [leaf|] eqn:Eleaf; [|discriminate].
  inv_bind E as opts Hucb. destruct opts as [|[score task] rest].
  - destruct rxn_path as [|r0 rp0] eqn:Erp; [discriminate|]. injection E as <- <- _.
    exact (descent_back s tgt chem_path (r0 :: rp0) Hd ltac:(discriminate)).
  - destruct task as [task|t]; [|discriminate].
    pose proof (ucb_options_spec _ _ _ _ _ _ _ _ Hucb score (FollowReaction task)
                  (list_elem_of_here _ _)) as (Hsucc & Hoff & _).
    inv_bind E as precursor Hpre. unfold choose_precursor in Hpre.
    inv_bind Hpre as cands Hc. injection Hpre as <-.
    destruct (min_by_key snd cands) as [[c v]|] eqn:Emin; cbn in E.
    + injection E as <- <- _.
      pose proof (min_by_key_spec snd cands) as Hmin. rewrite Emin in Hmin.
      destruct Hmin as [Hin _].
      apply open_precursors_spec in Hc as [Hopen _].
      destruct (Hopen c v Hin) as (Hcs & Hdone & _).
      apply (descent_step s tgt chem_path rxn_path leaf task c Hd Eleaf).
      * apply elem_of_successors, Hsucc.
      * apply elem_of_successors, Hcs.
      * apply Hoff, Hcs.
      * exact Hdone.
    + injection E as <- <- _. exact Hd.
Qed.

Lemma select_loop_descent `{Collaborators} cfg tgt s fuel :
  forall chem_path rxn_path invalid cp rp template,
    descent s tgt chem_path rxn_path ->
    select_loop fuel cfg tgt s chem_path rxn_path invalid = Ok (cp, rp, template) ->
    descent s tgt cp rp.
Proof.
  induction fuel as [|fuel IH]; intros chem_path rxn_path invalid cp rp template Hd E;
    cbn in E; [discriminate|].
  inv_bind E as r Hr. destruct r as [cp' rp' inv'|cp' rp' t'].
  - apply (IH _ _ _ _ _ _ (select_step_descent _ _ _ _ _ _ _ _ _ Hd Hr) E).
  - injection E as <- <- <-. unfold select_step in Hr.
    destruct (last chem_path) as [leaf|]; [|discriminate].
    inv_bind Hr as opts Hucb. destruct opts as [|[score task] rest].
    + destruct rxn_path; discriminate.
    + destruct task as [task|t].
      * inv_bind Hr as precursor Hpre. destruct precursor; discriminate.
      * injection Hr as <- <- _. exact Hd.
Qed.

(** X2. The paths that [_select] returns fit together: the chemical path
    starts at the target, has one chemical more than the reaction path has
    reactions and repeats no chemical; each further chemical is a
    precursor, not done, of a reaction of the chemical before it; and the
    template returned is one of the templates of the last chemical that has
    not been explored there.  So the assertion of [_update] holds and
    [_expand] never finds the template explored already. *)
Theorem select_returns_linked_paths `{Collaborators} fuel cfg tgt s cp rp template :
  _select fuel cfg tgt s = Ok (cp, rp, template) ->
  descent s tgt cp rp
  /\ head cp = Some tgt /\ length cp = S (length rp) /\ NoDup cp
  /\ exists leaf data,
       last cp = Some leaf /\ nodes s !! leaf = Some (Chemical data)
       /\ template ∈ od_keys (c_templates data) /\ template ∉ explored data.
Proof.
  intros E. unfold _select in E.
  pose proof (select_loop_descent _ _ _ _ _ _ _ _ _ _ (descent_root s tgt) E) as Hd.
  split; [exact Hd|].
  destruct (descent_head _ _ _ _ Hd) as (H1 & H2 & H3).
  split; [exact H1|]. split; [exact H2|]. split; [exact H3|].
  exact (select_loop_template _ _ _ _ _ _ _ _ _ _ E).
Qed.

Lemma select_returns_linked_paths_witness :
  descent (search Fixtures.six_tree) "T" ["T"; "Y"; "Z"; "W"] ["X.Y>>T"; "Z>>Y"; "W>>Z"]
  /\ head ["T"; "Y"; "Z"; "W"] = Some "T"
  /\ length ["T"; "Y"; "Z"; "W"] = S (length ["X.Y>>T"; "Z>>Y"; "W>>Z"])
  /\ NoDup ["T"; "Y"; "Z"; "W"]
  /\ exists leaf data,
       last ["T"; "Y"; "Z"; "W"] = Some leaf
       /\ nodes (search Fixtures.six_tree) !! leaf = Some (Chemical data)
       /\ 7 ∈ od_keys (c_templates data) /\ 7 ∉ explored data.
Proof.
  apply (select_returns_linked_paths (H := Fixtures.stub_world) 20 (Fixtures.budget 6)).
  vm_compute. reflexivity.
Defined.

(** ** New chemical nodes and the start of a search *)

Section FreshNodes.
Context `{Collaborators}.

(** The record that [create_chemical_node] stores for [smiles]. *)
Lemma create_chemical_node_fresh cfg s smiles probs indices term :
  prioritizer_predict smiles (template_max_count cfg) (template_max_cum_prob cfg)
  = Ok (probs, indices) ->
  is_terminal cfg smiles (pricer_lookup_smiles smiles (buyables_source cfg))
              (historian_lookup_smiles smiles) = Ok term ->
  successors s smiles = [] ->
  create_chemical_node cfg s smiles
  = Ok (mkSearch
          (<[smiles :=
               Chemical
                 (mkChem (fst (historian_lookup_smiles smiles))
                         (snd (historian_lookup_smiles smiles))
                         (if term then 1%Q else 0%Q) [] None
                         (pricer_lookup_smiles smiles (buyables_source cfg)) term
                         (ordered_dict (combine indices probs)) term 1
                         (term || (len (ordered_dict (combine indices probs)) =? 0)
                          || (max_branching cfg <=? 0)))]> (nodes s))
          (edges s) (chemicals s ++ [smiles]) (reactions s)).
Proof.
  intros Hp Ht Hs. unfold create_chemical_node. rewrite Hp. cbn [mbind outcome_mbind outcome_bind].
  rewrite Ht. cbn [mbind outcome_mbind outcome_bind].
  unfold is_chemical_done_update, chem_data. cbn [nodes]. rewrite lookup_insert_eq.
  cbn [getitem mbind outcome_mbind outcome_bind terminal c_templates min_depth explored].
  unfold out_degree, successors in *. cbn [edges]. rewrite Hs.
  unfold set_node. cbn [nodes edges chemicals reactions].
  destruct term; cbn; [rewrite insert_insert_eq; reflexivity|].
  destruct (len (ordered_dict (combine indices probs)) =? 0) eqn:E0; cbn;
    [rewrite insert_insert_eq; reflexivity|].
  assert (E1 : (0 =? len (ordered_dict (combine indices probs))) = false).
  { rewrite Z.eqb_sym. exact E0. }
  change (len (@nil Z)) with 0. change (len (@nil string)) with 0. rewrite E1.
  destruct (max_branching cfg <=? 0) eqn:Eb; cbn; rewrite insert_insert_eq; reflexivity.
Qed.

End FreshNodes.

(** X3. A chemical that [create_chemical_node] adds to a graph in which
    it has no reactions yet is done at once exactly when it is terminal,
    has no templates, or [max_branching] is not positive; it starts with no
    explored templates, no depth, one visit, and solved exactly when
    terminal. *)
Theorem new_chemical_is_done_iff `{Collaborators} cfg s smiles s' :
  successors s smiles = [] ->
  create_chemical_node cfg s smiles = Ok s' ->
  chemicals s' = chemicals s ++ [smiles]
  /\ exists c,
       nodes s' !! smiles = Some (Chemical c)
       /\ (c_done c = true <->
           terminal c = true \/ c_templates c = [] \/ max_branching cfg <= 0)
       /\ c_solved c = terminal c
       /\ c_est_value c = (if terminal c then 1%Q else 0%Q)
       /\ explored c = [] /\ min_depth c = None /\ c_visit_count c = 1.
Proof.
  intros Hs E. pose proof E as E0. unfold create_chemical_node in E0.
  inv_bind E0 as predicted Hp. destruct predicted as [probs indices].
  inv_bind E0 as term Ht. clear E0.
  rewrite (create_chemical_node_fresh cfg s smiles probs indices term Hp Ht Hs) in E.
  injection E as <-. cbn [chemicals nodes]. split; [reflexivity|].
  eexists. split; [apply lookup_insert_eq|].
  cbn [c_done terminal c_templates c_solved c_est_value explored min_depth c_visit_count].
  split; [|auto 10].
  rewrite !orb_true_iff, Z.eqb_eq, Z.leb_le. unfold len.
  split.
  - intros [[Ha|Hb]|Hc]; [left; exact Ha | right; left | right; right; exact Hc].
    destruct (ordered_dict (combine indices probs)); [reflexivity | discriminate].
  - intros [Ha|[Hb|Hc]]; [left; left; exact Ha | left; right | right; exact Hc].
    rewrite Hb. reflexivity.
Qed.

Lemma new_chemical_is_done_iff_witness :
  exists s',
    create_chemical_node (H := Fixtures.stub_world) default_options empty_search "Q" = Ok s'
    /\ chemicals s' = ["Q"]
    /\ exists c, nodes s' !! "Q" = Some (Chemical c) /\ c_done c = true /\ c_solved c = false.
Proof.
  eexists. split; [vm_compute; reflexivity|].
  destruct (new_chemical_is_done_iff (H := Fixtures.stub_world) default_options empty_search
              "Q" _ eq_refl eq_refl) as (Hc & c & Hn & Hd & Hsol & _).
  split; [exact Hc|]. exists c. split; [exact Hn|].
  vm_compute in Hn. injection Hn as <-. split; reflexivity.
Defined.

Section Stuck.
Context `{Collaborators}.

(** A chemical without templates and without reactions has no option. *)
Lemma ucb_no_templates cfg tgt s node path invalid w data :
  nodes s !! node = Some (Chemical data) ->
  c_templates data = [] -> successors s node = [] ->
  ucb cfg tgt s node path invalid w = Ok [].
Proof.
  intros Hn Ht Hs. unfold ucb.
  rewrite (proj2 (chem_data_Ok s node "explored" data) Hn).
  cbn [mbind outcome_mbind outcome_bind]. rewrite Hs, Ht. cbn.
  destruct (_ || _); reflexivity.
Qed.

(** Without an option at the root, [_select] deletes from the empty
    reaction path. *)
Lemma _select_stuck fuel cfg tgt s :
  ucb cfg tgt s tgt [tgt] ∅ (exploration_weight cfg) = Ok [] ->
  _select (S fuel) cfg tgt s = Raise IndexError.
Proof.
  intros Hu. unfold _select. cbn [select_loop]. unfold select_step.
  cbn [last]. rewrite Hu. reflexivity.
Qed.

End Stuck.

(** X4. [build_tree] on a target for which the prioritizer returns no
    template raises [IndexError] in its first rollout: [_initialize] clears
    the done flag that the missing templates had set, the root offers no
    option, and [_select] deletes the last entry of the empty reaction
    path. *)
Theorem target_without_templates_raises `{Collaborators} fuel start now next ticks m tgt cfg
    probs indices term :
  prioritizer_predict tgt (template_max_count cfg) (template_max_cum_prob cfg)
  = Ok (probs, indices) ->
  combine indices probs = [] ->
  is_terminal cfg tgt (pricer_lookup_smiles tgt (buyables_source cfg))
              (historian_lookup_smiles tgt) = Ok term ->
  Qltb (now - start) (expansion_time cfg) = true ->
  reaches (max_iterations cfg) (iterations m) = false ->
  reaches (max_chemicals cfg) 1 = false ->
  reaches (max_reactions cfg) 0 = false ->
  build_tree (S fuel) (start :: now :: next :: ticks) (clear m) tgt cfg = Raise IndexError.
Proof.
  intros Hp Hz Ht Htime Hi Hc Hr. unfold build_tree, _initialize.
  cbn [search clear with_search options target iterations time_to_solve].
  rewrite (create_chemical_node_fresh cfg empty_search tgt probs indices term Hp Ht eq_refl).
  cbn [mbind outcome_mbind outcome_bind]. unfold chem_data at 1. cbn [nodes empty_search].
  rewrite lookup_insert_eq. cbn [getitem mbind outcome_mbind outcome_bind].
  rewrite Hz. unfold set_node, chem_set_flags.
  cbn [nodes edges chemicals reactions as_reactant as_product c_est_value explored min_depth
       purchase_price c_templates c_visit_count].
  rewrite insert_insert_eq.
  match goal with |- expansion_loop _ _ _ _ ?m0 = _ => set (m1 := m0) end.
  assert (Hroot : nodes (search m1) !! tgt
                  = Some (Chemical
                            (mkChem (fst (historian_lookup_smiles tgt))
                                    (snd (historian_lookup_smiles tgt))
                                    (if term then 1%Q else 0%Q) [] None
                                    (pricer_lookup_smiles tgt (buyables_source cfg))
                                    false (ordered_dict []) false 1 false))).
  { apply lookup_insert_eq. }
  assert (Hdone : done m1 = Ok false).
  { unfold done, the_target. cbn [target m1 mbind outcome_mbind outcome_bind getitem].
    unfold is_chemical_done.
    rewrite (proj2 (chem_data_Ok _ tgt "done" _) Hroot).
    cbn [mbind outcome_mbind outcome_bind c_done options m1 iterations search chemicals
         reactions empty_search app].
    change (len [tgt]) with 1. change (len (@nil string)) with 0.
    rewrite Hi, Hc, Hr. reflexivity. }
  cbn [expansion_loop]. change (options m1) with cfg. rewrite Htime, Hdone.
  cbn [mbind outcome_mbind outcome_bind the_target target m1 getitem].
  unfold _rollout. change (options m1) with cfg.
  rewrite (_select_stuck fuel cfg tgt (search m1)); [reflexivity|].
  apply (ucb_no_templates _ _ _ _ _ _ _ _ Hroot); reflexivity.
Qed.

Lemma target_without_templates_raises_witness :
  build_tree (H := Fixtures.stub_world) 1 [0; 0; 1]%Q (clear (new_mcts default_options)) "Q"
             default_options
  = Raise IndexError.
Proof.
  apply (target_without_templates_raises (H := Fixtures.stub_world) 0 0%Q 0%Q 1%Q []
           (new_mcts default_options) "Q" default_options [] [] false);
    vm_compute; reflexivity.
Defined.

Lemma create_chemical_node_record `{Collaborators} cfg s smiles s' :
  create_chemical_node cfg s smiles = Ok s' ->
  edges s' = edges s /\ chemicals s' = chemicals s ++ [smiles]
  /\ reactions s' = reactions s
  /\ exists c, nodes s' = <[smiles := Chemical c]> (nodes s)
               /\ explored c = [] /\ min_depth c = None /\ c_visit_count c = 1
               /\ c_solved c = terminal c
               /\ c_est_value c = (if terminal c then 1%Q else 0%Q).
Proof.
  unfold create_chemical_node. intros E. inv_bind E as predicted Hp.
  destruct predicted as [probs indices]. inv_bind E as term Ht. inv_bind E as upd Hu.
  destruct upd as [s2 b]. injection E as <-.
  apply is_chemical_done_update_frame in Hu as (He & Hc & Hr & c & Hn & Hn').
  cbn in He, Hc, Hr, Hn, Hn'. rewrite lookup_insert_eq in Hn. injection Hn as <-.
  rewrite insert_insert_eq in Hn'. split; [exact He|]. split; [exact Hc|]. split; [exact Hr|].
  eexists. split; [exact Hn'|]. cbn. auto 10.
Qed.

(** X17. [_initialize] does not clear the builder: it keeps every edge,
    every reaction and every other node, lists the target in [chemicals]
    once more, also when it is listed already, and replaces the record
    of the target by a fresh one that is not terminal, not done and not
    solved, with no explored template, no depth and one visit. *)
Theorem initialize_keeps_the_old_graph `{Collaborators} m tgt m' :
  _initialize m tgt = Ok m' ->
  target m' = Some tgt
  /\ edges (search m') = edges (search m)
  /\ reactions (search m') = reactions (search m)
  /\ chemicals (search m') = chemicals (search m) ++ [tgt]
  /\ (forall n, n <> tgt -> nodes (search m') !! n = nodes (search m) !! n)
  /\ (tgt ∈ chemicals (search m) -> ~ NoDup (chemicals (search m')))
  /\ exists c,
       nodes (search m') !! tgt = Some (Chemical c)
       /\ terminal c = false /\ c_done c = false /\ c_solved c = false
       /\ explored c = [] /\ min_depth c = None /\ c_visit_count c = 1.
Proof.
  unfold _initialize. intros E. inv_bind E as s1 Hs1. inv_bind E as c Hc.
  injection E as <-. cbn [target search nodes edges chemicals reactions set_node].
  apply create_chemical_node_record in Hs1
    as (He & Hch & Hr & c0 & Hn & Hex & Hmd & Hv & _).
  apply chem_data_Ok in Hc. rewrite Hn, lookup_insert_eq in Hc. injection Hc as <-.
  split; [reflexivity|]. split; [exact He|]. split; [exact Hr|]. split; [exact Hch|].
  split; [|split].
  - intros n Hne. rewrite Hn, !lookup_insert_ne by congruence. reflexivity.
  - intros Hin Hnd. rewrite Hch in Hnd. apply NoDup_app in Hnd as (_ & Hdis & _).
    exact (Hdis tgt Hin (list_elem_of_here _ _)).
  - eexists. split; [apply lookup_insert_eq|]. cbn. auto 10.
Qed.

Lemma initialize_keeps_the_old_graph_witness :
  exists m',
    _initialize (H := Fixtures.stub_world) Fixtures.six_tree "T" = Ok m'
    /\ edges (search m') = edges (search Fixtures.six_tree)
    /\ ~ NoDup (chemicals (search m')).
Proof.
  eexists. split; [vm_compute; reflexivity|].
  edestruct (initialize_keeps_the_old_graph (H := Fixtures.stub_world) Fixtures.six_tree "T")
    as (_ & He & _ & _ & _ & Hdup & _); [vm_compute; reflexivity|].
  split; [exact He|]. apply Hdup. vm_compute. apply list_elem_of_here.
Defined.

(** ** Properties of single nodes that the builder keeps

    A property of node records that every write of the builder preserves
    holds of every node of a built tree. *)

Lemma all_nodes_set_node P s n d : all_nodes P s -> P d -> all_nodes P (set_node n d s).
Proof.
  intros Hs Hd k d' Hk. cbn in Hk. destruct (decide (n = k)) as [->|Hne].
  - rewrite lookup_insert_eq in Hk. injection Hk as <-. exact Hd.
  - rewrite lookup_insert_ne in Hk by exact Hne. exact (Hs k d' Hk).
Qed.

Lemma all_nodes_same_nodes P s s' : nodes s' = nodes s -> all_nodes P s -> all_nodes P s'.
Proof. intros Hn Hs k d Hk. rewrite Hn in Hk. exact (Hs k d Hk). Qed.

Lemma range_down_nonneg n i : i ∈ range_down n -> 0 <= i.
Proof.
  induction n as [|n IH]; cbn; intros Hi; [inversion Hi|].
  apply elem_of_cons in Hi as [->|Hi]; [lia | exact (IH Hi)].
Qed.

Lemma elem_of_combine_l {A B} (a : list A) (b : list B) x y :
  (x, y) ∈ combine a b -> x ∈ a.
Proof. intros Hin. apply list_elem_of_In in Hin. apply in_combine_l in Hin. apply list_elem_of_In, Hin. Qed.

Lemma zip_longest_fst {A B} (a : list A) (b : list B) x y :
  (Some x, y) ∈ zip_longest a b -> x ∈ a.
Proof.
  revert b. induction a as [|x0 a IH]; intros b Hin; cbn in Hin.
  - apply elem_of_map in Hin as (z & Hz & _). discriminate.
  - destruct b as [|y0 b]; apply elem_of_cons in Hin as [Heq|Hin];
      try (injection Heq as -> _; apply list_elem_of_here);
      apply list_elem_of_further; exact (IH _ Hin).
Qed.

Lemma is_chemical_done_update_flag cfg s smiles s' b :
  is_chemical_done_update cfg s smiles = Ok (s', b) ->
  exists c, nodes s !! smiles = Some (Chemical c)
            /\ s' = set_node smiles (Chemical (chem_set_done b c)) s
            /\ (terminal c = true -> b = true).
Proof.
  unfold is_chemical_done_update. intros E. inv_bind E as data Hd. inv_bind E as flag Hf.
  injection E as <- <-. apply chem_data_Ok in Hd. exists data.
  split; [exact Hd|]. split; [reflexivity|]. intros Ht. rewrite Ht in Hf.
  injection Hf as <-. reflexivity.
Qed.

Section NodeInvariant.
Context `{Collaborators}.
Variable cfg : Options.
Variable P : NodeData -> Prop.
Hypothesis P_new_chemical :
  forall a b term price templates flag,
    (term = true -> flag = true) ->
    P (Chemical (mkChem a b (if term : bool then 1%Q else 0%Q) [] None price term templates
                        term 1 flag)).
Hypothesis P_new_reaction :
  forall ff tscore template,
    Qltb ff (fast_filter_threshold cfg) = false ->
    P (Reaction (mkRxn 0 ff false tscore [template] 1)).
Hypothesis P_merge :
  forall r tscore template,
    P (Reaction r) ->
    P (Reaction (mkRxn (r_est_value r) (ff_score r) (r_solved r) tscore
                       (r_templates r ++ [template]) (r_visit_count r))).
Hypothesis P_value :
  forall d values,
    P d -> (forall v, v ∈ values -> exists d', P d' /\ v = est_value d') ->
    P (set_est_value (est_value d + Qsum values)%Q d).
Hypothesis P_solved : forall d b, P d -> P (set_solved b d).
Hypothesis P_visit : forall d, P d -> P (set_visit_count (visit_count d + 1) d).
Hypothesis P_depth :
  forall c i, P (Chemical c) -> 0 <= i ->
    P (Chemical (chem_set_min_depth (min_depth_update (min_depth c) i) c)).
Hypothesis P_done :
  forall c b, P (Chemical c) -> (terminal c = true -> b = true) ->
    P (Chemical (chem_set_done b c)).
Hypothesis P_explored :
  forall c template, P (Chemical c) ->
    P (Chemical (chem_set_explored (explored c ++ [template]) c)).
Hypothesis P_root :
  forall c, P (Chemical c) -> P (Chemical (chem_set_flags false false false c)).

Lemma is_chemical_done_update_inv s smiles s' b :
  all_nodes P s -> is_chemical_done_update cfg s smiles = Ok (s', b) -> all_nodes P s'.
Proof.
  intros Hs E. apply is_chemical_done_update_flag in E as (c & Hc & -> & Hb).
  apply all_nodes_set_node; [exact Hs|]. apply P_done; [exact (Hs _ _ Hc) | exact Hb].
Qed.

Lemma create_chemical_node_inv s smiles s' :
  all_nodes P s -> create_chemical_node cfg s smiles = Ok s' -> all_nodes P s'.
Proof.
  intros Hs E. unfold create_chemical_node in E. inv_bind E as pred Hp.
  destruct pred as [probs indices]. inv_bind E as term Ht. inv_bind E as upd Hu.
  destruct upd as [s2 b]. injection E as <-.
  apply is_chemical_done_update_flag in Hu as (c & Hc & -> & Hb).
  cbn in Hc. rewrite lookup_insert_eq in Hc. injection Hc as <-.
  intros k d Hk. cbn in Hk. destruct (decide (smiles = k)) as [->|Hne].
  - rewrite lookup_insert_eq in Hk. injection Hk as <-. apply P_new_chemical. exact Hb.
  - rewrite !lookup_insert_ne in Hk by exact Hne. exact (Hs k d Hk).
Qed.

Lemma _update_value_inv s smiles s' :
  all_nodes P s -> _update_value s smiles = Ok s' -> all_nodes P s'.
Proof.
  intros Hs E. unfold _update_value in E. inv_bind E as rxn_data Hr.
  destruct rxn_data as [c|rd]; [injection E as <-; exact Hs|].
  inv_bind E as values Hv. inv_bind E as parent Hp. inv_bind E as chem Hc.
  inv_bind E as rxn2 Hr2. inv_bind E as flag Hf. inv_bind E as chem2 Hc2.
  inv_bind E as rxn3 Hr3. injection E as <-.
  apply node_attr_Ok in Hr, Hc, Hc2, Hr3.
  assert (Hvals : forall v, v ∈ values -> exists d', P d' /\ v = est_value d').
  { apply map_m_spec in Hv as [Hv _]. intros v Hin.
    destruct (Hv v Hin) as (c & _ & Hcv). inv_bind Hcv as d Hd. injection Hcv as <-.
    apply node_attr_Ok in Hd. exists d. split; [exact (Hs _ _ Hd) | reflexivity]. }
  assert (H1 : all_nodes P (set_node smiles
                 (set_est_value (est_value (Reaction rd) + Qsum values)%Q (Reaction rd)) s)).
  { apply all_nodes_set_node; [exact Hs|]. apply P_value; [exact (Hs _ _ Hr) | exact Hvals]. }
  pose proof (all_nodes_set_node P _ parent _ H1 (P_value _ _ (H1 _ _ Hc) Hvals)) as H2.
  pose proof (all_nodes_set_node P _ parent _ H2 (P_solved _ flag (H2 _ _ Hc2))) as H3.
  exact (all_nodes_set_node P _ smiles _ H3 (P_solved _ flag (H3 _ _ Hr3))).
Qed.

Lemma update_step_inv s item s' :
  (forall i chem, fst item = Some (i, chem) -> 0 <= i) ->
  all_nodes P s -> update_step cfg s item = Ok s' -> all_nodes P s'.
Proof.
  intros Hi Hs E. unfold update_step in E.
  destruct (fst item) as [[i chem]|]; [|discriminate]. specialize (Hi i chem eq_refl).
  inv_bind E as d Hd. inv_bind E as c Hc. inv_bind E as r1 Hr1. destruct r1 as [s1 b].
  apply node_attr_Ok in Hd. apply chem_data_Ok in Hc.
  pose proof (all_nodes_set_node P _ chem _ Hs (P_visit _ (Hs _ _ Hd))) as H1.
  pose proof (all_nodes_set_node P _ chem _ H1 (P_depth _ i (H1 _ _ Hc) Hi)) as H2.
  apply (is_chemical_done_update_inv _ _ _ _ H2) in Hr1.
  destruct (snd item) as [rxn|]; [|injection E as <-; exact Hr1].
  inv_bind E as r Hr. apply node_attr_Ok in Hr.
  apply (_update_value_inv _ _ _) in E; [exact E|].
  apply all_nodes_set_node; [exact Hr1|]. apply P_visit, (Hr1 _ _ Hr).
Qed.

Lemma _update_inv tgt s chem_path rxn_path s' :
  all_nodes P s -> _update cfg tgt s chem_path rxn_path = Ok s' -> all_nodes P s'.
Proof.
  unfold _update. intros Hs E. destruct chem_path as [|root rest]; [discriminate|].
  destruct (eqs root tgt); [|discriminate].
  assert (Hitems : forall x, x ∈ zip_longest (combine (range_down (length (root :: rest)))
                                                      (rev (root :: rest))) (rev rxn_path) ->
                     forall i chem, fst x = Some (i, chem) -> 0 <= i).
  { intros [x1 x2] Hx i chem Hfst. cbn in Hfst. subst x1.
    apply zip_longest_fst, elem_of_combine_l in Hx. exact (range_down_nonneg _ _ Hx). }
  revert s Hs E Hitems.
  generalize (zip_longest (combine (range_down (length (root :: rest)))
                                   (rev (root :: rest))) (rev rxn_path)).
  intros items. induction items as [|x items IH]; intros s Hs E Hitems; cbn in E.
  - injection E as <-. exact Hs.
  - inv_bind E as s1 Hs1. apply (IH s1); [|exact E|].
    + exact (update_step_inv _ _ _ (Hitems x (list_elem_of_here _ _)) Hs Hs1).
    + intros y Hy. apply Hitems, list_elem_of_further, Hy.
Qed.

Lemma scan_reactants_inv target path (l : list string) :
  forall s s1 b,
    all_nodes P s -> scan_reactants cfg s target path l = Ok (s1, b) -> all_nodes P s1.
Proof.
  induction l as [|reactant rest IH]; intros s s1 b Hs E; cbn in E.
  - injection E as <- <-. exact Hs.
  - destruct (in_strs reactant (chemicals s)).
    + destruct (in_strs reactant path || has_path s reactant target).
      * injection E as <- <-. exact Hs.
      * exact (IH _ _ _ Hs E).
    + inv_bind E as s' Hs'. apply (IH s' s1 b); [|exact E].
      exact (create_chemical_node_inv _ _ _ Hs Hs').
Qed.

Lemma register_reaction_inv s rs template tscore ff s2 :
  Qltb ff (fast_filter_threshold cfg) = false ->
  all_nodes P s -> register_reaction s rs template tscore ff = Ok s2 -> all_nodes P s2.
Proof.
  intros Hff Hs E. unfold register_reaction in E. destruct (in_strs rs (reactions s)).
  - inv_bind E as d Hd. destruct d as [c|r]; [discriminate|]. injection E as <-.
    apply node_attr_Ok in Hd.
    apply all_nodes_set_node; [exact Hs|]. apply P_merge, (Hs _ _ Hd).
  - injection E as <-. intros k d Hk. cbn in Hk. destruct (decide (rs = k)) as [->|Hne].
    + rewrite lookup_insert_eq in Hk. injection Hk as <-. apply P_new_reaction, Hff.
    + rewrite lookup_insert_ne in Hk by exact Hne. exact (Hs k d Hk).
Qed.

Lemma process_candidate_inv target template path s l s' :
  all_nodes P s -> process_candidate cfg target template path s l = Ok s' -> all_nodes P s'.
Proof.
  intros Hs E. unfold process_candidate in E.
  destruct (Qltb (fast_filter (String.concat "." l) target) (fast_filter_threshold cfg))
    eqn:Eff; [injection E as <-; exact Hs|].
  destruct (in_strs _ (banned_reactions cfg)); [injection E as <-; exact Hs|].
  destruct (existsb _ l); [injection E as <-; exact Hs|].
  inv_bind E as scanned Hscan. destruct scanned as [s1 complete].
  apply (scan_reactants_inv _ _ _ _ _ _ Hs) in Hscan.
  destruct complete; [|injection E as <-; exact Hscan].
  inv_bind E as tdata Htd. inv_bind E as tscore Hts. inv_bind E as s2 Hreg.
  apply (register_reaction_inv _ _ _ _ _ _ Eff Hscan) in Hreg.
  apply (_update_value_inv _ _ _) in E; [exact E|].
  destruct (add_edges_spec (reaction_string l target) l
              (add_edge target (reaction_string l target) s2)) as (Hn & _).
  apply (all_nodes_same_nodes _ _ _ Hn).
  destruct (add_edge_frame target (reaction_string l target) s2) as (Hn' & _).
  exact (all_nodes_same_nodes _ _ _ Hn' Hreg).
Qed.

Lemma _expand_inv s chem_path template s' :
  all_nodes P s -> _expand cfg s chem_path template = Ok s' -> all_nodes P s'.
Proof.
  intros Hs E. unfold _expand in E. destruct (last chem_path) as [leaf|]; [|discriminate].
  inv_bind E as data Hd. apply chem_data_Ok in Hd.
  destruct (in_ints template (explored data)); [injection E as <-; exact Hs|].
  pose proof (all_nodes_set_node P _ leaf _ Hs (P_explored _ template (Hs _ _ Hd))) as Hs1.
  revert Hs1 E. unfold _process_precursors.
  generalize (set_node leaf
                (Chemical (chem_set_explored (explored data ++ [template]) data)) s).
  generalize (_get_precursors leaf template). intros precursors.
  induction precursors as [|l rest IH]; intros s0 Hs0 E; cbn in E.
  - injection E as <-. exact Hs0.
  - inv_bind E as s1 Hs1. apply (IH s1); [|exact E].
    exact (process_candidate_inv _ _ _ _ _ _ Hs0 Hs1).
Qed.

Lemma _rollout_inv fuel tgt s s' :
  all_nodes P s -> _rollout fuel cfg tgt s = Ok s' -> all_nodes P s'.
Proof.
  intros Hs E. unfold _rollout in E. inv_bind E as sel Hsel.
  destruct sel as [[chem_path rxn_path] template]. inv_bind E as s1 Hexp.
  apply (_update_inv _ _ _ _ _) in E; [exact E|].
  exact (_expand_inv _ _ _ _ Hs Hexp).
Qed.

Lemma expansion_loop_inv fuel ticks :
  forall start elapsed m m',
    options m = cfg -> all_nodes P (search m) ->
    expansion_loop fuel ticks start elapsed m = Ok m' ->
    all_nodes P (search m').
Proof.
  induction ticks as [|now ticks IH]; intros start elapsed m m' Ho Hs E; cbn in E.
  - destruct (Qltb elapsed (expansion_time (options m))).
    + inv_bind E as d Hd. destruct d; [|discriminate]. injection E as <-. exact Hs.
    + injection E as <-. exact Hs.
  - destruct (Qltb elapsed (expansion_time (options m))).
    2: { injection E as <-. exact Hs. }
    inv_bind E as d Hd. destruct d; [injection E as <-; exact Hs|].
    inv_bind E as t Htt. inv_bind E as s1 Hroll. rewrite Ho in Hroll.
    pose proof (_rollout_inv _ _ _ _ Hs Hroll) as Hs1.
    cbn in E. destruct (Qtruthy (time_to_solve m)).
    + apply IH in E; [exact E | exact Ho | exact Hs1].
    + inv_bind E as root Hroot. destruct (solved root).
      * destruct (return_first (options m)).
        -- injection E as <-. exact Hs1.
        -- apply IH in E; [exact E | exact Ho | exact Hs1].
      * apply IH in E; [exact E | exact Ho | exact Hs1].
Qed.

Lemma _initialize_inv m tgt m' :
  options m = cfg -> all_nodes P (search m) ->
  _initialize m tgt = Ok m' -> options m' = cfg /\ all_nodes P (search m').
Proof.
  intros Ho Hs E. unfold _initialize in E. inv_bind E as s1 Hs1. inv_bind E as c Hc.
  injection E as <-. cbn. split; [exact Ho|]. rewrite Ho in Hs1.
  apply (create_chemical_node_inv _ _ _ Hs) in Hs1. apply chem_data_Ok in Hc.
  apply all_nodes_set_node; [exact Hs1|]. apply P_root, (Hs1 _ _ Hc).
Qed.

(** The property holds of every node of a tree built from a cleared
    builder. *)
Lemma build_tree_inv fuel ticks m tgt m' :
  build_tree fuel ticks (clear m) tgt cfg = Ok m' -> all_nodes P (search m').
Proof.
  intros E. unfold build_tree in E. inv_bind E as m1 Hinit.
  apply _initialize_inv in Hinit as [Ho Hs]; [|reflexivity|].
  - destruct ticks as [|start [|now ticks]]; try discriminate.
    exact (expansion_loop_inv _ _ _ _ _ _ Ho Hs E).
  - intros n d Hn. cbn in Hn. rewrite lookup_empty in Hn. discriminate.
Qed.

End NodeInvariant.

Lemma Qsum_nonneg (l : list Q) : (forall v, v ∈ l -> (0 <= v)%Q) -> (0 <= Qsum l)%Q.
Proof.
  unfold Qsum. assert (Hgen : forall acc, (0 <= acc)%Q -> (forall v, v ∈ l -> (0 <= v)%Q) ->
                                (0 <= fold_left Qplus l acc)%Q).
  { induction l as [|x l IH]; intros acc Hacc Hl; cbn; [exact Hacc|].
    apply IH.
    - apply Qle_trans with (0 + 0)%Q; [apply Qle_refl|].
      apply Qplus_le_compat; [exact Hacc | apply Hl, list_elem_of_here].
    - intros v Hv. apply Hl, list_elem_of_further, Hv. }
  apply Hgen. apply Qle_refl.
Qed.

(** X5. In a tree built from a cleared builder every node has a visit
    count of at least one and a value that is not negative, and the depth
    recorded for a chemical is not negative: the quotients and logarithms
    that [ucb] takes of these counts are defined. *)
Theorem built_tree_counts_are_positive `{Collaborators} fuel ticks m tgt cfg m' n d :
  build_tree fuel ticks (clear m) tgt cfg = Ok m' ->
  nodes (search m') !! n = Some d ->
  1 <= visit_count d /\ (0 <= est_value d)%Q
  /\ forall c k, d = Chemical c -> min_depth c = Some k -> 0 <= k.
Proof.
  intros E Hn.
  assert (Hc : counted d).
  { revert n d Hn. apply (build_tree_inv cfg counted) with (fuel := fuel) (ticks := ticks)
                                                          (m := m) (tgt := tgt); [..|exact E].
    - intros a b term price templates flag _. split; [apply Z.le_refl|].
      split; [destruct term; apply Qle_bool_iff; reflexivity | discriminate].
    - intros ff tscore template _. split; [apply Z.le_refl|].
      split; [apply Qle_refl | exact I].
    - intros r tscore template Hr. exact Hr.
    - intros d values (Hv & He & Hd) Hvals.
      assert (Hsum : (0 <= est_value d + Qsum values)%Q).
      { apply Qle_trans with (0 + 0)%Q; [apply Qle_refl|].
        apply Qplus_le_compat; [exact He|]. apply Qsum_nonneg. intros v Hin.
        destruct (Hvals v Hin) as (d' & (_ & He' & _) & ->). exact He'. }
      destruct d as [c|r]; (split; [exact Hv|]; split; [exact Hsum | exact Hd]).
    - intros d b Hd. destruct d; exact Hd.
    - intros d (Hv & He & Hd).
      destruct d as [c|r]; (split; [cbn in *; lia|]; split; [exact He | exact Hd]).
    - intros c i (Hv & He & Hd) Hi. cbn in *. split; [exact Hv|]. split; [exact He|].
      intros k Hk. destruct (min_depth c) as [old|]; cbn in Hk; injection Hk as <-; [|exact Hi].
      specialize (Hd old eq_refl). lia.
    - intros c b Hc _. exact Hc.
    - intros c template Hc. exact Hc.
    - intros c Hc. exact Hc. }
  destruct Hc as (Hv & He & Hd). split; [exact Hv|]. split; [exact He|].
  intros c k ->. exact (Hd k).
Qed.

Lemma built_tree_counts_are_positive_witness :
  exists d,
    nodes (search Fixtures.six_tree) !! "Y" = Some d
    /\ 1 <= visit_count d /\ (0 <= est_value d)%Q
    /\ forall c k, d = Chemical c -> min_depth c = Some k -> 0 <= k.
Proof.
  eexists. split; [vm_compute; reflexivity|].
  apply (built_tree_counts_are_positive (H := Fixtures.stub_world) 20 Fixtures.ticks
           (new_mcts default_options) "T" (Fixtures.budget 6) Fixtures.six_tree "Y");
    vm_compute; reflexivity.
Defined.

(** X6. Every reaction node of a tree built from a cleared builder has a
    fast-filter score that is not below [fast_filter_threshold] and lists
    at least one template: candidates below the threshold never enter the
    tree, and a merge keeps the score of the first occurrence. *)
Theorem built_tree_reactions_pass_filter `{Collaborators} fuel ticks m tgt cfg m' n r :
  build_tree fuel ticks (clear m) tgt cfg = Ok m' ->
  nodes (search m') !! n = Some (Reaction r) ->
  (fast_filter_threshold cfg <= ff_score r)%Q /\ r_templates r <> [].
Proof.
  intros E Hn.
  assert (Hf : filtered cfg (Reaction r)).
  { revert Hn. generalize (Reaction r). revert n.
    apply (build_tree_inv cfg (filtered cfg)) with (fuel := fuel) (ticks := ticks)
                                                   (m := m) (tgt := tgt); [..|exact E].
    - intros a b term price templates flag _. exact I.
    - intros ff tscore template Hff. cbn. split; [discriminate | apply Qltb_false, Hff].
    - intros r0 tscore template [Hne Hff]. cbn. split; [|exact Hff].
      destruct (r_templates r0); discriminate.
    - intros d values Hd _. destruct d; exact Hd.
    - intros d b Hd. destruct d; exact Hd.
    - intros d Hd. destruct d; exact Hd.
    - intros c i _ _. exact I.
    - intros c b _ _. exact I.
    - intros c template _. exact I.
    - intros c _. exact I. }
  destruct Hf as [Hne Hff]. split; assumption.
Qed.

Lemma built_tree_reactions_pass_filter_witness :
  exists r,
    nodes (search Fixtures.six_tree) !! "X.Y>>T" = Some (Reaction r)
    /\ (75 # 100 <= ff_score r)%Q /\ r_templates r <> [].
Proof.
  eexists. split; [vm_compute; reflexivity|].
  apply (built_tree_reactions_pass_filter (H := Fixtures.stub_world) 20 Fixtures.ticks
           (new_mcts default_options) "T" (Fixtures.budget 6) Fixtures.six_tree "X.Y>>T");
    vm_compute; reflexivity.
Defined.

(** ** The terminal criterion *)

Lemma bucket_append_and b results :
  bucket_append "and" b results = Ok (fst results ++ [b], snd results).
Proof. reflexivity. Qed.

Lemma bucket_append_or b results :
  bucket_append "or" b results = Ok (fst results, snd results ++ [b]).
Proof. reflexivity. Qed.

Lemma bucket_append_valid logic b results :
  valid_logic logic = true -> exists r, bucket_append logic b results = Ok r.
Proof.
  unfold valid_logic, bucket_append. intros Hv.
  destruct (eqs logic "and"); [eexists; reflexivity|].
  destruct (eqs logic "or"); [eexists; reflexivity | discriminate].
Qed.

Lemma bucket_append_invalid logic b results :
  valid_logic logic = false -> bucket_append logic b results = Raise (KeyError logic).
Proof.
  unfold valid_logic, bucket_append. intros Hv.
  destruct (eqs logic "and"); [discriminate|].
  destruct (eqs logic "or"); [discriminate | reflexivity].
Qed.

Lemma existsb_id_app (a b : list bool) : existsb id (a ++ b) = existsb id a || existsb id b.
Proof. apply existsb_app. Qed.

(** X7. With the default termination logic a chemical is terminal exactly
    when it has a price other than zero that is within [max_ppg] (when that
    cap is set), or when one of the optional criteria that are set holds:
    the SCScore within [max_scscore], the atom counts within
    [max_elements] (for a molecule that RDKit parses), or one of the two
    history counts reaching [min_history].  No error is raised. *)
Theorem is_terminal_with_default_logic `{Collaborators} cfg smiles ppg hist :
  termination_logic cfg = [] ->
  is_terminal cfg smiles ppg hist
  = Ok ((truthy_price ppg
         && match max_ppg cfg, ppg with
            | Some cap, Some p => Qle_bool p cap
            | _, _ => true
            end)
        || match max_scscore cfg with
           | Some cap => Qle_bool (scscorer_get_score smiles) cap
           | None => false
           end
        || match max_elements cfg, element_counts smiles with
           | Some caps, Some elem_dict =>
               forallb (fun kv => elem_dict (fst kv) <=? snd kv) caps
           | _, _ => false
           end
        || match min_history cfg with
           | Some (min_reactant, min_product) =>
               (min_reactant <=? fst hist) || (min_product <=? snd hist)
           | None => false
           end).
Proof.
  intros Hl. unfold is_terminal. rewrite Hl. cbn [logic_get].
  destruct (max_ppg cfg) as [cap|], ppg as [p|];
    destruct (max_scscore cfg) as [sc|];
    destruct (max_elements cfg) as [caps|];
    try destruct (element_counts smiles) as [elem_dict|];
    destruct (min_history cfg) as [[mr mp]|];
    rewrite ?bucket_append_and, ?bucket_append_or;
    cbn [mbind outcome_mbind outcome_bind fst snd app forallb existsb id truthy_price];
    rewrite ?bucket_append_and, ?bucket_append_or;
    cbn [mbind outcome_mbind outcome_bind fst snd app forallb existsb id truthy_price];
    rewrite ?bucket_append_and, ?bucket_append_or;
    cbn [mbind outcome_mbind outcome_bind fst snd app forallb existsb id truthy_price];
    rewrite ?bucket_append_and, ?bucket_append_or;
    cbn [mbind outcome_mbind outcome_bind fst snd app forallb existsb id truthy_price];
    f_equal; rewrite ?andb_true_r, ?orb_false_r, ?orb_assoc; reflexivity.
Qed.

Lemma is_terminal_with_default_logic_witness :
  is_terminal (H := Fixtures.market_world) default_options "B" (Some 0%Q) (0, 0) = Ok false
  /\ is_terminal (H := Fixtures.market_world) default_options "B" (Some 1%Q) (0, 0) = Ok true.
Proof.
  split.
  - rewrite (is_terminal_with_default_logic (H := Fixtures.market_world) default_options "B"
               (Some 0%Q) (0, 0) eq_refl). reflexivity.
  - rewrite (is_terminal_with_default_logic (H := Fixtures.market_world) default_options "B"
               (Some 1%Q) (0, 0) eq_refl). reflexivity.
Defined.

(** X8. [is_terminal] returns a result exactly when every criterion that
    it evaluates is combined by [and] or [or] in [termination_logic];
    otherwise it raises [KeyError].  A criterion that is not evaluated,
    because its cap is not set, the chemical has no price, or RDKit cannot
    parse the molecule, may carry any name. *)
Theorem is_terminal_returns_iff_logic_valid `{Collaborators} cfg smiles ppg hist :
  (exists b, is_terminal cfg smiles ppg hist = Ok b)
  <-> enabled_logic_valid cfg smiles ppg = true.
Proof.
  unfold is_terminal, enabled_logic_valid.
  set (l1 := logic_get "max_ppg" "and" (termination_logic cfg)).
  set (l2 := logic_get "max_scscore" "or" (termination_logic cfg)).
  set (l3 := logic_get "max_elements" "or" (termination_logic cfg)).
  set (l4 := logic_get "min_history" "or" (termination_logic cfg)).
  assert (Hstep : forall logic b results (k : list bool * list bool -> outcome bool) v,
            (forall r, (exists x, k r = Ok x) <-> v = true) ->
            (exists x, (bucket_append logic b results ≫= k) = Ok x)
            <-> valid_logic logic && v = true).
  { intros logic b results k v Hk. destruct (valid_logic logic) eqn:Ev.
    - destruct (bucket_append_valid logic b results Ev) as (r & ->). cbn. apply Hk.
    - rewrite (bucket_append_invalid logic b results Ev). cbn.
      split; [intros (x & Hx); discriminate | discriminate]. }
  assert (Hskip : forall results (k : list bool * list bool -> outcome bool) v,
            (forall r, (exists x, k r = Ok x) <-> v = true) ->
            (exists x, (Ok results ≫= k) = Ok x) <-> true && v = true).
  { intros results k v Hk. cbn. apply Hk. }
  assert (Hend : forall r : list bool * list bool,
            (exists x, Ok (forallb id (fst r) || existsb id (snd r)) = Ok x) <-> true = true).
  { intros r. split; [reflexivity | eexists; reflexivity]. }
  rewrite <- !andb_assoc.
  destruct (max_ppg cfg) as [cap|], ppg as [p|];
    (apply Hstep || apply Hskip); intros r1;
    destruct (max_scscore cfg) as [sc|];
    (apply Hstep || apply Hskip); intros r2;
    destruct (max_elements cfg) as [caps|];
    try destruct (element_counts smiles) as [elem_dict|];
    (apply Hstep || apply Hskip); intros r3;
    destruct (min_history cfg) as [[mr mp]|];
    try (rewrite <- (andb_true_r (valid_logic l4)); apply Hstep; exact Hend);
    exact (Hend _).
Qed.

(** ** Output formats and the ascending metrics *)



Section Ascending.
Context {A : Type} (key : A -> Z).

Lemma insert_asc_sorted (x : A) (l : list A) :
  non_decreasing (map key l) ->
  non_decreasing (map key (insert_by (fun y x => key y <? key x) x l)).
Proof.
  induction l as [|y l IH]; cbn; intros Hs.
  - split; [|exact I]. intros z Hz. inversion Hz.
  - destruct Hs as [Hy Hl]. destruct (key y <? key x) eqn:E.
    + apply Z.ltb_lt in E. cbn. split; [|apply IH, Hl].
      intros z Hz. apply elem_of_map in Hz as (a & -> & Ha).
      rewrite insert_by_perm in Ha. apply elem_of_cons in Ha as [->|Ha].
      * lia.
      * apply Hy, elem_of_map. exists a. split; [reflexivity | exact Ha].
    + apply Z.ltb_ge in E. cbn. split; [|split; assumption].
      intros z Hz. apply elem_of_cons in Hz as [->|Hz]; [exact E|].
      specialize (Hy z Hz). lia.
Qed.

Lemma sorted_by_asc (l : list A) :
  non_decreasing (map key (sorted_by (fun y x => key y <? key x) l)).
Proof.
  induction l as [|x l IH]; cbn; [exact I|]. apply insert_asc_sorted, IH.
Qed.

Lemma insert_by_stable (k : Z) (x : A) (l : list A) :
  List.filter (fun p => key p =? k) (insert_by (fun y x => key y <? key x) x l)
  = List.filter (fun p => key p =? k) (x :: l).
Proof.
  induction l as [|y l IH]; [reflexivity|]. cbn [insert_by].
  destruct (key y <? key x) eqn:E; [|reflexivity].
  apply Z.ltb_lt in E. cbn [List.filter] in *. rewrite IH.
  destruct (key x =? k) eqn:Ex; [|reflexivity].
  apply Z.eqb_eq in Ex. assert (Ey : (key y =? k) = false) by (apply Z.eqb_neq; lia).
  rewrite Ey. reflexivity.
Qed.

Lemma sorted_by_stable (k : Z) (l : list A) :
  List.filter (fun p => key p =? k) (sorted_by (fun y x => key y <? key x) l)
  = List.filter (fun p => key p =? k) l.
Proof.
  induction l as [|x l IH]; [reflexivity|]. cbn [sorted_by foldr].
  rewrite insert_by_stable. cbn [List.filter]. unfold sorted_by in IH. rewrite IH.
  reflexivity.
Qed.
End Ascending.

(** X10. Sorting by [number_of_starting_materials] returns the same paths
    with the number of leaves never decreasing, and sorting by
    [number_of_reactions] returns them with the number of reactions on a
    longest branch never decreasing: fewer starting materials, or shorter
    routes, come first.  Both sorts are stable: the paths of one count stay
    in the order in which they were enumerated. *)
Theorem ascending_metrics_sort_upwards (paths : list PathTree) :
  (exists sorted,
      sort_paths (Ok paths) "number_of_starting_materials" = Ok sorted
      /\ sorted ≡ₚ paths
      /\ non_decreasing (map number_of_starting_materials sorted)
      /\ forall k, List.filter (fun p => number_of_starting_materials p =? k) sorted
                   = List.filter (fun p => number_of_starting_materials p =? k) paths)
  /\ (exists sorted,
         sort_paths (Ok paths) "number_of_reactions" = Ok sorted
         /\ sorted ≡ₚ paths
         /\ non_decreasing (map number_of_reactions sorted)
         /\ forall k, List.filter (fun p => number_of_reactions p =? k) sorted
                      = List.filter (fun p => number_of_reactions p =? k) paths).
Proof.
  split; (eexists; split; [reflexivity|]; split; [apply sorted_by_perm|]).
  - split; [apply (sorted_by_asc number_of_starting_materials)|].
    intros k. apply (sorted_by_stable number_of_starting_materials).
  - split; [apply (sorted_by_asc number_of_reactions)|].
    intros k. apply (sorted_by_stable number_of_reactions).
Qed.

(** ** What the enumeration yields *)

Lemma map_m_Forall2 {A B} (f : A -> outcome B) (l : list A) :
  forall ys, map_m f l = Ok ys -> Forall2 (fun x y => f x = Ok y) l ys.
Proof.
  induction l as [|x l IH]; intros ys E; cbn in E.
  - injection E as <-. constructor.
  - inv_bind E as y Hy. inv_bind E as ys' Hys. injection E as <-.
    constructor; [exact Hy | apply IH, Hys].
Qed.

Lemma product_Forall2 {A} (lists : list (list A)) :
  forall combo, combo ∈ product lists <-> Forall2 (fun x l => x ∈ l) combo lists.
Proof.
  induction lists as [|l lists IH]; intros combo; cbn.
  - rewrite list_elem_of_singleton. split; [intros ->; constructor|].
    intros HF. inversion HF. reflexivity.
  - rewrite elem_of_flat_map. split.
    + intros (x & Hx & Hc). apply elem_of_map in Hc as (rest & -> & Hrest).
      constructor; [exact Hx | apply IH, Hrest].
    + intros HF. inversion HF as [|x l' rest lists' Hx Hrest]; subst.
      exists x. split; [exact Hx|]. apply elem_of_map. exists rest.
      split; [reflexivity | apply IH, Hrest].
Qed.

Lemma route_unfold s cap n data cs node depth :
  route s cap (PathNode n data cs) node depth
  <-> n = node /\ nodes s !! node = Some data
      /\ match cs with
         | [] => (out_degree s node =? 0) || reaches cap depth = true
         | [PathNode rxn rxn_data subs] =>
             (out_degree s node =? 0) || reaches cap depth = false
             /\ rxn ∈ successors s node
             /\ nodes s !! rxn = Some rxn_data
             /\ successors s rxn <> []
             /\ Forall2 (fun sub c => route s cap sub c (depth + 1)) subs (successors s rxn)
         | _ => False
         end.
Proof.
  cbn [route]. destruct cs as [|[rxn rxn_data subs] [|c cs]]; [reflexivity| |reflexivity].
  assert (Hall : forall precursors,
            (fix all2 (subs : list PathTree) (precursors : list string) : Prop :=
               match subs, precursors with
               | [], [] => True
               | sub :: subs', c :: precursors' =>
                   route s cap sub c (depth + 1) /\ all2 subs' precursors'
               | _, _ => False
               end) subs precursors
            <-> Forall2 (fun sub c => route s cap sub c (depth + 1)) subs precursors).
  { induction subs as [|sub subs IH]; intros [|c precursors].
    - split; [constructor | exact (fun _ => I)].
    - split; [contradiction | intros HF; inversion HF].
    - split; [contradiction | intros HF; inversion HF].
    - rewrite IH. split.
      + intros [H1 H2]. constructor; assumption.
      + intros HF. inversion HF; subst. split; assumption. }
  rewrite Hall. reflexivity.
Qed.

Lemma Forall2_elem_of_l {A B} (R : A -> B -> Prop) (l : list A) (k : list B) x :
  Forall2 R l k -> x ∈ l -> exists y, y ∈ k /\ R x y.
Proof.
  induction 1 as [|a b l k Hab HF IH]; intros Hx; [inversion Hx|].
  apply elem_of_cons in Hx as [->|Hx].
  - exists b. split; [apply list_elem_of_here | exact Hab].
  - destruct (IH Hx) as (y & Hy & Hxy). exists y.
    split; [apply list_elem_of_further, Hy | exact Hxy].
Qed.

Lemma Forall2_chain {A B C} (R : A -> B -> Prop) (S : C -> B -> Prop) (T : A -> C -> Prop)
    (l : list A) (k : list B) (j : list C) :
  (forall a b c, R a b -> S c b -> T a c) ->
  Forall2 R l k -> Forall2 S j k -> Forall2 T l j.
Proof.
  intros HT HR. revert j. induction HR as [|a b l k Hab HF IH]; intros j HS.
  - inversion HS. constructor.
  - inversion HS as [|c b' j' k' Hcb HS']; subst. constructor; [eauto | apply IH, HS'].
Qed.

Lemma Forall2_compose {A B C} (R : A -> B -> Prop) (S : B -> C -> Prop) (T : A -> C -> Prop)
    (l : list A) (k : list B) (j : list C) :
  (forall a b c, R a b -> S b c -> T a c) ->
  Forall2 R l k -> Forall2 S k j -> Forall2 T l j.
Proof.
  intros HT HR. revert j. induction HR as [|a b l k Hab HF IH]; intros j HS.
  - inversion HS. constructor.
  - inversion HS as [|b' c k' j' Hbc HS']; subst. constructor; [eauto | apply IH, HS'].
Qed.

(** Every tree that [get_chem_paths] yields is a route. *)
Lemma get_chem_paths_sound s cap :
  forall fuel node depth paths,
    get_chem_paths fuel s cap node depth = Ok paths ->
    forall p, p ∈ paths -> route s cap p node depth.
Proof.
  induction fuel as [|fuel IH]; intros node depth paths E p Hp; [discriminate|].
  rewrite get_chem_paths_S in E. inv_bind E as data Hd. apply node_attr_Ok in Hd.
  destruct ((out_degree s node =? 0) || reaches cap depth) eqn:Ecut.
  { injection E as <-. apply list_elem_of_singleton in Hp as ->.
    apply route_unfold. auto. }
  inv_bind E as subs Hsubs. injection E as <-.
  apply elem_of_concat in Hp as (l & Hl & Hp).
  apply map_m_spec in Hsubs as [Hsubs _].
  destruct (Hsubs l Hl) as (rxn & Hrxn & Hf). inv_bind Hf as ps Hps. injection Hf as <-.
  apply elem_of_map in Hp as (sub & -> & Hsub).
  unfold get_rxn_paths_with in Hps. inv_bind Hps as csubs Hcs.
  destruct (successors s rxn) as [|c0 cs0] eqn:Esucc; [discriminate|].
  inv_bind Hps as rxn_data Hrd. injection Hps as <-. apply node_attr_Ok in Hrd.
  apply elem_of_map in Hsub as (combo & -> & Hcombo).
  apply route_unfold. split; [reflexivity|]. split; [exact Hd|].
  split; [exact Ecut|]. split; [exact Hrxn|]. split; [exact Hrd|].
  rewrite Esucc. split; [discriminate|].
  apply product_Forall2 in Hcombo. apply map_m_Forall2 in Hcs.
  apply (Forall2_chain (fun x l => x ∈ l)
           (fun c l => get_chem_paths fuel s cap c (depth + 1) = Ok l) _ _ csubs _);
    [|exact Hcombo | exact Hcs].
  intros sub l c Hin Hc. exact (IH c (depth + 1) l Hc sub Hin).
Qed.

(** Every route is among the trees that [get_chem_paths] yields. *)
Lemma get_chem_paths_complete s cap :
  forall fuel node depth paths,
    get_chem_paths fuel s cap node depth = Ok paths ->
    forall p, route s cap p node depth -> p ∈ paths.
Proof.
  induction fuel as [|fuel IH]; intros node depth paths E p Hp; [discriminate|].
  rewrite get_chem_paths_S in E. inv_bind E as data Hd. apply node_attr_Ok in Hd.
  destruct p as [n pdata cs]. apply route_unfold in Hp as (-> & Hn & Hcs).
  rewrite Hd in Hn. injection Hn as <-.
  destruct ((out_degree s node =? 0) || reaches cap depth) eqn:Ecut.
  { injection E as <-. destruct cs as [|[rxn rxn_data subs] [|c cs]].
    - apply list_elem_of_here.
    - destruct Hcs as [Hcut _]. discriminate.
    - contradiction. }
  inv_bind E as subsl Hsubs. injection E as <-.
  destruct cs as [|[rxn rxn_data subs] [|c cs]]; [discriminate| |contradiction].
  destruct Hcs as (_ & Hrxn & Hrd & Hne & Hall).
  apply map_m_spec in Hsubs as [_ Hsubs].
  destruct (Hsubs rxn Hrxn) as (l & Hl & Hf). inv_bind Hf as ps Hps. injection Hf as <-.
  apply elem_of_concat. eexists. split; [exact Hl|].
  apply elem_of_map. eexists. split; [reflexivity|].
  unfold get_rxn_paths_with in Hps. inv_bind Hps as csubs Hcsubs.
  destruct (successors s rxn) as [|c0 cs0] eqn:Esucc; [discriminate|].
  inv_bind Hps as rd Hrd'. injection Hps as <-. apply node_attr_Ok in Hrd'.
  rewrite Hrd in Hrd'. injection Hrd' as <-.
  apply elem_of_map. exists subs. split; [reflexivity|].
  apply product_Forall2. apply map_m_Forall2 in Hcsubs.
  apply (Forall2_compose (fun sub c => route s cap sub c (depth + 1))
           (fun c l => get_chem_paths fuel s cap c (depth + 1) = Ok l) _ _ (c0 :: cs0) _);
    [|exact Hall | exact Hcsubs].
  intros sub c l Hsub Hc. exact (IH c (depth + 1) l Hc sub Hsub).
Qed.

Lemma take_paths_uncapped vfn (paths : list PathTree) :
  forall num kept,
    take_paths None vfn num paths = Ok kept ->
    forall p, p ∈ kept <-> p ∈ paths /\ passes vfn p.
Proof.
  induction paths as [|q paths IH]; intros num kept E p; cbn in E.
  - injection E as <-. split; [intros Hp; inversion Hp | intros [Hp _]; inversion Hp].
  - inv_bind E as accepted Hacc. destruct accepted.
    + inv_bind E as r Hr. injection E as <-. rewrite !elem_of_cons, (IH _ _ Hr p).
      assert (Hq : passes vfn q) by (destruct vfn; [exact Hacc | exact I]).
      split.
      * intros [->|[Hp Hv]]; [split; [left; reflexivity | exact Hq] | split; [right|]; assumption].
      * intros [[->|Hp] Hv]; [left; reflexivity | right; split; assumption].
    + rewrite (IH _ _ E p), elem_of_cons.
      assert (Hq : ~ passes vfn q).
      { destruct vfn as [v|]; cbn; [congruence | discriminate]. }
      split.
      * intros [Hp Hv]. split; [right; exact Hp | exact Hv].
      * intros [[->|Hp] Hv]; [contradiction | split; assumption].
Qed.

Lemma take_paths_sublist cap vfn (paths : list PathTree) :
  forall num kept,
    take_paths cap vfn num paths = Ok kept ->
    forall p, p ∈ kept -> p ∈ paths /\ passes vfn p.
Proof.
  induction paths as [|q paths IH]; intros num kept E p Hp; cbn in E.
  - injection E as <-. inversion Hp.
  - destruct (reaches cap num); [injection E as <-; inversion Hp|].
    inv_bind E as accepted Hacc. destruct accepted.
    + inv_bind E as r Hr. injection E as <-. apply elem_of_cons in Hp as [->|Hp].
      * split; [apply list_elem_of_here|]. destruct vfn; [exact Hacc | exact I].
      * destruct (IH _ _ Hr p Hp) as [Hin Hv]. split; [apply list_elem_of_further, Hin | exact Hv].
    + destruct (IH _ _ E p Hp) as [Hin Hv]. split; [apply list_elem_of_further, Hin | exact Hv].
Qed.

(** X11. [get_paths] yields routes only, and without a cap on their
    number it yields every route that passes the validation: each tree
    starts at the root with the attributes of the tree builder's nodes,
    a chemical stands alone when it has no reaction or the depth cap is
    reached and otherwise above exactly one of its reactions, and a
    reaction stands above one subtree for every one of its precursors. *)
Theorem get_paths_yields_the_routes fuel s root depth_cap cap vfn paths :
  get_paths fuel s root depth_cap cap vfn = Ok paths ->
  (forall p, p ∈ paths -> route s depth_cap p root 0 /\ passes vfn p)
  /\ (cap = None ->
      forall p, route s depth_cap p root 0 -> passes vfn p -> p ∈ paths).
Proof.
  intros E. unfold get_paths in E. inv_bind E as generated Hgen. split.
  - intros p Hp. destruct (take_paths_sublist _ _ _ _ _ E p Hp) as [Hin Hv].
    split; [exact (get_chem_paths_sound _ _ _ _ _ _ Hgen p Hin) | exact Hv].
  - intros -> p Hr Hv. apply (take_paths_uncapped _ _ _ _ E p).
    split; [exact (get_chem_paths_complete _ _ _ _ _ _ Hgen p Hr) | exact Hv].
Qed.

Lemma get_paths_yields_the_routes_witness :
  exists paths,
    generated_paths 30 Fixtures.market_tree true None None = Ok paths
    /\ forall p, p ∈ paths ->
         route (search Fixtures.market_tree) (Some 10) p "T" 0
         /\ passes (Some _validate_path) p.
Proof.
  eexists. split; [vm_compute; reflexivity|].
  apply (get_paths_yields_the_routes 30 (search Fixtures.market_tree) "T" (Some 10) None
           (Some _validate_path)).
  vm_compute. reflexivity.
Defined.

Lemma list_max_map_le {A} (f : A -> nat) (l : list A) (b : nat) :
  (forall x, x ∈ l -> (f x <= b)%nat) -> (list_max (map f l) <= b)%nat.
Proof.
  intros Hl. apply list_max_le. apply Forall_forall. intros y Hy.
  apply elem_of_map in Hy as (x & -> & Hx). apply Hl, Hx.
Qed.

(** Induction on paths with the property available for every child. *)
Lemma PathTree_forall_ind (P : PathTree -> Prop) :
  (forall n d cs, Forall P cs -> P (PathNode n d cs)) -> forall p, P p.
Proof.
  intros step. fix IH 1. intros [n d cs]. apply step.
  induction cs as [|c cs IHcs]; constructor; [apply IH | exact IHcs].
Qed.

Lemma route_height_both s d :
  forall p depth,
    (forall node, route s (Some d) p node depth ->
       Z.of_nat (height p) <= 2 * Z.max 0 (d - depth))
    /\ (forall n data subs precursors,
          p = PathNode n data subs ->
          Forall2 (fun sub c => route s (Some d) sub c (depth + 1)) subs precursors ->
          Z.of_nat (height p) <= 1 + 2 * Z.max 0 (d - (depth + 1))).
Proof.
  intros p. induction p as [n data cs IH] using PathTree_forall_ind. intros depth. split.
  - intros node Hr. apply route_unfold in Hr as (_ & _ & Hcs).
    destruct cs as [|[rxn rxn_data subs] [|c cs]]; [cbn; lia| |contradiction].
    destruct Hcs as (Hcut & _ & _ & _ & Hall).
    apply orb_false_iff in Hcut as [_ Hcut]. cbn [reaches] in Hcut. apply Z.leb_gt in Hcut.
    apply Forall_inv in IH. destruct (IH depth) as [_ IH2].
    specialize (IH2 rxn rxn_data subs _ eq_refl Hall).
    change (height (PathNode n data [PathNode rxn rxn_data subs]))
      with (Nat.max (S (height (PathNode rxn rxn_data subs))) 0).
    lia.
  - intros n' data' subs precursors Heq Hall. injection Heq as <- <- <-.
    assert (Hle : (height (PathNode n data cs)
                   <= Z.to_nat (1 + 2 * Z.max 0 (d - (depth + 1))))%nat).
    { cbn [height]. apply list_max_map_le. intros sub Hsub.
      destruct (Forall2_elem_of_l _ _ _ _ Hall Hsub) as (c & _ & Hc).
      pose proof (proj1 (Forall_forall _ _) IH sub Hsub (depth + 1)) as [IH1 _].
      specialize (IH1 c Hc). lia. }
    lia.
Qed.

(** X12. With a depth cap every tree that [get_paths] yields has at most
    twice that many edges between the root and any leaf: no route passes
    through more reactions than the cap allows. *)
Theorem get_paths_respects_the_depth_cap fuel s root d cap vfn paths :
  get_paths fuel s root (Some d) cap vfn = Ok paths ->
  forall p, p ∈ paths -> Z.of_nat (height p) <= 2 * Z.max 0 d.
Proof.
  intros E p Hp. unfold get_paths in E. inv_bind E as generated Hgen.
  destruct (take_paths_sublist _ _ _ _ _ E p Hp) as [Hin _].
  pose proof (get_chem_paths_sound _ _ _ _ _ _ Hgen p Hin) as Hr.
  pose proof (proj1 (route_height_both s d p 0) root Hr) as Hh.
  rewrite Z.sub_0_r in Hh. exact Hh.
Qed.

Lemma get_paths_respects_the_depth_cap_witness :
  exists paths,
    get_paths 30 (search Fixtures.six_tree) "T" (Some 2) None None = Ok paths
    /\ paths <> []
    /\ forall p, p ∈ paths -> Z.of_nat (height p) <= 4.
Proof.
  eexists. split; [vm_compute; reflexivity|]. split; [discriminate|].
  apply (get_paths_respects_the_depth_cap 30 (search Fixtures.six_tree) "T" 2 None None).
  vm_compute. reflexivity.
Defined.

Lemma take_paths_first_valid cap vfn (f : PathTree -> bool) (paths : list PathTree) :
  (forall p, p ∈ paths ->
     match vfn with Some v => v p = Ok (f p) | None => f p = true end) ->
  forall num,
    take_paths cap vfn num paths
    = Ok match cap with
         | Some k => firstn (Z.to_nat (k - num)) (List.filter f paths)
         | None => List.filter f paths
         end.
Proof.
  induction paths as [|q paths IH]; intros Hv num; cbn [take_paths List.filter].
  - destruct cap; [rewrite firstn_nil|]; reflexivity.
  - assert (Hrest : forall p, p ∈ paths ->
              match vfn with Some v => v p = Ok (f p) | None => f p = true end).
    { intros p Hp. apply Hv, list_elem_of_further, Hp. }
    specialize (IH Hrest). pose proof (Hv q (list_elem_of_here _ _)) as Hq.
    destruct (reaches cap num) eqn:Ecap.
    + destruct cap as [k|]; [|discriminate]. cbn in Ecap. apply Z.leb_le in Ecap.
      replace (Z.to_nat (k - num)) with O by lia. reflexivity.
    + assert (Hacc : match vfn with Some v => v q | None => Ok true end = Ok (f q)).
      { destruct vfn; [exact Hq | rewrite Hq; reflexivity]. }
      rewrite Hacc. cbn [mbind outcome_mbind outcome_bind].
      destruct (f q).
      * rewrite IH. cbn [mbind outcome_mbind outcome_bind]. destruct cap as [k|]; [|reflexivity].
        cbn in Ecap. apply Z.leb_gt in Ecap.
        replace (Z.to_nat (k - num)) with (S (Z.to_nat (k - (num + 1)))) by lia.
        reflexivity.
      * apply IH.
Qed.

(** X13. [get_paths] returns, in the order of the enumeration, the paths
    that pass the validation, and with a cap [max_trees] only the first
    that many of them; paths that fail the validation do not count towards
    the cap, and a cap that is not positive leaves nothing. *)
Theorem get_paths_keeps_the_first_valid fuel s root depth_cap cap vfn
    (f : PathTree -> bool) generated :
  get_chem_paths fuel s depth_cap root 0 = Ok generated ->
  (forall p, p ∈ generated ->
     match vfn with Some v => v p = Ok (f p) | None => f p = true end) ->
  get_paths fuel s root depth_cap cap vfn
  = Ok match cap with
       | Some k => firstn (Z.to_nat k) (List.filter f generated)
       | None => List.filter f generated
       end
  /\ forall k paths,
       cap = Some k -> get_paths fuel s root depth_cap cap vfn = Ok paths ->
       len paths <= Z.max 0 k.
Proof.
  intros Hgen Hv.
  assert (E : get_paths fuel s root depth_cap cap vfn
              = Ok match cap with
                   | Some k => firstn (Z.to_nat k) (List.filter f generated)
                   | None => List.filter f generated
                   end).
  { unfold get_paths. rewrite Hgen. cbn [mbind outcome_mbind outcome_bind].
    rewrite (take_paths_first_valid cap vfn f generated Hv 0).
    destruct cap as [k|]; [rewrite Z.sub_0_r|]; reflexivity. }
  split; [exact E|]. intros k paths -> Hp. rewrite E in Hp. injection Hp as <-.
  unfold len. pose proof (firstn_le_length (Z.to_nat k) (List.filter f generated)). lia.
Qed.

Lemma get_paths_keeps_the_first_valid_witness :
  get_paths 30 (search Fixtures.six_tree) "T" (Some 10) (Some 1) None
  = Ok (firstn 1 (match get_chem_paths 30 (search Fixtures.six_tree) (Some 10) "T" 0 with
                  | Ok l => l
                  | _ => []
                  end)).
Proof.
  edestruct (get_paths_keeps_the_first_valid 30 (search Fixtures.six_tree) "T" (Some 10)
               (Some 1) None (fun _ => true)) as [E _].
  - vm_compute. reflexivity.
  - intros p _. reflexivity.
  - rewrite E. vm_compute. reflexivity.
Defined.

(** ** The iteration budget *)

Lemma expansion_loop_budget `{Collaborators} fuel ticks k :
  forall start elapsed m m',
    max_iterations (options m) = Some k ->
    expansion_loop fuel ticks start elapsed m = Ok m' ->
    iterations m' <= Z.max k (iterations m).
Proof.
  induction ticks as [|now ticks IH]; intros start elapsed m m' Hk E; cbn in E.
  - destruct (Qltb elapsed (expansion_time (options m))).
    + inv_bind E as d Hd. destruct d; [|discriminate]. injection E as <-. lia.
    + injection E as <-. lia.
  - destruct (Qltb elapsed (expansion_time (options m))).
    2: { injection E as <-. lia. }
    inv_bind E as d Hd. destruct d; [injection E as <-; lia|].
    assert (Hlt : iterations m < k).
    { unfold done in Hd. inv_bind Hd as t Ht. inv_bind Hd as cd Hcd. injection Hd as Hd.
      rewrite Hk in Hd. cbn [reaches] in Hd.
      apply orb_false_iff in Hd as [Hd _]. apply orb_false_iff in Hd as [Hd _].
      apply orb_false_iff in Hd as [_ Hd]. apply Z.leb_gt in Hd. exact Hd. }
    inv_bind E as t Htt. inv_bind E as s1 Hroll. cbn in E.
    destruct (Qtruthy (time_to_solve m)).
    + apply IH in E; [|exact Hk]. cbn in E. lia.
    + inv_bind E as root Hroot. destruct (solved root).
      * destruct (return_first (options m)).
        -- injection E as <-. cbn. lia.
        -- apply IH in E; [|exact Hk]. cbn in E. lia.
      * apply IH in E; [|exact Hk]. cbn in E. lia.
Qed.

(** X14. With [max_iterations] set, [build_tree] never takes the
    iteration counter beyond it: a builder that starts below the budget
    ends at or below it, and one that starts at or above it performs no
    rollout. *)
Theorem build_tree_respects_max_iterations `{Collaborators} fuel ticks m tgt cfg k m' :
  max_iterations cfg = Some k ->
  build_tree fuel ticks m tgt cfg = Ok m' ->
  iterations m <= iterations m' <= Z.max k (iterations m).
Proof.
  intros Hk E. split; [exact (proj1 (build_tree_counters _ _ _ _ _ _ E))|].
  unfold build_tree in E. inv_bind E as m1 Hinit.
  apply _initialize_frame in Hinit as (Hi & _ & Ho & _). cbn in Hi, Ho.
  destruct ticks as [|start [|now ticks]]; try discriminate.
  apply (expansion_loop_budget _ _ k) in E; [|rewrite Ho; exact Hk].
  rewrite Hi in E. exact E.
Qed.

Lemma build_tree_respects_max_iterations_witness :
  iterations (new_mcts default_options) <= iterations Fixtures.six_tree
  <= Z.max 6 (iterations (new_mcts default_options)).
Proof.
  apply (build_tree_respects_max_iterations (H := Fixtures.stub_world) 20 Fixtures.ticks
           (new_mcts default_options) "T" (Fixtures.budget 6) 6 Fixtures.six_tree eq_refl).
  vm_compute. reflexivity.
Defined.

(** ** More on template relevance *)

Section RelevanceBounds.
Import Relevance.

Lemma first_true_prefix {A} (f : A -> bool) (l : list A) :
  forall k, first_true (map f l) = Some k -> forall x, x ∈ firstn k l -> f x = false.
Proof.
  induction l as [|a l IH]; intros k Hk x Hx; [discriminate|]. cbn in Hk.
  destruct (f a) eqn:Ea.
  - injection Hk as <-. inversion Hx.
  - destruct (first_true (map f l)) as [k'|] eqn:Ek; [|discriminate].
    injection Hk as <-. cbn in Hx. apply elem_of_cons in Hx as [->|Hx]; [exact Ea|].
    exact (IH k' eq_refl x Hx).
Qed.

Lemma cumsum_from_firstn (l : list Q) :
  forall acc k, cumsum_from acc (firstn k l) = firstn k (cumsum_from acc l).
Proof.
  induction l as [|x l IH]; intros acc [|k]; cbn; try reflexivity.
  rewrite IH. reflexivity.
Qed.

Lemma slice_to_prefix {A} (n : Z) (l : list A) : exists k, slice_to n l = firstn k l.
Proof. unfold slice_to. destruct (0 <=? n); eexists; reflexivity. Qed.

Lemma enumerate_nth (scores : list Q) :
  forall i x, (i, x) ∈ enumerate scores ->
    0 <= i < len scores /\ nth (Z.to_nat i) scores 0%Q = x.
Proof.
  unfold enumerate, len.
  assert (Hgen : forall start i x,
            (i, x) ∈ combine (map Z.of_nat (seq start (length scores))) scores ->
            Z.of_nat start <= i < Z.of_nat start + Z.of_nat (length scores)
            /\ nth (Z.to_nat i - start) scores 0%Q = x).
  { induction scores as [|y scores IH]; intros start i x Hin; cbn in Hin; [inversion Hin|].
    apply elem_of_cons in Hin as [Heq|Hin].
    - injection Heq as -> ->. cbn [length]. split; [lia|].
      replace (Z.to_nat (Z.of_nat start) - start)%nat with O by lia. reflexivity.
    - destruct (IH (S start) i x Hin) as [Hr Hn]. cbn [length]. split; [lia|].
      replace (Z.to_nat i - start)%nat with (S (Z.to_nat i - S start)) by lia. exact Hn. }
  intros i x Hin. destruct (Hgen O i x Hin) as [Hr Hn]. split; [lia|].
  rewrite Nat.sub_0_r in Hn. exact Hn.
Qed.

Lemma map_fst_combine {A B} (a : list A) :
  forall b : list B, length a = length b -> map fst (combine a b) = a.
Proof.
  induction a as [|x a IH]; intros [|y b] Hlen; try discriminate; [reflexivity|].
  cbn. rewrite IH; [reflexivity | cbn in Hlen; lia].
Qed.

Lemma enumerate_fst {A} (l : list A) :
  map fst (enumerate l) = map Z.of_nat (seq 0 (length l)).
Proof.
  unfold enumerate. apply map_fst_combine. rewrite length_map, length_seq. reflexivity.
Qed.

Lemma enumerate_fst_nodup {A} (l : list A) : NoDup (map fst (enumerate l)).
Proof.
  rewrite enumerate_fst.
  apply NoDup_ListNoDup, Finite.Injective_map_NoDup; [|apply List.seq_NoDup].
  intros a b Hab. lia.
Qed.

Lemma elem_of_enumerate_fst {A} (l : list A) i :
  i ∈ map fst (enumerate l) <-> 0 <= i < len l.
Proof.
  rewrite enumerate_fst, elem_of_map. unfold len. split.
  - intros (k & -> & Hk). apply list_elem_of_In, in_seq in Hk. lia.
  - intros Hi. exists (Z.to_nat i). split; [lia|]. apply list_elem_of_In, in_seq. lia.
Qed.

Lemma non_increasing_app (a b : list Q) :
  non_increasing (a ++ b) ->
  non_increasing a /\ forall x y, x ∈ a -> y ∈ b -> (y <= x)%Q.
Proof.
  induction a as [|z a IH]; cbn; intros Hs.
  - split; [exact I|]. intros x y Hx. inversion Hx.
  - destruct Hs as [Hz Hs]. destruct (IH Hs) as [Ha Hab]. split.
    + split; [|exact Ha]. intros y Hy. apply Hz, elem_of_app. left. exact Hy.
    + intros x y Hx Hy. apply elem_of_cons in Hx as [->|Hx]; [|exact (Hab x y Hx Hy)].
      apply Hz, elem_of_app. right. exact Hy.
Qed.

Lemma take_at_ranked (scores : list Q) (ranked : list (Z * Q)) :
  (forall i x, (i, x) ∈ ranked -> nth (Z.to_nat i) scores 0%Q = x) ->
  take_at scores (map fst ranked) = map snd ranked.
Proof.
  induction ranked as [|[i x] ranked IH]; intros Hall; [reflexivity|].
  cbn. rewrite (Hall i x (list_elem_of_here _ _)). f_equal.
  apply IH. intros j y Hj. apply Hall, list_elem_of_further, Hj.
Qed.

(** The ranking: every index once, by decreasing raw score. *)
Lemma argsort_desc_spec (scores : list Q) :
  NoDup (argsort_desc scores)
  /\ (forall i, i ∈ argsort_desc scores <-> 0 <= i < len scores)
  /\ non_increasing (take_at scores (argsort_desc scores)).
Proof.
  unfold argsort_desc.
  set (ranked := sorted_by (fun y x => Qltb (snd x) (snd y)) (enumerate scores)).
  assert (Hperm : ranked ≡ₚ enumerate scores) by apply sorted_by_perm.
  assert (Hfst : map fst ranked ≡ₚ map fst (enumerate scores)).
  { apply Permutation_map, Hperm. }
  split; [|split].
  - rewrite Hfst. apply enumerate_fst_nodup.
  - intros i. rewrite Hfst. apply elem_of_enumerate_fst.
  - rewrite take_at_ranked.
    + apply (sorted_by_desc snd).
    + intros i x Hin. rewrite Hperm in Hin. apply enumerate_nth, Hin.
Qed.

End RelevanceBounds.

Lemma elem_of_firstn {A} (k : nat) (l : list A) x : x ∈ firstn k l -> x ∈ l.
Proof.
  intros Hx. rewrite <- (firstn_skipn k l). apply elem_of_app. left. exact Hx.
Qed.

Lemma firstn_prefix_facts (k : nat) (scores : list Q) (ranking : list Z) :
  NoDup ranking -> non_increasing (Relevance.take_at scores ranking) ->
  NoDup (firstn k ranking)
  /\ non_increasing (Relevance.take_at scores (firstn k ranking))
  /\ forall i j, i ∈ firstn k ranking -> j ∈ ranking -> (j ∉ firstn k ranking) ->
       (nth (Z.to_nat j) scores 0 <= nth (Z.to_nat i) scores 0)%Q.
Proof.
  intros Hnd Hs. rewrite <- (firstn_skipn k ranking) in Hnd, Hs.
  apply NoDup_app in Hnd as (Hnd & _ & _).
  unfold Relevance.take_at in *. rewrite map_app in Hs.
  apply non_increasing_app in Hs as [Hs Hcross].
  split; [exact Hnd|]. split; [exact Hs|].
  intros i j Hi Hj Hnot. apply Hcross.
  - apply elem_of_map. exists i. split; [reflexivity | exact Hi].
  - apply elem_of_map. exists j. split; [reflexivity|].
    rewrite <- (firstn_skipn k ranking) in Hj. apply elem_of_app in Hj as [Hj|Hj];
      [contradiction | exact Hj].
Qed.

(** X15. The indices that [predict] returns are the top of the ranking:
    they are distinct positions of the model's output, their raw scores
    never increase along the list, and no template that is left out has a
    higher raw score than one that is returned. *)
Theorem predict_returns_top_ranked `{Relevance.Model} smiles n bound probs indices :
  Relevance.predict smiles n bound = Ok (probs, indices) ->
  NoDup indices
  /\ (forall i, i ∈ indices -> 0 <= i < len (Relevance.model_scores smiles))
  /\ non_increasing (Relevance.take_at (Relevance.model_scores smiles) indices)
  /\ forall i j,
       i ∈ indices -> 0 <= j < len (Relevance.model_scores smiles) -> (j ∉ indices) ->
       (nth (Z.to_nat j) (Relevance.model_scores smiles) 0
        <= nth (Z.to_nat i) (Relevance.model_scores smiles) 0)%Q.
Proof.
  unfold Relevance.predict. intros E. inv_bind E as truncate Ht. injection E as _ <-.
  destruct (argsort_desc_spec (Relevance.model_scores smiles)) as (Hnd & Hrange & Hsorted).
  destruct (slice_to_prefix n (Relevance.argsort_desc (Relevance.model_scores smiles)))
    as (k & ->).
  rewrite firstn_firstn.
  destruct (firstn_prefix_facts (Nat.min truncate k) _ _ Hnd Hsorted) as (H1 & H2 & H3).
  split; [exact H1|]. split; [|split; [exact H2|]].
  - intros i Hi. apply Hrange. exact (elem_of_firstn _ _ _ Hi).
  - intros i j Hi Hj Hnot. apply (H3 i j Hi); [apply Hrange, Hj | exact Hnot].
Qed.

Lemma predict_returns_top_ranked_witness :
  Relevance.predict (H := Fixtures.flat_model) "CCO" 2 (1 # 2) = Ok ([1 # 2]%Q, [0])
  /\ NoDup [0]
  /\ forall i, i ∈ [0] -> 0 <= i < 2.
Proof.
  split; [reflexivity|].
  destruct (predict_returns_top_ranked (H := Fixtures.flat_model) "CCO" 2 (1 # 2)
              [1 # 2]%Q [0] eq_refl) as (Hnd & Hr & _).
  split; [exact Hnd | exact Hr].
Defined.

(** X16. The probabilities that [predict] returns never add up to more
    than [max_cum_prob], at any point of the list; with a count that is
    not negative no more than [max_num_templates] indices are returned;
    and when the best template alone exceeds the bound, nothing is
    returned. *)
Theorem predict_stays_within_the_bound `{Relevance.Model} smiles n bound probs indices :
  Relevance.predict smiles n bound = Ok (probs, indices) ->
  (forall c, c ∈ Relevance.cumsum probs -> (c <= bound)%Q)
  /\ (0 <= n -> len indices <= n)
  /\ (forall p rest,
        Relevance.softmax
          (Relevance.take_at (Relevance.model_scores smiles)
             (Relevance.slice_to n (Relevance.argsort_desc (Relevance.model_scores smiles))))
        = p :: rest ->
        (bound < p)%Q -> probs = [] /\ indices = []).
Proof.
  unfold Relevance.predict. intros E. inv_bind E as truncate Ht. injection E as <- <-.
  set (ranking := Relevance.slice_to n
                    (Relevance.argsort_desc (Relevance.model_scores smiles))) in *.
  set (scores := Relevance.softmax
                   (Relevance.take_at (Relevance.model_scores smiles) ranking)) in *.
  assert (Htr : truncate = default O (Relevance.first_true
                                        (map (fun c => Qltb bound c)
                                             (Relevance.cumsum scores)))).
  { unfold Relevance.argmax in Ht.
    destruct (map (fun c => Qltb bound c) (Relevance.cumsum scores));
      [discriminate | injection Ht as <-; reflexivity]. }
  subst truncate. clear Ht.
  split; [|split].
  - intros c Hc. unfold Relevance.cumsum in *. rewrite cumsum_from_firstn in Hc.
    destruct (Relevance.first_true (map (fun c => Qltb bound c)
                                       (Relevance.cumsum_from 0 scores))) as [k|] eqn:Ek.
    + apply Qltb_false. exact (first_true_prefix _ _ k Ek c Hc).
    + inversion Hc.
  - intros Hn. unfold len. rewrite length_firstn. unfold ranking, Relevance.slice_to.
    rewrite (proj2 (Z.leb_le 0 n) Hn), length_firstn. lia.
  - intros p rest Hs Hp. unfold Relevance.cumsum. rewrite Hs. cbn.
    assert (Hb : Qltb bound (0 + p) = true).
    { apply Qltb_true. rewrite Qplus_0_l. exact Hp. }
    rewrite Hb. split; reflexivity.
Qed.

Lemma predict_stays_within_the_bound_witness :
  Relevance.predict (H := Fixtures.flat_model) "CCO" 2 (1 # 2) = Ok ([1 # 2]%Q, [0])
  /\ (forall c, c ∈ Relevance.cumsum [1 # 2]%Q -> (c <= 1 # 2)%Q)
  /\ len [0] <= 2.
Proof.
  split; [reflexivity|].
  destruct (predict_stays_within_the_bound (H := Fixtures.flat_model) "CCO" 2 (1 # 2)
              [1 # 2]%Q [0] eq_refl) as (Hc & Hl & _).
  split; [exact Hc | apply Hl; lia].
Defined.

(** ** The options of [ucb] *)

Section UcbOptions.
Context `{Collaborators}.

Lemma ucb_reaction_complete s templates visits path invalid w options rxn options' :
  ucb_reaction s templates visits path invalid w options rxn = Ok options' ->
  (forall o, o ∈ options -> o ∈ options')
  /\ (is_reaction_done s rxn = Ok false ->
      (forall c, c ∈ successors s rxn -> c ∉ path) -> (rxn ∉ invalid) ->
      exists score, (score, FollowReaction rxn) ∈ options').
Proof.
  unfold ucb_reaction. intros E. inv_bind E as rxn_data Hd. inv_bind E as fin Hfin.
  destruct (fin || existsb (fun c => in_strs c path) (successors s rxn)
            || bool_decide (rxn ∈ invalid)) eqn:Eskip.
  - injection E as <-. split; [auto|]. intros Hdone Hpath Hinv. exfalso.
    rewrite Hdone in Hfin. injection Hfin as <-.
    apply orb_true_iff in Eskip as [Eskip|Eskip].
    + cbn in Eskip. apply existsb_exists in Eskip as (c & Hc & Hcp).
      apply in_strs_true in Hcp. apply list_elem_of_In in Hc. exact (Hpath c Hc Hcp).
    + apply bool_decide_eq_true in Eskip. contradiction.
  - inv_bind E as probs Hp. injection E as <-. split.
    + intros o Ho. apply elem_of_app. left. exact Ho.
    + intros _ _ _. eexists. apply elem_of_app. right. apply list_elem_of_here.
Qed.

Lemma ucb_reactions_complete s templates visits path invalid w (l : list string) :
  forall options options',
    fold_m (ucb_reaction s templates visits path invalid w) options l = Ok options' ->
    (forall o, o ∈ options -> o ∈ options')
    /\ (forall rxn, rxn ∈ l ->
          is_reaction_done s rxn = Ok false ->
          (forall c, c ∈ successors s rxn -> c ∉ path) -> (rxn ∉ invalid) ->
          exists score, (score, FollowReaction rxn) ∈ options').
Proof.
  induction l as [|r l IH]; intros options options' E; cbn in E.
  - injection E as <-. split; [auto|]. intros rxn Hr. inversion Hr.
  - inv_bind E as mid Hmid. destruct (IH mid options' E) as [IH1 IH2].
    apply ucb_reaction_complete in Hmid as [Hm1 Hm2]. split; [auto|].
    intros rxn Hr Hdone Hpath Hinv. apply elem_of_cons in Hr as [->|Hr].
    + destruct (Hm2 Hdone Hpath Hinv) as (score & Hs). exists score. apply IH1, Hs.
    + exact (IH2 rxn Hr Hdone Hpath Hinv).
Qed.

Lemma ucb_unfold cfg tgt s node path invalid w options :
  ucb cfg tgt s node path invalid w = Ok options ->
  exists data rxn_options,
    nodes s !! node = Some (Chemical data)
    /\ fold_m (ucb_reaction s (c_templates data) (c_visit_count data) path invalid w)
              [] (successors s node) = Ok rxn_options
    /\ (forall o, o ∈ rxn_options ->
          exists sc rxn, o = (sc, FollowReaction rxn) /\ offered s node path invalid rxn)
    /\ (options ≡ₚ rxn_options
        \/ exists t q,
             first_unexplored (c_templates data) (explored data) = Some (t, q)
             /\ (out_degree s node < max_branching cfg \/ node = tgt)
             /\ options
                ≡ₚ rxn_options
                   ++ [((q + w * np_sqrt (np_log (inject_Z (c_visit_count data))))%Q,
                        ApplyTemplate t)])
    /\ non_increasing (map fst options).
Proof.
  unfold ucb. intros E. inv_bind E as data Hdata. inv_bind E as rxn_options Hfold.
  injection E as <-. apply chem_data_Ok in Hdata. exists data, rxn_options.
  split; [exact Hdata|]. split; [exact Hfold|]. split; [|split].
  - intros o Hin.
    destruct (ucb_reactions_spec _ _ _ _ _ _ node _ [] rxn_options (fun _ Hr => Hr) Hfold
                o Hin) as [Hnil|Hoff]; [inversion Hnil | exact Hoff].
  - destruct ((out_degree s node <? max_branching cfg) || eqs node tgt) eqn:Eb;
      [|left; apply sorted_by_perm].
    destruct (first_unexplored _ _) as [[t q]|] eqn:Ef; [|left; apply sorted_by_perm].
    right. exists t, q. split; [reflexivity|]. split; [|apply sorted_by_perm].
    apply orb_true_iff in Eb as [Eb|Eb]; [left; apply Z.ltb_lt, Eb | right; apply eqs_true, Eb].
  - apply (sorted_by_desc fst).
Qed.

End UcbOptions.

(** X18. The options that [ucb] returns are sorted by score, highest
    first.  The reactions among them are exactly the reactions of the
    node that are not done, not marked invalid and have no precursor on the
    path.  At most one option is a template: the first template of the
    node that is not explored, offered only while the node has fewer
    reactions than [max_branching] or is the target. *)
Theorem ucb_options_are_the_open_moves `{Collaborators} cfg tgt s node path invalid w options :
  ucb cfg tgt s node path invalid w = Ok options ->
  non_increasing (map fst options)
  /\ (forall rxn,
        (exists score, (score, FollowReaction rxn) ∈ options)
        <-> offered s node path invalid rxn)
  /\ (forall score t,
        (score, ApplyTemplate t) ∈ options ->
        (out_degree s node < max_branching cfg \/ node = tgt)
        /\ exists data q,
             nodes s !! node = Some (Chemical data)
             /\ first_unexplored (c_templates data) (explored data) = Some (t, q))
  /\ (forall score1 t1 score2 t2,
        (score1, ApplyTemplate t1) ∈ options -> (score2, ApplyTemplate t2) ∈ options ->
        t1 = t2 /\ score1 = score2).
Proof.
  intros E. destruct (ucb_unfold _ _ _ _ _ _ _ _ E)
    as (data & rxn_options & Hdata & Hfold & Hrx & Hopts & Hsorted).
  assert (Htemplate : forall score t,
            (score, ApplyTemplate t) ∈ options ->
            exists q, first_unexplored (c_templates data) (explored data) = Some (t, q)
                      /\ (out_degree s node < max_branching cfg \/ node = tgt)
                      /\ score = (q + w * np_sqrt (np_log (inject_Z (c_visit_count data))))%Q).
  { intros score t Hin. destruct Hopts as [Hp|(t0 & q & Hf & Hb & Hp)]; rewrite Hp in Hin.
    - destruct (Hrx _ Hin) as (sc & rxn & Heq & _). discriminate.
    - apply elem_of_app in Hin as [Hin|Hin].
      + destruct (Hrx _ Hin) as (sc & rxn & Heq & _). discriminate.
      + apply list_elem_of_singleton in Hin. injection Hin as -> ->. eauto. }
  split; [exact Hsorted|]. split; [|split].
  - intros rxn. split.
    + intros (score & Hin).
      assert (Hin' : (score, FollowReaction rxn) ∈ rxn_options).
      { destruct Hopts as [Hp|(t0 & q & _ & _ & Hp)]; rewrite Hp in Hin; [exact Hin|].
        apply elem_of_app in Hin as [Hin|Hin]; [exact Hin|].
        apply list_elem_of_singleton in Hin. discriminate. }
      destruct (Hrx _ Hin') as (sc & r & Heq & Hoff). injection Heq as _ ->. exact Hoff.
    + intros (Hsucc & Hpath & Hinv & Hdone).
      destruct (ucb_reactions_complete _ _ _ _ _ _ _ _ _ Hfold) as [_ Hc].
      destruct (Hc rxn Hsucc Hdone Hpath Hinv) as (score & Hin). exists score.
      destruct Hopts as [Hp|(t0 & q & _ & _ & Hp)]; rewrite Hp; [exact Hin|].
      apply elem_of_app. left. exact Hin.
  - intros score t Hin. destruct (Htemplate score t Hin) as (q & Hf & Hb & _).
    split; [exact Hb|]. exists data, q. split; [exact Hdata | exact Hf].
  - intros score1 t1 score2 t2 H1 H2.
    destruct (Htemplate _ _ H1) as (q1 & Hf1 & _ & ->).
    destruct (Htemplate _ _ H2) as (q2 & Hf2 & _ & ->).
    rewrite Hf1 in Hf2. injection Hf2 as -> ->. split; reflexivity.
Qed.

Lemma ucb_options_are_the_open_moves_witness :
  exists options,
    ucb (H := Fixtures.stub_world) (Fixtures.budget 6) "T" (search Fixtures.six_tree) "T"
        ["T"] ∅ 1 = Ok options
    /\ non_increasing (map fst options)
    /\ forall rxn,
         (exists score, (score, FollowReaction rxn) ∈ options)
         <-> offered (search Fixtures.six_tree) "T" ["T"] ∅ rxn.
Proof.
  eexists. split; [vm_compute; reflexivity|].
  edestruct (ucb_options_are_the_open_moves (H := Fixtures.stub_world) (Fixtures.budget 6) "T"
               (search Fixtures.six_tree) "T" ["T"] ∅ 1) as (Hs & Hr & _);
    [vm_compute; reflexivity|].
  split; [exact Hs | exact Hr].
Defined.

(** ** Properties of the lists and of the node set that the builder keeps

    A property of searches that is indifferent to attribute updates and
    to new edges, and that survives the creation of a chemical and of a
    reaction that passed the filters, holds of every built tree. *)

Section SearchInvariant.
Context `{Collaborators}.
Variable cfg : Options.
Variable J : Search -> Prop.
Hypothesis J_shape : forall s s', same_shape s s' -> J s -> J s'.
Hypothesis J_edge : forall s u v, J s -> J (add_edge u v s).
Hypothesis J_chemical :
  forall s smiles s',
    J s -> wf_core s -> (smiles ∉ chemicals s) -> has_gt smiles = false ->
    in_strs smiles (banned_chemicals cfg) = false ->
    create_chemical_node cfg s smiles = Ok s' -> J s'.
Hypothesis J_reaction :
  forall s rs template tscore ff s',
    J s -> wf_core s -> has_gt rs = true ->
    in_strs rs (banned_reactions cfg) = false ->
    register_reaction s rs template tscore ff = Ok s' -> J s'.

Lemma scan_reactants_J target path (l : list string) :
  forall s s1 b,
    J s -> wf_core s ->
    (forall r, r ∈ l -> has_gt r = false /\ in_strs r (banned_chemicals cfg) = false) ->
    scan_reactants cfg s target path l = Ok (s1, b) -> J s1.
Proof.
  induction l as [|reactant rest IH]; intros s s1 b Hs Hwf Hl E; cbn in E.
  - injection E as <- <-. exact Hs.
  - assert (Hrest : forall r, r ∈ rest ->
              has_gt r = false /\ in_strs r (banned_chemicals cfg) = false).
    { intros r Hr. apply Hl, list_elem_of_further, Hr. }
    destruct (in_strs reactant (chemicals s)) eqn:Ein.
    + destruct (in_strs reactant path || has_path s reactant target).
      * injection E as <- <-. exact Hs.
      * exact (IH _ _ _ Hs Hwf Hrest E).
    + inv_bind E as s' Hs'. destruct (Hl reactant (list_elem_of_here _ _)) as [Hg Hb].
      apply in_strs_false in Ein.
      destruct (create_chemical_node_wf cfg s reactant s' Hwf Hg Hs') as (Hwf' & _).
      apply (IH s' s1 b); [|exact Hwf' | exact Hrest | exact E].
      exact (J_chemical _ _ _ Hs Hwf Ein Hg Hb Hs').
Qed.

Lemma add_edges_J rs (l : list string) :
  forall s, J s -> J (fold_left (fun g reactant => add_edge rs reactant g) l s).
Proof. induction l as [|r l IH]; intros s Hs; cbn; [exact Hs|]. apply IH, J_edge, Hs. Qed.

Lemma process_candidate_J target template path s l s' :
  J s -> wf_core s -> (forall r, r ∈ l -> has_gt r = false) ->
  process_candidate cfg target template path s l = Ok s' -> J s'.
Proof.
  intros Hs Hwf Hl E. unfold process_candidate in E.
  destruct (Qltb _ _); [injection E as <-; exact Hs|].
  destruct (in_strs _ (banned_reactions cfg)) eqn:Ebr; [injection E as <-; exact Hs|].
  destruct (existsb _ l) eqn:Ebc; [injection E as <-; exact Hs|].
  assert (Hl' : forall r, r ∈ l ->
            has_gt r = false /\ in_strs r (banned_chemicals cfg) = false).
  { intros r Hr. split; [exact (Hl r Hr)|].
    destruct (in_strs r (banned_chemicals cfg)) eqn:Eb; [|reflexivity].
    assert (Hex : existsb (fun r => in_strs r (banned_chemicals cfg)) l = true).
    { apply existsb_exists. exists r. split; [apply list_elem_of_In, Hr | exact Eb]. }
    congruence. }
  inv_bind E as scanned Hscan. destruct scanned as [s1 complete].
  pose proof (scan_reactants_J _ _ _ _ _ _ Hs Hwf Hl' Hscan) as Hs1.
  destruct (scan_reactants_wf _ _ _ _ _ _ _ Hwf Hl Hscan) as (Hwf1 & _).
  destruct complete; [|injection E as <-; exact Hs1].
  inv_bind E as tdata Htd. inv_bind E as tscore Hts. inv_bind E as s2 Hreg.
  destruct (reaction_string_arrow l target) as (pre & Hpre).
  assert (Hg : has_gt (reaction_string l target) = true)
    by (rewrite Hpre; apply has_gt_arrow).
  pose proof (J_reaction _ _ _ _ _ _ Hs1 Hwf1 Hg Ebr Hreg) as Hs2.
  apply _update_value_shape in E. apply (J_shape _ _ E).
  apply add_edges_J, J_edge, Hs2.
Qed.

Lemma _process_precursors_J target template path (precursors : list (list string)) :
  forall s s',
    J s -> wf_search s -> target ∈ chemicals s ->
    (forall l, l ∈ precursors -> l <> [] /\ forall r, r ∈ l -> has_gt r = false) ->
    _process_precursors cfg s target template precursors path = Ok s' -> J s'.
Proof.
  unfold _process_precursors.
  induction precursors as [|l rest IH]; intros s s' Hs Hwf Ht Hp E; cbn in E.
  - injection E as <-. exact Hs.
  - inv_bind E as s1 Hs1. destruct (Hp l (list_elem_of_here _ _)) as [Hne Hl].
    destruct (process_candidate_wf _ _ _ _ _ _ _ Hwf Ht Hne Hl Hs1) as [Hwf1 Hmono].
    apply (IH s1 s'); [|exact Hwf1 | exact (Hmono _ Ht) | | exact E].
    + exact (process_candidate_J _ _ _ _ _ _ Hs (proj1 Hwf) Hl Hs1).
    + intros l' Hl'. apply Hp, list_elem_of_further, Hl'.
Qed.

Lemma _rollout_J fuel tgt s s' :
  precursors_well_formed ->
  J s -> wf_search s -> tgt ∈ chemicals s ->
  _rollout fuel cfg tgt s = Ok s' -> J s'.
Proof.
  intros Hprec Hs Hwf Htgt E. unfold _rollout in E. inv_bind E as sel Hsel.
  destruct sel as [[chem_path rxn_path] template]. inv_bind E as s1 Hexp.
  apply _update_shape in E. apply (J_shape _ _ E).
  assert (Hpath : forall c, c ∈ chem_path -> c ∈ chemicals s).
  { unfold _select in Hsel.
    apply (select_loop_path cfg tgt s fuel [tgt] [] ∅ chem_path rxn_path template
             (proj1 Hwf)); [|exact Hsel].
    intros c Hc. apply list_elem_of_singleton in Hc as ->. exact Htgt. }
  unfold _expand in Hexp. destruct (last chem_path) as [leaf|] eqn:Eleaf; [|discriminate].
  inv_bind Hexp as data Hd. apply chem_data_Ok in Hd.
  destruct (in_ints template (explored data)); [injection Hexp as <-; exact Hs|].
  pose proof (same_shape_set_node s leaf (Chemical data)
                (Chemical (chem_set_explored (explored data ++ [template]) data))
                Hd eq_refl) as Hsh.
  apply (_process_precursors_J _ _ _ _ _ _ (J_shape _ _ Hsh Hs)
           (wf_search_same_shape _ _ Hsh Hwf)) in Hexp; [exact Hexp| |].
  - cbn. apply Hpath, last_elem_of, Eleaf.
  - intros l Hl. apply (Hprec leaf template l Hl).
Qed.

Lemma expansion_loop_J fuel ticks :
  forall start elapsed m m' tgt,
    precursors_well_formed ->
    options m = cfg -> target m = Some tgt -> J (search m) -> wf_search (search m) ->
    tgt ∈ chemicals (search m) ->
    expansion_loop fuel ticks start elapsed m = Ok m' ->
    J (search m').
Proof.
  induction ticks as [|now ticks IH];
    intros start elapsed m m' tgt Hprec Ho Ht Hs Hwf Htgt E; cbn in E.
  - destruct (Qltb elapsed (expansion_time (options m))).
    + inv_bind E as d Hd. destruct d; [|discriminate]. injection E as <-. exact Hs.
    + injection E as <-. exact Hs.
  - destruct (Qltb elapsed (expansion_time (options m))).
    2: { injection E as <-. exact Hs. }
    inv_bind E as d Hd. destruct d; [injection E as <-; exact Hs|].
    inv_bind E as t Htt. unfold the_target in Htt. rewrite Ht in Htt. injection Htt as <-.
    inv_bind E as s1 Hroll.
    destruct (_rollout_wf _ _ _ _ _ Hprec Hwf Htgt Hroll) as [Hwf1 Htgt1].
    rewrite Ho in Hroll.
    pose proof (_rollout_J _ _ _ _ Hprec Hs Hwf Htgt Hroll) as Hs1.
    cbn in E. destruct (Qtruthy (time_to_solve m)).
    + apply (IH _ _ _ _ tgt Hprec) in E; [exact E | exact Ho | exact Ht | exact Hs1 | exact Hwf1 | exact Htgt1].
    + inv_bind E as root Hroot. destruct (solved root).
      * destruct (return_first (options m)).
        -- injection E as <-. exact Hs1.
        -- apply (IH _ _ _ _ tgt Hprec) in E; [exact E | exact Ho | exact Ht | exact Hs1 | exact Hwf1 | exact Htgt1].
      * apply (IH _ _ _ _ tgt Hprec) in E; [exact E | exact Ho | exact Ht | exact Hs1 | exact Hwf1 | exact Htgt1].
Qed.

(** The property holds of a tree built from a cleared builder as soon as
    it holds of the search that [_initialize] leaves. *)
Lemma build_tree_J fuel ticks m tgt m' :
  precursors_well_formed -> has_gt tgt = false ->
  (forall m1,
     _initialize (clear (mkMCTS (search m) (target m) (iterations m) (time_to_solve m) cfg))
                 tgt = Ok m1 -> J (search m1)) ->
  build_tree fuel ticks (clear m) tgt cfg = Ok m' -> J (search m').
Proof.
  intros Hprec Hg Hroot E. unfold build_tree in E. inv_bind E as m1 Hinit.
  change (mkMCTS (search (clear m)) (target (clear m)) (iterations (clear m))
                 (time_to_solve (clear m)) cfg)
    with (clear (mkMCTS (search m) (target m) (iterations m) (time_to_solve m) cfg))
    in Hinit.
  pose proof (Hroot m1 Hinit) as Hs.
  pose proof (_initialize_frame _ _ _ Hinit) as (_ & _ & Ho & _).
  apply (_initialize_wf _ _ _ Hg) in Hinit as (Ht & Hwf & Htgt).
  destruct ticks as [|start [|now ticks]]; try discriminate.
  exact (expansion_loop_J _ _ _ _ _ _ tgt Hprec Ho Ht Hs Hwf Htgt E).
Qed.

End SearchInvariant.

(** X19. A tree built from a cleared builder lists no banned reaction
    and, the target apart, no banned chemical: a candidate with a banned
    precursor or a banned reaction string leaves nothing in the lists.  The
    target itself is not checked against [banned_chemicals]. *)
Theorem built_tree_has_nothing_banned `{Collaborators} fuel ticks m tgt cfg m' :
  precursors_well_formed -> has_gt tgt = false ->
  build_tree fuel ticks (clear m) tgt cfg = Ok m' ->
  (forall r, r ∈ reactions (search m') -> r ∉ banned_reactions cfg)
  /\ (forall c, c ∈ chemicals (search m') -> c = tgt \/ c ∉ banned_chemicals cfg).
Proof.
  intros Hprec Hg E.
  apply (build_tree_J cfg (banned_free cfg tgt)) with (fuel := fuel) (ticks := ticks)
                                                      (m := m) (tgt := tgt);
    [| | | |exact Hprec|exact Hg| |exact E].
  - intros s s' (_ & Hc & Hr & _) [H1 H2]. split; [rewrite Hr | rewrite Hc]; assumption.
  - intros s u v [H1 H2]. destruct (add_edge_frame u v s) as (_ & Hc & Hr).
    split; [rewrite Hr | rewrite Hc]; assumption.
  - intros s smiles s' [H1 H2] _ _ _ Hb Hs'.
    apply create_chemical_node_frame in Hs' as (_ & Hc & Hr & _).
    split; [rewrite Hr; exact H1|]. rewrite Hc. intros c Hin.
    apply elem_of_app in Hin as [Hin|Hin]; [exact (H2 c Hin)|].
    apply list_elem_of_singleton in Hin as ->. right. apply in_strs_false, Hb.
  - intros s rs template tscore ff s' [H1 H2] Hwf Hg' Hb Hs'.
    destruct (register_reaction_wf _ _ _ _ _ _ Hwf Hg' Hs') as (_ & _ & Hc & _ & Hr).
    split; [|rewrite Hc; exact H2]. intros r Hin. apply Hr in Hin as [Hin| ->];
      [exact (H1 r Hin) | apply in_strs_false, Hb].
  - intros m1 Hinit. apply _initialize_frame in Hinit as (_ & _ & _ & _ & _ & Hc & Hr & _).
    cbn in Hc, Hr. split.
    + rewrite Hr. intros r Hin. inversion Hin.
    + rewrite Hc. intros c Hin. apply list_elem_of_singleton in Hin. left. exact Hin.
Qed.

Lemma built_tree_has_nothing_banned_witness :
  exists m',
    build_tree (H := Fixtures.stub_world) 20 Fixtures.ticks (clear (new_mcts default_options))
               "T" banning = Ok m'
    /\ reactions (search m') = ["X.Y>>T"]
    /\ ("B" ∉ chemicals (search m'))
    /\ ("Z>>Y" ∉ reactions (search m')).
Proof.
  eexists. split; [vm_compute; reflexivity|]. split; [vm_compute; reflexivity|].
  edestruct (built_tree_has_nothing_banned (H := Fixtures.stub_world) 20 Fixtures.ticks
               (new_mcts default_options) "T" banning) as [Hr Hc];
    [exact stub_precursors_well_formed | vm_compute; reflexivity | vm_compute; reflexivity|].
  split.
  - intros Hin. destruct (Hc "B" Hin) as [Heq|Hnot]; [discriminate|].
    apply Hnot. apply list_elem_of_here.
  - intros Hin. apply (Hr "Z>>Y" Hin). apply list_elem_of_here.
Defined.

Lemma is_Some_same_kind (s s' : Search) n :
  is_chemical <$> nodes s' !! n = is_chemical <$> nodes s !! n ->
  is_Some (nodes s' !! n) <-> is_Some (nodes s !! n).
Proof.
  intros Hk. destruct (nodes s' !! n), (nodes s !! n); cbn in Hk; try discriminate;
    split; intros Hs; try (inversion Hs; discriminate); eauto.
Qed.

Lemma listed_insert (s : Search) n d :
  forall k, is_Some (<[n := d]> (nodes s) !! k) <-> k = n \/ is_Some (nodes s !! k).
Proof.
  intros k. destruct (decide (n = k)) as [->|Hne].
  - rewrite lookup_insert_eq. split; [left; reflexivity | eauto].
  - rewrite lookup_insert_ne by exact Hne. split; [right; assumption|].
    intros [->|Hs]; [contradiction | exact Hs].
Qed.

(** X20. In a tree built from a cleared builder the lists [chemicals]
    and [reactions] name every node of the graph exactly once: no name is
    repeated or in both lists, every listed name is a node and every node
    is listed, so the number of nodes is the sum of the two lengths that
    [print_stats] reports. *)
Theorem built_tree_lists_name_the_nodes `{Collaborators} fuel ticks m tgt cfg m' :
  precursors_well_formed -> has_gt tgt = false ->
  build_tree fuel ticks (clear m) tgt cfg = Ok m' ->
  NoDup (chemicals (search m') ++ reactions (search m'))
  /\ (forall n, is_Some (nodes (search m') !! n)
                <-> n ∈ chemicals (search m') ++ reactions (search m'))
  /\ size (nodes (search m'))
     = (length (chemicals (search m')) + length (reactions (search m')))%nat.
Proof.
  intros Hprec Hg E.
  assert (Hl : listed (search m')).
  { apply (build_tree_J cfg listed) with (fuel := fuel) (ticks := ticks) (m := m) (tgt := tgt);
      [| | | |exact Hprec|exact Hg| |exact E].
    - intros s s' (_ & Hc & Hr & Hk) (H1 & H2 & H3). unfold listed. rewrite Hc, Hr.
      split; [exact H1|]. split; [exact H2|]. intros n.
      rewrite (is_Some_same_kind s s' n (Hk n)). apply H3.
    - intros s u v (H1 & H2 & H3). destruct (add_edge_frame u v s) as (Hn & Hc & Hr).
      unfold listed. rewrite Hn, Hc, Hr. auto.
    - intros s smiles s' (H1 & H2 & H3) _ Hnot _ _ Hs'.
      apply create_chemical_node_frame in Hs' as (_ & Hc & Hr & c & Hn & _).
      unfold listed. rewrite Hc, Hr, Hn. split; [|split; [exact H2|]].
      + apply NoDup_app. split; [exact H1|]. split; [|apply NoDup_singleton].
        intros x Hx Hx'. apply list_elem_of_singleton in Hx' as ->. contradiction.
      + intros n. rewrite listed_insert, H3, elem_of_app, list_elem_of_singleton. tauto.
    - intros s rs template tscore ff s' (H1 & H2 & H3) _ _ _ Hs'.
      unfold register_reaction in Hs'. destruct (in_strs rs (reactions s)) eqn:Ein.
      + inv_bind Hs' as d Hd. destruct d as [c|r]; [discriminate|]. injection Hs' as <-.
        apply node_attr_Ok in Hd. unfold listed. cbn [set_node chemicals reactions nodes].
        split; [exact H1|]. split; [exact H2|]. intros n. rewrite listed_insert, <- H3.
        split; [|auto]. intros [->|Hs]; [rewrite Hd; eauto | exact Hs].
      + injection Hs' as <-. apply in_strs_false in Ein.
        unfold listed, create_reaction_node. cbn [chemicals reactions nodes].
        split; [exact H1|]. split.
        * apply NoDup_app. split; [exact H2|]. split; [|apply NoDup_singleton].
          intros x Hx Hx'. apply list_elem_of_singleton in Hx' as ->. contradiction.
        * intros n. rewrite listed_insert, H3, elem_of_app, list_elem_of_singleton. tauto.
    - intros m1 Hinit.
      apply _initialize_frame in Hinit as (_ & _ & _ & _ & _ & Hc & Hr & c & Hn & _).
      cbn in Hc, Hr, Hn. unfold listed. rewrite Hc, Hr, Hn.
      split; [apply NoDup_singleton|]. split; [apply NoDup_nil_2|].
      intros n. rewrite list_elem_of_singleton. destruct (decide (tgt = n)) as [->|Hne].
      + rewrite lookup_insert_eq. split; [left; reflexivity | eauto].
      + rewrite lookup_insert_ne, lookup_empty by exact Hne. split.
        * intros Hs. inversion Hs. discriminate.
        * intros [->|Hr']; [contradiction | inversion Hr']. }
  destruct (build_tree_wf _ _ _ _ _ _ Hprec Hg E) as (_ & [Hcore _] & _).
  destruct Hl as (H1 & H2 & H3). destruct Hcore as [W1 W2 _ _].
  assert (Hnd : NoDup (chemicals (search m') ++ reactions (search m'))).
  { apply NoDup_app. split; [exact H1|]. split; [|exact H2].
    intros x Hc Hr. destruct (W1 x Hc) as [Hgc _]. destruct (W2 x Hr) as [Hgr _]. congruence. }
  split; [exact Hnd|]. split.
  - intros n. rewrite elem_of_app. apply H3.
  - rewrite <- length_app, <- (size_list_to_set (C := gset string)) by exact Hnd.
    rewrite <- size_dom. f_equal. apply set_eq. intros n.
    rewrite elem_of_dom, elem_of_list_to_set, elem_of_app. apply H3.
Qed.

Lemma built_tree_lists_name_the_nodes_witness :
  NoDup (chemicals (search Fixtures.six_tree) ++ reactions (search Fixtures.six_tree))
  /\ size (nodes (search Fixtures.six_tree)) = 11%nat.
Proof.
  destruct (built_tree_lists_name_the_nodes (H := Fixtures.stub_world) 20 Fixtures.ticks
              (new_mcts default_options) "T" (Fixtures.budget 6) Fixtures.six_tree)
    as (Hnd & _ & Hsize);
    [exact stub_precursors_well_formed | vm_compute; reflexivity | vm_compute; reflexivity|].
  split; [exact Hnd|]. rewrite Hsize. vm_compute. reflexivity.
Defined.

(** ** Conversion to the old output format ([translate_json]) *)

Lemma json_nested_ind (P : json -> Prop) :
  P JNull -> (forall b, P (JBool b)) -> (forall z, P (JInt z)) -> (forall q, P (JFloat q)) ->
  (forall s, P (JStr s)) ->
  (forall l, Forall P l -> P (JList l)) ->
  (forall items, Forall (fun kv => P (snd kv)) items -> P (JDict items)) ->
  forall j, P j.
Proof.
  intros Hnull Hbool Hint Hfloat Hstr Hlist Hdict. fix IH 1.
  intros [|b|z|q|s|l|items];
    [exact Hnull | apply Hbool | apply Hint | apply Hfloat | apply Hstr | |].
  - apply Hlist. induction l as [|x l IHl]; constructor; [apply IH | exact IHl].
  - apply Hdict. induction items as [|[k v] items IHi]; constructor; [apply IH | exact IHi].
Qed.

Lemma map_e_Forall2 {A B E} (f : A -> E + B) (l : list A) :
  forall ys, map_e f l = inr ys -> Forall2 (fun x y => f x = inr y) l ys.
Proof.
  induction l as [|x l IH]; intros ys E0; cbn in E0.
  - injection E0 as <-. constructor.
  - destruct (f x) as [e|y] eqn:Ex; [discriminate|].
    destruct (map_e f l) as [e|ys'] eqn:El; [discriminate|]. injection E0 as <-.
    constructor; [exact Ex | apply IH; reflexivity].
Qed.

Lemma elem_of_dict_set_keys k v (d : list (string * json)) x :
  x ∈ map fst (dict_set k v d) <-> x ∈ map fst d \/ x = k.
Proof.
  induction d as [|[k' v'] d IH]; cbn.
  - rewrite list_elem_of_singleton. split; [right; assumption|].
    intros [Hx|Hx]; [inversion Hx | exact Hx].
  - destruct (eqs k' k) eqn:E0; cbn.
    + apply eqs_true in E0. subst k'. rewrite !elem_of_cons. tauto.
    + rewrite !elem_of_cons, IH. tauto.
Qed.

Lemma dict_set_keys_nodup k v (d : list (string * json)) :
  NoDup (map fst d) -> NoDup (map fst (dict_set k v d)).
Proof.
  induction d as [|[k' v'] d IH]; cbn; intros Hnd.
  - apply NoDup_singleton.
  - apply NoDup_cons in Hnd as [Hnot Hnd]. destruct (eqs k' k) eqn:E0; cbn.
    + apply eqs_true in E0. subst k'. apply NoDup_cons. split; assumption.
    + apply eqs_false in E0. apply NoDup_cons. split; [|apply IH, Hnd].
      intros Hin. apply elem_of_dict_set_keys in Hin as [Hin|Hin];
        [contradiction | congruence].
Qed.

Lemma dict_get_set_eq k v (d : list (string * json)) : dict_get k (dict_set k v d) = Some v.
Proof.
  induction d as [|[k' v'] d IH]; cbn.
  - rewrite (proj2 (eqs_true k k) eq_refl). reflexivity.
  - destruct (eqs k' k) eqn:E0; cbn.
    + rewrite (proj2 (eqs_true k k) eq_refl). reflexivity.
    + rewrite E0. exact IH.
Qed.

Lemma dict_get_set_ne k k' v (d : list (string * json)) :
  k <> k' -> dict_get k' (dict_set k v d) = dict_get k' d.
Proof.
  intros Hne. induction d as [|[k0 v0] d IH]; cbn.
  - rewrite (proj2 (eqs_false k k') Hne). reflexivity.
  - destruct (eqs k0 k) eqn:E0; cbn.
    + apply eqs_true in E0. subst k0. rewrite (proj2 (eqs_false k k') Hne). reflexivity.
    + destruct (eqs k0 k'); [reflexivity | exact IH].
Qed.

Lemma dict_get_absent k (d : list (string * json)) : (k ∉ map fst d) -> dict_get k d = None.
Proof.
  induction d as [|[k0 v0] d IH]; cbn; intros Hnot; [reflexivity|].
  destruct (eqs k0 k) eqn:E0.
  - apply eqs_true in E0. subst k0. exfalso. apply Hnot, list_elem_of_here.
  - apply IH. intros Hin. apply Hnot, list_elem_of_further, Hin.
Qed.

Lemma key_map_get_elem_of k k' (m : list (string * string)) :
  key_map_get k m = Some k' -> (k, k') ∈ m.
Proof.
  induction m as [|[a b] m IH]; cbn; [discriminate|].
  destruct (eqs a k) eqn:E0.
  - apply eqs_true in E0. subst a. intros [= ->]. apply list_elem_of_here.
  - intros Hg. apply list_elem_of_further, IH, Hg.
Qed.

Ltac key_map_cases H :=
  apply key_map_get_elem_of in H; unfold key_map in H;
  repeat (apply elem_of_cons in H as [H|H]);
  [..|inversion H].

Lemma key_map_targets k k' :
  key_map_get k key_map = Some k' ->
  k' ∈ legacy_keys /\ k' <> "is_chemical" /\ k' <> "is_reaction" /\ k' <> "children"
  /\ k <> "type" /\ k <> "children".
Proof.
  intros Hk. key_map_cases Hk; injection Hk as -> ->;
    (split; [unfold legacy_keys; repeat (first [apply list_elem_of_here
                                               | apply list_elem_of_further])|]);
    repeat split; discriminate.
Qed.

Lemma key_map_injective a b c :
  key_map_get a key_map = Some c -> key_map_get b key_map = Some c -> a = b.
Proof.
  intros Ha Hb. key_map_cases Ha; key_map_cases Hb; congruence.
Qed.

Lemma well_keyed_set k v d :
  well_keyed d -> k ∈ legacy_keys ->
  (k = "children" -> exists children, v = JList children /\ Forall legacy children) ->
  well_keyed (dict_set k v d).
Proof.
  intros (H1 & H2 & H3) Hk Hv. split; [apply dict_set_keys_nodup, H1|]. split.
  - intros x Hx. apply elem_of_dict_set_keys in Hx as [Hx| ->]; [apply H2, Hx | exact Hk].
  - intros v' Hget. destruct (decide (k = "children")) as [->|Hne].
    + rewrite dict_get_set_eq in Hget. injection Hget as <-. apply Hv. reflexivity.
    + rewrite dict_get_set_ne in Hget by exact Hne. exact (H3 v' Hget).
Qed.

Lemma legacy_key_in (k : string) :
  k = "is_chemical" \/ k = "is_reaction" \/ k = "children" -> k ∈ legacy_keys.
Proof.
  intros [->|[->| ->]]; unfold legacy_keys;
    repeat (first [apply list_elem_of_here | apply list_elem_of_further]).
Qed.

Lemma translate_items_cons tr key value rest output :
  translate_items tr ((key, value) :: rest) output
  = match key_map_get key key_map with
    | Some new_key => translate_items tr rest (dict_set new_key value output)
    | None =>
        if eqs key "type" then
          if is_str value "chemical"
          then translate_items tr rest (dict_set "is_chemical" (JBool true) output)
          else if is_str value "reaction"
          then translate_items tr rest (dict_set "is_reaction" (JBool true) output)
          else translate_items tr rest output
        else if eqs key "children" then
          match value with
          | JList children =>
              match map_e tr children with
              | inl e => inl e
              | inr translated =>
                  translate_items tr rest (dict_set "children" (JList translated) output)
              end
          | JStr EmptyString | JDict [] =>
              translate_items tr rest (dict_set "children" (JList []) output)
          | JStr _ | JDict _ => inl AttributeError
          | _ => inl TypeError
          end
        else translate_items tr rest output
    end.
Proof. reflexivity. Qed.

Lemma translate_items_shape tr (items : list (string * json)) :
  Forall (fun kv => forall l, snd kv = JList l ->
                    Forall (fun c => forall out, tr c = inr out -> legacy out) l) items ->
  forall output final,
    translate_items tr items output = inr final -> well_keyed output -> well_keyed final.
Proof.
  induction 1 as [|[key value] rest Hitem _ IH]; intros output final E Hout.
  - injection E as <-. exact Hout.
  - rewrite translate_items_cons in E.
    destruct (key_map_get key key_map) as [new_key|] eqn:Ek.
    { apply (IH _ _ E). destruct (key_map_targets _ _ Ek) as (Hin & _ & _ & Hc & _).
      apply well_keyed_set; [exact Hout | exact Hin | contradiction]. }
    destruct (eqs key "type").
    { destruct (is_str value "chemical").
      { apply (IH _ _ E). apply well_keyed_set; [exact Hout | apply legacy_key_in; auto|].
        discriminate. }
      destruct (is_str value "reaction"); [|exact (IH _ _ E Hout)].
      apply (IH _ _ E). apply well_keyed_set; [exact Hout | apply legacy_key_in; auto|].
      discriminate. }
    destruct (eqs key "children"); [|exact (IH _ _ E Hout)].
    assert (Hempty : well_keyed (dict_set "children" (JList []) output)).
    { apply well_keyed_set; [exact Hout | apply legacy_key_in; auto|].
      intros _. exists []. split; [reflexivity | constructor]. }
    destruct value as [|b|z|q|text|children|entries]; try discriminate.
    + destruct text; [exact (IH _ _ E Hempty) | discriminate].
    + destruct (map_e tr children) as [e|translated] eqn:Em; [discriminate|].
      apply (IH _ _ E). apply well_keyed_set; [exact Hout | apply legacy_key_in; auto|].
      intros _. exists translated. split; [reflexivity|].
      apply map_e_Forall2 in Em. specialize (Hitem children eq_refl).
      clear -Em Hitem. induction Em as [|c out cs outs Hc _ IHf]; constructor.
      * apply Forall_inv in Hitem. exact (Hitem out Hc).
      * apply IHf. apply Forall_inv_tail in Hitem. exact Hitem.
    + destruct entries; [exact (IH _ _ E Hempty) | discriminate].
Qed.

Lemma translate_json_legacy_both (path : json) :
  (forall out, translate_json path = inr out -> legacy out)
  /\ (forall l, path = JList l ->
        Forall (fun c => forall out, translate_json c = inr out -> legacy out) l).
Proof.
  induction path as [|b|z|q|text|l IH|items IH] using json_nested_ind;
    (split; [|try discriminate]); try discriminate.
  - intros l' [= <-]. apply Forall_forall. intros c Hc.
    exact (proj1 (proj1 (Forall_forall _ _) IH c Hc)).
  - intros out E. cbn [translate_json] in E.
    destruct (translate_items translate_json items []) as [e|output] eqn:Eo; [discriminate|].
    injection E as <-.
    assert (Hgood : well_keyed output).
    { apply (translate_items_shape translate_json items) with (output := []);
        [|exact Eo|].
      - apply Forall_forall. intros kv Hkv l Hl.
        exact (proj2 (proj1 (Forall_forall _ _) IH kv Hkv) l Hl).
      - split; [apply NoDup_nil_2|]. split; [intros k Hk; inversion Hk | discriminate]. }
    destruct (dict_get "children" output) as [v|] eqn:Ec.
    + destruct Hgood as (H1 & H2 & H3). destruct (H3 v Ec) as (children & -> & Hch).
      exact (legacy_node output children H1 H2 Ec Hch).
    + assert (Hgood' : well_keyed (dict_set "children" (JList []) output)).
      { apply well_keyed_set; [exact Hgood | apply legacy_key_in; auto|].
        intros _. exists []. split; [reflexivity | constructor]. }
      destruct Hgood' as (H1 & H2 & _).
      apply (legacy_node _ [] H1 H2); [apply dict_get_set_eq | constructor].
Qed.

(** X21. Whatever [translate_json] returns is a node in the old format:
    a dictionary with distinct keys, all among the thirteen keys of the
    old tree builder, whose [children] is always present and is a list of
    such nodes.  Attributes with other names, such as [terminal], [solved]
    or [visit_count], are dropped; and only a dictionary is translated. *)
Theorem translate_json_gives_legacy_nodes path out :
  translate_json path = inr out ->
  legacy out /\ exists items, path = JDict items.
Proof.
  intros E. split; [exact (proj1 (translate_json_legacy_both path) out E)|].
  destruct path; try discriminate. eauto.
Qed.

Lemma translate_json_gives_legacy_nodes_witness :
  exists out, translate_json sample_tree_data = inr out /\ legacy out.
Proof.
  eexists. split; [vm_compute; reflexivity|].
  apply (translate_json_gives_legacy_nodes sample_tree_data). vm_compute. reflexivity.
Defined.

Lemma translate_items_step tr key value rest output final :
  translate_items tr ((key, value) :: rest) output = inr final ->
  exists mid,
    translate_items tr rest mid = inr final
    /\ ((exists new_key, key_map_get key key_map = Some new_key
                         /\ mid = dict_set new_key value output)
        \/ (key_map_get key key_map = None /\ key = "type"
            /\ is_str value "chemical" = true
            /\ mid = dict_set "is_chemical" (JBool true) output)
        \/ (key_map_get key key_map = None /\ key = "type"
            /\ is_str value "chemical" = false /\ is_str value "reaction" = true
            /\ mid = dict_set "is_reaction" (JBool true) output)
        \/ (key_map_get key key_map = None /\ key = "type"
            /\ is_str value "chemical" = false /\ is_str value "reaction" = false
            /\ mid = output)
        \/ (key_map_get key key_map = None /\ key <> "type" /\ key = "children"
            /\ exists v, mid = dict_set "children" v output)
        \/ (key_map_get key key_map = None /\ key <> "type" /\ key <> "children"
            /\ mid = output)).
Proof.
  rewrite translate_items_cons. intros E.
  destruct (key_map_get key key_map) as [new_key|] eqn:Ek.
  { eexists. split; [exact E|]. left. eauto. }
  destruct (eqs key "type") eqn:Et.
  { apply eqs_true in Et. destruct (is_str value "chemical") eqn:Ec.
    { eexists. split; [exact E|]. right. left. auto. }
    destruct (is_str value "reaction") eqn:Er.
    - eexists. split; [exact E|]. right. right. left. auto.
    - eexists. split; [exact E|]. right. right. right. left. auto. }
  apply eqs_false in Et. destruct (eqs key "children") eqn:Ech.
  - apply eqs_true in Ech.
    assert (Hcase : exists v, translate_items tr rest (dict_set "children" v output)
                              = inr final).
    { destruct value as [|b|z|q|text|children|entries]; try discriminate.
      - destruct text; [eauto | discriminate].
      - destruct (map_e tr children); [discriminate | eauto].
      - destruct entries; [eauto | discriminate]. }
    destruct Hcase as (v & Hv). eexists. split; [exact Hv|].
    right. right. right. right. left. eauto.
  - apply eqs_false in Ech. eexists. split; [exact E|].
    right. right. right. right. right. auto.
Qed.

Lemma dict_get_cons k key value (rest : list (string * json)) :
  dict_get k ((key, value) :: rest) = if eqs key k then Some value else dict_get k rest.
Proof. reflexivity. Qed.

Lemma translate_items_gets tr (items : list (string * json)) :
  forall output final,
    translate_items tr items output = inr final -> NoDup (map fst items) ->
    (forall k k', key_map_get k key_map = Some k' ->
       dict_get k' final = match dict_get k items with
                           | Some v => Some v
                           | None => dict_get k' output
                           end)
    /\ dict_get "is_chemical" final
       = match dict_get "type" items with
         | Some v => if is_str v "chemical" then Some (JBool true)
                     else dict_get "is_chemical" output
         | None => dict_get "is_chemical" output
         end
    /\ dict_get "is_reaction" final
       = match dict_get "type" items with
         | Some v => if is_str v "chemical" then dict_get "is_reaction" output
                     else if is_str v "reaction" then Some (JBool true)
                     else dict_get "is_reaction" output
         | None => dict_get "is_reaction" output
         end.
Proof.
  induction items as [|[key value] rest IH]; intros output final E Hnd.
  - injection E as <-. cbn. auto.
  - cbn [map fst] in Hnd. apply NoDup_cons in Hnd as [Hfresh Hnd].
    apply translate_items_step in E as (mid & E & Hcase).
    destruct (IH mid final E Hnd) as (IH1 & IH2 & IH3). clear IH.
    pose proof (dict_get_absent key rest Hfresh) as Habsent.
    rewrite !dict_get_cons.
    destruct Hcase as [(nk & Hk & ->)|[(Hk & -> & Hc & ->)|[(Hk & -> & Hc & Hr & ->)
                      |[(Hk & -> & Hc & Hr & ->)|[(Hk & Ht & -> & v & ->)
                      |(Hk & Ht & Hch & ->)]]]]].
    + destruct (key_map_targets _ _ Hk) as (_ & Hn1 & Hn2 & _ & Hn4 & _).
      rewrite (proj2 (eqs_false key "type") Hn4).
      rewrite IH2, IH3, !dict_get_set_ne by congruence.
      split; [|split; reflexivity].
      intros k k' Hkk. rewrite dict_get_cons, (IH1 k k' Hkk). destruct (eqs key k) eqn:Ekk.
      * apply eqs_true in Ekk. subst k. rewrite Habsent.
        assert (nk = k') by congruence. subst nk. cbv beta iota. apply dict_get_set_eq.
      * apply eqs_false in Ekk.
        assert (nk <> k').
        { intros ->. apply Ekk. exact (key_map_injective _ _ _ Hk Hkk). }
        rewrite dict_get_set_ne by assumption. reflexivity.
    + rewrite (proj2 (eqs_true "type" "type") eq_refl), Hc.
      rewrite IH2, IH3, Habsent, dict_get_set_eq, dict_get_set_ne by discriminate.
      split; [|split; reflexivity].
      intros k k' Hkk. rewrite dict_get_cons. destruct (key_map_targets _ _ Hkk) as (_ & Hn1 & _ & _ & Hn4 & _).
      rewrite (proj2 (eqs_false "type" k) (fun e => Hn4 (eq_sym e))).
      rewrite (IH1 k k' Hkk), dict_get_set_ne by congruence. reflexivity.
    + rewrite (proj2 (eqs_true "type" "type") eq_refl), Hc, Hr.
      rewrite IH2, IH3, Habsent, dict_get_set_eq, dict_get_set_ne by discriminate.
      split; [|split; reflexivity].
      intros k k' Hkk. rewrite dict_get_cons. destruct (key_map_targets _ _ Hkk) as (_ & _ & Hn2 & _ & Hn4 & _).
      rewrite (proj2 (eqs_false "type" k) (fun e => Hn4 (eq_sym e))).
      rewrite (IH1 k k' Hkk), dict_get_set_ne by congruence. reflexivity.
    + rewrite (proj2 (eqs_true "type" "type") eq_refl), Hc, Hr.
      rewrite IH2, IH3, Habsent.
      split; [|split; reflexivity].
      intros k k' Hkk. rewrite dict_get_cons. destruct (key_map_targets _ _ Hkk) as (_ & _ & _ & _ & Hn4 & _).
      rewrite (proj2 (eqs_false "type" k) (fun e => Hn4 (eq_sym e))).
      exact (IH1 k k' Hkk).
    + rewrite (proj2 (eqs_false "children" "type") ltac:(discriminate)).
      rewrite IH2, IH3, !dict_get_set_ne by discriminate.
      split; [|split; reflexivity].
      intros k k' Hkk. rewrite dict_get_cons. destruct (key_map_targets _ _ Hkk) as (_ & _ & _ & Hn3 & _ & Hn5).
      rewrite (proj2 (eqs_false "children" k) (fun e => Hn5 (eq_sym e))).
      rewrite (IH1 k k' Hkk), dict_get_set_ne by congruence. reflexivity.
    + rewrite (proj2 (eqs_false key "type") Ht). rewrite IH2, IH3.
      split; [|split; reflexivity].
      intros k k' Hkk. rewrite dict_get_cons.
      assert (Hne : key <> k) by (intros ->; congruence).
      rewrite (proj2 (eqs_false key k) Hne). exact (IH1 k k' Hkk).
Qed.

(** X22. On a dictionary [translate_json] keeps the values of the ten
    attributes of its key map, under their new names: [ff_score] becomes
    [plausibility], [purchase_price] becomes [ppg], and the other eight
    keep their names; an attribute that is missing stays missing.  The
    [type] attribute becomes the flag [is_chemical] or [is_reaction], set
    to [True], and any other type leaves no flag. *)
Theorem translate_json_renames_attributes items out :
  NoDup (map fst items) ->
  translate_json (JDict items) = inr (JDict out) ->
  (forall k k', key_map_get k key_map = Some k' -> dict_get k' out = dict_get k items)
  /\ dict_get "plausibility" out = dict_get "ff_score" items
  /\ dict_get "ppg" out = dict_get "purchase_price" items
  /\ dict_get "is_chemical" out
     = match dict_get "type" items with
       | Some v => if is_str v "chemical" then Some (JBool true) else None
       | None => None
       end
  /\ dict_get "is_reaction" out
     = match dict_get "type" items with
       | Some v => if is_str v "reaction" then Some (JBool true) else None
       | None => None
       end.
Proof.
  intros Hnd E. cbn [translate_json] in E.
  destruct (translate_items translate_json items []) as [e|output] eqn:Eo; [discriminate|].
  injection E as <-.
  destruct (translate_items_gets _ _ _ _ Eo Hnd) as (H1 & H2 & H3).
  assert (Hkeep : forall k, k <> "children" ->
            dict_get k match dict_get "children" output with
                       | Some _ => output
                       | None => dict_set "children" (JList []) output
                       end = dict_get k output).
  { intros k Hk. destruct (dict_get "children" output); [reflexivity|].
    apply dict_get_set_ne. congruence. }
  assert (Hall : forall k k', key_map_get k key_map = Some k' ->
            dict_get k' match dict_get "children" output with
                        | Some _ => output
                        | None => dict_set "children" (JList []) output
                        end = dict_get k items).
  { intros k k' Hkk. destruct (key_map_targets _ _ Hkk) as (_ & _ & _ & Hn3 & _).
    rewrite (Hkeep k' Hn3), (H1 k k' Hkk). destruct (dict_get k items); reflexivity. }
  split; [exact Hall|]. split; [apply Hall; reflexivity|]. split; [apply Hall; reflexivity|].
  rewrite !Hkeep by discriminate. rewrite H2, H3. cbn [dict_get].
  split; destruct (dict_get "type" items) as [v|]; try reflexivity.
  destruct (is_str v "chemical") eqn:Ec; [|reflexivity].
  destruct v as [| | | |text| |]; try discriminate. cbn in Ec |- *.
  apply eqs_true in Ec. subst text. reflexivity.
Qed.

Lemma translate_json_renames_attributes_witness :
  exists out,
    translate_json sample_tree_data = inr (JDict out)
    /\ dict_get "plausibility" out = Some (JFloat 1)
    /\ dict_get "is_reaction" out = Some (JBool true)
    /\ dict_get "is_chemical" out = None.
Proof.
  eexists. split; [vm_compute; reflexivity|].
  edestruct (translate_json_renames_attributes
               [("smiles", JStr "B>>T"); ("type", JStr "reaction"); ("ff_score", JFloat 1);
                ("solved", JBool true); ("id", JInt 2);
                ("children",
                 JList [JDict [("smiles", JStr "B"); ("type", JStr "chemical");
                               ("purchase_price", JFloat 1); ("terminal", JBool true);
                               ("id", JInt 3)]])])
    as (_ & Hp & _ & Hc & Hr);
    [|vm_compute; reflexivity|].
  - vm_compute. repeat (apply NoDup_cons; split; [intros Hin; repeat (apply elem_of_cons in Hin as [Hin|Hin]; [discriminate|]); inversion Hin|]). apply NoDup_nil_2.
  - rewrite Hp, Hc, Hr. vm_compute. auto.
Defined.

(** ** Terminal chemicals are never expanded *)

Lemma keeps_marks_refl d : keeps_marks d d.
Proof. destruct d; cbn; auto. Qed.

Lemma keeps_marks_trans d1 d2 d3 : keeps_marks d1 d2 -> keeps_marks d2 d3 -> keeps_marks d1 d3.
Proof.
  destruct d1, d2, d3; cbn; try tauto. intros (H1 & H2 & H3) (H4 & H5 & H6).
  split; [congruence|]. split; [congruence|]. intros Ht Hd. apply H6; [congruence|].
  apply H3; assumption.
Qed.

Lemma marks_kept_refl s : marks_kept s s.
Proof.
  split; [reflexivity|]. intros n. destruct (nodes s !! n); [apply keeps_marks_refl | exact I].
Qed.

Lemma marks_kept_trans s1 s2 s3 : marks_kept s1 s2 -> marks_kept s2 s3 -> marks_kept s1 s3.
Proof.
  intros [He Hn] [He' Hn']. split; [congruence|]. intros n.
  specialize (Hn n). specialize (Hn' n).
  destruct (nodes s1 !! n), (nodes s2 !! n), (nodes s3 !! n); try tauto.
  eapply keeps_marks_trans; eassumption.
Qed.

Lemma marks_kept_set_node s n d d' :
  nodes s !! n = Some d -> keeps_marks d d' -> marks_kept s (set_node n d' s).
Proof.
  intros Hn Hk. split; [reflexivity|]. intros k. cbn.
  destruct (decide (n = k)) as [->|Hne].
  - rewrite lookup_insert_eq, Hn. exact Hk.
  - rewrite lookup_insert_ne by exact Hne.
    destruct (nodes s !! k); [apply keeps_marks_refl | exact I].
Qed.

Lemma unexpanded_terminals_kept s s' :
  marks_kept s s' -> unexpanded_terminals s -> unexpanded_terminals s'.
Proof.
  intros [He Hn] Hu n c' Hc' Ht. specialize (Hn n). rewrite Hc' in Hn.
  destruct (nodes s !! n) as [[c|r]|] eqn:Hc; try contradiction.
  destruct Hn as (H1 & H2 & H3). rewrite H1 in Ht.
  destruct (Hu n c Hc Ht) as (Hd & Hex & Hsucc).
  split; [apply H3; assumption|]. split; [congruence|].
  unfold successors in *. rewrite He. exact Hsucc.
Qed.

Lemma open_chemical_kept s s' x : marks_kept s s' -> open_chemical s x -> open_chemical s' x.
Proof.
  intros [_ Hn] (c & Hc & Ht). specialize (Hn x). rewrite Hc in Hn.
  destruct (nodes s' !! x) as [[c'|r]|] eqn:Hc'; try contradiction.
  destruct Hn as (H1 & _). exists c'. split; [exact Hc' | congruence].
Qed.

Lemma keeps_marks_est_value v d : keeps_marks d (set_est_value v d).
Proof. destruct d; cbn; auto. Qed.

Lemma keeps_marks_solved b d : keeps_marks d (set_solved b d).
Proof. destruct d; cbn; auto. Qed.

Lemma keeps_marks_visit_count n d : keeps_marks d (set_visit_count n d).
Proof. destruct d; cbn; auto. Qed.

Lemma is_chemical_done_update_marks cfg s smiles s' b :
  is_chemical_done_update cfg s smiles = Ok (s', b) -> marks_kept s s'.
Proof.
  intros E. apply is_chemical_done_update_flag in E as (c & Hc & -> & Hb).
  apply (marks_kept_set_node s smiles (Chemical c)); [exact Hc|]. cbn. auto.
Qed.

Lemma _update_value_marks s smiles s' : _update_value s smiles = Ok s' -> marks_kept s s'.
Proof.
  unfold _update_value. intros E. inv_bind E as rxn_data Hr.
  destruct rxn_data as [c|rd]; [injection E as <-; apply marks_kept_refl|].
  inv_bind E as values Hv. inv_bind E as parent Hp. inv_bind E as chem Hc.
  inv_bind E as rxn2 Hr2. inv_bind E as flag Hf. inv_bind E as chem2 Hc2.
  inv_bind E as rxn3 Hr3. injection E as <-.
  apply node_attr_Ok in Hr, Hc, Hc2, Hr3.
  pose proof (marks_kept_set_node s smiles (Reaction rd) _ Hr
                (keeps_marks_est_value (est_value (Reaction rd) + Qsum values)%Q
                                       (Reaction rd))) as S1.
  pose proof (marks_kept_set_node _ parent chem _ Hc
                (keeps_marks_est_value (est_value chem + Qsum values)%Q chem)) as S2.
  pose proof (marks_kept_set_node _ parent chem2 _ Hc2 (keeps_marks_solved flag chem2)) as S3.
  pose proof (marks_kept_set_node _ smiles rxn3 _ Hr3 (keeps_marks_solved flag rxn3)) as S4.
  exact (marks_kept_trans _ _ _ (marks_kept_trans _ _ _ (marks_kept_trans _ _ _ S1 S2) S3)
                          S4).
Qed.

Lemma update_step_marks cfg s item s' : update_step cfg s item = Ok s' -> marks_kept s s'.
Proof.
  unfold update_step. intros E. destruct (fst item) as [[i chem]|]; [|discriminate].
  inv_bind E as d Hd. inv_bind E as c Hc. inv_bind E as r1 Hr1. destruct r1 as [s1 b].
  apply node_attr_Ok in Hd. apply chem_data_Ok in Hc.
  apply is_chemical_done_update_marks in Hr1.
  pose proof (marks_kept_set_node s chem d _ Hd
                (keeps_marks_visit_count (visit_count d + 1) d)) as S1.
  assert (S2 : marks_kept
                 (set_node chem (set_visit_count (visit_count d + 1) d) s)
                 (set_node chem
                    (Chemical (chem_set_min_depth (min_depth_update (min_depth c) i) c))
                    (set_node chem (set_visit_count (visit_count d + 1) d) s))).
  { apply (marks_kept_set_node _ chem (Chemical c)); [exact Hc|]. cbn. auto. }
  assert (Hs1 : marks_kept s s1).
  { exact (marks_kept_trans _ _ _ (marks_kept_trans _ _ _ S1 S2) Hr1). }
  destruct (snd item) as [rxn|]; [|injection E as <-; exact Hs1].
  inv_bind E as r Hr. apply node_attr_Ok in Hr. apply _update_value_marks in E.
  pose proof (marks_kept_set_node _ rxn r _ Hr
                (keeps_marks_visit_count (visit_count r + 1) r)) as S3.
  exact (marks_kept_trans _ _ _ (marks_kept_trans _ _ _ Hs1 S3) E).
Qed.

Lemma _update_marks cfg tgt s chem_path rxn_path s' :
  _update cfg tgt s chem_path rxn_path = Ok s' -> marks_kept s s'.
Proof.
  unfold _update. intros E. destruct chem_path as [|root rest]; [discriminate|].
  destruct (eqs root tgt); [|discriminate].
  revert s E. generalize (zip_longest (combine (range_down (length (root :: rest)))
                                               (rev (root :: rest))) (rev rxn_path)).
  intros items. induction items as [|x items IH]; intros s E; cbn in E.
  - injection E as <-. apply marks_kept_refl.
  - inv_bind E as s1 Hs1. eapply marks_kept_trans; [eapply update_step_marks, Hs1|].
    apply IH, E.
Qed.

Lemma no_successors_iff s n : successors s n = [] <-> forall c, (n, c) ∉ edges s.
Proof.
  split.
  - intros Hs c Hin. apply elem_of_successors in Hin. rewrite Hs in Hin. inversion Hin.
  - intros Hnone. destruct (successors s n) as [|c l] eqn:E0; [reflexivity|].
    exfalso. apply (Hnone c). apply elem_of_successors. rewrite E0. apply list_elem_of_here.
Qed.

Lemma fresh_no_successors s r :
  wf_core s -> (r ∉ chemicals s) -> has_gt r = false -> successors s r = [].
Proof.
  intros [W1 W2 W3 _] Hnot Hg. apply no_successors_iff. intros c Hin.
  destruct (W3 _ _ Hin) as [(Hc & _)|[Hr _]]; [contradiction|].
  destruct (W2 r Hr) as [Hg' _]. congruence.
Qed.

Section TerminalNodes.
Context `{Collaborators}.

Lemma create_chemical_node_marks cfg s smiles s' :
  create_chemical_node cfg s smiles = Ok s' ->
  edges s' = edges s
  /\ exists c, nodes s' = <[smiles := Chemical c]> (nodes s)
               /\ explored c = [] /\ (terminal c = true -> c_done c = true).
Proof.
  intros E. unfold create_chemical_node in E. inv_bind E as pred Hp.
  destruct pred as [probs indices]. inv_bind E as term Ht. inv_bind E as upd Hu.
  destruct upd as [s2 b]. injection E as <-.
  apply is_chemical_done_update_flag in Hu as (c & Hc & -> & Hb).
  cbn in Hc. rewrite lookup_insert_eq in Hc. injection Hc as <-.
  split; [reflexivity|]. eexists. split; [cbn; apply insert_insert_eq|].
  split; [reflexivity | exact Hb].
Qed.

Lemma create_chemical_node_terminals cfg s smiles s' :
  wf_core s -> (smiles ∉ chemicals s) -> has_gt smiles = false ->
  unexpanded_terminals s ->
  create_chemical_node cfg s smiles = Ok s' ->
  unexpanded_terminals s'
  /\ forall x, x ∈ chemicals s -> open_chemical s x -> open_chemical s' x.
Proof.
  intros Hwf Hnot Hg Hu E. pose proof (fresh_no_successors s smiles Hwf Hnot Hg) as Hsucc.
  apply create_chemical_node_marks in E as (He & c & Hn & Hex & Hd). split.
  - intros n c0 Hc0 Ht. rewrite Hn in Hc0. unfold successors. rewrite He.
    destruct (decide (smiles = n)) as [->|Hne].
    + rewrite lookup_insert_eq in Hc0. injection Hc0 as <-. auto.
    + rewrite lookup_insert_ne in Hc0 by exact Hne. exact (Hu n c0 Hc0 Ht).
  - intros x Hx (c0 & Hc0 & Ht). exists c0. split; [|exact Ht].
    rewrite Hn, lookup_insert_ne; [exact Hc0|]. intros ->. contradiction.
Qed.

Lemma scan_reactants_terminals cfg target path (l : list string) :
  forall s s1 b,
    wf_core s -> (forall r, r ∈ l -> has_gt r = false) ->
    unexpanded_terminals s ->
    scan_reactants cfg s target path l = Ok (s1, b) ->
    unexpanded_terminals s1
    /\ forall x, x ∈ chemicals s -> open_chemical s x -> open_chemical s1 x.
Proof.
  induction l as [|reactant rest IH]; intros s s1 b Hwf Hl Hu E; cbn in E.
  - injection E as <- <-. auto.
  - assert (Hrest : forall r, r ∈ rest -> has_gt r = false).
    { intros r Hr. apply Hl, list_elem_of_further, Hr. }
    destruct (in_strs reactant (chemicals s)) eqn:Ein.
    + destruct (in_strs reactant path || has_path s reactant target).
      * injection E as <- <-. auto.
      * exact (IH _ _ _ Hwf Hrest Hu E).
    + inv_bind E as s' Hs'. apply in_strs_false in Ein.
      pose proof (Hl reactant (list_elem_of_here _ _)) as Hg.
      destruct (create_chemical_node_wf cfg s reactant s' Hwf Hg Hs') as (Hwf' & _ & _ & Hc').
      destruct (create_chemical_node_terminals _ _ _ _ Hwf Ein Hg Hu Hs') as [Hu' Hopen'].
      destruct (IH s' s1 b Hwf' Hrest Hu' E) as [Hu1 Hopen1]. split; [exact Hu1|].
      intros x Hx Ho. apply Hopen1; [|exact (Hopen' x Hx Ho)].
      rewrite Hc'. apply elem_of_app. left. exact Hx.
Qed.

Lemma register_reaction_terminals s rs template tscore ff s2 :
  has_gt rs = true -> unexpanded_terminals s ->
  register_reaction s rs template tscore ff = Ok s2 ->
  edges s2 = edges s
  /\ (exists rd, nodes s2 !! rs = Some (Reaction rd))
  /\ unexpanded_terminals s2
  /\ forall x, has_gt x = false -> open_chemical s x -> open_chemical s2 x.
Proof.
  intros Hg Hu E.
  assert (Hgen : forall rd,
            s2 = mkSearch (<[rs := Reaction rd]> (nodes s)) (edges s2) (chemicals s2)
                          (reactions s2) ->
            edges s2 = edges s ->
            edges s2 = edges s
            /\ (exists rd, nodes s2 !! rs = Some (Reaction rd))
            /\ unexpanded_terminals s2
            /\ forall x, has_gt x = false -> open_chemical s x -> open_chemical s2 x).
  { intros rd Hs2 He. assert (Hn : nodes s2 = <[rs := Reaction rd]> (nodes s))
      by (rewrite Hs2; reflexivity).
    split; [exact He|]. split; [exists rd; rewrite Hn; apply lookup_insert_eq|]. split.
    - intros n c Hc Ht. rewrite Hn in Hc. unfold successors. rewrite He.
      destruct (decide (rs = n)) as [->|Hne].
      + rewrite lookup_insert_eq in Hc. discriminate.
      + rewrite lookup_insert_ne in Hc by exact Hne. exact (Hu n c Hc Ht).
    - intros x Hx (c & Hc & Ht). exists c. split; [|exact Ht].
      rewrite Hn, lookup_insert_ne; [exact Hc|]. intros ->. congruence. }
  unfold register_reaction in E. destruct (in_strs rs (reactions s)).
  - inv_bind E as d Hd. destruct d as [c|r]; [discriminate|]. injection E as <-.
    eapply Hgen; reflexivity.
  - injection E as <-. eapply Hgen; reflexivity.
Qed.

Lemma add_edge_terminals u v s :
  unexpanded_terminals s ->
  (forall c, nodes s !! u = Some (Chemical c) -> terminal c = false) ->
  unexpanded_terminals (add_edge u v s).
Proof.
  intros Hu Hopen n c Hc Ht. destruct (add_edge_frame u v s) as (Hn & _).
  rewrite Hn in Hc. destruct (Hu n c Hc Ht) as (Hd & Hex & Hsucc).
  split; [exact Hd|]. split; [exact Hex|]. apply no_successors_iff. intros x Hin.
  apply elem_of_add_edge in Hin as [Hin|Heq].
  - exact (proj1 (no_successors_iff s n) Hsucc x Hin).
  - injection Heq as -> ->. rewrite (Hopen c Hc) in Ht. discriminate.
Qed.

Lemma open_chemical_same_nodes s s' x :
  nodes s' = nodes s -> open_chemical s x -> open_chemical s' x.
Proof. intros Hn (c & Hc & Ht). exists c. rewrite Hn. auto. Qed.

Lemma add_edges_terminals rs (l : list string) :
  forall s,
    unexpanded_terminals s -> (exists rd, nodes s !! rs = Some (Reaction rd)) ->
    unexpanded_terminals (fold_left (fun g reactant => add_edge rs reactant g) l s).
Proof.
  induction l as [|r l IH]; intros s Hu (rd & Hrd); cbn; [exact Hu|].
  apply IH.
  - apply add_edge_terminals; [exact Hu|]. intros c Hc. congruence.
  - exists rd. destruct (add_edge_frame rs r s) as (Hn & _). rewrite Hn. exact Hrd.
Qed.

Lemma process_candidate_terminals cfg leaf template path s l s' :
  wf_search s -> leaf ∈ chemicals s -> open_chemical s leaf -> unexpanded_terminals s ->
  (forall r, r ∈ l -> has_gt r = false) ->
  process_candidate cfg leaf template path s l = Ok s' ->
  unexpanded_terminals s'
  /\ forall x, x ∈ chemicals s -> open_chemical s x -> open_chemical s' x.
Proof.
  intros [Hwf _] Hleaf Hopen Hu Hl E.
  destruct (process_candidate_cases cfg leaf template path s l) as [Hp|Hp];
    rewrite Hp in E; [injection E as <-; auto|].
  inv_bind E as scanned Hscan. destruct scanned as [s1 complete].
  destruct (scan_reactants_wf _ _ _ _ _ _ _ Hwf Hl Hscan) as (Hwf1 & _ & _ & Hmono & _).
  destruct (scan_reactants_terminals _ _ _ _ _ _ _ Hwf Hl Hu Hscan) as [Hu1 Hopen1].
  destruct complete; [|injection E as <-; auto].
  inv_bind E as tdata Htd. inv_bind E as tscore Hts. inv_bind E as s2 Hreg.
  destruct (reaction_string_arrow l leaf) as (pre & Hpre).
  assert (Hg : has_gt (reaction_string l leaf) = true) by (rewrite Hpre; apply has_gt_arrow).
  destruct (register_reaction_terminals _ _ _ _ _ _ Hg Hu1 Hreg)
    as (He2 & Hrd & Hu2 & Hopen2).
  assert (Hkeep : forall x, x ∈ chemicals s -> open_chemical s x -> open_chemical s2 x).
  { intros x Hx Ho.
    apply Hopen2; [exact (proj1 (wf_chem s Hwf x Hx)) | exact (Hopen1 x Hx Ho)]. }
  apply _update_value_marks in E.
  set (s3 := add_edge leaf (reaction_string l leaf) s2).
  assert (Hu3 : unexpanded_terminals s3).
  { apply add_edge_terminals; [exact Hu2|]. intros c Hc.
    destruct (Hkeep leaf Hleaf Hopen) as (c0 & Hc0 & Ht0). congruence. }
  assert (Hrd3 : exists rd, nodes s3 !! reaction_string l leaf = Some (Reaction rd)).
  { destruct (add_edge_frame leaf (reaction_string l leaf) s2) as (Hn & _).
    unfold s3. rewrite Hn. exact Hrd. }
  pose proof (add_edges_terminals (reaction_string l leaf) l s3 Hu3 Hrd3) as Hu4.
  split; [exact (unexpanded_terminals_kept _ _ E Hu4)|].
  intros x Hx Ho. apply (open_chemical_kept _ _ _ E).
  destruct (add_edges_spec (reaction_string l leaf) l s3) as (Hn4 & _).
  apply (open_chemical_same_nodes _ _ _ Hn4).
  destruct (add_edge_frame leaf (reaction_string l leaf) s2) as (Hn3 & _).
  apply (open_chemical_same_nodes _ _ _ Hn3). exact (Hkeep x Hx Ho).
Qed.

Lemma _process_precursors_terminals cfg leaf template path (precursors : list (list string)) :
  forall s s',
    wf_search s -> leaf ∈ chemicals s -> open_chemical s leaf -> unexpanded_terminals s ->
    (forall l, l ∈ precursors -> l <> [] /\ forall r, r ∈ l -> has_gt r = false) ->
    _process_precursors cfg s leaf template precursors path = Ok s' ->
    unexpanded_terminals s'
    /\ forall x, x ∈ chemicals s -> open_chemical s x -> open_chemical s' x.
Proof.
  unfold _process_precursors.
  induction precursors as [|l rest IH]; intros s s' Hwf Hleaf Hopen Hu Hp E; cbn in E.
  - injection E as <-. auto.
  - inv_bind E as s1 Hs1. destruct (Hp l (list_elem_of_here _ _)) as [Hne Hl].
    destruct (process_candidate_wf _ _ _ _ _ _ _ Hwf Hleaf Hne Hl Hs1) as [Hwf1 Hmono].
    destruct (process_candidate_terminals _ _ _ _ _ _ _ Hwf Hleaf Hopen Hu Hl Hs1)
      as [Hu1 Hopen1].
    destruct (IH s1 s' Hwf1 (Hmono _ Hleaf) (Hopen1 _ Hleaf Hopen) Hu1) as [Hu' Hopen'];
      [|exact E|].
    + intros l' Hl'. apply Hp, list_elem_of_further, Hl'.
    + split; [exact Hu'|]. intros x Hx Ho. apply Hopen'; [exact (Hmono _ Hx)|].
      exact (Hopen1 x Hx Ho).
Qed.

Lemma descent_leaf_open s tgt cp rp leaf :
  unexpanded_terminals s -> open_chemical s tgt ->
  descent s tgt cp rp -> last cp = Some leaf -> open_chemical s leaf.
Proof.
  intros Hu Hroot Hd Hlast. destruct Hd as [|cp rp leaf0 task c Hd _ _ _ _ Hdone].
  - injection Hlast as <-. exact Hroot.
  - rewrite last_snoc in Hlast. injection Hlast as <-.
    unfold is_chemical_done in Hdone. inv_bind Hdone as d Hd'. injection Hdone as Hdone.
    apply chem_data_Ok in Hd'. exists d. split; [exact Hd'|].
    destruct (terminal d) eqn:Ht; [|reflexivity].
    destruct (Hu c d Hd' Ht) as (Hdn & _). congruence.
Qed.

Lemma _rollout_terminals fuel cfg tgt s s' :
  precursors_well_formed ->
  wf_search s -> tgt ∈ chemicals s -> open_chemical s tgt -> unexpanded_terminals s ->
  _rollout fuel cfg tgt s = Ok s' ->
  unexpanded_terminals s' /\ open_chemical s' tgt.
Proof.
  intros Hprec Hwf Htgt Hroot Hu E. unfold _rollout in E. inv_bind E as sel Hsel.
  destruct sel as [[chem_path rxn_path] template]. inv_bind E as s1 Hexp.
  apply _update_marks in E.
  assert (Hpath : forall c, c ∈ chem_path -> c ∈ chemicals s).
  { unfold _select in Hsel.
    apply (select_loop_path cfg tgt s fuel [tgt] [] ∅ chem_path rxn_path template
             (proj1 Hwf)); [|exact Hsel].
    intros c Hc. apply list_elem_of_singleton in Hc as ->. exact Htgt. }
  pose proof (select_loop_descent _ _ _ _ _ _ _ _ _ _ (descent_root s tgt) Hsel) as Hd.
  assert (Hboth : unexpanded_terminals s1 /\ open_chemical s1 tgt).
  { unfold _expand in Hexp. destruct (last chem_path) as [leaf|] eqn:Eleaf; [|discriminate].
    pose proof (descent_leaf_open _ _ _ _ _ Hu Hroot Hd Eleaf) as (c & Hc & Ht).
    inv_bind Hexp as data Hdata. apply chem_data_Ok in Hdata.
    rewrite Hc in Hdata. injection Hdata as <-.
    destruct (in_ints template (explored c)); [injection Hexp as <-; auto|].
    set (s0 := set_node leaf (Chemical (chem_set_explored (explored c ++ [template]) c)) s)
      in *.
    pose proof (same_shape_set_node s leaf (Chemical c)
                  (Chemical (chem_set_explored (explored c ++ [template]) c))
                  Hc eq_refl) as Hsh.
    assert (Hu0 : unexpanded_terminals s0).
    { intros n c0 Hc0 Ht0. unfold s0 in Hc0. cbn in Hc0.
      destruct (decide (leaf = n)) as [->|Hne].
      - rewrite lookup_insert_eq in Hc0. injection Hc0 as <-. cbn in Ht0. congruence.
      - rewrite lookup_insert_ne in Hc0 by exact Hne. exact (Hu n c0 Hc0 Ht0). }
    assert (Hopen0 : forall x, open_chemical s x -> open_chemical s0 x).
    { intros x (c0 & Hc0 & Ht0). unfold s0, open_chemical. cbn.
      destruct (decide (leaf = x)) as [->|Hne].
      - rewrite lookup_insert_eq. eexists. split; [reflexivity|]. cbn. exact Ht.
      - rewrite lookup_insert_ne by exact Hne. eauto. }
    assert (Hleaf : leaf ∈ chemicals s) by (apply Hpath, last_elem_of, Eleaf).
    destruct (_process_precursors_terminals _ _ _ _ _ _ _
                (wf_search_same_shape _ _ Hsh Hwf) Hleaf
                (Hopen0 leaf (ex_intro _ c (conj Hc Ht))) Hu0
                (fun l Hl => Hprec leaf template l Hl) Hexp) as [Hu1 Hopen1].
    split; [exact Hu1|]. apply Hopen1; [exact Htgt | exact (Hopen0 tgt Hroot)]. }
  destruct Hboth as [Hu1 Hroot1].
  split; [exact (unexpanded_terminals_kept _ _ E Hu1) | exact (open_chemical_kept _ _ _ E Hroot1)].
Qed.

Lemma expansion_loop_terminals fuel ticks :
  forall start elapsed m m' tgt,
    precursors_well_formed ->
    target m = Some tgt -> wf_search (search m) -> tgt ∈ chemicals (search m) ->
    open_chemical (search m) tgt -> unexpanded_terminals (search m) ->
    expansion_loop fuel ticks start elapsed m = Ok m' ->
    unexpanded_terminals (search m') /\ open_chemical (search m') tgt.
Proof.
  induction ticks as [|now ticks IH];
    intros start elapsed m m' tgt Hprec Ht Hwf Htgt Hroot Hu E; cbn in E.
  - destruct (Qltb elapsed (expansion_time (options m))).
    + inv_bind E as d Hd. destruct d; [|discriminate]. injection E as <-. auto.
    + injection E as <-. auto.
  - destruct (Qltb elapsed (expansion_time (options m))).
    2: { injection E as <-. auto. }
    inv_bind E as d Hd. destruct d; [injection E as <-; auto|].
    inv_bind E as t Htt. unfold the_target in Htt. rewrite Ht in Htt. injection Htt as <-.
    inv_bind E as s1 Hroll.
    destruct (_rollout_wf _ _ _ _ _ Hprec Hwf Htgt Hroll) as [Hwf1 Htgt1].
    destruct (_rollout_terminals _ _ _ _ _ Hprec Hwf Htgt Hroot Hu Hroll) as [Hu1 Hroot1].
    cbn in E. destruct (Qtruthy (time_to_solve m)).
    + apply (IH _ _ _ _ tgt Hprec) in E;
        [exact E | exact Ht | exact Hwf1 | exact Htgt1 | exact Hroot1 | exact Hu1].
    + inv_bind E as root Hrt. destruct (solved root).
      * destruct (return_first (options m)).
        -- injection E as <-. auto.
        -- apply (IH _ _ _ _ tgt Hprec) in E;
             [exact E | exact Ht | exact Hwf1 | exact Htgt1 | exact Hroot1 | exact Hu1].
      * apply (IH _ _ _ _ tgt Hprec) in E;
          [exact E | exact Ht | exact Hwf1 | exact Htgt1 | exact Hroot1 | exact Hu1].
Qed.

End TerminalNodes.

(** X23. In a tree built from a cleared builder a terminal chemical is
    never expanded: it is flagged done, none of its templates is explored
    and no reaction leaves it.  The target is never terminal, because
    [_initialize] clears its flag, so it is the one buyable chemical that
    the search does expand. *)
Theorem terminal_chemicals_are_never_expanded `{Collaborators} fuel ticks m tgt cfg m' :
  precursors_well_formed -> has_gt tgt = false ->
  build_tree fuel ticks (clear m) tgt cfg = Ok m' ->
  (exists c, nodes (search m') !! tgt = Some (Chemical c) /\ terminal c = false)
  /\ forall n c,
       nodes (search m') !! n = Some (Chemical c) -> terminal c = true ->
       n <> tgt /\ c_done c = true /\ explored c = [] /\ successors (search m') n = [].
Proof.
  intros Hprec Hg E.
  assert (Hboth : unexpanded_terminals (search m') /\ open_chemical (search m') tgt).
  { unfold build_tree in E. inv_bind E as m1 Hinit.
    change (mkMCTS (search (clear m)) (target (clear m)) (iterations (clear m))
                   (time_to_solve (clear m)) cfg)
      with (clear (mkMCTS (search m) (target m) (iterations m) (time_to_solve m) cfg))
      in Hinit.
    pose proof (_initialize_frame _ _ _ Hinit)
      as (_ & _ & _ & _ & He & _ & _ & c & Hn & Hterm & _).
    apply (_initialize_wf _ _ _ Hg) in Hinit as (Ht & Hwf & Htgt).
    destruct ticks as [|start [|now ticks]]; try discriminate.
    apply (expansion_loop_terminals _ _ _ _ _ _ tgt Hprec Ht Hwf Htgt) in E; [exact E| |].
    - exists c. split; [rewrite Hn; apply lookup_insert_eq | exact Hterm].
    - intros n c0 Hc0 Ht0. rewrite Hn in Hc0. cbn in Hc0.
      destruct (decide (tgt = n)) as [->|Hne].
      + rewrite lookup_insert_eq in Hc0. injection Hc0 as <-. congruence.
      + rewrite lookup_insert_ne, lookup_empty in Hc0 by exact Hne. discriminate. }
  destruct Hboth as [Hu (c & Hc & Ht)]. split; [eauto|].
  intros n c0 Hc0 Ht0. split; [|exact (Hu n c0 Hc0 Ht0)].
  intros ->. rewrite Hc in Hc0. injection Hc0 as <-. congruence.
Qed.

Lemma terminal_chemicals_are_never_expanded_witness :
  exists c,
    nodes (search Fixtures.market_tree) !! "B" = Some (Chemical c)
    /\ terminal c = true /\ c_done c = true /\ explored c = []
    /\ successors (search Fixtures.market_tree) "B" = [].
Proof.
  eexists. split; [vm_compute; reflexivity|]. split; [reflexivity|].
  edestruct (terminal_chemicals_are_never_expanded (H := Fixtures.market_world) 20
               Fixtures.ticks (new_mcts default_options) "T" (Fixtures.budget 2)
               Fixtures.market_tree) as [_ Hall].
  - intros smiles template l Hl. unfold _get_precursors in Hl. cbn in Hl.
    unfold Fixtures.market_precursors in Hl.
    repeat match type of Hl with
           | _ ∈ (if ?b then _ else _) => destruct b
           end;
      try (inversion Hl; fail);
      apply list_elem_of_singleton in Hl as ->;
      (split; [discriminate|]);
      intros r Hr; repeat (apply elem_of_cons in Hr as [->|Hr]; [reflexivity|]);
      inversion Hr.
  - reflexivity.
  - vm_compute. reflexivity.
  - destruct (Hall "B" _ ltac:(vm_compute; reflexivity) eq_refl) as (_ & H1 & H2 & H3).
    auto.
Defined.

(** ** Visit counts *)

Lemma visits_set_node s n d k :
  visits (set_node n d s) k = if decide (n = k) then Some (visit_count d) else visits s k.
Proof.
  unfold visits. cbn. destruct (decide (n = k)) as [->|Hne].
  - rewrite lookup_insert_eq. reflexivity.
  - rewrite lookup_insert_ne by exact Hne. reflexivity.
Qed.

Lemma visits_set_same s n d0 d :
  nodes s !! n = Some d0 -> visit_count d = visit_count d0 ->
  forall k, visits (set_node n d s) k = visits s k.
Proof.
  intros Hn Hv k. rewrite visits_set_node. destruct (decide (n = k)) as [->|Hne];
    [|reflexivity].
  unfold visits. rewrite Hn. cbn. rewrite Hv. reflexivity.
Qed.

Lemma visits_set_bump s n d0 :
  nodes s !! n = Some d0 ->
  forall k, visits (set_node n (set_visit_count (visit_count d0 + 1) d0) s) k
            = (fun v => v + (if eqs k n then 1 else 0)) <$> visits s k.
Proof.
  intros Hn k. rewrite visits_set_node. destruct (decide (n = k)) as [->|Hne].
  - unfold visits. rewrite Hn. cbn. rewrite (proj2 (eqs_true k k) eq_refl).
    destruct d0; reflexivity.
  - rewrite (proj2 (eqs_false k n) (fun e => Hne (eq_sym e))).
    destruct (visits s k) as [v|]; cbn; [rewrite Z.add_0_r|]; reflexivity.
Qed.

Lemma visit_count_set_est_value v d : visit_count (set_est_value v d) = visit_count d.
Proof. destruct d; reflexivity. Qed.

Lemma visit_count_set_solved b d : visit_count (set_solved b d) = visit_count d.
Proof. destruct d; reflexivity. Qed.

Lemma is_chemical_done_update_visits cfg s smiles s' b :
  is_chemical_done_update cfg s smiles = Ok (s', b) -> forall k, visits s' k = visits s k.
Proof.
  intros E k. apply is_chemical_done_update_flag in E as (c & Hc & -> & _).
  exact (visits_set_same s smiles (Chemical c) (Chemical (chem_set_done b c)) Hc eq_refl k).
Qed.

Lemma _update_value_visits s smiles s' :
  _update_value s smiles = Ok s' -> forall k, visits s' k = visits s k.
Proof.
  unfold _update_value. intros E k. inv_bind E as rxn_data Hr.
  destruct rxn_data as [c|rd]; [injection E as <-; reflexivity|].
  inv_bind E as values Hv. inv_bind E as parent Hp. inv_bind E as chem Hc.
  inv_bind E as rxn2 Hr2. inv_bind E as flag Hf. inv_bind E as chem2 Hc2.
  inv_bind E as rxn3 Hr3. injection E as <-.
  apply node_attr_Ok in Hr, Hc, Hc2, Hr3.
  rewrite (visits_set_same _ smiles rxn3 _ Hr3 (visit_count_set_solved flag rxn3)).
  rewrite (visits_set_same _ parent chem2 _ Hc2 (visit_count_set_solved flag chem2)).
  rewrite (visits_set_same _ parent chem _ Hc
             (visit_count_set_est_value (est_value chem + Qsum values)%Q chem)).
  exact (visits_set_same s smiles (Reaction rd) _ Hr
           (visit_count_set_est_value (est_value (Reaction rd) + Qsum values)%Q
                                      (Reaction rd)) k).
Qed.

Lemma update_step_visits cfg s i chem rxn s' :
  update_step cfg s (Some (i, chem), rxn) = Ok s' ->
  forall k, visits s' k
            = (fun v => v + (if eqs k chem then 1 else 0)
                        + match rxn with
                          | Some r => if eqs k r then 1 else 0
                          | None => 0
                          end) <$> visits s k.
Proof.
  unfold update_step. cbn [fst snd]. intros E k.
  inv_bind E as d Hd. inv_bind E as c Hc. inv_bind E as r1 Hr1. destruct r1 as [s1 b].
  apply node_attr_Ok in Hd. apply chem_data_Ok in Hc.
  assert (H1 : visits s1 k = (fun v => v + (if eqs k chem then 1 else 0)) <$> visits s k).
  { rewrite (is_chemical_done_update_visits _ _ _ _ _ Hr1 k).
    rewrite (visits_set_same _ chem (Chemical c)
               (Chemical (chem_set_min_depth (min_depth_update (min_depth c) i) c))
               Hc eq_refl k).
    exact (visits_set_bump s chem d Hd k). }
  destruct rxn as [r|].
  - inv_bind E as rd Hrd. apply node_attr_Ok in Hrd.
    rewrite (_update_value_visits _ _ _ E k), (visits_set_bump s1 r rd Hrd k), H1.
    destruct (visits s k); reflexivity.
  - injection E as <-. rewrite H1. destruct (visits s k) as [v|]; cbn; [|reflexivity].
    rewrite Z.add_0_r. reflexivity.
Qed.

Lemma occurrences_cons n x l :
  occurrences n (x :: l) = (if eqs n x then 1 else 0) + occurrences n l.
Proof.
  unfold occurrences, len. cbn [List.filter]. destruct (eqs n x); cbn [length]; lia.
Qed.

Lemma occurrences_rev n l : occurrences n (rev l) = occurrences n l.
Proof.
  unfold occurrences, len. induction l as [|x l IH]; [reflexivity|].
  cbn [rev List.filter]. rewrite List.filter_app, length_app. cbn [List.filter].
  destruct (eqs n x); cbn [length]; lia.
Qed.

Lemma fold_update_visits cfg (A : list (Z * string)) :
  forall (B : list string) s s',
    fold_m (update_step cfg) s (zip_longest A B) = Ok s' ->
    forall k, visits s' k
              = (fun v => v + occurrences k (map snd A) + occurrences k B) <$> visits s k.
Proof.
  induction A as [|[i chem] A IH]; intros B s s' E k.
  - destruct B as [|y B]; cbn in E; [|discriminate]. injection E as <-.
    destruct (visits s k) as [v|]; cbn; [|reflexivity].
    change (occurrences k []) with 0. rewrite !Z.add_0_r. reflexivity.
  - destruct B as [|y B]; cbn [zip_longest fold_m] in E; inv_bind E as s1 Hs1.
    + rewrite (IH [] s1 s' E k), (update_step_visits _ _ _ _ _ _ Hs1 k).
      cbn [map snd]. rewrite occurrences_cons.
      destruct (visits s k) as [v|]; cbn; [|reflexivity]. f_equal.
      change (occurrences k []) with 0. lia.
    + rewrite (IH B s1 s' E k), (update_step_visits _ _ _ _ _ _ Hs1 k).
      cbn [map snd]. rewrite !occurrences_cons.
      destruct (visits s k) as [v|]; cbn; [|reflexivity]. f_equal. lia.
Qed.

Lemma map_snd_combine {A B} (b : list B) :
  forall a : list A, length a = length b -> map snd (combine a b) = b.
Proof.
  induction b as [|y b IH]; intros [|x a] Hlen; try discriminate; [reflexivity|].
  cbn. rewrite IH; [reflexivity | cbn in Hlen; lia].
Qed.

Lemma length_range_down n : length (range_down n) = n.
Proof. induction n as [|n IH]; cbn; [reflexivity | rewrite IH; reflexivity]. Qed.

(** X24. [_update] adds to the visit count of every node the number of
    times it occurs on the chemical path and on the reaction path, and
    touches no other visit count: a rollout counts one visit for each
    chemical and each reaction that it passed through.  The chemical path
    of a successful update is not empty, starts at the target, and is
    at least as long as the reaction path. *)
Theorem update_counts_one_visit_per_occurrence cfg tgt s chem_path rxn_path s' :
  _update cfg tgt s chem_path rxn_path = Ok s' ->
  head chem_path = Some tgt
  /\ forall n,
       visits s' n
       = (fun v => v + occurrences n chem_path + occurrences n rxn_path) <$> visits s n.
Proof.
  unfold _update. intros E. destruct chem_path as [|root rest]; [discriminate|].
  destruct (eqs root tgt) eqn:Er; [|discriminate]. apply eqs_true in Er. subst root.
  split; [reflexivity|]. intros n.
  rewrite (fold_update_visits _ _ _ _ _ E n), map_snd_combine, !occurrences_rev;
    [reflexivity|].
  rewrite length_range_down, length_rev. reflexivity.
Qed.

Lemma update_counts_one_visit_per_occurrence_witness :
  exists s',
    _update (Fixtures.budget 6) "T" (search Fixtures.six_tree) ["T"; "Y"] ["X.Y>>T"] = Ok s'
    /\ visits s' "T" = (fun v => v + 1) <$> visits (search Fixtures.six_tree) "T"
    /\ visits s' "X" = visits (search Fixtures.six_tree) "X".
Proof.
  eexists. split; [vm_compute; reflexivity|].
  edestruct (update_counts_one_visit_per_occurrence (Fixtures.budget 6) "T"
               (search Fixtures.six_tree) ["T"; "Y"] ["X.Y>>T"]) as [_ Hv];
    [vm_compute; reflexivity|].
  split; [rewrite (Hv "T") | rewrite (Hv "X")]; vm_compute; reflexivity.
Defined.
